(** * PivotScale: pivoting-based k-clique counting

    A shallow embedding of PivotScale (combination cache, grouped
    stack, graph builder, ordering / directionalization, backtracking
    subgraph, the two pivoted counters and their drivers) together
    with the properties stated about it.

    Conventions of the embedding.
    - [NodeID] vertex ids and vector indices are [nat]; the signed
      arithmetic of the counter ([max_k], [clique_size], ...) is done in [Z].
    - [count_t] is an unsigned [w]-bit integer, a [Z] in [0, 2^w) whose
      wrap-around is written out with [wrap].
    - A [std::vector] is a [list]; a read outside the vector is undefined
      behaviour in the source and yields the type's default value here,
      except where a property is about the bounds themselves (there the
      read returns [option]).
    - The OpenMP loops are embedded sequentially (one thread). *)

From Stdlib Require Import ZArith Lia.
From stdpp Require Import base list gmap numbers sorting.

Local Open Scope Z_scope.

(** ** comb_cache.h *)

Module CombCache.

(** Reduction of an integer into the unsigned [w]-bit type [T_]. *)
Definition wrap (w : Z) (x : Z) : Z := x mod 2 ^ w.

Definition kNumPrecompute : nat := 100.

(** [for (T_ i=1; i <= k; i++) result = result * (n - (k - i)) / i;]
    The loop runs over [i = 1 .. k]; every operation is done in [T_]. *)
Definition compute_step (w n k : Z) (result : Z) (i : Z) : Z :=
  wrap w (result * wrap w (n - wrap w (k - i))) / i.

Definition compute (w : Z) (n k : Z) : Z :=
  if k >? n then 0
  else if (k =? 0) || (k =? n) then 1
  else
    let k := Z.min k (wrap w (n - k)) in
    foldl (compute_step w n k) 1 (map Z.of_nat (seq 1 (Z.to_nat k))).

(** The table [memo]: [kNumPrecompute] rows of [kNumPrecompute] entries.
    [n_choose_k] is a global object, so the array starts zeroed. *)
Definition memo_t : Type := list (list Z).

Definition memo_zero : memo_t :=
  replicate kNumPrecompute (replicate kNumPrecompute 0).

Definition memo_get (memo : memo_t) (n k : nat) : Z := (memo !!! n) !!! k.

Definition memo_set (memo : memo_t) (n k : nat) (v : Z) : memo_t :=
  <[n := <[k := v]> (memo !!! n)]> memo.

(** Body of the inner loop of the constructor. *)
Definition fill_entry (w : Z) (n : nat) (memo : memo_t) (k : nat) : memo_t :=
  if (k =? 0)%nat || (k =? n)%nat then memo_set memo n k 1
  else memo_set memo n k
         (wrap w (memo_get memo (n - 1) (k - 1) + memo_get memo (n - 1) k)).

Definition fill_row (w : Z) (memo : memo_t) (n : nat) : memo_t :=
  foldl (fill_entry w n) memo (seq 0 (S n)).

(** [CombCache()] *)
Definition construct (w : Z) : memo_t :=
  foldl (fill_row w) memo_zero (seq 0 kNumPrecompute).

(** [operator()(int n, int k)].  A negative [n] or [k] below the
    table bound indexes [memo] out of range (undefined behaviour); the
    embedding returns 0 there and nothing below relies on it. *)
Definition call (w : Z) (memo : memo_t) (n k : Z) : Z :=
  if (n <? Z.of_nat kNumPrecompute) && (k <? Z.of_nat kNumPrecompute) then
    if (0 <=? n) && (0 <=? k) then memo_get memo (Z.to_nat n) (Z.to_nat k)
    else 0
  else compute w (wrap w n) (wrap w k).

(** Reference binomial coefficient, by Pascal's rule on [nat]. *)
Fixpoint binom (n k : nat) : Z :=
  match k, n with
  | O, _ => 1
  | S _, O => 0
  | S k', S n' => binom n' k' + binom n' k
  end.

(** A row-by-row Pascal triangle, used to evaluate [binom] quickly. *)
Definition pascal_next (row : list Z) : list Z :=
  zip_with Z.add (0 :: row) (row ++ [0]).

Fixpoint pascal_row (n : nat) : list Z :=
  match n with
  | O => [1]
  | S n' => pascal_next (pascal_row n')
  end.

(** The table against the Pascal triangle, entry by entry. *)
Definition table_ok_in (w : Z) (memo : memo_t) : bool :=
  forallb (λ n,
    let row := pascal_row n in
    forallb (λ k, memo_get memo n k =? wrap w (row !!! k))
            (seq 0 (S n)))
    (seq 0 kNumPrecompute).

Definition table_ok (w : Z) : bool := table_ok_in w (construct w).

(** Entries above the diagonal stay zero. *)
Definition table_upper_zero_in (memo : memo_t) : bool :=
  forallb (λ n, forallb (λ k, memo_get memo n k =? 0)
                        (seq (S n) (kNumPrecompute - S n)))
          (seq 0 kNumPrecompute).

Definition table_upper_zero (w : Z) : bool :=
  table_upper_zero_in (construct w).

End CombCache.

(** ** graph.h (interface only) *)

(** Modelled from the spec: graph.h, the CSR container, is not among the
    sources.  Its interface is [num_nodes], [num_edges_directed],
    [out_degree u] and [out_neigh u], the stored neighbour list of [u];
    a graph is the list of these neighbour lists. *)
Definition Graph : Type := list (list nat).

Definition num_nodes (g : Graph) : nat := length g.
Definition out_neigh (g : Graph) (u : nat) : list nat := g !!! u.
Definition out_degree (g : Graph) (u : nat) : nat := length (out_neigh g u).
Definition num_edges_directed (g : Graph) : nat := sum_list (map length g).

(** ** grouped_stack.h *)

Module GroupedStack.

Record t (T : Type) : Type := mk { elems_ : list T; starts_ : list nat }.
Arguments mk {T} _ _.
Arguments elems_ {T} _.
Arguments starts_ {T} _.

Section Ops.
Context {T : Type}.

Definition empty : t T := mk [] [].

(** [reserve] only changes the capacity. *)
Definition reserve (num_elems : nat) (s : t T) : t T := s.

Definition create_new_frame (s : t T) : t T :=
  mk (elems_ s) (starts_ s ++ [length (elems_ s)]).

Definition push_back (new_elem : T) (s : t T) : t T :=
  mk (elems_ s ++ [new_elem]) (starts_ s).

(** [starts_.back()] of an empty vector is undefined; 0 here. *)
Definition back (s : t T) : nat := List.last (starts_ s) 0%nat.

Definition last_frame_iter (s : t T) : list T := drop (back s) (elems_ s).

(** [elems_.resize(new_size)] only ever shrinks: a recorded start is
    never beyond the current size. *)
Definition pop_frame (s : t T) : t T :=
  mk (take (back s) (elems_ s)) (removelast (starts_ s)).

Definition clear (s : t T) : t T := mk [] [].
End Ops.

End GroupedStack.

(** ** subgraph.h *)

Module SubGraph.

Record t : Type := mk {
  active_ : list bool;
  active_list_ : list nat;
  adj_list_ : list (list nat);
  active_tails_ : list nat;
  dropped_verts_ : GroupedStack.t nat;
  pivot_non_neighs_ : GroupedStack.t nat
}.

(** [SubGraph()] *)
Definition init : t :=
  mk [] [] [] [] GroupedStack.empty GroupedStack.empty.

Definition set_active (sg : t) (a : list bool) : t :=
  mk a (active_list_ sg) (adj_list_ sg) (active_tails_ sg)
     (dropped_verts_ sg) (pivot_non_neighs_ sg).

(** [adj[i].push_back(x)] *)
Definition adj_push (adj : list (list nat)) (i x : nat) : list (list nat) :=
  <[i := (adj !!! i) ++ [x]]> adj.

(** First loop of [InduceFromDAG]: number the out-neighbours of [u].
    [emplace_unique] is an insertion; the keys met are distinct when
    the neighbour list has no duplicates. *)
Definition remap_step
    (st : gmap nat nat * list bool * list nat * list (list nat)) (v : nat)
    : gmap nat nat * list bool * list nat * list (list nat) :=
  let '(remapper, active, active_list, adj) := st in
  let v_r := size remapper in
  (<[v := v_r]> remapper, <[v_r := true]> active, active_list ++ [v_r],
   <[v_r := []]> adj).

(** Second loop of [InduceFromDAG], inner and outer body. *)
Definition build_inner (remapper : gmap nat nat) (v_r : nat)
    (adj : list (list nat)) (w : nat) : list (list nat) :=
  match remapper !! w with
  | Some w_r => adj_push (adj_push adj v_r w_r) w_r v_r
  | None => adj
  end.

Definition build_outer (dag : Graph) (remapper : gmap nat nat)
    (adj : list (list nat)) (v : nat) : list (list nat) :=
  let v_r := default 0%nat (remapper !! v) in
  foldl (build_inner remapper v_r) adj (out_neigh dag v).

Definition InduceFromDAG (sg : t) (dag : Graph) (u : nat) : t :=
  let num_orig_nodes := out_degree dag u in
  let active0 := replicate num_orig_nodes false in
  let adj0 := resize num_orig_nodes [] (adj_list_ sg) in
  let tails0 := resize num_orig_nodes 0%nat (active_tails_ sg) in
  let '(remapper, active1, active_list1, adj1) :=
    foldl remap_step (∅, active0, [], adj0) (out_neigh dag u) in
  let adj2 : list (list nat) :=
    foldl (build_outer dag remapper) adj1 (out_neigh dag u) in
  let tails1 :=
    foldl (λ (tails : list nat) (v_r : nat),
             <[v_r := length (adj2 !!! v_r)]> tails)
          tails0 active_list1 in
  mk active1 active_list1 adj2 tails1
     (GroupedStack.clear (dropped_verts_ sg))
     (GroupedStack.reserve num_orig_nodes
        (GroupedStack.clear (pivot_non_neighs_ sg))).

Definition NumActive (sg : t) : nat := length (active_list_ sg).

Definition Neighs (sg : t) (u_r : nat) : list nat :=
  take (active_tails_ sg !!! u_r) (adj_list_ sg !!! u_r).

(** [FindPivot]; the assertion [NumActive() > 0] is the caller's duty. *)
Definition FindPivot (sg : t) : nat :=
  foldl (λ max_v_r n_r,
           if (active_tails_ sg !!! max_v_r <? active_tails_ sg !!! n_r)%nat
           then n_r else max_v_r)
        (active_list_ sg !!! 0%nat) (active_list_ sg).

Definition clear_all (active : list bool) (l : list nat) : list bool :=
  foldl (λ (a : list bool) (n : nat), <[n := false]> a) active l.

Definition set_all (active : list bool) (l : list nat) : list bool :=
  foldl (λ (a : list bool) (n : nat), <[n := true]> a) active l.

(** Second loop of [ActiveUnreachableFromPivot]. *)
Definition unreachable_step (st : list bool * GroupedStack.t nat) (n_r : nat)
    : list bool * GroupedStack.t nat :=
  let '(active, pnn) := st in
  if (active !!! n_r : bool) then (active, GroupedStack.push_back n_r pnn)
  else (<[n_r := true]> active, pnn).

Definition ActiveUnreachableFromPivot (sg : t) (u_r : nat) : t * list nat :=
  let pnn0 := GroupedStack.create_new_frame (pivot_non_neighs_ sg) in
  let active0 := clear_all (active_ sg) (Neighs sg u_r) in
  let '(active1, pnn1) :=
    foldl unreachable_step (active0, pnn0) (active_list_ sg) in
  (mk active1 (active_list_ sg) (adj_list_ sg) (active_tails_ sg)
      (dropped_verts_ sg) pnn1,
   GroupedStack.last_frame_iter pnn1).

(** [std::swap(row[i], row[j])] *)
Definition swap {A} `{Inhabited A} (l : list A) (i j : nat) : list A :=
  <[j := l !!! i]> (<[i := l !!! j]> l).

(** The inner [while] of [InduceFromSelfMutate]: move [new_tail] left
    past inactive entries, never below [j]. *)
Fixpoint scan_tail (active : list bool) (row : list nat) (j new_tail : nat)
    : nat :=
  match new_tail with
  | O => O
  | S nt' =>
      if (j <? new_tail)%nat && negb (active !!! (row !!! new_tail))
      then scan_tail active row j nt'
      else new_tail
  end.

(** The [for j] loop over one neighbour list; [fuel] bounds the number
    of iterations ([tail - j] decreases). *)
Fixpoint compact_loop (fuel : nat) (active : list bool) (j : nat)
    (row : list nat) (tail : nat) : list nat * nat :=
  match fuel with
  | O => (row, tail)
  | S fuel' =>
      if (j <? tail)%nat then
        let v_r := row !!! j in
        if negb (active !!! v_r) then
          let new_tail := scan_tail active row j (tail - 1) in
          let row' := if (j <? new_tail)%nat then swap row j new_tail
                      else row in
          compact_loop fuel' active (S j) row' new_tail
        else compact_loop fuel' active (S j) row tail
      else (row, tail)
  end.

Definition compact (sg : t) (n_r : nat) : t :=
  let '(row, tail) :=
    compact_loop (active_tails_ sg !!! n_r) (active_ sg) 0
                 (adj_list_ sg !!! n_r) (active_tails_ sg !!! n_r) in
  mk (active_ sg) (active_list_ sg) (<[n_r := row]> (adj_list_ sg))
     (<[n_r := tail]> (active_tails_ sg))
     (dropped_verts_ sg) (pivot_non_neighs_ sg).

(** The [else] branch: swap entry [i] with the back, pop it, record it. *)
Definition drop_at (sg : t) (i n_r : nat) : t :=
  let l := active_list_ sg in
  mk (active_ sg) (removelast (swap l i (length l - 1)))
     (adj_list_ sg) (active_tails_ sg)
     (GroupedStack.push_back n_r (dropped_verts_ sg))
     (pivot_non_neighs_ sg).

(** The [for i] loop; an iteration either advances [i] or shortens
    [active_list_], so [length active_list_ - i] iterations suffice. *)
Fixpoint induce_loop (fuel : nat) (i : nat) (sg : t) : t :=
  match fuel with
  | O => sg
  | S fuel' =>
      if (i <? length (active_list_ sg))%nat then
        let n_r := active_list_ sg !!! i in
        if (active_ sg !!! n_r : bool) then induce_loop fuel' (S i) (compact sg n_r)
        else induce_loop fuel' i (drop_at sg i n_r)
      else sg
  end.

Definition exclude (u_r : nat) (active : list bool) (excl : list nat)
    : list bool :=
  foldl (λ (a : list bool) (n_r : nat),
           if (n_r <? u_r)%nat then <[n_r := false]> a else a)
        active excl.

Definition InduceFromSelfMutate (sg : t) (u_r : nat) (excl : list nat) : t :=
  let a1 := clear_all (active_ sg) (active_list_ sg) in
  let a2 := set_all a1 (Neighs sg u_r) in
  let a3 := exclude u_r a2 excl in
  let sg1 :=
    mk a3 (active_list_ sg) (adj_list_ sg) (active_tails_ sg)
       (GroupedStack.create_new_frame (dropped_verts_ sg))
       (pivot_non_neighs_ sg) in
  induce_loop (length (active_list_ sg)) 0 sg1.

(** The [while] of [UndoSelfMutate]; [rest] is the part of the
    neighbour list from [new_tail] on. *)
Fixpoint extend_tail (active : list bool) (rest : list nat) (new_tail : nat)
    : nat :=
  match rest with
  | [] => new_tail
  | tail_v_r :: rest' =>
      if (active !!! tail_v_r : bool) then extend_tail active rest' (S new_tail)
      else new_tail
  end.

Definition undo_step (active : list bool) (adj : list (list nat))
    (tails : list nat) (u_r : nat) : list nat :=
  let new_tail := tails !!! u_r in
  <[u_r := extend_tail active (drop new_tail (adj !!! u_r)) new_tail]> tails.

Definition UndoSelfMutate (sg : t) : t :=
  let frame := GroupedStack.last_frame_iter (dropped_verts_ sg) in
  let active1 := set_all (active_ sg) frame in
  let active_list1 := active_list_ sg ++ frame in
  let tails1 :=
    foldl (undo_step active1 (adj_list_ sg)) (active_tails_ sg)
          active_list1 in
  mk active1 active_list1 (adj_list_ sg) tails1
     (GroupedStack.pop_frame (dropped_verts_ sg))
     (pivot_non_neighs_ sg).

Definition PopNonNeighbors (sg : t) : t :=
  mk (active_ sg) (active_list_ sg) (adj_list_ sg) (active_tails_ sg)
     (dropped_verts_ sg) (GroupedStack.pop_frame (pivot_non_neighs_ sg)).

End SubGraph.

(** ** builder.h *)

Module Builder.

(** [PrefixSum]: exclusive running sums, with the total appended. *)
Definition PrefixSum (degrees : list nat) : list nat :=
  let '(sums, total) :=
    foldl (λ '(sums, total) d, (sums ++ [total], (total + d)%nat))
          ([], 0%nat) degrees in
  sums ++ [total].

Definition GreaterDegreeOrID (g : Graph) (u v : nat) : bool :=
  (out_degree g u <? out_degree g v)%nat
  || ((out_degree g v =? out_degree g u)%nat && (u <? v)%nat).

(** First pass of [DirectGraphByFunc]: the future out-degrees. *)
Definition new_degrees (g : Graph) (filter : nat → nat → bool) : list nat :=
  map (λ u, foldl (λ c v, if filter u v then S c else c) 0%nat
                  (out_neigh g u))
      (seq 0 (num_nodes g)).

(** Second pass: the kept neighbours of [u], in the order met, then
    [std::sort] on ids. *)
Definition kept (g : Graph) (filter : nat → nat → bool) (u : nat) : list nat :=
  foldl (λ row v, if filter u v then row ++ [v] else row) []
        (out_neigh g u).

Definition sort_ids (l : list nat) : list nat := merge_sort Nat.le l.

Definition DirectGraphByFunc (g : Graph) (filter : nat → nat → bool)
    : Graph :=
  map (λ u, sort_ids (kept g filter u)) (seq 0 (num_nodes g)).

Definition compare_rankings (g : Graph) (ranking : list Z) (u v : nat)
    : bool :=
  (ranking !!! u <? ranking !!! v)
  || ((ranking !!! u =? ranking !!! v) && GreaterDegreeOrID g u v).

Definition DirectGraphCore (g : Graph) (ranking : list Z) : Graph :=
  DirectGraphByFunc g (compare_rankings g ranking).

Definition DirectGraphDegree (g : Graph) : Graph :=
  DirectGraphByFunc g (GreaterDegreeOrID g).

End Builder.

(** ** ordering.h *)

Module Ordering.

Definition FindMaxDegree (g : Graph) : nat :=
  foldl (λ max_seen n, Nat.max max_seen (out_degree g n)) 0%nat
        (seq 0 (num_nodes g)).

(** [std::ranges::max(range, compare_by_degree)]: the leftmost element
    of greatest degree; the call on an empty range is undefined. *)
Definition max_by_degree (g : Graph) (range : list nat) : option nat :=
  match range with
  | [] => None
  | x :: rest =>
      Some (foldl (λ best y,
                     if (out_degree g best <? out_degree g y)%nat
                     then y else best) x rest)
  end.

(** [while ( *it < w) it++;] over the part [rest] of the list that
    starts at [it]; [None] is a dereference of the end iterator. *)
Fixpoint advance (rest : list nat) (it : nat) (w : nat) : option nat :=
  match rest with
  | [] => None
  | x :: rest' => if (x <? w)%nat then advance rest' (S it) w else Some it
  end.

(** One round of the [for (NodeID w : ...)] loop over the state
    [(it, intersection_size)]. *)
Definition scan_step (row : list nat) (st : option (nat * nat)) (w : nat)
    : option (nat * nat) :=
  '(it, intersection_size) ← st;
  it' ← advance (drop it row) it w;
  x ← row !! it';
  Some (it', if (w =? x)%nat then S intersection_size
             else intersection_size).

Definition intersection_scan (g : Graph) (biggest_id biggest_neigh : nat)
    : option nat :=
  snd <$> foldl (scan_step (out_neigh g biggest_id)) (Some (0%nat, 0%nat))
                (out_neigh g biggest_neigh).

(** [CoreIsAdvantageous].  The two quotients are compared in [double]
    in the source; for operands below [2^31] the comparisons
    [x / y > 0.0015] and [x / y > 0.1] agree with the integer
    comparisons below.  [None]: an undefined call or dereference. *)
Definition CoreIsAdvantageous (g : Graph) : option bool :=
  biggest_id ← max_by_degree g (seq 0 (num_nodes g));
  biggest_neigh ← max_by_degree g (out_neigh g biggest_id);
  intersection_size ← intersection_scan g biggest_id biggest_neigh;
  let n := Z.of_nat (num_nodes g) in
  let d := Z.of_nat (out_degree g biggest_neigh) in
  Some ((1000000 <? n)
        && ((3 * n <? 2000 * d)
            || (d <? 10 * Z.of_nat intersection_size))).

(** State of the peeling loop of [CoreApprox], one thread. *)
Record core_state : Type := mk_core {
  rankings : list Z;
  curr_degree : list Z;
  active_degree_total : Z;
  num_remaining : nat;
  level : Z;
  remaining : list nat
}.

(** [curr_degree[v]--; local_edges_removed++] for the neighbours [v]
    of a removed vertex selected by [still]. *)
Definition detach (still : nat → bool) (st : list Z * Z) (v : nat)
    : list Z * Z :=
  let '(cd, removed_edges) := st in
  if still v then (<[v := cd !!! v - 1]> cd, removed_edges + 1)
  else st.

(** Body of the [level == 0] loop over all vertices. *)
Definition level0_step (g : Graph) (deg_thresh : Z)
    (st : list Z * list Z * Z * list nat) (u : nat)
    : list Z * list Z * Z * list nat :=
  let '(rk, cd, removed_edges, rem) := st in
  if Z.of_nat (out_degree g u) <=? deg_thresh then
    let rk := <[u := 0]> rk in
    let '(cd, removed_edges) :=
      foldl (detach (λ v, deg_thresh <? Z.of_nat (out_degree g v)))
            (cd, removed_edges) (out_neigh g u) in
    (rk, cd, removed_edges + cd !!! u, rem)
  else (rk, cd, removed_edges, rem ++ [u]).

(** Selection pass of a later level. *)
Definition select_step (cd : list Z) (lvl deg_thresh : Z)
    (st : list Z * list nat * list nat) (u : nat)
    : list Z * list nat * list nat :=
  let '(rk, removed, next_remaining) := st in
  if cd !!! u <=? deg_thresh then (<[u := lvl]> rk, removed ++ [u],
                                    next_remaining)
  else (rk, removed, next_remaining ++ [u]).

(** Removal pass of a later level. *)
Definition remove_step (g : Graph) (rk : list Z) (st : list Z * Z) (u : nat)
    : list Z * Z :=
  let '(cd, removed_edges) :=
    foldl (detach (λ v, rk !!! v =? -1)) st (out_neigh g u) in
  (cd, removed_edges + cd !!! u).

(** One iteration of [while (num_remaining > 0)].  [thresh] stands
    for the [double] expression
    [static_cast<NodeID>((1 + epsilon) * active_degree_total / num_remaining)]. *)
Definition peel (thresh : Z → nat → Z) (g : Graph) (st : core_state)
    : core_state :=
  let deg_thresh := thresh (active_degree_total st) (num_remaining st) in
  if level st =? 0 then
    let '(rk, cd, removed_edges, rem) :=
      foldl (level0_step g deg_thresh)
            (rankings st, curr_degree st, 0, remaining st)
            (seq 0 (num_nodes g)) in
    mk_core rk cd (active_degree_total st - removed_edges)
            (length rem) (level st + 1) rem
  else
    let local_min_deg :=
      foldl (λ m u, Z.min m (curr_degree st !!! u))
            (Z.of_nat (num_nodes g)) (remaining st) in
    let min_deg_active := Z.min (Z.of_nat (num_nodes g)) local_min_deg in
    let deg_thresh :=
      if deg_thresh <? min_deg_active then min_deg_active else deg_thresh in
    let '(rk, removed, next_remaining) :=
      foldl (select_step (curr_degree st) (level st) deg_thresh)
            (rankings st, [], []) (remaining st) in
    let '(cd, removed_edges) :=
      foldl (remove_step g rk) (curr_degree st, 0) removed in
    mk_core rk cd (active_degree_total st - removed_edges)
            (length next_remaining) (level st + 1) next_remaining.

Fixpoint peel_loop (fuel : nat) (thresh : Z → nat → Z) (g : Graph)
    (st : core_state) : option core_state :=
  if (0 <? num_remaining st)%nat then
    match fuel with
    | O => None
    | S fuel' => peel_loop fuel' thresh g (peel thresh g st)
    end
  else Some st.

Definition core_init (g : Graph) : core_state :=
  mk_core (replicate (num_nodes g) (-1))
          (map (λ n, Z.of_nat (out_degree g n)) (seq 0 (num_nodes g)))
          (Z.of_nat (num_edges_directed g))
          (num_nodes g) 0 [].

(** [CoreApprox]; [fuel] bounds the number of iterations. *)
Definition CoreApprox (fuel : nat) (thresh : Z → nat → Z) (g : Graph)
    : option (list Z) :=
  rankings <$> peel_loop fuel thresh g (core_init g).

(** The threshold for [epsilon = -0.5]: the truncated half of the
    average degree. *)
Definition half_avg (total : Z) (n : nat) : Z :=
  Z.quot total (2 * Z.of_nat n).

(** [Directionalize]: the heuristic is run first and selects the
    ordering.  [thresh] is the threshold of [CoreApprox], [half_avg]
    for the [epsilon = -0.5] of the source.  [None]: the heuristic
    made an undefined call or read. *)
Definition Directionalize (thresh : Z → nat → Z) (g : Graph)
    : option Graph :=
  match CoreIsAdvantageous g with
  | Some true =>
      ranking ← CoreApprox (S (num_nodes g)) thresh g;
      Some (Builder.DirectGraphCore g ranking)
  | Some false => Some (Builder.DirectGraphDegree g)
  | None => None
  end.

End Ordering.

(** ** pivotscale.h, pivotscale.cc *)

Module PivotScale.

(** [count_t] is [uint64_t] unless built with [USE_128]. *)
Definition count_bits : Z := 64.

Definition wrap (x : Z) : Z := CombCache.wrap count_bits x.

(** The global [CombCache<count_t> n_choose_k]. *)
Definition n_choose_k_memo : CombCache.memo_t :=
  CombCache.construct count_bits.

Definition n_choose_k (memo : CombCache.memo_t) (n k : Z) : Z :=
  CombCache.call count_bits memo n k.

(** Body of [for (NodeID v_r : verts_to_induce)]; [recurse] is the
    recursive call.  [None]: the recursion ran out of fuel. *)
Definition child_step (recurse : SubGraph.t → Z → Z → option (Z * SubGraph.t))
    (pivot_id_r : nat) (verts_to_induce : list nat)
    (clique_size num_pivots : Z)
    (st : option (Z * SubGraph.t)) (v_r : nat) : option (Z * SubGraph.t) :=
  '(count, sg) ← st;
  '(c, sg) ←
    (if (v_r =? pivot_id_r)%nat then
       recurse (SubGraph.InduceFromSelfMutate sg v_r [])
               (clique_size + 1) (num_pivots + 1)
     else
       recurse (SubGraph.InduceFromSelfMutate sg v_r verts_to_induce)
               (clique_size + 1) num_pivots);
  Some (wrap (count + c), SubGraph.UndoSelfMutate sg).

Fixpoint PivotRecurse (fuel : nat) (memo : CombCache.memo_t)
    (max_k : Z) (sg : SubGraph.t) (clique_size num_pivots : Z)
    : option (Z * SubGraph.t) :=
  match fuel with
  | O => None
  | S fuel' =>
      if Z.of_nat (SubGraph.NumActive sg) + clique_size <? max_k
      then Some (0, sg)
      else
        let num_holds := clique_size - num_pivots in
        if (SubGraph.NumActive sg =? 0)%nat || (num_holds =? max_k)
        then Some (n_choose_k memo num_pivots (max_k - num_holds), sg)
        else
          let pivot_id_r := SubGraph.FindPivot sg in
          let '(sg, verts_to_induce) :=
            SubGraph.ActiveUnreachableFromPivot sg pivot_id_r in
          '(count, sg) ←
            foldl (child_step (PivotRecurse fuel' memo max_k) pivot_id_r
                              verts_to_induce clique_size num_pivots)
                  (Some (0, sg)) verts_to_induce;
          Some (count, SubGraph.PopNonNeighbors sg)
  end.

(** Body of the root loop of [PivotCount]; a recursion below root [v]
    is at most [out_degree v] deep. *)
Definition root_step (memo : CombCache.memo_t) (dag : Graph) (k : Z)
    (st : option (Z * SubGraph.t)) (v : nat) : option (Z * SubGraph.t) :=
  '(count, sg) ← st;
  let sg := SubGraph.InduceFromDAG sg dag v in
  '(c, sg) ← PivotRecurse (S (out_degree dag v)) memo k sg 1 0;
  Some (wrap (count + c), sg).

Definition PivotCount (memo : CombCache.memo_t) (dag : Graph) (k : Z)
    : option Z :=
  fst <$> foldl (root_step memo dag k) (Some (0, SubGraph.init))
                (seq 0 (num_nodes dag)).

End PivotScale.

(** ** pivotscale-sweep.cc *)

Module Sweep.
Import PivotScale.

(** [counts[i] += x] *)
Definition add_at (counts : list Z) (i : Z) (x : Z) : list Z :=
  <[Z.to_nat i := wrap (counts !!! Z.to_nat i + x)]> counts.

(** The loop of the base case, [p = 0 .. min(pivots, max_k - holds)]. *)
Definition base_case (memo : CombCache.memo_t) (max_k holds pivots : Z)
    (counts : list Z) : list Z :=
  foldl (λ counts p, add_at counts (holds + p) (n_choose_k memo pivots p))
        counts
        (map Z.of_nat (seq 0 (Z.to_nat (Z.min pivots (max_k - holds) + 1)))).

Definition child_step
    (recurse : SubGraph.t → list Z → Z → Z → option (list Z * SubGraph.t))
    (pivot_id_r : nat) (verts_to_induce : list nat)
    (clique_size pivots : Z)
    (st : option (list Z * SubGraph.t)) (v_r : nat)
    : option (list Z * SubGraph.t) :=
  '(counts, sg) ← st;
  '(counts, sg) ←
    (if (v_r =? pivot_id_r)%nat then
       recurse (SubGraph.InduceFromSelfMutate sg v_r []) counts
               (clique_size + 1) (pivots + 1)
     else
       recurse (SubGraph.InduceFromSelfMutate sg v_r verts_to_induce) counts
               (clique_size + 1) pivots);
  Some (counts, SubGraph.UndoSelfMutate sg).

Fixpoint PivotRecurse (fuel : nat) (memo : CombCache.memo_t) (max_k : Z)
    (sg : SubGraph.t) (counts : list Z) (clique_size pivots : Z)
    : option (list Z * SubGraph.t) :=
  match fuel with
  | O => None
  | S fuel' =>
      let holds := clique_size - pivots in
      if (SubGraph.NumActive sg =? 0)%nat || (holds =? max_k)
      then Some (base_case memo max_k holds pivots counts, sg)
      else
        let pivot_id_r := SubGraph.FindPivot sg in
        let '(sg, verts_to_induce) :=
          SubGraph.ActiveUnreachableFromPivot sg pivot_id_r in
        '(counts, sg) ←
          foldl (child_step (PivotRecurse fuel' memo max_k) pivot_id_r
                            verts_to_induce clique_size pivots)
                (Some (counts, sg)) verts_to_induce;
        Some (counts, SubGraph.PopNonNeighbors sg)
  end.

Definition root_step (memo : CombCache.memo_t) (dag : Graph) (max_k : Z)
    (st : option (list Z * SubGraph.t)) (v : nat)
    : option (list Z * SubGraph.t) :=
  '(counts, sg) ← st;
  let sg := SubGraph.InduceFromDAG sg dag v in
  PivotRecurse (S (out_degree dag v)) memo max_k sg counts 1 0.

(** [PivotCount]: one thread, whose [local_counts] is added to the
    zeroed [counts] at the end. *)
Definition PivotCount (memo : CombCache.memo_t) (dag : Graph) (max_k : Z)
    : option (list Z) :=
  let zero := replicate (Z.to_nat (max_k + 1)) 0 in
  '(local_counts, _) ←
    foldl (root_step memo dag max_k) (Some (zero, SubGraph.init))
          (seq 0 (num_nodes dag));
  Some (zip_with (λ c l, wrap (c + l)) zero local_counts).

End Sweep.

(** ** Invariants of the backtracking subgraph *)

Module SubGraphInv.
Import SubGraph.

(** The frames of a grouped stack, top frame first. *)
Fixpoint frames_aux {T} (n : nat) (s : GroupedStack.t T) : list (list T) :=
  match n with
  | O => []
  | S n' =>
      GroupedStack.last_frame_iter s
        :: frames_aux n' (GroupedStack.pop_frame s)
  end.

Definition frames {T} (s : GroupedStack.t T) : list (list T) :=
  frames_aux (length (GroupedStack.starts_ s)) s.

(** The depth at which a vertex sits: 0 when it is in the candidate
    set, [i] when the [i]-th pending undo brings it back, and the
    number of lists when it is in none. *)
Fixpoint level_in (fs : list (list nat)) (n : nat) : nat :=
  match fs with
  | [] => O
  | f :: fs' => if bool_decide (n ∈ f) then O else S (level_in fs' n)
  end.

Definition lev (sg : t) (n : nat) : nat :=
  level_in (active_list_ sg :: frames (dropped_verts_ sg)) n.

(** A neighbour list is partitioned by its tail: the entries before
    the tail are at most as deep as the owner, the entries from the
    tail on are deeper and sorted by depth. *)
Record row_ok (d : nat) (L : nat → nat) (ln : nat) (row : list nat)
    (tail : nat) : Prop := {
  row_tail : (tail ≤ length row)%nat;
  row_range : ∀ j m, row !! j = Some m → (m < d)%nat;
  row_prefix : ∀ j m, (j < tail)%nat → row !! j = Some m → (L m ≤ ln)%nat;
  row_suffix : ∀ j m, (tail ≤ j)%nat → row !! j = Some m → (ln < L m)%nat;
  row_sorted : ∀ i j a b, (tail ≤ i)%nat → (i ≤ j)%nat →
                 row !! i = Some a → row !! j = Some b → (L a ≤ L b)%nat
}.

Record inv (sg : t) : Prop := {
  inv_adj_len : length (adj_list_ sg) = length (active_ sg);
  inv_tails_len : length (active_tails_ sg) = length (active_ sg);
  inv_nodup :
    NoDup (active_list_ sg ++ concat (frames (dropped_verts_ sg)));
  inv_range :
    ∀ n, n ∈ active_list_ sg ++ concat (frames (dropped_verts_ sg)) →
         (n < length (active_ sg))%nat;
  inv_bitmap :
    ∀ n, (n < length (active_ sg))%nat →
         active_ sg !!! n = bool_decide (n ∈ active_list_ sg);
  inv_rows :
    ∀ n, (n < length (active_ sg))%nat →
         row_ok (length (active_ sg)) (lev sg) (lev sg n)
                (adj_list_ sg !!! n) (active_tails_ sg !!! n)
}.

(** The local graph: no self-loop, symmetric. *)
Record graph_ok (adj : list (list nat)) : Prop := {
  adj_irrefl : ∀ n, n ∉ adj !!! n;
  adj_sym : ∀ n m, m ∈ adj !!! n → n ∈ adj !!! m
}.

(** Two states that differ only by the order inside the candidate
    list and inside the neighbour lists. *)
Record equiv (sg sg' : t) : Prop := {
  eq_active : active_ sg' = active_ sg;
  eq_tails : active_tails_ sg' = active_tails_ sg;
  eq_list : active_list_ sg' ≡ₚ active_list_ sg;
  eq_adj_len : length (adj_list_ sg') = length (adj_list_ sg);
  eq_adj : ∀ n, adj_list_ sg' !!! n ≡ₚ adj_list_ sg !!! n;
  eq_dropped : dropped_verts_ sg' = dropped_verts_ sg;
  eq_pnn : pivot_non_neighs_ sg' = pivot_non_neighs_ sg
}.

(** The compaction of one neighbour list, as [compact] runs it. *)
Definition compact_row (active : list bool) (row : list nat) (tail : nat)
    : list nat * nat :=
  compact_loop tail active 0 row tail.

(** The candidates that [InduceFromSelfMutate sg v excl] keeps: the
    active neighbours of [v] that are not excluded entries below [v]. *)
Definition kept_by (sg : t) (v : nat) (excl : list nat) (n : nat) : Prop :=
  n ∈ Neighs sg v ∧ ¬ (n ∈ excl ∧ (n < v)%nat).

#[global] Instance kept_by_dec sg v excl n : Decision (kept_by sg v excl n).
Proof. unfold kept_by. apply _. Defined.

(** An edge of the DAG between two out-neighbours of the root [u],
    named by their positions in [out_neigh dag u]. *)
Definition local_edge (dag : Graph) (u : nat) (x y : nat) : Prop :=
  ∃ v w, out_neigh dag u !! x = Some v ∧ out_neigh dag u !! y = Some w
         ∧ w ∈ out_neigh dag v.

(** Well-formed DAG view: each out-neighbour list strictly
    ascending, within range, without self-loop, and no edge in both
    directions. *)
Definition dag_row_wf (dag : Graph) (u : nat) : Prop :=
  StronglySorted lt (out_neigh dag u)
  ∧ Forall (λ v, (v < num_nodes dag)%nat ∧ v ≠ u ∧ u ∉ out_neigh dag v)
           (out_neigh dag u).

Definition dag_wf (dag : Graph) : Prop :=
  Forall (dag_row_wf dag) (seq 0 (num_nodes dag)).

#[global] Instance dag_row_wf_dec dag u : Decision (dag_row_wf dag u).
Proof. unfold dag_row_wf. apply _. Defined.

#[global] Instance dag_wf_dec dag : Decision (dag_wf dag).
Proof. unfold dag_wf. apply _. Defined.

(** The states a recursion can be in: built from a root, then changed
    by the four operations, an induction only on a candidate, an undo
    or a pop only with a frame to take. *)
Inductive reachable : t → Prop :=
| reach_root sg0 dag u :
    dag_wf dag → (u < num_nodes dag)%nat →
    reachable (InduceFromDAG sg0 dag u)
| reach_unreachable sg p :
    reachable sg → p ∈ active_list_ sg →
    reachable (ActiveUnreachableFromPivot sg p).1
| reach_induce sg v excl :
    reachable sg → v ∈ active_list_ sg →
    reachable (InduceFromSelfMutate sg v excl)
| reach_undo sg :
    reachable sg → GroupedStack.starts_ (dropped_verts_ sg) ≠ [] →
    reachable (UndoSelfMutate sg)
| reach_pop sg :
    reachable sg → GroupedStack.starts_ (pivot_non_neighs_ sg) ≠ [] →
    reachable (PopNonNeighbors sg).

(** The candidates whose neighbour list is split as the data model
    says: active entries before the tail, inactive ones after it. *)
Definition partitioned (sg : t) (n : nat) : Prop :=
  ∀ j m, (adj_list_ sg !!! n) !! j = Some m →
    ((j < active_tails_ sg !!! n)%nat → active_ sg !!! m = true)
    ∧ ((active_tails_ sg !!! n ≤ j)%nat → active_ sg !!! m = false).

End SubGraphInv.

(** ** Cliques: what the counter is to compute *)

Module Cliques.

(** The [k]-element sub-lists of [l], each in the order of [l]. *)
Fixpoint combs {A} (k : nat) (l : list A) : list (list A) :=
  match l with
  | [] => match k with O => [[]] | S _ => [] end
  | x :: l' =>
      match k with
      | O => [[]]
      | S k' => map (cons x) (combs k' l') ++ combs k l'
      end
  end.

(** Every vertex of [s] is adjacent to all the later ones. *)
Fixpoint is_clique (E : nat → nat → bool) (s : list nat) : bool :=
  match s with
  | [] => true
  | x :: s' => forallb (E x) s' && is_clique E s'
  end.

(** Number of [k]-cliques among the vertices listed in [l]. *)
Definition count_in (E : nat → nat → bool) (k : nat) (l : list nat) : nat :=
  length (filter (λ s, is_clique E s = true) (combs k l)).

Definition adjacent (g : Graph) (a b : nat) : bool :=
  bool_decide (b ∈ out_neigh g a).

(** Number of [k]-cliques of the graph [g]; triangles are the
    3-cliques. *)
Definition count_cliques (g : Graph) (k : nat) : nat :=
  count_in (adjacent g) k (seq 0 (num_nodes g)).

(** Undirected simple graph in CSR form: every neighbour list is
    strictly ascending and within range, there is no self-loop, and
    every edge is stored at both ends. *)
Definition simple_row (g : Graph) (u : nat) : Prop :=
  StronglySorted lt (out_neigh g u)
  ∧ Forall (λ v, (v < num_nodes g)%nat ∧ v ≠ u ∧ u ∈ out_neigh g v)
           (out_neigh g u).

Definition undirected_simple (g : Graph) : Prop :=
  Forall (simple_row g) (seq 0 (num_nodes g)).

(** The same as a test, to run on a concrete graph. *)
Fixpoint ascending (l : list nat) : bool :=
  match l with
  | [] => true
  | x :: l' =>
      match l' with
      | [] => true
      | y :: _ => (x <? y)%nat && ascending l'
      end
  end.

Definition simple_row_b (g : Graph) (u : nat) : bool :=
  ascending (out_neigh g u)
  && forallb (λ v, (v <? num_nodes g)%nat && negb (v =? u)%nat
                   && existsb (Nat.eqb u) (out_neigh g v))
             (out_neigh g u).

Definition undirected_simple_b (g : Graph) : bool :=
  forallb (simple_row_b g) (seq 0 (num_nodes g)).

(** Number of [r]-cliques in the join of [np] pairwise adjacent
    pivots, adjacent to every candidate, with the candidates [P]:
    what a call of the recursion with [np] pivots and [r] vertices
    still to choose is worth. *)
Fixpoint pivot_value (E : nat → nat → bool) (np r : nat) (P : list nat)
    : Z :=
  match np with
  | O => Z.of_nat (count_in E r P)
  | S np' =>
      match r with
      | O => 1
      | S r' => pivot_value E np' r' P + pivot_value E np' r P
      end
  end.

Definition sumZ (l : list Z) : Z := foldr Z.add 0 l.

(** A sum over the ways to split a list into an entry and the
    entries after it. *)
Fixpoint split_sum (f : nat → list nat → Z) (vs : list nat) : Z :=
  match vs with
  | [] => 0
  | v :: vs' => f v vs' + split_sum f vs'
  end.

(** The adjacency of the local graph of a subgraph state. *)
Definition local_adj (sg : SubGraph.t) (a b : nat) : bool :=
  bool_decide (b ∈ SubGraph.adj_list_ sg !!! a).

(** What the child entered for the entry [v] of the non-neighbour
    list [NN] of the pivot [p] is worth, [r] vertices being still to
    choose: the pivot's child gains a pivot, any other child has one
    vertex less to choose among the neighbours of [v] that are not
    smaller entries of [NN]. *)
Definition child_value (E : nat → nat → bool) (P : list nat) (p : nat)
    (NN : list nat) (np r : nat) (v : nat) : Z :=
  if decide (v = p)
  then pivot_value E (S np) r (filter (λ n, E p n = true) P)
  else pivot_value E np (r - 1)
         (filter (λ n, E v n = true ∧ ¬ (n ∈ NN ∧ (n < v)%nat)) P).



(** [dag] keeps of each edge of [g] the direction given by [before]. *)
Definition oriented (g : Graph) (before : nat → nat → bool) (dag : Graph)
    : Prop :=
  num_nodes dag = num_nodes g
  ∧ ∀ u v, (u < num_nodes g)%nat →
           (v ∈ out_neigh dag u ↔ v ∈ out_neigh g u ∧ before u v = true).

(** [u] does not come after [v] in the order [before]. *)
Definition not_after (before : nat → nat → bool) (u v : nat) : Prop :=
  before v u = false.

#[global] Instance not_after_dec before u v : Decision (not_after before u v).
Proof. unfold not_after. apply _. Defined.

(** A strict total order given as a boolean test. *)
Record strict_total (before : nat → nat → bool) : Prop := {
  st_irrefl : ∀ u, before u u = false;
  st_trans : ∀ u v w, before u v = true → before v w = true →
                      before u w = true;
  st_total : ∀ u v, u ≠ v → before u v = true ∨ before v u = true
}.

End Cliques.

(** ** What the recursion returns *)

Module PivotSpec.
Import SubGraph SubGraphInv Cliques PivotScale.

(** What a call of [PivotRecurse] with [fuel] returns, for the clique
    size [k] and at most [N] pivots and candidates together: the
    value of the candidates, and a state that differs from the one it
    got only by the order inside the lists. *)
Definition recurse_ok (memo : CombCache.memo_t) (k N : nat) (fuel : nat)
    : Prop :=
  ∀ sg holds np,
    inv sg → graph_ok (adj_list_ sg) → (NumActive sg < fuel)%nat →
    (1 ≤ holds)%nat → (holds ≤ k)%nat → (np + NumActive sg ≤ N)%nat →
    ∃ sg',
      PivotRecurse fuel memo (Z.of_nat k) sg
                   (Z.of_nat (holds + np)) (Z.of_nat np)
      = Some (wrap (pivot_value (local_adj sg) np (k - holds)
                                (active_list_ sg)), sg')
      ∧ equiv sg sg' ∧ inv sg'.

End PivotSpec.

(** ** Invariant of the peeling loop *)

Module CoreInv.
Import Ordering.

(** After the first iteration: [num_remaining] counts the list of
    remaining vertices, which holds every vertex still ranked -1;
    the current degrees never exceed the number of vertices. *)
Record peeling (g : Graph) (st : core_state) : Prop := {
  pl_level : 1 <= level st;
  pl_count : num_remaining st = length (remaining st);
  pl_rk_len : length (rankings st) = num_nodes g;
  pl_cd_len : length (curr_degree st) = num_nodes g;
  pl_range : ∀ u, u ∈ remaining st → (u < num_nodes g)%nat;
  pl_unranked : ∀ u, (u < num_nodes g)%nat → rankings st !!! u = -1 →
                     u ∈ remaining st;
  pl_degree : ∀ u, (u < num_nodes g)%nat →
                   curr_degree st !!! u <= Z.of_nat (num_nodes g)
}.

End CoreInv.

(** ** What the sweep recursion adds to a slot *)

Module SweepSpec.
Import SubGraph SubGraphInv Cliques PivotScale.

(** The cliques of size [j] a call with [holds] held vertices, [np]
    pivots and the candidates [P] stands for. *)
Definition slot_value (E : nat → nat → bool) (j holds np : nat)
    (P : list nat) : Z :=
  if decide (holds ≤ j)%nat then pivot_value E np (j - holds) P else 0.

(** What a call of the sweep [PivotRecurse] with [fuel] returns, seen
    at the slot [j] of [counts]. *)
Definition recurse_ok (memo : CombCache.memo_t) (max_k j N : nat)
    (fuel : nat) : Prop :=
  ∀ sg counts holds np,
    inv sg → graph_ok (adj_list_ sg) → (NumActive sg < fuel)%nat →
    (1 ≤ holds)%nat → (holds ≤ max_k)%nat → (np + NumActive sg ≤ N)%nat →
    length counts = S max_k →
    ∃ counts' sg',
      Sweep.PivotRecurse fuel memo (Z.of_nat max_k) sg counts
                         (Z.of_nat (holds + np)) (Z.of_nat np)
      = Some (counts', sg')
      ∧ equiv sg sg' ∧ inv sg'
      ∧ length counts' = length counts
      ∧ wrap (counts' !!! j)
        = wrap (counts !!! j
                + slot_value (local_adj sg) j holds np (active_list_ sg)).

End SweepSpec.

(** ** One level of the recursion *)

Module LevelSpec.
Import SubGraph SubGraphInv Cliques PivotScale.

(** The exclusion list the child entered for [v] is induced with. *)
Definition excl_of (p : nat) (NN : list nat) (v : nat) : list nat :=
  if decide (v = p) then [] else NN.

(** What the recursive calls of one level are to return: [f v] for the
    child entered for [v], on any state with the candidates and the
    graph of [sg]. *)
Definition children_return (memo : CombCache.memo_t) (k fuel : nat)
    (sg : SubGraph.t) (p : nat) (NN : list nat) (holds np : nat)
    (f : nat → Z) : Prop :=
  ∀ sg_i v,
    inv sg_i → graph_ok (adj_list_ sg_i) →
    active_list_ sg_i ≡ₚ active_list_ sg →
    (∀ a b, local_adj sg_i a b = local_adj sg a b) →
    v ∈ NN →
    ∃ sg1,
      PivotRecurse fuel memo (Z.of_nat k)
        (InduceFromSelfMutate sg_i v (excl_of p NN v))
        (Z.of_nat (holds + np) + 1)
        (if decide (v = p) then Z.of_nat np + 1 else Z.of_nat np)
      = Some (f v, sg1)
      ∧ equiv (InduceFromSelfMutate sg_i v (excl_of p NN v)) sg1
      ∧ inv sg1.

(** Candidates that are pairwise adjacent. *)
Definition all_adjacent (sg : SubGraph.t) : Prop :=
  ∀ a b, a ∈ active_list_ sg → b ∈ active_list_ sg → a ≠ b →
         local_adj sg a b = true.

(** Candidates that are pairwise adjacent but for the two candidates
    [h1] and [h2]. *)
Definition all_adjacent_but (sg : SubGraph.t) (h1 h2 : nat) : Prop :=
  h1 ∈ active_list_ sg ∧ h2 ∈ active_list_ sg ∧ h1 ≠ h2
  ∧ local_adj sg h1 h2 = false
  ∧ ∀ a b, a ∈ active_list_ sg → b ∈ active_list_ sg → a ≠ b →
           ¬ (a = h1 ∧ b = h2) → ¬ (a = h2 ∧ b = h1) →
           local_adj sg a b = true.

End LevelSpec.

(** ** builder.h: from an edge list to the squished CSR graph *)

Module BuilderCSR.
Import Builder.

Definition Edge : Type := (nat * nat)%type.

(** [FindMaxNodeID]. *)
Definition FindMaxNodeID (el : list Edge) : nat :=
  foldl (λ max_seen '(u, v), Nat.max (Nat.max max_seen u) v) 0%nat el.

(** [fetch_and_add(x[i], 1)] on a vector: the old entry and the new
    vector. *)
Definition fetch_and_add (x : list nat) (i : nat) : nat * list nat :=
  (x !!! i, <[i := S (x !!! i)]> x).

(** [CountDegrees]. *)
Definition CountDegrees (num_nodes_ : nat) (symmetrize_ transpose : bool)
    (el : list Edge) : list nat :=
  foldl (λ degrees '(u, v),
           let degrees :=
             if symmetrize_ || (negb symmetrize_ && negb transpose)
             then (fetch_and_add degrees u).2 else degrees in
           if symmetrize_ || (negb symmetrize_ && transpose)
           then (fetch_and_add degrees v).2 else degrees)
        (replicate num_nodes_ 0%nat) el.

(** The indices [block * block_size .. block_end) of one block. *)
Definition block_range (block_size n block : nat) : list nat :=
  let block_end := Nat.min ((block + 1) * block_size) n in
  seq (block * block_size) (block_end - block * block_size).

(** [ParallelPrefixSum], its block size ([1 << 20] in the source) an
    argument.  The vectors start filled with zeros; every entry is
    written before it is read. *)
Definition ParallelPrefixSum (block_size : nat) (degrees : list nat)
    : list nat :=
  let n := length degrees in
  let num_blocks := ((n + block_size - 1) / block_size)%nat in
  let local_sums :=
    map (λ block,
           foldl (λ lsum i, (lsum + degrees !!! i)%nat) 0%nat
                 (block_range block_size n block))
        (seq 0 num_blocks) in
  let '(bulk_prefix, total) :=
    foldl (λ '(bulk_prefix, total) block,
             (<[block := total]> bulk_prefix,
              (total + local_sums !!! block)%nat))
          (replicate (S num_blocks) 0%nat, 0%nat) (seq 0 num_blocks) in
  let bulk_prefix := <[num_blocks := total]> bulk_prefix in
  let prefix :=
    foldl (λ prefix block,
             (foldl (λ '(prefix, local_total) i,
                       (<[i := local_total]> prefix,
                        (local_total + degrees !!! i)%nat))
                    (prefix, bulk_prefix !!! block)
                    (block_range block_size n block)).1)
          (replicate (S n) 0%nat) (seq 0 num_blocks) in
  <[n := bulk_prefix !!! num_blocks]> prefix.

Definition block_size : nat := Nat.pow 2 20.

(** [MakeCSR]: the offsets as the loop leaves them, and the array of
    neighbours, which starts filled with zeros. *)
Definition MakeCSR (num_nodes_ : nat) (symmetrize_ transpose : bool)
    (el : list Edge) : list nat * list nat :=
  let degrees := CountDegrees num_nodes_ symmetrize_ transpose el in
  let offsets := ParallelPrefixSum block_size degrees in
  let neighs := replicate (offsets !!! num_nodes_) 0%nat in
  foldl (λ '(offsets, neighs) '(u, v),
           let '(offsets, neighs) :=
             if symmetrize_ || (negb symmetrize_ && negb transpose)
             then let '(at_u, offsets) := fetch_and_add offsets u in
                  (offsets, <[at_u := v]> neighs)
             else (offsets, neighs) in
           if symmetrize_ || (negb symmetrize_ && transpose)
           then let '(at_v, offsets) := fetch_and_add offsets v in
                (offsets, <[at_v := u]> neighs)
           else (offsets, neighs))
        (offsets, neighs) el.

(** Modelled from the spec: the builder materializes a CSR view.
    [GenIndex] sets [index[n]] to [neighs + offsets[n]], and the
    neighbours of [n] are the entries from [index[n]] up to
    [index[n+1]]. *)
Definition GenIndex (offsets : list nat) (neighs : list nat) : Graph :=
  map (λ n, take (offsets !!! S n - offsets !!! n)
                 (drop (offsets !!! n) neighs))
      (seq 0 (length offsets - 1)).

(** [MakeGraphFromEL] for a symmetrized, unweighted edge list, the
    number of vertices not given. *)
Definition MakeGraphFromEL (el : list Edge) : Graph :=
  let num_nodes_ := (FindMaxNodeID el + 1)%nat in
  let degrees := CountDegrees num_nodes_ true false el in
  let offsets := ParallelPrefixSum block_size degrees in
  GenIndex offsets (MakeCSR num_nodes_ true false el).2.

(** [std::unique] on a list: an entry equal to the last one kept is
    dropped. *)
Fixpoint unique_from (prev : nat) (l : list nat) : list nat :=
  match l with
  | [] => []
  | y :: l' =>
      if (prev =? y)%nat then unique_from prev l'
      else y :: unique_from y l'
  end.

Definition unique (l : list nat) : list nat :=
  match l with
  | [] => []
  | x :: l' => x :: unique_from x l'
  end.

(** [std::remove]. *)
Definition remove_value (n : nat) (l : list nat) : list nat :=
  filter (λ v, v ≠ n) l.

(** [SquishCSR], out-neighbours: each list sorted, made unique and
    freed of the vertex itself; the first [diffs[n]] entries are
    copied. *)
Definition SquishCSR (g : Graph) : Graph :=
  map (λ n, remove_value n (unique (sort_ids (out_neigh g n))))
      (seq 0 (num_nodes g)).


End BuilderCSR.

(** What the builder is to produce. *)

Module BuildSpec.
Import BuilderCSR.

(** The entries that the edges of [el] put into the row of [a], in
    the order of the edges. *)
Definition row_of (symmetrize_ transpose : bool) (a : nat)
    (el : list Edge) : list nat :=
  concat
    (map (λ '(u, v),
            (if (symmetrize_ || (negb symmetrize_ && negb transpose))
                && (u =? a)%nat then [v] else [])
            ++ (if (symmetrize_ || (negb symmetrize_ && transpose))
                   && (v =? a)%nat then [u] else []))
         el).

(** The writes of the loop of [MakeCSR], one after the other: the
    row written to and the entry written. *)
Definition writes (symmetrize_ transpose : bool) (el : list Edge)
    : list (nat * nat) :=
  concat
    (map (λ '(u, v),
            (if symmetrize_ || (negb symmetrize_ && negb transpose)
             then [(u, v)] else [])
            ++ (if symmetrize_ || (negb symmetrize_ && transpose)
                then [(v, u)] else []))
         el).

(** [neighs[fetch_and_add(offsets[a], 1)] = x] *)
Definition write_step (st : list nat * list nat) (w : nat * nat)
    : list nat * list nat :=
  (<[w.1 := S (st.1 !!! w.1)]> st.1, <[st.1 !!! w.1 := w.2]> st.2).

(** The entries written to the row of [a]. *)
Definition written (a : nat) (ws : list (nat * nat)) : list nat :=
  map snd (filter (λ w, w.1 = a) ws).

(** Every neighbour is a vertex and lists the vertex in turn. *)
Definition symmetric (g : Graph) : Prop :=
  ∀ u v, (u < num_nodes g)%nat → v ∈ out_neigh g u →
         (v < num_nodes g)%nat ∧ u ∈ out_neigh g v.

End BuildSpec.

(** ** pivotscale.h: printing a 128-bit count *)

Module Printing.

(** [do { buffer[--i] = '0' + (x % 10); x /= 10; } while (x > 0);]
    the characters as their codes.  [None]: a write before the
    buffer. *)
Fixpoint write_digits (i : nat) (buffer : list Z) (x : Z)
    : option (list Z * nat) :=
  match i with
  | O => None
  | S i' =>
      let buffer := <[i' := 48 + x mod 10]> buffer in
      let x := x / 10 in
      if 0 <? x then write_digits i' buffer x else Some (buffer, i')
  end.

(** The characters of a C string: up to the first NUL. *)
Fixpoint c_string (l : list Z) : list Z :=
  match l with
  | [] => []
  | c :: l' => if c =? 0 then [] else c :: c_string l'
  end.

(** [printf("%39s", s)]: right-justified in a field of 39. *)
Definition printf_39s (s : list Z) : list Z :=
  replicate (39 - length s) 32 ++ s.

(** [Print_uint128]; [buffer] is the content of the array of 40
    characters at its declaration. *)
Definition Print_uint128 (buffer : list Z) (x : Z) : option (list Z) :=
  let i := 39%nat in
  let buffer := <[i := 0]> buffer in
  '(buffer, i) ← write_digits i buffer x;
  Some (printf_39s (c_string (drop i buffer))).

Definition digit (c : Z) : Prop := 48 ≤ c ≤ 57.

(** The number a string of decimal digits denotes. *)
Definition decimal (s : list Z) : Z :=
  foldl (λ acc c, 10 * acc + (c - 48)) 0 s.

End Printing.

(** ** pivotscale-sweep: the driver *)

Module SweepMain.
Import Ordering.

(** [PrintCliqueCounts]: the rows printed, one for every size whose
    count is not zero. *)
Definition PrintCliqueCounts (counts : list Z) : list (nat * Z) :=
  foldl (λ rows k,
           if negb (counts !!! k =? 0) then rows ++ [(k, counts !!! k)]
           else rows)
        [] (seq 0 (length counts)).

(** The part of [main] after [Directionalize]: [max_k] is one more
    than the greatest out-degree when all sizes are asked for. *)
Definition count_all (memo : CombCache.memo_t) (all_sizes : bool)
    (clique_size : nat) (dag : Graph) : option (list (nat * Z)) :=
  let max_k :=
    if all_sizes then (FindMaxDegree dag + 1)%nat else clique_size in
  counts ← Sweep.PivotCount memo dag (Z.of_nat max_k);
  Some (PrintCliqueCounts counts).

End SweepMain.

(** ** Small inputs of the builder *)

Module BuildExamples.

(** The edges of a triangle with a pendant vertex, one edge given
    twice and in both directions, and a self-loop. *)
Definition paw_edges : list BuilderCSR.Edge :=
  [(0, 1); (1, 2); (2, 0); (2, 3); (3, 2); (1, 1); (0, 1)]%nat.

End BuildExamples.

(** ** Concrete graphs *)

Module Examples.

(** The complete graph on four vertices. *)
Definition k4 : Graph := [[1; 2; 3]; [0; 2; 3]; [0; 1; 3]; [0; 1; 2]]%nat.

(** The path on four vertices. *)
Definition path4 : Graph := [[1]; [0; 2]; [1; 3]; [2]]%nat.

(** A DAG whose root 0 sees a triangle 1, 2, 3. *)
Definition diamond_dag : Graph := [[1; 2; 3]; [2; 3]; [3]; []]%nat.

(** A DAG whose root 0 sees the edges 1-2 and 3-4. *)
Definition fan_dag : Graph := [[1; 2; 3; 4]; [2]; []; [4]; []]%nat.

(** A clique on the vertices 0..99, each of them joined to the two
    hubs 100 and 101; the hub 100 has the leaf 102, the hub 101 the
    leaf 103. *)
Definition two_hubs : Graph :=
  (map (λ u, filter (λ v, v ≠ u) (seq 0 100) ++ [100; 101]) (seq 0 100)
   ++ [seq 0 100 ++ [102]; seq 0 100 ++ [103]; [100]; [101]])%nat.

(** The complete graph on 101 vertices. *)
Definition k101 : Graph :=
  map (λ u, filter (λ v, v ≠ u) (seq 0 101)) (seq 0 101)%nat.

End Examples.

(** ** What the roots of the clique with two hubs return *)

Module TwoHubsValues.
Import PivotScale.

(** The root [u] over the degree ordering, 17 being the size
    counted. *)
Definition degree_value (u : nat) : Z :=
  if (u <? 100)%nat
  then wrap (n_choose_k n_choose_k_memo (Z.of_nat (100 - u)) 16
             + n_choose_k n_choose_k_memo (Z.of_nat (99 - u)) 15)
  else 0.

(** The root [u] over the approximate-coreness ordering. *)
Definition core_value (u : nat) : Z :=
  n_choose_k n_choose_k_memo
    (Z.of_nat (if (u <? 100) then 99 - u
               else if (u <? 102) then 100 else 1)%nat) 16.

End TwoHubsValues.

(** * Properties *)

(** ** Combination cache *)

Module CombCacheFacts.
Import CombCache.

Lemma binom_0_r n : binom n 0 = 1.
Proof. by destruct n. Qed.

Lemma binom_gt n k : (n < k)%nat → binom n k = 0.
Proof.
  revert k. induction n as [|n IH]; intros [|k] Hk; simpl; try lia.
  rewrite !IH; lia.
Qed.

Lemma binom_diag n : binom n n = 1.
Proof. induction n as [|n IH]; simpl; [done|]. rewrite IH, binom_gt; lia. Qed.

Lemma binom_nonneg n k : 0 <= binom n k.
Proof.
  revert k. induction n as [|n IH]; intros [|k]; simpl; try lia.
  specialize (IH k) as H1. specialize (IH (S k)) as H2. lia.
Qed.

Lemma binom_1_r n : binom n 1 = Z.of_nat n.
Proof. induction n as [|n IH]; simpl; [done|]. rewrite IH, binom_0_r. lia. Qed.

Lemma binom_2_r n : 2 * binom n 2 = Z.of_nat n * (Z.of_nat n - 1).
Proof.
  induction n as [|n IH]; [done|].
  change (binom (S n) 2) with (binom n 1 + binom n 2).
  rewrite binom_1_r. nia.
Qed.

Lemma pascal_row_length n : length (pascal_row n) = S n.
Proof.
  induction n as [|n IH]; simpl; [done|].
  unfold pascal_next. rewrite length_zip_with, length_app. cbn [length]. rewrite IH. lia.
Qed.

Lemma pascal_row_lookup n k :
  (k <= n)%nat → pascal_row n !! k = Some (binom n k).
Proof.
  revert k. induction n as [|n IH]; intros k Hk.
  - by replace k with 0%nat by lia.
  - cbn [pascal_row]. unfold pascal_next. rewrite lookup_zip_with.
    destruct k as [|k].
    + cbn [lookup list_lookup]. rewrite lookup_app_l by (rewrite pascal_row_length; lia).
      rewrite (IH 0%nat) by lia. simpl. by rewrite binom_0_r.
    + change ((0 :: pascal_row n) !! S k) with (pascal_row n !! k).
      rewrite IH by lia. simpl.
      destruct (decide (k = n)) as [->|Hne].
      * rewrite lookup_app_r by (rewrite pascal_row_length; lia).
        rewrite pascal_row_length.
        replace (S n - S n)%nat with 0%nat by lia. simpl.
        rewrite (binom_gt n (S n)) by lia. done.
      * rewrite lookup_app_l by (rewrite pascal_row_length; lia).
        rewrite IH by lia. done.
Qed.

Lemma table_ok_in_spec w memo n k :
  table_ok_in w memo = true → (n < kNumPrecompute)%nat → (k <= n)%nat →
  memo_get memo n k = wrap w (binom n k).
Proof.
  intros H Hn Hk. unfold table_ok_in in H.
  rewrite forallb_forall in H. specialize (H n).
  rewrite <- list_elem_of_In, elem_of_seq in H. specialize (H ltac:(lia)).
  cbv beta zeta in H. rewrite forallb_forall in H. specialize (H k).
  rewrite <- list_elem_of_In, elem_of_seq in H. specialize (H ltac:(lia)).
  apply Z.eqb_eq in H. rewrite H. f_equal.
  clear H. rewrite list_lookup_total_alt, pascal_row_lookup by lia. reflexivity.
Qed.

Lemma table_upper_zero_in_spec memo n k :
  table_upper_zero_in memo = true → (n < k)%nat → (k < kNumPrecompute)%nat →
  memo_get memo n k = 0.
Proof.
  intros H Hn Hk. unfold table_upper_zero_in in H.
  rewrite forallb_forall in H. specialize (H n).
  rewrite <- list_elem_of_In, elem_of_seq in H. specialize (H ltac:(lia)).
  rewrite forallb_forall in H. specialize (H k).
  rewrite <- list_elem_of_In, elem_of_seq in H. specialize (H ltac:(lia)).
  apply Z.eqb_eq in H. exact H.
Qed.

Lemma table_ok_64 : table_ok_in 64 (construct 64) = true.
Proof. vm_compute. reflexivity. Qed.

Lemma table_ok_128 : table_ok_in 128 (construct 128) = true.
Proof. vm_compute. reflexivity. Qed.

Lemma table_upper_zero_64 : table_upper_zero_in (construct 64) = true.
Proof. vm_compute. reflexivity. Qed.

Lemma call_in_table (w : Z) memo (n k : nat) :
  (n < kNumPrecompute)%nat → (k < kNumPrecompute)%nat →
  call w memo (Z.of_nat n) (Z.of_nat k) = memo_get memo n k.
Proof.
  intros Hn Hk. unfold call.
  rewrite (proj2 (Z.ltb_lt _ _)) by lia.
  rewrite (proj2 (Z.ltb_lt _ _)) by lia.
  rewrite (proj2 (Z.leb_le _ _)) by lia.
  rewrite (proj2 (Z.leb_le _ _)) by lia.
  cbn [andb]. rewrite !Nat2Z.id. reflexivity.
Qed.

(** Table path: for [0 <= k <= n < 100] the query is the binomial
    coefficient reduced modulo [2^w], for both supported widths. *)
Lemma call_table (w : Z) (n k : nat) :
  w = 64 ∨ w = 128 → (n < kNumPrecompute)%nat → (k <= n)%nat →
  call w (construct w) (Z.of_nat n) (Z.of_nat k) = wrap w (binom n k).
Proof.
  intros Hw Hn Hk. rewrite call_in_table by lia.
  destruct Hw as [-> | ->].
  - apply table_ok_in_spec; [exact table_ok_64|lia|lia].
  - apply table_ok_in_spec; [exact table_ok_128|lia|lia].
Qed.

Lemma call_table_gt (n k : nat) :
  (n < k)%nat → (k < kNumPrecompute)%nat →
  call 64 (construct 64) (Z.of_nat n) (Z.of_nat k) = 0.
Proof.
  intros Hn Hk. rewrite call_in_table by lia.
  apply table_upper_zero_in_spec; [exact table_upper_zero_64|lia|lia].
Qed.

End CombCacheFacts.

(** ** Lists used as vectors, bitmaps and stacks *)

Module VecFacts.
Import SubGraph SubGraphInv.
Local Open Scope nat_scope.

Lemma clear_all_length a l : length (clear_all a l) = length a.
Proof.
  unfold clear_all. revert a. induction l as [|x l IH]; intros a; simpl; [done|].
  by rewrite IH, length_insert.
Qed.

Lemma set_all_length a l : length (set_all a l) = length a.
Proof.
  unfold set_all. revert a. induction l as [|x l IH]; intros a; simpl; [done|].
  by rewrite IH, length_insert.
Qed.

Lemma exclude_length u a l : length (exclude u a l) = length a.
Proof.
  unfold exclude. revert a. induction l as [|x l IH]; intros a; simpl; [done|].
  rewrite IH. case_match; by rewrite ?length_insert.
Qed.

Lemma clear_all_lookup a l n :
  n < length a →
  clear_all a l !!! n = if bool_decide (n ∈ l) then false else a !!! n.
Proof.
  unfold clear_all. revert a. induction l as [|x l IH]; intros a Hn; cbn [foldl].
  - by rewrite bool_decide_eq_false_2 by apply not_elem_of_nil.
  - rewrite IH by (by rewrite length_insert).
    destruct (decide (n = x)) as [->|Hne].
    + rewrite (bool_decide_eq_true_2 (x ∈ x :: l)) by apply list_elem_of_here.
      case_bool_decide; [done|]. by rewrite list_lookup_total_insert_eq.
    + rewrite list_lookup_total_insert_ne by done.
      destruct (decide (n ∈ l)).
      * rewrite !bool_decide_eq_true_2; [done| |done]. by apply list_elem_of_further.
      * rewrite !bool_decide_eq_false_2; [done| |done].
        rewrite elem_of_cons. naive_solver.
Qed.

Lemma set_all_lookup a l n :
  n < length a →
  set_all a l !!! n = if bool_decide (n ∈ l) then true else a !!! n.
Proof.
  unfold set_all. revert a. induction l as [|x l IH]; intros a Hn; cbn [foldl].
  - by rewrite bool_decide_eq_false_2 by apply not_elem_of_nil.
  - rewrite IH by (by rewrite length_insert).
    destruct (decide (n = x)) as [->|Hne].
    + rewrite (bool_decide_eq_true_2 (x ∈ x :: l)) by apply list_elem_of_here.
      case_bool_decide; [done|]. by rewrite list_lookup_total_insert_eq.
    + rewrite list_lookup_total_insert_ne by done.
      destruct (decide (n ∈ l)).
      * rewrite !bool_decide_eq_true_2; [done| |done]. by apply list_elem_of_further.
      * rewrite !bool_decide_eq_false_2; [done| |done].
        rewrite elem_of_cons. naive_solver.
Qed.

Lemma exclude_lookup u a l n :
  n < length a →
  exclude u a l !!! n
  = if bool_decide (n ∈ l ∧ n < u) then false else a !!! n.
Proof.
  unfold exclude. revert a. induction l as [|x l IH]; intros a Hn; cbn [foldl].
  - rewrite bool_decide_eq_false_2; [done|]. intros [H _]. by apply not_elem_of_nil in H.
  - destruct (x <? u) eqn:Hx.
    + apply Nat.ltb_lt in Hx.
      rewrite IH by (by rewrite length_insert).
      destruct (decide (n = x)) as [->|Hne].
      * rewrite (bool_decide_eq_true_2 (x ∈ x :: l ∧ x < u)) by (split; [apply list_elem_of_here|done]).
        case_bool_decide; [done|]. by rewrite list_lookup_total_insert_eq.
      * rewrite list_lookup_total_insert_ne by done.
        apply (f_equal (λ b : bool, if b then false else a !!! n)).
        apply bool_decide_ext. rewrite elem_of_cons. naive_solver.
    + apply Nat.ltb_ge in Hx. rewrite IH by done.
      apply (f_equal (λ b : bool, if b then false else a !!! n)).
      apply bool_decide_ext. rewrite elem_of_cons. naive_solver lia.
Qed.

Lemma filter_all {A} (P : A → Prop) `{∀ x, Decision (P x)} (l : list A) :
  Forall P l → filter P l = l.
Proof.
  induction 1 as [|x l Hx _ IH]; [done|].
  by rewrite filter_cons_True, IH.
Qed.

Lemma filter_none {A} (P : A → Prop) `{∀ x, Decision (P x)} (l : list A) :
  Forall (λ x, ¬ P x) l → filter P l = [].
Proof.
  induction 1 as [|x l Hx _ IH]; [done|].
  by rewrite filter_cons_False, IH.
Qed.

Lemma filter_ext_in {A} (P Q : A → Prop) `{∀ x, Decision (P x)}
    `{∀ x, Decision (Q x)} (l : list A) :
  (∀ x, x ∈ l → P x ↔ Q x) → filter P l = filter Q l.
Proof.
  induction l as [|x l IH]; intros HPQ; [done|].
  destruct (decide (P x)) as [HP|HP].
  - rewrite !filter_cons_True; [|by apply HPQ; [apply list_elem_of_here|]|done].
    rewrite IH; [done|]. intros y Hy. apply HPQ. by apply list_elem_of_further.
  - rewrite !filter_cons_False; [|rewrite <- HPQ; [done|apply list_elem_of_here]|done].
    apply IH. intros y Hy. apply HPQ. by apply list_elem_of_further.
Qed.

Lemma filter_filter_comm {A} (P Q : A → Prop) `{∀ x, Decision (P x)}
    `{∀ x, Decision (Q x)} (l : list A) :
  filter P (filter Q l) = filter Q (filter P l).
Proof.
  rewrite !list_filter_filter. apply filter_ext_in. intros; tauto.
Qed.

(** [std::swap] on a vector. *)
Lemma swap_length {A} `{Inhabited A} (l : list A) i j :
  length (swap l i j) = length l.
Proof. unfold swap. by rewrite !length_insert. Qed.

Lemma swap_lookup {A} `{Inhabited A} (l : list A) i j k :
  i < length l → j < length l →
  swap l i j !!! k
  = if decide (k = j) then l !!! i else if decide (k = i) then l !!! j
    else l !!! k.
Proof.
  intros Hi Hj. unfold swap.
  destruct (decide (k = j)) as [->|Hkj].
  - by rewrite list_lookup_total_insert_eq by (by rewrite length_insert).
  - rewrite list_lookup_total_insert_ne by done.
    destruct (decide (k = i)) as [->|Hki].
    + by rewrite list_lookup_total_insert_eq.
    + by rewrite list_lookup_total_insert_ne.
Qed.

Lemma swap_perm {A} `{Inhabited A} (l : list A) i j :
  i < length l → j < length l → swap l i j ≡ₚ l.
Proof.
  intros Hi Hj. unfold swap.
  destruct (lookup_lt_is_Some_2 l i Hi) as [x Hx].
  destruct (lookup_lt_is_Some_2 l j Hj) as [y Hy].
  rewrite (list_lookup_total_correct _ _ _ Hx), (list_lookup_total_correct _ _ _ Hy).
  by apply Permutation_insert_swap.
Qed.

Lemma lookup_total_lookup {A} `{Inhabited A} (l : list A) i :
  i < length l → l !! i = Some (l !!! i).
Proof.
  intros Hi. destruct (lookup_lt_is_Some_2 l i Hi) as [x Hx].
  by rewrite (list_lookup_total_correct _ _ _ Hx).
Qed.

Lemma lookup_total_elem_of {A} `{Inhabited A} (l : list A) i :
  i < length l → l !!! i ∈ l.
Proof. intros Hi. eapply list_elem_of_lookup_2, lookup_total_lookup, Hi. Qed.

(** Grouped stack: a new frame and pushes into it are undone exactly
    by [pop_frame], and [last_frame_iter] lists the pushes. *)
Lemma push_all_elems {T} (s : GroupedStack.t T) (l : list T) :
  GroupedStack.elems_ (foldl (λ s x, GroupedStack.push_back x s) s l)
  = GroupedStack.elems_ s ++ l
  ∧ GroupedStack.starts_ (foldl (λ s x, GroupedStack.push_back x s) s l)
    = GroupedStack.starts_ s.
Proof.
  revert s. induction l as [|x l IH]; intros s; simpl.
  - by rewrite app_nil_r.
  - destruct (IH (GroupedStack.push_back x s)) as [-> ->]. simpl.
    by rewrite <- app_assoc.
Qed.

Lemma frame_back {T} (s : GroupedStack.t T) l :
  GroupedStack.back (GroupedStack.mk (GroupedStack.elems_ s ++ l)
     (GroupedStack.starts_ s ++ [length (GroupedStack.elems_ s)]))
  = length (GroupedStack.elems_ s).
Proof. unfold GroupedStack.back. simpl. apply last_last. Qed.

Lemma frame_last {T} (s : GroupedStack.t T) l :
  GroupedStack.last_frame_iter
    (GroupedStack.mk (GroupedStack.elems_ s ++ l)
       (GroupedStack.starts_ s ++ [length (GroupedStack.elems_ s)])) = l.
Proof.
  unfold GroupedStack.last_frame_iter. rewrite frame_back. simpl.
  apply drop_app_length.
Qed.

Lemma frame_pop {T} (s : GroupedStack.t T) l :
  GroupedStack.pop_frame
    (GroupedStack.mk (GroupedStack.elems_ s ++ l)
       (GroupedStack.starts_ s ++ [length (GroupedStack.elems_ s)])) = s.
Proof.
  unfold GroupedStack.pop_frame. rewrite frame_back. simpl.
  rewrite take_app_length, removelast_last. by destruct s.
Qed.

Lemma frames_push {T} (s : GroupedStack.t T) l :
  frames (GroupedStack.mk (GroupedStack.elems_ s ++ l)
            (GroupedStack.starts_ s ++ [length (GroupedStack.elems_ s)]))
  = l :: frames s.
Proof.
  unfold frames at 1. cbn [GroupedStack.starts_].
  rewrite length_app. cbn [length].
  replace (length (GroupedStack.starts_ s) + 1) with (S (length (GroupedStack.starts_ s))) by lia.
  cbn [frames_aux]. rewrite frame_last, frame_pop. done.
Qed.

Lemma frames_cons_inv {T} (s : GroupedStack.t T) :
  GroupedStack.starts_ s ≠ [] →
  frames s = GroupedStack.last_frame_iter s :: frames (GroupedStack.pop_frame s).
Proof.
  intros Hne. unfold frames. destruct s as [e st]. simpl in *.
  destruct st as [|x st _] using rev_ind; [done|].
  rewrite length_app. simpl.
  replace (length st + 1) with (S (length st)) by lia. simpl.
  by rewrite removelast_last.
Qed.

End VecFacts.

(** ** The loops of [InduceFromSelfMutate] *)

Module InduceFacts.
Import SubGraph SubGraphInv VecFacts.
Local Open Scope nat_scope.

Lemma scan_tail_spec active row j nt0 :
  j ≤ nt0 →
  let nt := scan_tail active row j nt0 in
  j ≤ nt ∧ nt ≤ nt0
  ∧ (∀ x, nt < x → x ≤ nt0 → active !!! (row !!! x) = false)
  ∧ (j < nt → active !!! (row !!! nt) = true).
Proof.
  induction nt0 as [|nt0 IH]; intros Hj; cbn [scan_tail].
  - repeat split; intros; lia.
  - destruct (decide (j < S nt0)) as [Hlt|Hge].
    + rewrite (proj2 (Nat.ltb_lt _ _) Hlt). cbn [andb].
      destruct (active !!! (row !!! S nt0)) eqn:Hact; cbn [negb].
      * repeat split; intros; try lia; done.
      * destruct (IH ltac:(lia)) as (H1 & H2 & H3 & H4).
        repeat split; try lia; [|done].
        intros x Hx1 Hx2. destruct (decide (x = S nt0)) as [->|]; [done|].
        apply H3; lia.
    + rewrite (proj2 (Nat.ltb_ge _ _)) by lia. cbn [andb].
      repeat split; intros; lia.
Qed.

Lemma compact_loop_spec active fuel j row tail tail0 :
  tail ≤ tail0 → tail0 ≤ length row → tail - j ≤ fuel →
  (∀ x, x < j `min` tail → active !!! (row !!! x) = true) →
  (∀ x, tail ≤ x → x < tail0 → active !!! (row !!! x) = false) →
  let r := compact_loop fuel active j row tail in
  r.2 ≤ tail ∧ r.1 ≡ₚ row ∧ length r.1 = length row
  ∧ (∀ x, tail0 ≤ x → r.1 !!! x = row !!! x)
  ∧ (∀ x, x < r.2 → active !!! (r.1 !!! x) = true)
  ∧ (∀ x, r.2 ≤ x → x < tail0 → active !!! (r.1 !!! x) = false).
Proof.
  revert j row tail.
  induction fuel as [|fuel IH]; intros j row tail Ht Ht0 Hf Hpre Hsuf;
    cbn [compact_loop].
  - cbn [fst snd]. repeat split; try done.
    intros x Hx. apply Hpre. lia.
  - destruct (decide (j < tail)) as [Hlt|Hge].
    2:{ rewrite (proj2 (Nat.ltb_ge _ _)) by lia. cbn [fst snd].
        repeat split; try done. intros x Hx. apply Hpre. lia. }
    rewrite (proj2 (Nat.ltb_lt _ _) Hlt).
    destruct (active !!! (row !!! j)) eqn:Hact; cbn [negb].
    + (* the entry stays *)
      specialize (IH (S j) row tail Ht Ht0 ltac:(lia)).
      apply IH; [|done].
      intros x Hx. destruct (decide (x = j)) as [->|]; [done|].
      apply Hpre. lia.
    + (* the entry goes behind the tail *)
      destruct (scan_tail_spec active row j (tail - 1) ltac:(lia))
        as (Hs1 & Hs2 & Hs3 & Hs4).
      set (nt := scan_tail active row j (tail - 1)) in *.
      destruct (decide (j < nt)) as [Hjn|Hjn].
      * rewrite (proj2 (Nat.ltb_lt _ _) Hjn).
        assert (Hsw : ∀ k, swap row j nt !!! k
                   = if decide (k = nt) then row !!! j
                     else if decide (k = j) then row !!! nt else row !!! k)
          by (intros k; apply swap_lookup; lia).
        specialize (IH (S j) (swap row j nt) nt ltac:(lia)
                       ltac:(rewrite swap_length; lia) ltac:(lia)).
        destruct IH as (I1 & I2 & I3 & I4 & I5 & I6).
        { intros x Hx. rewrite Hsw.
          destruct (decide (x = nt)); [lia|].
          destruct (decide (x = j)); [by apply Hs4|].
          apply Hpre. lia. }
        { intros x Hx1 Hx2. rewrite Hsw.
          destruct (decide (x = nt)); [done|].
          destruct (decide (x = j)); [lia|].
          destruct (decide (x < tail)); [apply Hs3; lia|apply Hsuf; lia]. }
        repeat split; try done.
        -- lia.
        -- rewrite I2. apply swap_perm; lia.
        -- by rewrite I3, swap_length.
        -- intros x Hx. rewrite I4 by done. rewrite Hsw.
           destruct (decide (x = nt)); [lia|].
           destruct (decide (x = j)); [lia|done].
      * rewrite (proj2 (Nat.ltb_ge _ _)) by lia.
        assert (nt = j) as Hnt by lia.
        specialize (IH (S j) row nt ltac:(lia) Ht0 ltac:(lia)).
        destruct IH as (I1 & I2 & I3 & I4 & I5 & I6).
        { intros x Hx. apply Hpre. lia. }
        { intros x Hx1 Hx2.
          destruct (decide (x = j)) as [->|]; [done|].
          destruct (decide (x < tail)); [apply Hs3; lia|apply Hsuf; lia]. }
        repeat split; try done. lia.
Qed.

Lemma compact_row_spec active row tail :
  tail ≤ length row →
  let r := compact_row active row tail in
  r.2 ≤ tail ∧ r.1 ≡ₚ row ∧ length r.1 = length row
  ∧ (∀ x, tail ≤ x → r.1 !!! x = row !!! x)
  ∧ (∀ x, x < r.2 → active !!! (r.1 !!! x) = true)
  ∧ (∀ x, r.2 ≤ x → x < tail → active !!! (r.1 !!! x) = false).
Proof.
  intros Ht. apply compact_loop_spec; try lia; intros; lia.
Qed.

(** [active_list_[i]] swapped with the back and popped. *)
Lemma swap_remove_spec (al : list nat) i :
  i < length al →
  ∃ rest, removelast (swap al i (length al - 1)) = take i al ++ rest
          ∧ rest ≡ₚ drop (S i) al.
Proof.
  intros Hi.
  destruct (lookup_lt_is_Some_2 al i Hi) as [x Hx].
  pose proof (take_drop_middle al i x Hx) as Hal.
  destruct (decide (drop (S i) al = [])) as [Hd|Hd].
  - rewrite Hd in Hal. exists []. split; [|by rewrite Hd].
    assert (length al = S i) as Hlen.
    { rewrite <- Hal, length_app, length_take_le by lia. simpl. lia. }
    replace (length al - 1) with i by lia.
    unfold swap.
    rewrite (list_insert_id al i (al !!! i)) by (by apply lookup_total_lookup).
    rewrite (list_insert_id al i (al !!! i)) by (by apply lookup_total_lookup).
    rewrite <- Hal at 1. rewrite app_nil_r.
    by rewrite removelast_last.
  - destruct (exists_last Hd) as (mid & y0 & Hmid). rewrite Hmid in Hal.
    exists (y0 :: mid).
    split; [|by rewrite Hmid, (Permutation_app_comm mid [y0])].
    assert (length (take i al) = i) as Hpre by (rewrite length_take_le; lia).
    assert (length al - 1 = i + S (length mid)) as Hlast.
    { rewrite <- Hal at 1. rewrite length_app, Hpre. simpl.
      rewrite length_app. simpl. lia. }
    assert (al !!! i = x) as Hxi by (by apply list_lookup_total_correct).
    assert (al !!! (length al - 1) = y0) as Hyl.
    { apply list_lookup_total_correct. rewrite Hlast, <- Hal.
      rewrite lookup_app_r by lia. rewrite Hpre.
      replace (i + S (length mid) - i) with (S (length mid)) by lia.
      simpl. rewrite lookup_app_r by lia.
      by replace (length mid - length mid) with 0 by lia. }
    unfold swap. rewrite Hxi, Hyl, Hlast.
    rewrite <- Hal at 1.
    rewrite insert_app_r_alt by lia. rewrite Hpre, Nat.sub_diag. simpl.
    rewrite insert_app_r_alt by (rewrite Hpre; lia). rewrite Hpre.
    replace (i + S (length mid) - i) with (S (length mid)) by lia. simpl.
    rewrite insert_app_r_alt by lia. rewrite Nat.sub_diag. simpl.
    change (take i al ++ y0 :: mid ++ [x])
      with (take i al ++ (y0 :: mid) ++ [x]).
    rewrite app_assoc. by rewrite removelast_last.
Qed.

End InduceFacts.

Module InduceLoop.
Import SubGraph SubGraphInv VecFacts InduceFacts.
Local Open Scope nat_scope.

Lemma compact_fields sg n :
  active_ (compact sg n) = active_ sg
  ∧ active_list_ (compact sg n) = active_list_ sg
  ∧ adj_list_ (compact sg n)
    = <[n := (compact_row (active_ sg) (adj_list_ sg !!! n)
                          (active_tails_ sg !!! n)).1]> (adj_list_ sg)
  ∧ active_tails_ (compact sg n)
    = <[n := (compact_row (active_ sg) (adj_list_ sg !!! n)
                          (active_tails_ sg !!! n)).2]> (active_tails_ sg)
  ∧ dropped_verts_ (compact sg n) = dropped_verts_ sg
  ∧ pivot_non_neighs_ (compact sg n) = pivot_non_neighs_ sg.
Proof.
  unfold compact, compact_row.
  by destruct (compact_loop _ _ _ _ _).
Qed.

(** What the main loop of [InduceFromSelfMutate] does from index [i]
    on: the bitmap is only read; the entries from [i] on are split
    into the kept ones and the dropped ones; exactly the kept
    vertices have their neighbour list compacted. *)
Lemma induce_loop_spec fuel i sg :
  NoDup (active_list_ sg) →
  i ≤ length (active_list_ sg) →
  length (active_list_ sg) - i ≤ fuel →
  (∀ n, n ∈ drop i (active_list_ sg) →
        n < length (adj_list_ sg) ∧ n < length (active_tails_ sg)) →
  let sg' := induce_loop fuel i sg in
  let keep := λ n, active_ sg !!! n = true in
  active_ sg' = active_ sg
  ∧ pivot_non_neighs_ sg' = pivot_non_neighs_ sg
  ∧ GroupedStack.starts_ (dropped_verts_ sg')
    = GroupedStack.starts_ (dropped_verts_ sg)
  ∧ length (adj_list_ sg') = length (adj_list_ sg)
  ∧ length (active_tails_ sg') = length (active_tails_ sg)
  ∧ (∃ kept, active_list_ sg' = take i (active_list_ sg) ++ kept
             ∧ kept ≡ₚ filter keep (drop i (active_list_ sg)))
  ∧ (∃ dr, GroupedStack.elems_ (dropped_verts_ sg')
           = GroupedStack.elems_ (dropped_verts_ sg) ++ dr
           ∧ dr ≡ₚ filter (λ n, ¬ keep n) (drop i (active_list_ sg)))
  ∧ (∀ n, adj_list_ sg' !!! n
          = if bool_decide (n ∈ drop i (active_list_ sg) ∧ keep n)
            then (compact_row (active_ sg) (adj_list_ sg !!! n)
                              (active_tails_ sg !!! n)).1
            else adj_list_ sg !!! n)
  ∧ (∀ n, active_tails_ sg' !!! n
          = if bool_decide (n ∈ drop i (active_list_ sg) ∧ keep n)
            then (compact_row (active_ sg) (adj_list_ sg !!! n)
                              (active_tails_ sg !!! n)).2
            else active_tails_ sg !!! n).
Proof.
  revert i sg. induction fuel as [|fuel IH]; intros i sg Hnd Hi Hf Hr;
    cbn [induce_loop]; cbv zeta.
  - assert (drop i (active_list_ sg) = []) as Hd by (apply drop_ge; lia).
    rewrite Hd. rewrite take_ge by lia.
    split_and!; try done;
      try (exists []; by rewrite app_nil_r);
      try (intros n; rewrite bool_decide_eq_false_2; [done|];
           intros [H _]; by apply not_elem_of_nil in H).
  - destruct (decide (i < length (active_list_ sg))) as [Hlt|Hge].
    2:{ rewrite (proj2 (Nat.ltb_ge _ _)) by lia.
        assert (drop i (active_list_ sg) = []) as Hd by (apply drop_ge; lia).
        rewrite Hd. rewrite take_ge by lia.
        split_and!; try done;
          try (exists []; by rewrite app_nil_r);
          try (intros n; rewrite bool_decide_eq_false_2; [done|];
               intros [H _]; by apply not_elem_of_nil in H). }
    rewrite (proj2 (Nat.ltb_lt _ _) Hlt).
    set (al := active_list_ sg) in *.
    set (n0 := al !!! i).
    assert (al !! i = Some n0) as Hn0 by (by apply lookup_total_lookup).
    assert (drop i al = n0 :: drop (S i) al) as Hdrop
      by (by apply drop_S).
    assert (take (S i) al = take i al ++ [n0]) as Htake
      by (by apply take_S_r).
    assert (n0 ∉ drop (S i) al) as Hnotin.
    { rewrite <- (take_drop_middle al i n0 Hn0) in Hnd.
      apply NoDup_app in Hnd as (_ & _ & Hnd).
      by apply NoDup_cons in Hnd as [? _]. }
    destruct (Hr n0 ltac:(rewrite Hdrop; apply list_elem_of_here))
      as [Hn0a Hn0t].
    destruct (active_ sg !!! n0) eqn:Hact.
    + (* kept: compact its neighbour list *)
      destruct (compact_fields sg n0) as (C1 & C2 & C3 & C4 & C5 & C6).
      specialize (IH (S i) (compact sg n0)).
      rewrite C1, C2, C3, C4, C5, C6 in IH. fold al in IH.
      rewrite !length_insert in IH.
      destruct IH as (I1 & I2 & I3 & I4 & I5 & (kept & I6 & I6') &
                      (dr & I7 & I7') & I8 & I9); [done|lia|lia| |].
      { intros n Hn. apply Hr. rewrite Hdrop. by apply list_elem_of_further. }
      split_and!; try done.
      * exists (n0 :: kept). split.
        -- rewrite I6, Htake, <- app_assoc. done.
        -- rewrite Hdrop, filter_cons_True by done. by rewrite I6'.
      * exists dr. split; [done|].
        rewrite Hdrop, filter_cons_False by (intros H; by apply H). done.
      * intros n. rewrite I8. rewrite Hdrop.
        destruct (decide (n = n0)) as [->|Hne].
        -- rewrite bool_decide_eq_false_2 by (intros [? _]; done).
           rewrite bool_decide_eq_true_2
             by (split; [apply list_elem_of_here|done]).
           by rewrite list_lookup_total_insert_eq.
        -- rewrite !list_lookup_total_insert_ne by done.
           apply (f_equal (λ b : bool, if b then _ else _)).
           apply bool_decide_ext. rewrite elem_of_cons. naive_solver.
      * intros n. rewrite I9. rewrite Hdrop.
        destruct (decide (n = n0)) as [->|Hne].
        -- rewrite bool_decide_eq_false_2 by (intros [? _]; done).
           rewrite bool_decide_eq_true_2
             by (split; [apply list_elem_of_here|done]).
           by rewrite list_lookup_total_insert_eq.
        -- rewrite !list_lookup_total_insert_ne by done.
           apply (f_equal (λ b : bool, if b then _ else _)).
           apply bool_decide_ext. rewrite elem_of_cons. naive_solver.
    + (* dropped: swap with the back and pop *)
      destruct (swap_remove_spec al i Hlt) as (rest & Hsr & Hrest).
      assert (length (take i al) = i) as Hlt_len
        by (rewrite length_take_le; lia).
      specialize (IH i (drop_at sg i n0)).
      unfold drop_at in IH. cbn [active_ active_list_ adj_list_
        active_tails_ dropped_verts_ pivot_non_neighs_] in IH.
      fold al in IH. rewrite Hsr in IH.
      rewrite drop_app_length' in IH by done.
      rewrite take_app_length' in IH by done.
      assert (length rest = length al - S i) as Hrl.
      { rewrite Hrest, length_drop. done. }
      destruct IH as (I1 & I2 & I3 & I4 & I5 & (kept & I6 & I6') &
                      (dr & I7 & I7') & I8 & I9).
      { rewrite <- (take_drop_middle al i n0 Hn0) in Hnd.
        rewrite Hrest.
        apply NoDup_app in Hnd as (Hn1 & Hn2 & Hn3).
        apply NoDup_cons in Hn3 as [Hn3 Hn4].
        apply NoDup_app. repeat split; [done| |done].
        intros x Hx Hx'. apply (Hn2 x Hx). by apply list_elem_of_further. }
      { rewrite length_app. lia. }
      { rewrite length_app. lia. }
      { intros n Hn. apply Hr. rewrite Hdrop.
        apply list_elem_of_further. by rewrite <- Hrest. }
      unfold drop_at. fold al. rewrite Hsr.
      split_and!; try done.
      * exists kept. split; [done|].
        rewrite I6', Hrest, Hdrop.
        rewrite filter_cons_False; [done|]. by rewrite Hact.
      * exists (n0 :: dr). split.
        -- rewrite I7. cbn [GroupedStack.push_back GroupedStack.elems_].
           by rewrite <- app_assoc.
        -- rewrite Hdrop, filter_cons_True by (by rewrite Hact).
           by rewrite I7', Hrest.
      * intros n. rewrite I8.
        apply (f_equal (λ b : bool, if b then _ else _)).
        apply bool_decide_ext. rewrite Hdrop, elem_of_cons, Hrest.
        split; [naive_solver|]. intros [[->|?] ?]; [congruence|done].
      * intros n. rewrite I9.
        apply (f_equal (λ b : bool, if b then _ else _)).
        apply bool_decide_ext. rewrite Hdrop, elem_of_cons, Hrest.
        split; [naive_solver|]. intros [[->|?] ?]; [congruence|done].
Qed.

End InduceLoop.

(** ** The invariant is kept by the operations of the subgraph *)

Module InvFacts.
Import SubGraph SubGraphInv VecFacts InduceFacts InduceLoop.
Local Open Scope nat_scope.

Lemma level_in_0 f fs n : level_in (f :: fs) n = 0 ↔ n ∈ f.
Proof. cbn [level_in]. case_bool_decide; naive_solver. Qed.

Lemma lev_0 sg n : lev sg n = 0 ↔ n ∈ active_list_ sg.
Proof. apply level_in_0. Qed.

Lemma level_in_perm f f' fs n :
  f ≡ₚ f' → level_in (f :: fs) n = level_in (f' :: fs) n.
Proof.
  intros Hp. cbn [level_in].
  by rewrite (bool_decide_ext (n ∈ f) (n ∈ f')) by (by rewrite Hp).
Qed.

(** Splitting the first list into a kept and a dropped part pushes
    everything outside the kept part one level down. *)
Lemma level_in_split kept dr f fs n :
  kept ++ dr ≡ₚ f →
  level_in (kept :: dr :: fs) n
  = if bool_decide (n ∈ kept) then 0 else S (level_in (f :: fs) n).
Proof.
  intros Hp. cbn [level_in].
  case_bool_decide as Hk; [done|].
  rewrite (bool_decide_ext (n ∈ f) (n ∈ dr)); [by case_bool_decide|].
  rewrite <- Hp, elem_of_app. naive_solver.
Qed.

(** Merging the first two lists pulls everything one level up. *)
Lemma level_in_merge f1 f2 fs n :
  level_in ((f1 ++ f2) :: fs) n = level_in (f1 :: f2 :: fs) n - 1.
Proof.
  cbn [level_in]. rewrite (bool_decide_ext (n ∈ f1 ++ f2) (n ∈ f1 ∨ n ∈ f2))
    by apply elem_of_app.
  repeat case_bool_decide; try naive_solver; lia.
Qed.

(** The tail of a partitioned list counts the entries that are not
    deeper than the owner. *)
Lemma row_ok_tail d L ln row tail :
  row_ok d L ln row tail →
  tail = length (filter (λ m, L m ≤ ln) row).
Proof.
  intros [Ht _ Hp Hs _].
  rewrite <- (take_drop tail row) at 1.
  rewrite filter_app, length_app.
  assert (filter (λ m, L m ≤ ln) (take tail row) = take tail row) as ->.
  { apply filter_all. apply Forall_forall. intros m Hm.
    apply list_elem_of_lookup in Hm as [j Hj].
    pose proof (lookup_lt_Some _ _ _ Hj) as Hlt.
    rewrite length_take in Hlt.
    rewrite lookup_take_lt in Hj by lia. eapply Hp; [|done]. lia. }
  assert (filter (λ m, L m ≤ ln) (drop tail row) = []) as ->.
  { apply filter_none. apply Forall_forall. intros m Hm.
    apply list_elem_of_lookup in Hm as [j Hj].
    rewrite lookup_drop in Hj.
    specialize (Hs (tail + j) m ltac:(lia) Hj). lia. }
  rewrite length_take. simpl. lia.
Qed.

Lemma row_ok_ext d L L' ln ln' row tail :
  (∀ m, m < d → L' m = L m) → ln' = ln →
  row_ok d L ln row tail → row_ok d L' ln' row tail.
Proof.
  intros HL -> [H1 H2 H3 H4 H5]. split; [done|done|..].
  - intros j m Hj Hm. rewrite HL by eauto. eauto.
  - intros j m Hj Hm. rewrite HL by eauto. eauto.
  - intros i j a b Hi Hj Ha Hb. rewrite !HL by eauto. eauto.
Qed.

Lemma length_filter_perm {A} (P : A → Prop) `{∀ x, Decision (P x)}
    (l l' : list A) :
  l ≡ₚ l' → length (filter P l) = length (filter P l').
Proof. intros Hp. by rewrite Hp. Qed.

(** The prefix of a compacted list is a rearrangement of the old one. *)
Lemma compact_row_take active row tail :
  tail ≤ length row →
  take tail (compact_row active row tail).1 ≡ₚ take tail row.
Proof.
  intros Ht.
  destruct (compact_row_spec active row tail Ht) as (_ & Hp & Hl & Hs & _).
  set (r := compact_row active row tail) in *.
  assert (drop tail r.1 = drop tail row) as Hd.
  { apply list_eq_same_length with (length row - tail);
      [rewrite length_drop; lia|rewrite length_drop; lia|].
    intros i x y Hi. rewrite !lookup_drop. intros Hx Hy.
    apply list_lookup_total_correct in Hx, Hy.
    rewrite Hs in Hx by lia. congruence. }
  apply (Permutation_app_inv_r (drop tail row)).
  rewrite <- Hd at 1. by rewrite !take_drop.
Qed.

End InvFacts.

Module InduceInv.
Import SubGraph SubGraphInv VecFacts InduceFacts InduceLoop InvFacts.
Local Open Scope nat_scope.

Lemma active_in_range sg n :
  inv sg → n ∈ active_list_ sg → n < length (active_ sg).
Proof. intros Hinv Hn. apply (inv_range sg Hinv), elem_of_app. by left. Qed.

Lemma neighs_lookup sg v m :
  m ∈ Neighs sg v ↔
  ∃ j, (adj_list_ sg !!! v) !! j = Some m ∧ j < active_tails_ sg !!! v.
Proof. unfold Neighs. apply elem_of_take. Qed.

(** The active neighbours of a candidate are candidates. *)
Lemma neighs_active sg v m :
  inv sg → v ∈ active_list_ sg → m ∈ Neighs sg v →
  m ∈ active_list_ sg ∧ m < length (active_ sg).
Proof.
  intros Hinv Hv Hm. apply neighs_lookup in Hm as (j & Hj & Hlt).
  pose proof (inv_rows sg Hinv v (active_in_range sg v Hinv Hv)) as Hrow.
  split; [|by eapply row_range].
  apply lev_0. pose proof (row_prefix _ _ _ _ _ Hrow j m Hlt Hj) as Hle.
  apply lev_0 in Hv. lia.
Qed.

(** The bitmap after the three marking loops. *)
Lemma induce_bitmap sg v excl n :
  inv sg → v ∈ active_list_ sg → n < length (active_ sg) →
  exclude v (set_all (clear_all (active_ sg) (active_list_ sg))
                     (Neighs sg v)) excl !!! n
  = bool_decide (kept_by sg v excl n).
Proof.
  intros Hinv Hv Hn.
  rewrite exclude_lookup by (by rewrite set_all_length, clear_all_length).
  rewrite set_all_lookup by (by rewrite clear_all_length).
  rewrite clear_all_lookup by done.
  rewrite (inv_bitmap sg Hinv n Hn).
  unfold kept_by.
  repeat case_bool_decide; try done; naive_solver.
Qed.

(** The state right after [InduceFromSelfMutate]. *)
Lemma induce_struct sg v excl :
  inv sg → v ∈ active_list_ sg →
  let sg' := InduceFromSelfMutate sg v excl in
  ∃ dr,
    active_list_ sg' ≡ₚ filter (kept_by sg v excl) (active_list_ sg)
    ∧ dr ≡ₚ filter (λ n, ¬ kept_by sg v excl n) (active_list_ sg)
    ∧ dropped_verts_ sg'
      = GroupedStack.mk
          (GroupedStack.elems_ (dropped_verts_ sg) ++ dr)
          (GroupedStack.starts_ (dropped_verts_ sg)
             ++ [length (GroupedStack.elems_ (dropped_verts_ sg))])
    ∧ pivot_non_neighs_ sg' = pivot_non_neighs_ sg
    ∧ length (active_ sg') = length (active_ sg)
    ∧ (∀ n, n < length (active_ sg) →
            active_ sg' !!! n = bool_decide (kept_by sg v excl n))
    ∧ length (adj_list_ sg') = length (adj_list_ sg)
    ∧ length (active_tails_ sg') = length (active_tails_ sg)
    ∧ (∀ n, adj_list_ sg' !!! n
            = if bool_decide (n ∈ active_list_ sg'
                              ∧ n < length (active_ sg))
              then (compact_row (active_ sg') (adj_list_ sg !!! n)
                                (active_tails_ sg !!! n)).1
              else adj_list_ sg !!! n)
    ∧ (∀ n, active_tails_ sg' !!! n
            = if bool_decide (n ∈ active_list_ sg'
                              ∧ n < length (active_ sg))
              then (compact_row (active_ sg') (adj_list_ sg !!! n)
                                (active_tails_ sg !!! n)).2
              else active_tails_ sg !!! n).
Proof.
  intros Hinv Hv sg'. unfold sg', InduceFromSelfMutate.
  set (A3 := exclude v _ excl).
  set (sg1 := mk A3 _ _ _ _ _).
  assert (NoDup (active_list_ sg)) as Hnd.
  { pose proof (inv_nodup sg Hinv) as H. by apply NoDup_app in H as [? _]. }
  destruct (induce_loop_spec (length (active_list_ sg)) 0 sg1)
    as (I1 & I2 & I3 & I4 & I5 & (kept & I6 & I6') & (dr & I7 & I7') & I8 & I9);
    [done|simpl; lia|simpl; lia| |].
  { simpl. rewrite drop_0. intros n Hn.
    pose proof (active_in_range sg n Hinv Hn).
    rewrite (inv_adj_len sg Hinv), (inv_tails_len sg Hinv). done. }
  cbn [active_ active_list_ adj_list_ active_tails_ dropped_verts_
       pivot_non_neighs_ sg1] in *.
  rewrite drop_0, take_0 in *. cbn [app] in I6.
  assert (HA3 : ∀ n, n < length (active_ sg) →
                     A3 !!! n = bool_decide (kept_by sg v excl n))
    by (intros n Hn; by apply induce_bitmap).
  assert (HA3len : length A3 = length (active_ sg)).
  { unfold A3. by rewrite exclude_length, set_all_length, clear_all_length. }
  assert (Hkeep : ∀ n, n ∈ active_list_ sg →
                       A3 !!! n = true ↔ kept_by sg v excl n).
  { intros n Hn. rewrite HA3 by (by apply active_in_range).
    apply bool_decide_eq_true. }
  assert (Hk : kept ≡ₚ filter (kept_by sg v excl) (active_list_ sg)).
  { rewrite I6'. by erewrite filter_ext_in. }
  exists dr. rewrite I1, I2, I4, I5, I6. split_and!; try done.
  - rewrite I7'. erewrite filter_ext_in; [done|].
    intros n Hn. by rewrite Hkeep.
  - destruct (dropped_verts_ (induce_loop _ _ _)) as [e s].
    cbn [GroupedStack.elems_ GroupedStack.starts_
         GroupedStack.create_new_frame] in *. by subst.
  - intros n. rewrite I8.
    apply (f_equal (λ b : bool, if b then _ else _)).
    apply bool_decide_ext. rewrite Hk, list_elem_of_filter.
    split.
    + intros [Hn Ha]. pose proof (active_in_range sg n Hinv Hn).
      split_and!; [by apply Hkeep|done|done].
    + intros [[Hkb Hn] Hlt]. split; [done|by apply Hkeep].
  - intros n. rewrite I9.
    apply (f_equal (λ b : bool, if b then _ else _)).
    apply bool_decide_ext. rewrite Hk, list_elem_of_filter.
    split.
    + intros [Hn Ha]. pose proof (active_in_range sg n Hinv Hn).
      split_and!; [by apply Hkeep|done|done].
    + intros [[Hkb Hn] Hlt]. split; [done|by apply Hkeep].
Qed.

Lemma lookup_total_of_lookup {A} `{Inhabited A} (l : list A) j m :
  l !! j = Some m → j < length l ∧ l !!! j = m.
Proof.
  intros Hj. split; [by eapply lookup_lt_Some|by apply list_lookup_total_correct].
Qed.

(** [InduceFromSelfMutate] keeps the invariant. *)
Lemma inv_induce sg v excl :
  inv sg → v ∈ active_list_ sg → inv (InduceFromSelfMutate sg v excl).
Proof.
  intros Hinv Hv.
  destruct (induce_struct sg v excl Hinv Hv)
    as (dr & Hal & Hdr & Hdv & Hpnn & Hlen & Hbit & Hadjl & Htl & Hadj & Htails).
  set (sg' := InduceFromSelfMutate sg v excl) in *.
  set (kept := active_list_ sg') in *.
  set (d := length (active_ sg)) in *.
  assert (Hfr : frames (dropped_verts_ sg') = dr :: frames (dropped_verts_ sg))
    by (rewrite Hdv; apply frames_push).
  assert (Hperm : kept ++ dr ≡ₚ active_list_ sg).
  { rewrite Hal, Hdr. apply filter_app_complement. }
  assert (Hlev : ∀ m, lev sg' m
                      = if bool_decide (m ∈ kept) then 0 else S (lev sg m)).
  { intros m. unfold lev. rewrite Hfr. by apply level_in_split. }
  assert (Hkept : ∀ m, m ∈ kept ↔ kept_by sg v excl m).
  { intros m. rewrite Hal, list_elem_of_filter.
    split; [naive_solver|]. intros Hk. split; [done|].
    destruct Hk as [Hk _]. by apply (neighs_active sg v m). }
  assert (Hkept_lev : ∀ m, m ∈ kept → lev sg m = 0).
  { intros m Hm. apply lev_0. rewrite <- Hperm. apply elem_of_app. by left. }
  assert (HA : ∀ m, m < d → active_ sg' !!! m = true ↔ m ∈ kept).
  { intros m Hm. rewrite Hbit by done. rewrite bool_decide_eq_true.
    by rewrite Hkept. }
  split; fold kept.
  - by rewrite Hadjl, Hlen, (inv_adj_len sg Hinv).
  - by rewrite Htl, Hlen, (inv_tails_len sg Hinv).
  - rewrite Hfr. fold kept. cbn [concat]. rewrite app_assoc, Hperm.
    apply (inv_nodup sg Hinv).
  - intros n. rewrite Hfr. fold kept. cbn [concat].
    rewrite app_assoc, Hperm, Hlen.
    apply (inv_range sg Hinv).
  - intros n. rewrite Hlen. intros Hn. rewrite Hbit by done.
    apply bool_decide_ext. by rewrite Hkept.
  - intros n. rewrite Hlen. intros Hn. fold d.
    pose proof (inv_rows sg Hinv n Hn) as [R1 R2 R3 R4 R5]. fold d in R2.
    rewrite Hadj, Htails.
    destruct (decide (n ∈ kept)) as [Hnk|Hnk].
    + rewrite !bool_decide_eq_true_2 by done.
      pose proof (Hkept_lev n Hnk) as Hn0.
      destruct (compact_row_spec (active_ sg') (adj_list_ sg !!! n)
                  (active_tails_ sg !!! n) R1)
        as (C1 & C2 & C3 & C4 & C5 & C6).
      pose proof (compact_row_take (active_ sg') (adj_list_ sg !!! n)
                  (active_tails_ sg !!! n) R1) as C7.
      set (r := compact_row _ _ _) in *.
      assert (Hrange : ∀ j m, r.1 !! j = Some m → m < d).
      { intros j m Hj. apply list_elem_of_lookup_2 in Hj. rewrite C2 in Hj.
        apply list_elem_of_lookup in Hj as [j' Hj']. eauto. }
      assert (Hsuf : ∀ j m, r.2 ≤ j → r.1 !! j = Some m → m ∉ kept).
      { intros j m Hj Hm. pose proof (Hrange _ _ Hm) as Hmd.
        destruct (lookup_total_of_lookup _ _ _ Hm) as [Hjl Hjm].
        destruct (decide (j < active_tails_ sg !!! n)) as [Hjt|Hjt].
        - rewrite <- HA by done. rewrite <- Hjm, C6 by done. done.
        - intros Hk. apply Hkept_lev in Hk.
          rewrite C4 in Hjm by lia.
          assert ((adj_list_ sg !!! n) !! j = Some m) as Hold.
          { rewrite <- Hjm. apply lookup_total_lookup. lia. }
          specialize (R4 j m ltac:(lia) Hold). lia. }
      assert (Hpre0 : ∀ j m, j < active_tails_ sg !!! n →
                             r.1 !! j = Some m → lev sg m = 0).
      { intros j m Hj Hm.
        assert (m ∈ take (active_tails_ sg !!! n) r.1) as Hin.
        { apply elem_of_take. eauto. }
        rewrite C7 in Hin. apply elem_of_take in Hin as (j' & Hj' & Hlt).
        specialize (R3 j' m Hlt Hj'). lia. }
      rewrite Hlev, bool_decide_eq_true_2 by done.
      split.
      * lia.
      * done.
      * intros j m Hj Hm. rewrite Hlev.
        destruct (lookup_total_of_lookup _ _ _ Hm) as [Hjl Hjm].
        rewrite bool_decide_eq_true_2; [done|].
        apply HA; [by eauto|]. rewrite <- Hjm. by apply C5.
      * intros j m Hj Hm. rewrite Hlev.
        rewrite bool_decide_eq_false_2 by (by eapply Hsuf). lia.
      * intros i j a b Hi Hij Ha Hb. rewrite !Hlev.
        rewrite !bool_decide_eq_false_2 by (eapply Hsuf; [|done]; lia).
        apply le_n_S.
        destruct (decide (i < active_tails_ sg !!! n)) as [Hit|Hit].
        -- rewrite (Hpre0 i a Hit Ha). lia.
        -- destruct (lookup_total_of_lookup _ _ _ Ha) as [Hil Hia].
           destruct (lookup_total_of_lookup _ _ _ Hb) as [Hjl Hjb].
           rewrite C4 in Hia, Hjb by lia.
           apply (R5 i j); [lia|lia| |].
           ++ rewrite <- Hia. apply lookup_total_lookup. lia.
           ++ rewrite <- Hjb. apply lookup_total_lookup. lia.
    + rewrite !bool_decide_eq_false_2 by (intros [? _]; done).
      rewrite (Hlev n), bool_decide_eq_false_2 by done.
      assert (Hdeep : ∀ m, 0 < lev sg m → lev sg' m = S (lev sg m)).
      { intros m Hm. rewrite Hlev. rewrite bool_decide_eq_false_2; [done|].
        intros Hk. apply Hkept_lev in Hk. lia. }
      split.
      * done.
      * done.
      * intros j m Hj Hm. specialize (R3 j m Hj Hm).
        rewrite Hlev. case_bool_decide; lia.
      * intros j m Hj Hm. specialize (R4 j m Hj Hm).
        rewrite Hdeep by lia. lia.
      * intros i j a b Hi Hij Ha Hb.
        pose proof (R4 i a Hi Ha). pose proof (R4 j b ltac:(lia) Hb).
        rewrite !Hdeep by lia. apply le_n_S. eauto.
Qed.

End InduceInv.

Module UndoInv.
Import SubGraph SubGraphInv VecFacts InduceFacts InduceLoop InvFacts InduceInv.
Local Open Scope nat_scope.

Lemma extend_tail_spec active rest nt :
  let t := extend_tail active rest nt in
  nt ≤ t ∧ t ≤ nt + length rest
  ∧ (∀ x, x < t - nt → active !!! (rest !!! x) = true)
  ∧ (t - nt < length rest → active !!! (rest !!! (t - nt)) = false).
Proof.
  revert nt. induction rest as [|y rest IH]; intros nt; cbn [extend_tail].
  - split_and!; simpl; intros; lia.
  - destruct (active !!! y) eqn:Hy.
    + destruct (IH (S nt)) as (H1 & H2 & H3 & H4). cbn [length].
      split_and!; [lia|lia| |].
      * intros x Hx. destruct x as [|x]; [done|].
        change ((y :: rest) !!! S x) with (rest !!! x). apply H3. lia.
      * intros Hlt.
        replace (extend_tail active rest (S nt) - nt)
          with (S (extend_tail active rest (S nt) - S nt)) by lia.
        change ((y :: rest) !!! S ?x) with (rest !!! x). apply H4. lia.
    + split_and!; [lia|lia| |].
      * intros x Hx. lia.
      * intros _. by rewrite Nat.sub_diag.
Qed.

Lemma undo_fold_length active adj tails l :
  length (foldl (undo_step active adj) tails l) = length tails.
Proof.
  revert tails. induction l as [|u l IH]; intros tails; simpl; [done|].
  rewrite IH. unfold undo_step. by rewrite length_insert.
Qed.

(** The last loop of [UndoSelfMutate] extends the tail of each listed
    vertex and of no other. *)
Lemma undo_fold_lookup active adj tails l n :
  NoDup l → (∀ u, u ∈ l → u < length tails) →
  foldl (undo_step active adj) tails l !!! n
  = if bool_decide (n ∈ l)
    then extend_tail active (drop (tails !!! n) (adj !!! n)) (tails !!! n)
    else tails !!! n.
Proof.
  revert tails. induction l as [|u l IH]; intros tails Hnd Hr; cbn [foldl].
  - by rewrite bool_decide_eq_false_2 by apply not_elem_of_nil.
  - apply NoDup_cons in Hnd as [Hu Hnd].
    rewrite IH; [|done|].
    2:{ intros x Hx. unfold undo_step. rewrite length_insert.
        apply Hr. by apply list_elem_of_further. }
    unfold undo_step.
    destruct (decide (n = u)) as [->|Hne].
    + rewrite bool_decide_eq_false_2 by done.
      rewrite bool_decide_eq_true_2 by apply list_elem_of_here.
      rewrite list_lookup_total_insert_eq; [done|].
      apply Hr, list_elem_of_here.
    + rewrite !list_lookup_total_insert_ne by done.
      apply (f_equal (λ b : bool, if b then _ else _)).
      apply bool_decide_ext. rewrite elem_of_cons. naive_solver.
Qed.

Lemma level_in_le1 f1 f2 fs m :
  level_in (f1 :: f2 :: fs) m ≤ 1 ↔ m ∈ f1 ∨ m ∈ f2.
Proof. cbn [level_in]. repeat case_bool_decide; naive_solver lia. Qed.

(** [UndoSelfMutate] keeps the invariant when there is a frame to
    take back. *)
Lemma inv_undo sg :
  inv sg → GroupedStack.starts_ (dropped_verts_ sg) ≠ [] →
  inv (UndoSelfMutate sg).
Proof.
  intros Hinv Hne.
  pose proof (frames_cons_inv (dropped_verts_ sg) Hne) as Hfr.
  set (F1 := GroupedStack.last_frame_iter (dropped_verts_ sg)) in *.
  set (rest := frames (GroupedStack.pop_frame (dropped_verts_ sg))) in *.
  set (d := length (active_ sg)).
  pose proof (inv_nodup sg Hinv) as Hnd. rewrite Hfr in Hnd.
  cbn [concat] in Hnd. rewrite app_assoc in Hnd.
  pose proof (inv_range sg Hinv) as Hrange. rewrite Hfr in Hrange.
  cbn [concat] in Hrange. setoid_rewrite app_assoc in Hrange.
  assert (Hnd1 : NoDup (active_list_ sg ++ F1))
    by (by apply NoDup_app in Hnd as [? _]).
  assert (Hr1 : ∀ u, u ∈ active_list_ sg ++ F1 → u < d).
  { intros u Hu. apply Hrange, elem_of_app. by left. }
  assert (Hlev : ∀ m, lev (UndoSelfMutate sg) m = lev sg m - 1).
  { intros m. unfold lev, UndoSelfMutate.
    cbn [active_list_ dropped_verts_]. fold F1 rest. rewrite Hfr.
    apply level_in_merge. }
  assert (Hlev1 : ∀ m, lev sg m ≤ 1 ↔ m ∈ active_list_ sg ++ F1).
  { intros m. unfold lev. rewrite Hfr, elem_of_app. apply level_in_le1. }
  assert (HA : ∀ m, m < d →
    set_all (active_ sg) F1 !!! m = bool_decide (m ∈ active_list_ sg ++ F1)).
  { intros m Hm. rewrite set_all_lookup by done.
    rewrite (inv_bitmap sg Hinv m Hm).
    rewrite (bool_decide_ext (m ∈ active_list_ sg ++ F1)
               (m ∈ active_list_ sg ∨ m ∈ F1)) by apply elem_of_app.
    repeat case_bool_decide; naive_solver. }
  split; unfold UndoSelfMutate;
    cbn [active_ active_list_ adj_list_ active_tails_ dropped_verts_
         pivot_non_neighs_]; fold F1 rest; rewrite ?set_all_length; fold d.
  - apply (inv_adj_len sg Hinv).
  - rewrite undo_fold_length. apply (inv_tails_len sg Hinv).
  - done.
  - done.
  - intros n Hn. by apply HA.
  - intros n Hn.
    change (level_in ((active_list_ sg ++ F1) :: rest))
      with (lev (UndoSelfMutate sg)).
    pose proof (inv_rows sg Hinv n Hn) as [R1 R2 R3 R4 R5]. fold d in R2.
    rewrite undo_fold_lookup;
      [|done|by rewrite (inv_tails_len sg Hinv)].
    set (row := adj_list_ sg !!! n) in *.
    set (tail := active_tails_ sg !!! n) in *.
    case_bool_decide as Hn1.
    + (* brought back or still a candidate: the tail is extended *)
      apply Hlev1 in Hn1.
      destruct (extend_tail_spec (set_all (active_ sg) F1)
                  (drop tail row) tail) as (E1 & E2 & E3 & E4).
      set (t := extend_tail _ _ _) in *.
      rewrite length_drop in E2, E4.
      assert (Hext : ∀ j m, tail ≤ j → j < t → row !! j = Some m →
                            lev sg m ≤ 1).
      { intros j m Hj1 Hj2 Hm. apply Hlev1.
        specialize (E3 (j - tail) ltac:(lia)).
        rewrite lookup_total_drop in E3.
        replace (tail + (j - tail)) with j in E3 by lia.
        rewrite (list_lookup_total_correct _ _ _ Hm) in E3.
        rewrite HA in E3 by eauto. by apply bool_decide_eq_true in E3. }
      assert (Hstop : ∀ j m, t ≤ j → row !! j = Some m → 2 ≤ lev sg m).
      { intros j m Hj Hm. pose proof (lookup_lt_Some _ _ _ Hm) as Hjl.
        specialize (E4 ltac:(lia)).
        rewrite lookup_total_drop in E4.
        replace (tail + (t - tail)) with t in E4 by lia.
        assert (row !! t = Some (row !!! t)) as Ht
          by (apply lookup_total_lookup; lia).
        rewrite HA in E4 by eauto.
        apply bool_decide_eq_false in E4. rewrite <- Hlev1 in E4.
        specialize (R5 t j _ _ ltac:(lia) Hj Ht Hm). lia. }
      rewrite !Hlev. split.
      * lia.
      * done.
      * intros j m Hj Hm. rewrite Hlev.
        destruct (decide (j < tail)).
        -- specialize (R3 j m ltac:(lia) Hm). lia.
        -- specialize (Hext j m ltac:(lia) Hj Hm). lia.
      * intros j m Hj Hm. rewrite Hlev.
        specialize (Hstop j m Hj Hm). lia.
      * intros i j a b Hi Hij Ha Hb. rewrite !Hlev.
        specialize (R5 i j a b ltac:(lia) Hij Ha Hb). lia.
    + (* deeper: untouched *)
      rewrite <- Hlev1 in Hn1. rewrite !Hlev. split.
      * done.
      * done.
      * intros j m Hj Hm. rewrite Hlev.
        specialize (R3 j m Hj Hm). lia.
      * intros j m Hj Hm. rewrite Hlev.
        specialize (R4 j m Hj Hm). lia.
      * intros i j a b Hi Hij Ha Hb. rewrite !Hlev.
        specialize (R5 i j a b Hi Hij Ha Hb). lia.
Qed.

End UndoInv.

Module RestoreFacts.
Import SubGraph SubGraphInv VecFacts InduceFacts InduceLoop InvFacts
       InduceInv UndoInv.
Local Open Scope nat_scope.

(** The neighbour lists are only rearranged by an induction. *)
Lemma induce_adj_perm sg v excl n :
  inv sg → v ∈ active_list_ sg →
  adj_list_ (InduceFromSelfMutate sg v excl) !!! n ≡ₚ adj_list_ sg !!! n.
Proof.
  intros Hinv Hv.
  destruct (induce_struct sg v excl Hinv Hv)
    as (dr & _ & _ & _ & _ & _ & _ & _ & _ & Hadj & _).
  rewrite Hadj. case_bool_decide as Hn; [|done].
  destruct Hn as [_ Hn].
  pose proof (inv_rows sg Hinv n Hn) as [R1 _ _ _ _].
  by destruct (compact_row_spec (active_ (InduceFromSelfMutate sg v excl))
                 _ _ R1) as (_ & ? & _).
Qed.

Lemma equiv_refl sg : equiv sg sg.
Proof. by split. Qed.

Lemma equiv_trans sg1 sg2 sg3 : equiv sg1 sg2 → equiv sg2 sg3 → equiv sg1 sg3.
Proof.
  intros [A1 A2 A3 A4 A5 A6 A7] [B1 B2 B3 B4 B5 B6 B7]. split; try congruence.
  - by rewrite B3.
  - intros n. by rewrite B5.
Qed.

(** An undo after an induction, and after whatever balanced work was
    done in between: bitmap, tails and stacks come back exactly; the
    candidate list and the neighbour lists come back up to the order
    of their entries. *)
Lemma undo_equiv sg v excl sg1 :
  inv sg → v ∈ active_list_ sg →
  equiv (InduceFromSelfMutate sg v excl) sg1 → inv sg1 →
  equiv sg (UndoSelfMutate sg1) ∧ inv (UndoSelfMutate sg1).
Proof.
  intros Hinv Hv [Q1 Q2 Q3 Q4 Q5 Q6 Q7] Hinv1.
  pose proof (induce_adj_perm sg v excl) as Hadjp.
  destruct (induce_struct sg v excl Hinv Hv)
    as (dr & Hal & Hdr & Hdv & Hpnn & Hlen & Hbit & Hadjl & Htl & _ & _).
  set (sg' := InduceFromSelfMutate sg v excl) in *.
  rewrite <- Q6 in Hdv. rewrite <- Q7 in Hpnn.
  assert (Hne : GroupedStack.starts_ (dropped_verts_ sg1) ≠ []).
  { rewrite Hdv. simpl. by destruct (GroupedStack.starts_ _). }
  pose proof (inv_undo sg1 Hinv1 Hne) as Hinv''.
  assert (HF : GroupedStack.last_frame_iter (dropped_verts_ sg1) = dr)
    by (rewrite Hdv; apply frame_last).
  assert (Hpop : GroupedStack.pop_frame (dropped_verts_ sg1)
                 = dropped_verts_ sg)
    by (rewrite Hdv; apply frame_pop).
  assert (Hperm : active_list_ sg1 ++ dr ≡ₚ active_list_ sg).
  { rewrite Q3, Hal, Hdr. apply filter_app_complement. }
  assert (Hkept : ∀ m, m ∈ active_list_ sg' ↔ kept_by sg v excl m).
  { intros m. rewrite Hal, list_elem_of_filter.
    split; [naive_solver|]. intros Hk. split; [done|].
    destruct Hk as [Hk _]. by apply (neighs_active sg v m). }
  set (sg'' := UndoSelfMutate sg1) in *.
  assert (Hal'' : active_list_ sg'' = active_list_ sg1 ++ dr)
    by (unfold sg'', UndoSelfMutate; simpl; by rewrite HF).
  assert (Hdv'' : dropped_verts_ sg'' = dropped_verts_ sg)
    by (unfold sg'', UndoSelfMutate; simpl; done).
  assert (Hadj'' : adj_list_ sg'' = adj_list_ sg1) by done.
  assert (Hact'' : active_ sg'' = set_all (active_ sg') dr)
    by (unfold sg'', UndoSelfMutate; simpl; by rewrite HF, Q1).
  assert (Hlev : ∀ m, lev sg'' m = lev sg m).
  { intros m. unfold lev. rewrite Hal'', Hdv''. by apply level_in_perm. }
  assert (Hact : active_ sg'' = active_ sg).
  { apply list_eq_same_length with (length (active_ sg));
      [done|by rewrite Hact'', set_all_length|].
    intros i x y Hi Hx Hy.
    apply list_lookup_total_correct in Hx, Hy. subst x y.
    rewrite Hact'', set_all_lookup by lia. rewrite Hbit by done.
    rewrite (inv_bitmap sg Hinv i Hi).
    assert (i ∈ active_list_ sg ↔ i ∈ active_list_ sg' ∨ i ∈ dr) as Hiff
      by (by rewrite <- Hperm, elem_of_app, Q3).
    rewrite Hkept in Hiff.
    repeat case_bool_decide; naive_solver. }
  assert (Hadj : ∀ n, adj_list_ sg'' !!! n ≡ₚ adj_list_ sg !!! n).
  { intros n. rewrite Hadj'', Q5. by apply Hadjp. }
  split; [|done]. split.
  - done.
  - apply list_eq_same_length with (length (active_ sg));
      [by rewrite (inv_tails_len sg Hinv)
      |by rewrite (inv_tails_len sg'' Hinv''), Hact|].
    intros i x y Hi Hx Hy.
    apply list_lookup_total_correct in Hx, Hy. subst x y.
    pose proof (inv_rows sg Hinv i Hi) as R.
    pose proof (inv_rows sg'' Hinv'' i ltac:(by rewrite Hact)) as R''.
    rewrite Hact in R''.
    apply (row_ok_ext _ _ (lev sg) _ (lev sg i)) in R'';
      [|by intros; rewrite Hlev|by rewrite Hlev].
    apply row_ok_tail in R, R''. rewrite R, R''.
    by apply length_filter_perm.
  - by rewrite Hal''.
  - by rewrite Hadj'', Q4.
  - done.
  - done.
  - by unfold sg'', UndoSelfMutate.
Qed.

Lemma undo_induce sg v excl :
  inv sg → v ∈ active_list_ sg →
  equiv sg (UndoSelfMutate (InduceFromSelfMutate sg v excl))
  ∧ inv (UndoSelfMutate (InduceFromSelfMutate sg v excl)).
Proof.
  intros Hinv Hv. apply (undo_equiv sg v excl); [done|done| |].
  - apply equiv_refl.
  - by apply inv_induce.
Qed.

(** The second loop of [ActiveUnreachableFromPivot]. *)
Lemma unreachable_fold l a (pnn : GroupedStack.t nat) :
  NoDup l → (∀ n, n ∈ l → n < length a) →
  let r := foldl unreachable_step (a, pnn) l in
  r.2 = GroupedStack.mk
          (GroupedStack.elems_ pnn ++ filter (λ n, a !!! n = true) l)
          (GroupedStack.starts_ pnn)
  ∧ length r.1 = length a
  ∧ (∀ n, n < length a →
          r.1 !!! n = if bool_decide (n ∈ l) then true else a !!! n).
Proof.
  revert a pnn. induction l as [|x l IH]; intros a pnn Hnd Hr; cbn [foldl];
    cbv zeta.
  - cbn [fst snd]. rewrite filter_nil, app_nil_r. split_and!.
    + by destruct pnn.
    + done.
    + intros n Hn. by rewrite bool_decide_eq_false_2 by apply not_elem_of_nil.
  - apply NoDup_cons in Hnd as [Hx Hnd].
    pose proof (Hr x (list_elem_of_here _ _)) as Hxa.
    assert (Hr' : ∀ n, n ∈ l → n < length a)
      by (intros n Hn; apply Hr; by apply list_elem_of_further).
    cbv zeta in IH.
    assert (Hstep : unreachable_step (a, pnn) x
              = if (a !!! x : bool) then (a, GroupedStack.push_back x pnn)
                else (<[x := true]> a, pnn)) by done.
    rewrite Hstep. clear Hstep.
    destruct (a !!! x) eqn:Hax.
    + destruct (IH a (GroupedStack.push_back x pnn) Hnd Hr')
        as (I1 & I2 & I3).
      split_and!; [|done|].
      * rewrite I1. cbn [GroupedStack.push_back GroupedStack.elems_
                         GroupedStack.starts_].
        rewrite filter_cons_True by done. by rewrite <- app_assoc.
      * intros n Hn. rewrite I3 by done.
        destruct (decide (n = x)) as [->|Hne].
        -- rewrite (bool_decide_eq_true_2 (x ∈ x :: l))
             by apply list_elem_of_here.
           by case_bool_decide.
        -- apply (f_equal (λ b : bool, if b then _ else _)).
           apply bool_decide_ext. rewrite elem_of_cons. naive_solver.
    + destruct (IH (<[x := true]> a) pnn Hnd) as (I1 & I2 & I3).
      { intros n Hn. rewrite length_insert. by apply Hr'. }
      rewrite length_insert in I2, I3.
      split_and!; [|done|].
      * rewrite I1. rewrite filter_cons_False by (by rewrite Hax).
        f_equal. f_equal. apply filter_ext_in. intros n Hn.
        rewrite list_lookup_total_insert_ne; [done|].
        intros ->. done.
      * intros n Hn. rewrite I3 by done.
        destruct (decide (n = x)) as [->|Hne].
        -- rewrite (bool_decide_eq_true_2 (x ∈ x :: l))
             by apply list_elem_of_here.
           rewrite list_lookup_total_insert_eq by done.
           by case_bool_decide.
        -- rewrite list_lookup_total_insert_ne by done.
           apply (f_equal (λ b : bool, if b then _ else _)).
           apply bool_decide_ext. rewrite elem_of_cons. naive_solver.
Qed.

(** [ActiveUnreachableFromPivot]: the candidates outside the active
    neighbours of [p], in the order of the candidate list; the bitmap
    is back as it was; only the stack of non-neighbours grew. *)
Lemma unreachable_spec sg p :
  inv sg →
  let r := ActiveUnreachableFromPivot sg p in
  r.2 = filter (λ n, n ∉ Neighs sg p) (active_list_ sg)
  ∧ r.1 = mk (active_ sg) (active_list_ sg) (adj_list_ sg)
             (active_tails_ sg) (dropped_verts_ sg)
             (GroupedStack.mk
                (GroupedStack.elems_ (pivot_non_neighs_ sg) ++ r.2)
                (GroupedStack.starts_ (pivot_non_neighs_ sg)
                   ++ [length (GroupedStack.elems_ (pivot_non_neighs_ sg))])).
Proof.
  intros Hinv. unfold ActiveUnreachableFromPivot.
  set (a0 := clear_all (active_ sg) (Neighs sg p)).
  set (pnn0 := GroupedStack.create_new_frame (pivot_non_neighs_ sg)).
  assert (NoDup (active_list_ sg)) as Hnd.
  { pose proof (inv_nodup sg Hinv) as H. by apply NoDup_app in H as [? _]. }
  assert (Ha0 : length a0 = length (active_ sg))
    by (unfold a0; by rewrite clear_all_length).
  destruct (unreachable_fold (active_list_ sg) a0 pnn0 Hnd)
    as (I1 & I2 & I3).
  { intros n Hn. rewrite Ha0. by apply active_in_range. }
  destruct (foldl unreachable_step (a0, pnn0) (active_list_ sg))
    as [a1 pnn1]. cbn [fst snd] in *.
  assert (Hf : filter (λ n, a0 !!! n = true) (active_list_ sg)
               = filter (λ n, n ∉ Neighs sg p) (active_list_ sg)).
  { apply filter_ext_in. intros n Hn.
    pose proof (active_in_range sg n Hinv Hn) as Hlt.
    unfold a0. rewrite clear_all_lookup by done.
    rewrite (inv_bitmap sg Hinv n Hlt).
    rewrite (bool_decide_eq_true_2 (n ∈ active_list_ sg)) by done.
    case_bool_decide; naive_solver. }
  assert (Hlast : GroupedStack.last_frame_iter pnn1
                  = filter (λ n, n ∉ Neighs sg p) (active_list_ sg)).
  { rewrite I1, Hf. unfold pnn0. cbn [GroupedStack.create_new_frame
      GroupedStack.elems_ GroupedStack.starts_]. apply frame_last. }
  split; [done|].
  rewrite Hlast. f_equal.
  - apply list_eq_same_length with (length (active_ sg)); [done|lia|].
    intros i x y Hi Hx Hy.
    apply list_lookup_total_correct in Hx, Hy. subst x y.
    rewrite I3 by lia. unfold a0. rewrite clear_all_lookup by done.
    rewrite (inv_bitmap sg Hinv i Hi).
    repeat case_bool_decide; naive_solver.
  - rewrite I1, Hf. done.
Qed.

Lemma inv_unreachable sg p :
  inv sg → inv (ActiveUnreachableFromPivot sg p).1.
Proof.
  intros Hinv. destruct (unreachable_spec sg p Hinv) as [_ ->].
  destruct Hinv. by split.
Qed.

Lemma inv_pop sg : inv sg → inv (PopNonNeighbors sg).
Proof. intros []. by split. Qed.

(** Popping the frame pushed by [ActiveUnreachableFromPivot] gives the
    state back. *)
Lemma pop_unreachable sg p :
  inv sg → PopNonNeighbors (ActiveUnreachableFromPivot sg p).1 = sg.
Proof.
  intros Hinv. destruct (unreachable_spec sg p Hinv) as [_ ->].
  unfold PopNonNeighbors. cbn [active_ active_list_ adj_list_ active_tails_
    dropped_verts_ pivot_non_neighs_].
  rewrite frame_pop. by destruct sg.
Qed.

End RestoreFacts.

Module FromDAG.
Import SubGraph SubGraphInv VecFacts InvFacts InduceInv.
Local Open Scope nat_scope.

Lemma adj_push_length adj i x : length (adj_push adj i x) = length adj.
Proof. unfold adj_push. by rewrite length_insert. Qed.

Lemma adj_push_elem adj i x a b :
  i < length adj →
  b ∈ adj_push adj i x !!! a ↔ b ∈ adj !!! a ∨ (a = i ∧ b = x).
Proof.
  intros Hi. unfold adj_push.
  destruct (decide (a = i)) as [->|Hne].
  - rewrite list_lookup_total_insert_eq by done.
    rewrite elem_of_app, list_elem_of_singleton. naive_solver.
  - rewrite list_lookup_total_insert_ne by done. naive_solver.
Qed.

(** The numbering loop of [InduceFromDAG]. *)
Lemma remap_fold l rm a al adj :
  NoDup l → (∀ v, v ∈ l → rm !! v = None) →
  let r := foldl remap_step (rm, a, al, adj) l in
  (∀ i v, l !! i = Some v → r.1.1.1 !! v = Some (size rm + i))
  ∧ (∀ v, v ∉ l → r.1.1.1 !! v = rm !! v)
  ∧ r.1.1.2 = set_all a (seq (size rm) (length l))
  ∧ r.1.2 = al ++ seq (size rm) (length l)
  ∧ length r.2 = length adj
  ∧ (∀ n, r.2 !!! n
          = if bool_decide (size rm ≤ n < size rm + length l)
            then [] else adj !!! n).
Proof.
  revert rm a al adj.
  induction l as [|v l IH]; intros rm a al adj Hnd Hfresh; cbn [foldl];
    cbv zeta.
  - cbn [fst snd length seq]. split_and!; try done.
    + by rewrite app_nil_r.
    + intros n. rewrite bool_decide_eq_false_2; [done|lia].
  - apply NoDup_cons in Hnd as [Hv Hnd].
    assert (Hstep : remap_step (rm, a, al, adj) v
              = (<[v := size rm]> rm, <[size rm := true]> a,
                 al ++ [size rm], <[size rm := []]> adj)) by done.
    rewrite Hstep. clear Hstep.
    assert (Hsize : size (<[v := size rm]> rm) = S (size rm)).
    { apply map_size_insert_None, Hfresh, list_elem_of_here. }
    specialize (IH (<[v := size rm]> rm) (<[size rm := true]> a)
                   (al ++ [size rm]) (<[size rm := []]> adj) Hnd).
    cbv zeta in IH. rewrite Hsize in IH.
    destruct IH as (I1 & I2 & I3 & I4 & I5 & I6).
    { intros w Hw. rewrite lookup_insert_ne by (intros ->; done).
      apply Hfresh. by apply list_elem_of_further. }
    split_and!.
    + intros [|i] w Hw; simpl in Hw.
      * injection Hw as ->. rewrite I2 by done.
        rewrite lookup_insert_eq. f_equal. lia.
      * rewrite (I1 i w Hw). f_equal. lia.
    + intros w Hw. apply not_elem_of_cons in Hw as [Hwv Hw].
      rewrite I2 by done. by rewrite lookup_insert_ne.
    + rewrite I3. done.
    + rewrite I4, <- app_assoc. done.
    + by rewrite I5, length_insert.
    + intros n. rewrite I6. cbn [length].
      destruct (decide (n = size rm)) as [->|Hne].
      * rewrite bool_decide_eq_false_2 by lia.
        rewrite bool_decide_eq_true_2 by lia.
        destruct (decide (size rm < length adj)).
        -- by rewrite list_lookup_total_insert_eq.
        -- rewrite list_insert_ge by lia.
           rewrite list_lookup_total_alt, lookup_ge_None_2 by lia. done.
      * rewrite list_lookup_total_insert_ne by done.
        apply (f_equal (λ b : bool, if b then _ else _)).
        apply bool_decide_ext. lia.
Qed.

Lemma build_inner_fold rm v_r l adj :
  v_r < length adj →
  (∀ w w_r, rm !! w = Some w_r → w_r < length adj) →
  let adj' := foldl (build_inner rm v_r) adj l in
  length adj' = length adj
  ∧ ∀ a b, b ∈ adj' !!! a ↔
      b ∈ adj !!! a
      ∨ ∃ w w_r, w ∈ l ∧ rm !! w = Some w_r
                 ∧ ((a = v_r ∧ b = w_r) ∨ (a = w_r ∧ b = v_r)).
Proof.
  intros Hv Hrm. revert adj Hv Hrm.
  induction l as [|w l IH]; intros adj Hv Hrm; cbn [foldl]; cbv zeta.
  - split; [done|]. intros a b. split; [by left|].
    intros [?|(w & w_r & Hw & _)]; [done|]. by apply not_elem_of_nil in Hw.
  - unfold build_inner at 2 4.
    destruct (rm !! w) as [w_r|] eqn:Hw.
    + pose proof (Hrm w w_r Hw) as Hwr.
      destruct (IH (adj_push (adj_push adj v_r w_r) w_r v_r)) as [I1 I2].
      { by rewrite !adj_push_length. }
      { intros. rewrite !adj_push_length. eauto. }
      cbv zeta in *.
      split; [by rewrite I1, !adj_push_length|].
      intros a b. rewrite I2.
      rewrite adj_push_elem by (by rewrite adj_push_length).
      rewrite adj_push_elem by done.
      split.
      * intros [[[?|[-> ->]]|[-> ->]]|(w' & w_r' & Hw' & Hr' & Hc)].
        -- by left.
        -- right. exists w, w_r. split_and!; [apply list_elem_of_here|done|by left].
        -- right. exists w, w_r. split_and!; [apply list_elem_of_here|done|by right].
        -- right. exists w', w_r'. split_and!; [by apply list_elem_of_further|done|done].
      * intros [?|(w' & w_r' & Hw' & Hr' & Hc)]; [by left; left; left|].
        apply elem_of_cons in Hw' as [->|Hw'].
        -- rewrite Hw in Hr'. injection Hr' as <-.
           destruct Hc as [[-> ->]|[-> ->]]; [left; left; by right|left; by right].
        -- right. exists w', w_r'. done.
    + destruct (IH adj Hv Hrm) as [I1 I2]. cbv zeta in *.
      split; [done|]. intros a b. rewrite I2.
      split.
      * intros [?|(w' & w_r' & Hw' & Hr' & Hc)]; [by left|].
        right. exists w', w_r'. split_and!; [by apply list_elem_of_further|done|done].
      * intros [?|(w' & w_r' & Hw' & Hr' & Hc)]; [by left|].
        apply elem_of_cons in Hw' as [->|Hw']; [congruence|].
        right. exists w', w_r'. done.
Qed.

Lemma build_outer_fold dag rm l adj :
  (∀ w w_r, rm !! w = Some w_r → w_r < length adj) →
  (∀ v, v ∈ l → is_Some (rm !! v)) →
  let adj' := foldl (build_outer dag rm) adj l in
  length adj' = length adj
  ∧ ∀ a b, b ∈ adj' !!! a ↔
      b ∈ adj !!! a
      ∨ ∃ v w v_r w_r, v ∈ l ∧ w ∈ out_neigh dag v
           ∧ rm !! v = Some v_r ∧ rm !! w = Some w_r
           ∧ ((a = v_r ∧ b = w_r) ∨ (a = w_r ∧ b = v_r)).
Proof.
  revert adj. induction l as [|v l IH]; intros adj Hrm Hdom; cbn [foldl];
    cbv zeta.
  - split; [done|]. intros a b. split; [by left|].
    intros [?|(v & w & ? & ? & Hv & _)]; [done|]. by apply not_elem_of_nil in Hv.
  - destruct (Hdom v (list_elem_of_here _ _)) as [v_r Hv].
    assert (Hstep : build_outer dag rm adj v
              = foldl (build_inner rm v_r) adj (out_neigh dag v))
      by (unfold build_outer; by rewrite Hv).
    rewrite Hstep. clear Hstep.
    destruct (build_inner_fold rm v_r (out_neigh dag v) adj) as [B1 B2];
      [by eapply Hrm|done|]. cbv zeta in *.
    destruct (IH (foldl (build_inner rm v_r) adj (out_neigh dag v)))
      as [I1 I2].
    { intros. rewrite B1. eauto. }
    { intros. apply Hdom. by apply list_elem_of_further. }
    cbv zeta in *. split; [by rewrite I1|].
    intros a b. rewrite I2, B2. split.
    + intros [[?|(w & w_r & Hw & Hr & Hc)]|(v' & w & v_r' & w_r & Hv' & Hw & Hr1 & Hr2 & Hc)].
      * by left.
      * right. exists v, w, v_r, w_r. split_and!; try done. apply list_elem_of_here.
      * right. exists v', w, v_r', w_r. split_and!; try done. by apply list_elem_of_further.
    + intros [?|(v' & w & v_r' & w_r & Hv' & Hw & Hr1 & Hr2 & Hc)]; [by left; left|].
      apply elem_of_cons in Hv' as [->|Hv'].
      * rewrite Hv in Hr1. injection Hr1 as <-.
        left. right. exists w, w_r. done.
      * right. exists v', w, v_r', w_r. done.
Qed.

Lemma tails_fold (adj : list (list nat)) tails l n :
  (∀ v, v ∈ l → v < length tails) →
  let tails' := foldl (λ (tails : list nat) (v_r : nat),
                         <[v_r := length (adj !!! v_r)]> tails) tails l in
  length tails' = length tails
  ∧ tails' !!! n = if bool_decide (n ∈ l) then length (adj !!! n)
                   else tails !!! n.
Proof.
  revert tails. induction l as [|v l IH]; intros tails Hr; cbn [foldl];
    cbv zeta.
  - split; [done|]. by rewrite bool_decide_eq_false_2 by apply not_elem_of_nil.
  - destruct (IH (<[v := length (adj !!! v)]> tails)) as [I1 I2].
    { intros w Hw. rewrite length_insert. apply Hr. by apply list_elem_of_further. }
    cbv zeta in *. rewrite length_insert in I1. split; [done|].
    rewrite I2. destruct (decide (n = v)) as [->|Hne].
    + rewrite (bool_decide_eq_true_2 (v ∈ v :: l)) by apply list_elem_of_here.
      case_bool_decide; [done|].
      apply list_lookup_total_insert_eq, Hr, list_elem_of_here.
    + rewrite list_lookup_total_insert_ne by done.
      apply (f_equal (λ b : bool, if b then _ else _)).
      apply bool_decide_ext. rewrite elem_of_cons. naive_solver.
Qed.

End FromDAG.

Module FromDAGInv.
Import SubGraph SubGraphInv VecFacts InvFacts InduceInv FromDAG.
Local Open Scope nat_scope.

(** The state built by [InduceFromDAG]: every out-neighbour of the
    root is a candidate, numbered by its position; two of them are
    neighbours exactly when the DAG has an edge between them. *)
Lemma from_dag_spec sg0 dag u :
  NoDup (out_neigh dag u) →
  let sg := InduceFromDAG sg0 dag u in
  let d := out_degree dag u in
  length (active_ sg) = d
  ∧ (∀ n, n < d → active_ sg !!! n = true)
  ∧ active_list_ sg = seq 0 d
  ∧ length (adj_list_ sg) = d
  ∧ length (active_tails_ sg) = d
  ∧ (∀ n, n < d → active_tails_ sg !!! n = length (adj_list_ sg !!! n))
  ∧ dropped_verts_ sg = GroupedStack.mk [] []
  ∧ pivot_non_neighs_ sg = GroupedStack.mk [] []
  ∧ (∀ a b, b ∈ adj_list_ sg !!! a ↔
            local_edge dag u a b ∨ local_edge dag u b a).
Proof.
  intros Hnd. cbv zeta. unfold InduceFromDAG, out_degree.
  set (out := out_neigh dag u) in *. set (d := length out).
  pose proof (remap_fold out ∅ (replicate d false) []
                (resize d [] (adj_list_ sg0)) Hnd) as Hr.
  cbv zeta in Hr. rewrite map_size_empty in Hr.
  destruct (foldl remap_step _ out) as [[[rm a1] al1] adj1].
  cbn [fst snd] in Hr.
  destruct Hr as (R1 & R2 & R3 & R4 & R5 & R6); [by intros; apply lookup_empty|].
  rewrite length_resize in R5. fold d in R3, R4, R6.
  assert (Hrm : ∀ w w_r, rm !! w = Some w_r ↔ out !! w_r = Some w).
  { intros w w_r. split.
    - intros Hw. destruct (decide (w ∈ out)) as [Hin|Hin].
      + apply list_elem_of_lookup in Hin as [i Hi].
        rewrite (R1 i w Hi) in Hw. simpl in Hw. by injection Hw as <-.
      + rewrite R2, lookup_empty in Hw by done. done.
    - intros Hw. by rewrite (R1 _ _ Hw). }
  assert (Hrm_lt : ∀ w w_r, rm !! w = Some w_r → w_r < d).
  { intros w w_r Hw. apply Hrm in Hw. by apply lookup_lt_Some in Hw. }
  destruct (build_outer_fold dag rm out adj1) as [B1 B2].
  { intros. rewrite R5. eauto. }
  { intros v Hv. apply list_elem_of_lookup in Hv as [i Hi].
    exists i. by apply Hrm. }
  cbv zeta in B1, B2.
  set (adj2 := foldl (build_outer dag rm) adj1 out) in *.
  cbn [active_ active_list_ adj_list_ active_tails_ dropped_verts_
       pivot_non_neighs_].
  assert (Hal : al1 = seq 0 d) by done.
  split_and!.
  - rewrite R3, set_all_length. apply length_replicate.
  - intros n Hn. rewrite R3, set_all_lookup by (by rewrite length_replicate).
    rewrite bool_decide_eq_true_2; [done|]. apply elem_of_seq. lia.
  - done.
  - by rewrite B1.
  - rewrite Hal.
    destruct (tails_fold adj2 (resize d 0 (active_tails_ sg0)) (seq 0 d) 0)
      as [T1 _]; [|by rewrite T1, length_resize].
    intros v Hv. rewrite length_resize. apply elem_of_seq in Hv. lia.
  - intros n Hn. rewrite Hal.
    destruct (tails_fold adj2 (resize d 0 (active_tails_ sg0)) (seq 0 d) n)
      as [_ T2].
    { intros v Hv. rewrite length_resize. apply elem_of_seq in Hv. lia. }
    rewrite T2, bool_decide_eq_true_2; [done|]. apply elem_of_seq. lia.
  - done.
  - done.
  - intros a b. rewrite B2. rewrite R6.
    assert (b ∈ (if bool_decide (0 ≤ a < 0 + d) then []
                 else resize d [] (adj_list_ sg0) !!! a) ↔ False) as ->.
    { case_bool_decide as Ha; [by rewrite elem_of_nil|].
      rewrite list_lookup_total_alt, lookup_ge_None_2
        by (rewrite length_resize; lia).
      simpl. by rewrite elem_of_nil. }
    unfold local_edge. fold out. split.
    + intros [[]|(v & w & v_r & w_r & Hv & Hw & Hr1 & Hr2 & Hc)].
      apply Hrm in Hr1, Hr2.
      destruct Hc as [[-> ->]|[-> ->]]; [left|right]; by exists v, w.
    + intros [(v & w & Hv & Hw & Hvw)|(v & w & Hv & Hw & Hvw)]; right.
      * exists v, w, a, b. split_and!; try done.
        -- by eapply list_elem_of_lookup_2.
        -- by apply Hrm.
        -- by apply Hrm.
        -- by left.
      * exists v, w, b, a. split_and!; try done.
        -- by eapply list_elem_of_lookup_2.
        -- by apply Hrm.
        -- by apply Hrm.
        -- by right.
Qed.

Lemma sorted_lt_nodup (l : list nat) : StronglySorted lt l → NoDup l.
Proof.
  induction 1 as [|x l Hs IH Hx]; [apply NoDup_nil_2|].
  apply NoDup_cons. split; [|done].
  intros Hin. rewrite Forall_forall in Hx. specialize (Hx x Hin). lia.
Qed.

Lemma dag_wf_row dag u :
  dag_wf dag → u < num_nodes dag → dag_row_wf dag u.
Proof.
  intros Hwf Hu. unfold dag_wf in Hwf. rewrite Forall_forall in Hwf.
  apply Hwf, elem_of_seq. lia.
Qed.

Lemma dag_wf_nodup dag u :
  dag_wf dag → u < num_nodes dag → NoDup (out_neigh dag u).
Proof.
  intros Hwf Hu. destruct (dag_wf_row dag u Hwf Hu) as [Hs _].
  by apply sorted_lt_nodup.
Qed.

Lemma local_edge_lt dag u x y :
  local_edge dag u x y → x < out_degree dag u ∧ y < out_degree dag u.
Proof.
  intros (v & w & Hv & Hw & _). unfold out_degree.
  split; by eapply lookup_lt_Some.
Qed.

Lemma inv_from_dag sg0 dag u :
  NoDup (out_neigh dag u) → inv (InduceFromDAG sg0 dag u).
Proof.
  intros Hnd.
  destruct (from_dag_spec sg0 dag u Hnd)
    as (H1 & H2 & H3 & H4 & H5 & H6 & H7 & H8 & H9).
  set (sg := InduceFromDAG sg0 dag u) in *.
  set (d := out_degree dag u) in *.
  assert (Hfr : frames (dropped_verts_ sg) = []) by (by rewrite H7).
  assert (Hlev : ∀ m, m < d → lev sg m = 0).
  { intros m Hm. apply lev_0. rewrite H3. apply elem_of_seq. lia. }
  split.
  - by rewrite H4, H1.
  - by rewrite H5, H1.
  - rewrite Hfr, H3. simpl. rewrite app_nil_r. apply NoDup_seq.
  - intros n. rewrite Hfr, H3, H1. simpl. rewrite app_nil_r.
    rewrite elem_of_seq. lia.
  - intros n. rewrite H1. intros Hn. rewrite H2 by done.
    rewrite bool_decide_eq_true_2; [done|]. rewrite H3. apply elem_of_seq. lia.
  - intros n. rewrite H1. intros Hn. rewrite H6 by done.
    assert (Hrange : ∀ j m, (adj_list_ sg !!! n) !! j = Some m → m < d).
    { intros j m Hm. apply list_elem_of_lookup_2 in Hm.
      apply H9 in Hm as [He|He]; apply local_edge_lt in He; lia. }
    split.
    + done.
    + done.
    + intros j m Hj Hm. rewrite Hlev by eauto. lia.
    + intros j m Hj Hm. apply lookup_lt_Some in Hm. lia.
    + intros i j a b Hi Hij Ha Hb. apply lookup_lt_Some in Ha. lia.
Qed.

Lemma graph_ok_from_dag sg0 dag u :
  dag_wf dag → u < num_nodes dag →
  graph_ok (adj_list_ (InduceFromDAG sg0 dag u)).
Proof.
  intros Hwf Hu.
  pose proof (dag_wf_nodup dag u Hwf Hu) as Hnd.
  destruct (from_dag_spec sg0 dag u Hnd)
    as (_ & _ & _ & _ & _ & _ & _ & _ & H9).
  split.
  - intros n Hn. apply H9 in Hn.
    assert (local_edge dag u n n) as (v & w & Hv & Hw & Hvw) by tauto.
    rewrite Hv in Hw. injection Hw as <-.
    destruct (dag_wf_row dag u Hwf Hu) as [_ Hall].
    rewrite Forall_forall in Hall.
    destruct (Hall v) as (Hvn & _ & _); [by eapply list_elem_of_lookup_2|].
    destruct (dag_wf_row dag v Hwf Hvn) as [_ Hall'].
    rewrite Forall_forall in Hall'.
    destruct (Hall' v Hvw) as (_ & Hne & _). done.
  - intros n m Hm. apply H9. apply H9 in Hm. tauto.
Qed.

End FromDAGInv.

(** ** Counting cliques *)

Module CliqueFacts.
Import Cliques CombCache CombCacheFacts.
Local Open Scope nat_scope.

Section WithE.
Variable E : nat → nat → bool.

Lemma count_in_0 l : count_in E 0 l = 1.
Proof. unfold count_in. by destruct l. Qed.

Lemma count_in_nil k : count_in E (S k) [] = 0.
Proof. done. Qed.

Lemma filter_map_cons_true (p : nat → bool) x (ss : list (list nat)) :
  p x = true →
  filter (λ s, forallb p s = true) (map (cons x) ss)
  = map (cons x) (filter (λ s, forallb p s = true) ss).
Proof.
  intros Hp. induction ss as [|s ss IH]; [done|].
  cbn [map]. rewrite !filter_cons. cbn [forallb]. rewrite Hp. cbn [andb].
  destruct (decide (forallb p s = true)); cbn [map]; by rewrite IH.
Qed.

Lemma filter_map_cons_false (p : nat → bool) x (ss : list (list nat)) :
  p x ≠ true →
  filter (λ s, forallb p s = true) (map (cons x) ss) = [].
Proof.
  intros Hp. apply VecFacts.filter_none, Forall_forall.
  intros s Hs. apply list_elem_of_fmap in Hs as (s' & -> & _).
  cbn [forallb]. destruct (p x); [done|]. by cbn.
Qed.

Lemma filter_combs (p : nat → bool) k l :
  filter (λ s, forallb p s = true) (combs k l)
  = combs k (filter (λ x, p x = true) l).
Proof.
  revert k. induction l as [|x l IH]; intros k.
  - by destruct k.
  - destruct k as [|k].
    + rewrite filter_cons.
      destruct (decide (p x = true)); [done|].
      by destruct (filter _ l).
    + cbn [combs]. rewrite filter_app, !IH.
      destruct (decide (p x = true)) as [Hp|Hp].
      * rewrite filter_cons_True by done. cbn [combs].
        by rewrite filter_map_cons_true, IH.
      * rewrite filter_cons_False by done.
        by rewrite filter_map_cons_false.
Qed.

Lemma count_in_cons k x l :
  count_in E (S k) (x :: l)
  = count_in E k (filter (λ y, E x y = true) l) + count_in E (S k) l.
Proof.
  unfold count_in. cbn [combs]. rewrite filter_app, length_app. f_equal.
  rewrite <- filter_combs.
  induction (combs k l) as [|s ss IH]; [done|].
  cbn [map].
  destruct (forallb (E x) s) eqn:Hs.
  - rewrite (filter_cons_True (λ s, forallb (E x) s = true)) by done.
    destruct (is_clique E s) eqn:Hc.
    + rewrite !filter_cons_True; [|done|by cbn [is_clique]; rewrite Hs, Hc].
      cbn [length]. by rewrite IH.
    + rewrite !filter_cons_False;
        [done|by rewrite Hc|by cbn [is_clique]; rewrite Hs, Hc].
  - rewrite (filter_cons_False (λ s, forallb (E x) s = true))
      by (by rewrite Hs).
    rewrite filter_cons_False; [done|]. cbn [is_clique]. by rewrite Hs.
Qed.

Lemma combs_short {A} k (l : list A) : length l < k → combs k l = [].
Proof.
  revert k. induction l as [|x l IH]; intros [|k] Hk; simpl in Hk;
    try lia; [done|].
  cbn [combs]. rewrite !IH by lia. done.
Qed.

Lemma count_in_short k l : length l < k → count_in E k l = 0.
Proof. intros Hk. unfold count_in. by rewrite combs_short. Qed.

Hypothesis E_sym : ∀ a b, E a b = E b a.

(** The count does not depend on the order of the list. *)
Lemma count_in_perm_aux n :
  ∀ l l', length l ≤ n → l ≡ₚ l' → ∀ k, count_in E k l = count_in E k l'.
Proof.
  induction n as [|n IHn]; intros l l' Hn Hp k.
  - destruct l; [|simpl in Hn; lia].
    apply Permutation_nil_l in Hp. by subst.
  - revert Hn. induction Hp as [|x l l' Hp IH|x y l|l l' l'' H1 IH1 H2 IH2];
      intros Hn.
    + done.
    + destruct k as [|k]; [by rewrite !count_in_0|].
      simpl in Hn. rewrite !count_in_cons. f_equal.
      * apply IHn; [|by apply filter_Permutation].
        pose proof (length_filter (λ y, E x y = true) l). lia.
      * apply IHn; [lia|done].
    + destruct k as [|k]; [by rewrite !count_in_0|].
      simpl in Hn. rewrite !count_in_cons.
      rewrite !filter_cons. rewrite (E_sym x y).
      destruct (decide (E y x = true)) as [Hyx|Hyx].
      * destruct k as [|k]; [rewrite !count_in_0; lia|].
        rewrite !count_in_cons.
        rewrite (VecFacts.filter_filter_comm
                   (λ z, E x z = true) (λ z, E y z = true)).
        lia.
      * lia.
    + rewrite IH1 by done. apply IH2. by rewrite <- H1.
Qed.

Lemma count_in_perm k l l' :
  l ≡ₚ l' → count_in E k l = count_in E k l'.
Proof. intros Hp. by eapply count_in_perm_aux. Qed.

End WithE.

End CliqueFacts.

Module SimpleGraph.
Import Cliques.

Lemma ascending_sorted l : ascending l = true → StronglySorted lt l.
Proof.
  intros H. apply Sorted_StronglySorted; [intros x y z; lia|].
  induction l as [|x l IH]; [constructor|].
  cbn [ascending] in H. destruct l as [|y l].
  - repeat constructor.
  - apply andb_true_iff in H as [Hxy Hl]. apply Nat.ltb_lt in Hxy.
    constructor; [by apply IH|by constructor].
Qed.

Lemma existsb_elem_of u l : existsb (Nat.eqb u) l = true → u ∈ l.
Proof.
  intros H. apply existsb_exists in H as (x & Hx & Heq).
  apply Nat.eqb_eq in Heq. subst. by apply list_elem_of_In.
Qed.

(** The test is sound. *)
Lemma undirected_simple_b_spec g :
  undirected_simple_b g = true → undirected_simple g.
Proof.
  intros H. unfold undirected_simple_b in H. rewrite forallb_forall in H.
  apply Forall_forall. intros u Hu. apply list_elem_of_In in Hu.
  specialize (H u Hu). unfold simple_row_b in H.
  apply andb_true_iff in H as [Ha Hf]. split.
  - by apply ascending_sorted.
  - apply Forall_forall. intros v Hv. apply list_elem_of_In in Hv.
    rewrite forallb_forall in Hf. specialize (Hf v Hv).
    apply andb_true_iff in Hf as [Hf He].
    apply andb_true_iff in Hf as [Hlt Hne].
    apply Nat.ltb_lt in Hlt. apply negb_true_iff, Nat.eqb_neq in Hne.
    split_and!; [done|done|by apply existsb_elem_of].
Qed.

End SimpleGraph.

Module PivotValue.
Import Cliques CombCache CombCacheFacts CliqueFacts.

Lemma sumZ_app l1 l2 : sumZ (l1 ++ l2) = sumZ l1 + sumZ l2.
Proof. induction l1 as [|x l1 IH]; simpl; [done|]. rewrite IH. lia. Qed.

Lemma sumZ_perm l1 l2 : l1 ≡ₚ l2 → sumZ l1 = sumZ l2.
Proof.
  induction 1 as [|x l l' _ IH|x y l|l l' l'' _ IH1 _ IH2]; simpl; lia.
Qed.

Lemma sumZ_map_ext {A} (f g : A → Z) l :
  (∀ x, x ∈ l → f x = g x) → sumZ (map f l) = sumZ (map g l).
Proof.
  induction l as [|x l IH]; intros H; simpl; [done|].
  rewrite H by apply list_elem_of_here. rewrite IH; [done|].
  intros y Hy. apply H. by apply list_elem_of_further.
Qed.

Lemma sumZ_map_add {A} (f g : A → Z) l :
  sumZ (map (λ x, f x + g x) l) = sumZ (map f l) + sumZ (map g l).
Proof. induction l as [|x l IH]; simpl; [done|]. rewrite IH. lia. Qed.

Lemma sumZ_map_const {A} (l : list A) c :
  sumZ (map (λ _, c) l) = Z.of_nat (length l) * c.
Proof. induction l as [|x l IH]; simpl length; simpl; [done|]. rewrite IH. lia. Qed.

Lemma split_sum_map f g vs :
  (∀ pre v later, vs = pre ++ v :: later → f v later = g v) →
  split_sum f vs = sumZ (map g vs).
Proof.
  induction vs as [|v vs IH]; intros H; simpl; [done|].
  rewrite (H [] v vs) by done. rewrite IH; [done|].
  intros pre v' later ->. apply (H (v :: pre)). done.
Qed.

Section WithE.
Variable E : nat → nat → bool.
Hypothesis E_sym : ∀ a b, E a b = E b a.

Lemma pivot_value_perm np r l l' :
  l ≡ₚ l' → pivot_value E np r l = pivot_value E np r l'.
Proof.
  intros Hp. revert r. induction np as [|np IH]; intros r; cbn [pivot_value].
  - by rewrite (count_in_perm E E_sym r l l' Hp).
  - destruct r; [done|]. by rewrite !IH.
Qed.

Lemma pivot_value_nil np r : pivot_value E np r [] = binom np r.
Proof.
  revert r. induction np as [|np IH]; intros r; cbn [pivot_value].
  - by destruct r.
  - destruct r as [|r]; [done|]. by rewrite !IH.
Qed.

Lemma pivot_value_0 np P : pivot_value E np 0 P = 1.
Proof.
  destruct np; cbn [pivot_value]; [|done]. by rewrite count_in_0.
Qed.

Lemma pivot_value_small np r P :
  (length P + np < r)%nat → pivot_value E np r P = 0.
Proof.
  revert r. induction np as [|np IH]; intros r Hr; cbn [pivot_value].
  - rewrite count_in_short; [done|lia].
  - destruct r as [|r]; [lia|]. rewrite !IH; lia.
Qed.

(** Splitting off the vertices [vs] one after the other. *)
Lemma count_split vs R j :
  Z.of_nat (count_in E (S j) (vs ++ R))
  = Z.of_nat (count_in E (S j) R)
    + split_sum (λ v later,
        Z.of_nat (count_in E j
                    (filter (λ y, E v y = true) (later ++ R)))) vs.
Proof.
  induction vs as [|v vs IH]; cbn [app split_sum]; [lia|].
  rewrite count_in_cons. lia.
Qed.

(** From an identity on clique counts to the identity on the values
    of the recursion: the pivot joins the pivots, each other child
    has one vertex less to choose. *)
Lemma pivot_value_step P Q (children : list (list nat)) :
  (∀ j, Z.of_nat (count_in E (S j) P)
        = Z.of_nat (count_in E (S j) Q) + Z.of_nat (count_in E j Q)
          + sumZ (map (λ c, Z.of_nat (count_in E j c)) children)) →
  ∀ np r,
    pivot_value E np (S r) P
    = pivot_value E (S np) (S r) Q
      + sumZ (map (pivot_value E np r) children).
Proof.
  intros Hc. induction np as [|np IH]; intros r.
  - cbn [pivot_value]. rewrite Hc. lia.
  - change (pivot_value E (S np) (S r) P)
      with (pivot_value E np r P + pivot_value E np (S r) P).
    change (pivot_value E (S (S np)) (S r) Q)
      with (pivot_value E (S np) r Q + pivot_value E (S np) (S r) Q).
    rewrite (IH r).
    destruct r as [|r].
    + rewrite !pivot_value_0.
      rewrite (sumZ_map_ext (pivot_value E (S np) 0) (λ _, 1))
        by (intros; apply pivot_value_0).
      rewrite (sumZ_map_ext (pivot_value E np 0) (λ _, 1))
        by (intros; apply pivot_value_0).
      lia.
    + rewrite (IH r).
      change (pivot_value E (S np) (S r)) with
        (λ c, pivot_value E np r c + pivot_value E np (S r) c).
      rewrite sumZ_map_add. lia.
Qed.

End WithE.

End PivotValue.

Module PivotDecomp.
Import Cliques CombCache CombCacheFacts CliqueFacts PivotValue.

Section WithE.
Variable E : nat → nat → bool.
Hypothesis E_sym : ∀ a b, E a b = E b a.
Hypothesis E_irrefl : ∀ a, E a a = false.

Variable P : list nat.
Variable p : nat.
Hypothesis P_nodup : NoDup P.
Hypothesis p_in : p ∈ P.

(** The candidates not adjacent to the pivot (the pivot among
    them), the ones adjacent to it, and the candidates of the child
    of a non-neighbour [v]. *)
Let NN : list nat := filter (λ n, E p n ≠ true) P.
Let Q : list nat := filter (λ n, E p n = true) P.
Let child (v : nat) : list nat :=
  filter (λ n, E v n = true ∧ ¬ (n ∈ NN ∧ (n < v)%nat)) P.
Let NN' : list nat := filter (λ n, n ≠ p) NN.
Let vs : list nat := merge_sort le NN'.

Local Lemma NN_nodup : NoDup NN.
Proof. by apply NoDup_filter. Qed.

Local Lemma vs_perm : vs ≡ₚ NN'.
Proof. apply merge_sort_Permutation. Qed.

Local Lemma vs_elem x : x ∈ vs ↔ x ∈ P ∧ E p x ≠ true ∧ x ≠ p.
Proof.
  rewrite vs_perm. unfold NN', NN. rewrite !list_elem_of_filter. tauto.
Qed.

Local Lemma vs_nodup : NoDup vs.
Proof. rewrite vs_perm. by apply NoDup_filter, NoDup_filter. Qed.

Local Lemma vs_sorted : StronglySorted le vs.
Proof. apply StronglySorted_merge_sort; apply _. Qed.

Local Lemma P_split : P ≡ₚ vs ++ p :: Q.
Proof.
  apply NoDup_Permutation; [done| |].
  - apply NoDup_app. split_and!; [apply vs_nodup| |].
    + intros x Hx. apply vs_elem in Hx as (HxP & HxE & Hxp).
      rewrite elem_of_cons. unfold Q. rewrite list_elem_of_filter.
      intros [->|[? _]]; done.
    + apply NoDup_cons. split; [|by apply NoDup_filter].
      unfold Q. rewrite list_elem_of_filter. rewrite E_irrefl.
      intros [? _]. done.
  - intros x. rewrite elem_of_app, elem_of_cons, vs_elem.
    unfold Q. rewrite list_elem_of_filter.
    destruct (decide (x = p)) as [->|Hne]; [tauto|].
    destruct (E p x) eqn:He; naive_solver.
Qed.

Local Lemma child_split pre v later :
  vs = pre ++ v :: later →
  filter (λ y, E v y = true) (later ++ p :: Q) ≡ₚ child v.
Proof.
  intros Hvs.
  pose proof vs_nodup as Hnd. pose proof vs_sorted as Hs.
  rewrite Hvs in Hnd, Hs.
  assert (Hv : v ∈ vs) by (rewrite Hvs; set_solver).
  apply vs_elem in Hv as (HvP & HvE & Hvp).
  assert (Hpre : ∀ x, x ∈ pre → (x < v)%nat).
  { intros x Hx.
    pose proof (StronglySorted_app_1_elem_of _ _ _ x v Hs Hx
                  (list_elem_of_here _ _)) as Hle.
    apply NoDup_app in Hnd as (_ & Hd & _).
    specialize (Hd x Hx). rewrite not_elem_of_cons in Hd. lia. }
  assert (Hlater : ∀ x, x ∈ later → (v < x)%nat).
  { intros x Hx.
    apply StronglySorted_app_1_r in Hs as Hs2.
    apply StronglySorted_inv in Hs2 as [_ Hall].
    rewrite Forall_forall in Hall. specialize (Hall x Hx).
    apply NoDup_app in Hnd as (_ & _ & Hd).
    apply NoDup_cons in Hd as [Hd _].
    assert (x ≠ v) by (intros ->; done). lia. }
  assert (HNDall : NoDup (vs ++ p :: Q)) by (by rewrite <- P_split).
  apply NoDup_Permutation.
  - apply NoDup_filter. rewrite Hvs in HNDall.
    rewrite <- app_assoc in HNDall.
    apply NoDup_app in HNDall as (_ & _ & HN).
    by apply NoDup_cons in HN as [_ HN].
  - by apply NoDup_filter.
  - intros x. unfold child. rewrite !list_elem_of_filter.
    assert (HP : x ∈ P ↔ x ∈ pre ∨ x = v ∨ x ∈ later ∨ x = p ∨ x ∈ Q).
    { rewrite P_split, Hvs.
      rewrite !elem_of_app, !elem_of_cons. tauto. }
    assert (HL : x ∈ later ++ p :: Q ↔ x ∈ later ∨ x = p ∨ x ∈ Q)
      by (rewrite elem_of_app, elem_of_cons; tauto).
    assert (HNNx : x ∈ NN ↔ x ∈ P ∧ E p x ≠ true)
      by (unfold NN; rewrite list_elem_of_filter; tauto).
    assert (HQ : x ∈ Q ↔ x ∈ P ∧ E p x = true)
      by (unfold Q; rewrite list_elem_of_filter; tauto).
    assert (Hvs_in : ∀ y, y ∈ pre ∨ y ∈ later → y ∈ P ∧ E p y ≠ true).
    { intros y Hy.
      assert (y ∈ vs) as Hyv.
      { rewrite Hvs, elem_of_app, elem_of_cons. tauto. }
      apply vs_elem in Hyv. tauto. }
    rewrite HL, HNNx.
    split.
    + intros (He & [Hx|[->|Hx]]).
      * split; [|apply HP; tauto]. split; [done|].
        intros [_ Hlt]. specialize (Hlater x Hx). lia.
      * rewrite E_sym in He. done.
      * split; [|apply HP; tauto]. split; [done|].
        apply HQ in Hx. intros [[_ H] _]. tauto.
    + intros ((He & Hn) & Hx). split; [done|].
      apply HP in Hx.
      destruct Hx as [Hx|[->|[Hx|[->|Hx]]]].
      * exfalso. apply Hn. split; [|by apply Hpre].
        apply Hvs_in. by left.
      * by rewrite E_irrefl in He.
      * by left.
      * rewrite E_sym in He. done.
      * by right; right.
Qed.

(** The identity behind pivoting: a clique of the candidates either
    lies within the pivot and its neighbours, or has a least
    non-neighbour of the pivot. *)
Lemma pivot_decomp np r :
  pivot_value E np (S r) P
  = sumZ (map (λ v, if decide (v = p)
                    then pivot_value E (S np) (S r) Q
                    else pivot_value E np r (child v)) NN).
Proof.
  assert (Hcount : ∀ j,
    Z.of_nat (count_in E (S j) P)
    = Z.of_nat (count_in E (S j) Q) + Z.of_nat (count_in E j Q)
      + sumZ (map (λ c, Z.of_nat (count_in E j c)) (map child vs))).
  { intros j. rewrite (count_in_perm E E_sym _ _ _ P_split).
    rewrite count_split, count_in_cons.
    assert (filter (λ y, E p y = true) Q = Q) as ->.
    { apply VecFacts.filter_all, Forall_forall. intros x Hx.
      unfold Q in Hx. apply list_elem_of_filter in Hx. tauto. }
    rewrite (split_sum_map _ (λ v, Z.of_nat (count_in E j (child v)))).
    - rewrite map_map. lia.
    - intros pre v later Hvs. f_equal.
      apply (count_in_perm E E_sym). by eapply child_split. }
  rewrite (pivot_value_step E P Q (map child vs) Hcount).
  rewrite map_map.
  assert (HNN : NN ≡ₚ p :: NN').
  { apply NoDup_Permutation; [apply NN_nodup| |].
    - apply NoDup_cons. split; [|apply NoDup_filter, NN_nodup].
      unfold NN'. rewrite list_elem_of_filter. tauto.
    - intros x. rewrite elem_of_cons. unfold NN', NN.
      rewrite !list_elem_of_filter.
      destruct (decide (x = p)) as [->|]; [|tauto].
      rewrite E_irrefl. naive_solver. }
  rewrite (sumZ_perm _ _ (Permutation_map _ HNN)).
  cbn [map sumZ foldr]. rewrite decide_True by done. f_equal.
  rewrite (sumZ_perm _ _ (Permutation_map _ vs_perm)).
  apply sumZ_map_ext. intros v Hv.
  unfold NN' in Hv. apply list_elem_of_filter in Hv as [Hv _].
  by rewrite decide_False.
Qed.

End WithE.

End PivotDecomp.

(** ** The pivoted recursion on the subgraph *)

Module RecurseFacts.
Import SubGraph SubGraphInv VecFacts InvFacts InduceInv UndoInv RestoreFacts.
Import Cliques CombCache CombCacheFacts CliqueFacts PivotValue PivotDecomp.

Lemma local_adj_equiv sg sg' a b :
  equiv sg sg' → local_adj sg' a b = local_adj sg a b.
Proof.
  intros Heq. unfold local_adj. apply bool_decide_ext.
  by rewrite (eq_adj _ _ Heq a).
Qed.

Lemma local_adj_induce sg v excl a b :
  inv sg → v ∈ active_list_ sg →
  local_adj (InduceFromSelfMutate sg v excl) a b = local_adj sg a b.
Proof.
  intros Hinv Hv. unfold local_adj. apply bool_decide_ext.
  by rewrite induce_adj_perm.
Qed.

Lemma graph_ok_perm adj adj' :
  (∀ n, adj' !!! n ≡ₚ adj !!! n) → graph_ok adj → graph_ok adj'.
Proof.
  intros Hp [H1 H2]. split.
  - intros n. rewrite Hp. apply H1.
  - intros n m. rewrite !Hp. apply H2.
Qed.

Lemma local_adj_sym sg a b :
  graph_ok (adj_list_ sg) → local_adj sg a b = local_adj sg b a.
Proof.
  intros [_ Hs]. unfold local_adj. apply bool_decide_ext.
  split; apply Hs.
Qed.

Lemma local_adj_irrefl sg a :
  graph_ok (adj_list_ sg) → local_adj sg a a = false.
Proof.
  intros [Hi _]. unfold local_adj. apply bool_decide_eq_false_2, Hi.
Qed.

(** The active neighbours of a candidate are the candidates it is
    adjacent to. *)
Lemma neighs_set sg v m :
  inv sg → v ∈ active_list_ sg →
  m ∈ Neighs sg v ↔ m ∈ active_list_ sg ∧ local_adj sg v m = true.
Proof.
  intros Hinv Hv. split.
  - intros Hm. split; [by apply (neighs_active sg v m)|].
    apply bool_decide_eq_true. unfold Neighs in Hm.
    apply elem_of_take in Hm as (j & Hj & _).
    by eapply list_elem_of_lookup_2.
  - intros [Hm He]. apply bool_decide_eq_true in He.
    apply list_elem_of_lookup in He as [j Hj].
    apply neighs_lookup. exists j. split; [done|].
    pose proof (inv_rows sg Hinv v (active_in_range sg v Hinv Hv)) as Hrow.
    destruct (decide (j < active_tails_ sg !!! v)%nat) as [|Hge]; [done|].
    pose proof (row_suffix _ _ _ _ _ Hrow j m ltac:(lia) Hj) as Hlt.
    apply lev_0 in Hm. lia.
Qed.

Lemma find_pivot_in sg :
  active_list_ sg ≠ [] → FindPivot sg ∈ active_list_ sg.
Proof.
  intros Hne. unfold FindPivot.
  assert (Hgen : ∀ l x, x ∈ active_list_ sg →
            (∀ y, y ∈ l → y ∈ active_list_ sg) →
            foldl (λ max_v_r n_r,
               if (active_tails_ sg !!! max_v_r <? active_tails_ sg !!! n_r)%nat
               then n_r else max_v_r) x l ∈ active_list_ sg).
  { induction l as [|y l IH]; intros x Hx Hl; cbn [foldl]; [done|].
    apply IH.
    - case_match; [apply Hl, list_elem_of_here|done].
    - intros z Hz. apply Hl. by apply list_elem_of_further. }
  apply Hgen; [|done].
  destruct (active_list_ sg) as [|x l]; [done|]. apply list_elem_of_here.
Qed.

(** The candidates after an induction on [v]. *)
Lemma induce_candidates sg v excl :
  inv sg → v ∈ active_list_ sg →
  active_list_ (InduceFromSelfMutate sg v excl)
  ≡ₚ filter (λ n, local_adj sg v n = true ∧ ¬ (n ∈ excl ∧ (n < v)%nat))
            (active_list_ sg).
Proof.
  intros Hinv Hv.
  destruct (induce_struct sg v excl Hinv Hv) as (dr & Hal & _).
  rewrite Hal. erewrite filter_ext_in; [done|].
  intros n Hn. unfold kept_by. rewrite (neighs_set sg v n Hinv Hv). tauto.
Qed.

Lemma induce_smaller sg v excl :
  inv sg → graph_ok (adj_list_ sg) → v ∈ active_list_ sg →
  (NumActive (InduceFromSelfMutate sg v excl) < NumActive sg)%nat.
Proof.
  intros Hinv Hg Hv. unfold NumActive.
  rewrite (induce_candidates sg v excl Hinv Hv).
  apply (length_filter_lt _ _ v); [done|].
  rewrite (local_adj_irrefl sg v Hg). intros [? _]. done.
Qed.

Lemma is_clique_ext E E' s :
  (∀ a b, E a b = E' a b) → is_clique E s = is_clique E' s.
Proof.
  intros H. induction s as [|x s IH]; [done|]. cbn [is_clique].
  rewrite IH. f_equal. clear IH.
  induction s as [|y s IHs]; [done|]. cbn [forallb]. by rewrite H, IHs.
Qed.

Lemma count_in_ext E E' k l :
  (∀ a b, E a b = E' a b) → count_in E k l = count_in E' k l.
Proof.
  intros H. unfold count_in. f_equal. apply filter_ext_in.
  intros s _. by rewrite (is_clique_ext E E' s H).
Qed.

Lemma pivot_value_ext E E' np r l :
  (∀ a b, E a b = E' a b) → pivot_value E np r l = pivot_value E' np r l.
Proof.
  intros H. revert r. induction np as [|np IH]; intros r; cbn [pivot_value].
  - by rewrite (count_in_ext E E' r l H).
  - destruct r; [done|]. by rewrite !IH.
Qed.

End RecurseFacts.

Module RecurseCorrect.
Import SubGraph SubGraphInv VecFacts InvFacts InduceInv UndoInv RestoreFacts.
Import Cliques CombCache CombCacheFacts CliqueFacts PivotValue PivotDecomp.
Import RecurseFacts PivotScale.

Lemma wrap_wrap x : wrap (wrap x) = wrap x.
Proof. unfold wrap, CombCache.wrap. by rewrite Z.mod_mod. Qed.

Lemma wrap_add_l a b : wrap (wrap a + b) = wrap (a + b).
Proof. unfold wrap, CombCache.wrap. by rewrite Z.add_mod_idemp_l. Qed.

Lemma wrap_add_r a b : wrap (a + wrap b) = wrap (a + b).
Proof. unfold wrap, CombCache.wrap. by rewrite Z.add_mod_idemp_r. Qed.

Lemma wrap_add3 a b c : wrap (wrap (a + wrap b) + c) = wrap (a + (b + c)).
Proof.
  rewrite wrap_add_l. replace (a + wrap b + c) with ((a + c) + wrap b) by lia.
  rewrite wrap_add_r. f_equal. lia.
Qed.

Lemma wrap_0 : wrap 0 = 0.
Proof. done. Qed.

Lemma PivotRecurse_S fuel memo max_k sg clique_size num_pivots :
  PivotRecurse (S fuel) memo max_k sg clique_size num_pivots
  = if Z.of_nat (NumActive sg) + clique_size <? max_k then Some (0, sg)
    else
      let num_holds := clique_size - num_pivots in
      if (NumActive sg =? 0)%nat || (num_holds =? max_k)
      then Some (n_choose_k memo num_pivots (max_k - num_holds), sg)
      else
        let pivot_id_r := FindPivot sg in
        let '(sg, verts_to_induce) :=
          ActiveUnreachableFromPivot sg pivot_id_r in
        '(count, sg) ←
          foldl (child_step (PivotRecurse fuel memo max_k) pivot_id_r
                            verts_to_induce clique_size num_pivots)
                (Some (0, sg)) verts_to_induce;
        Some (count, PopNonNeighbors sg).
Proof. done. Qed.

Section Exact.
Variable memo : memo_t.
Variable k N : nat.
Hypothesis Hexact :
  ∀ n r, (r < k)%nat → (n ≤ N)%nat →
         n_choose_k memo (Z.of_nat n) (Z.of_nat r) = wrap (binom n r).

Lemma children_fold fuel sg p NN holds np :
  PivotSpec.recurse_ok memo k N fuel →
  inv sg → graph_ok (adj_list_ sg) →
  (∀ v, v ∈ NN → v ∈ active_list_ sg) →
  (1 ≤ holds)%nat → (holds < k)%nat →
  (np + NumActive sg ≤ N)%nat → (NumActive sg ≤ fuel)%nat →
  ∀ todo count sg_i,
    (∀ v, v ∈ todo → v ∈ NN) → wrap count = count →
    equiv sg sg_i → inv sg_i →
    ∃ sg_j,
      foldl (child_step (PivotRecurse fuel memo (Z.of_nat k)) p NN
                        (Z.of_nat (holds + np)) (Z.of_nat np))
            (Some (count, sg_i)) todo
      = Some (wrap (count
                    + sumZ (map (child_value (local_adj sg)
                                   (active_list_ sg) p NN np (k - holds))
                                todo)), sg_j)
      ∧ equiv sg sg_j ∧ inv sg_j.
Proof.
  intros IH Hinv Hg HNN Hh1 Hhk HN Hfuel.
  induction todo as [|v todo IHt]; intros count sg_i Htodo Hc Heq Hinv_i.
  - exists sg_i. cbn [foldl map sumZ foldr]. rewrite Z.add_0_r, Hc. done.
  - cbn [foldl map sumZ foldr].
    assert (Hv : v ∈ active_list_ sg_i).
    { rewrite (eq_list _ _ Heq). apply HNN, Htodo, list_elem_of_here. }
    assert (Hg_i : graph_ok (adj_list_ sg_i))
      by (eapply graph_ok_perm; [apply (eq_adj _ _ Heq)|done]).
    assert (Hnum_i : NumActive sg_i = NumActive sg)
      by (unfold NumActive; by rewrite (eq_list _ _ Heq)).
    assert (HE : ∀ excl a b,
      local_adj (InduceFromSelfMutate sg_i v excl) a b = local_adj sg a b).
    { intros excl a b. rewrite local_adj_induce by done.
      by apply local_adj_equiv. }
    assert (Hcand : ∀ excl,
      active_list_ (InduceFromSelfMutate sg_i v excl)
      ≡ₚ filter (λ n, local_adj sg v n = true ∧ ¬ (n ∈ excl ∧ (n < v)%nat))
                (active_list_ sg)).
    { intros excl. rewrite (induce_candidates sg_i v excl Hinv_i Hv).
      rewrite (eq_list _ _ Heq).
      erewrite filter_ext_in; [done|]. intros n _.
      by rewrite (local_adj_equiv sg sg_i). }
    assert (Hstep : ∀ excl holds' np',
      (1 ≤ holds')%nat → (holds' ≤ k)%nat →
      (np' + NumActive sg ≤ S N)%nat → (np' ≤ S np)%nat →
      (holds' + np' = S (holds + np))%nat →
      ∃ sg1,
        PivotRecurse fuel memo (Z.of_nat k)
          (InduceFromSelfMutate sg_i v excl)
          (Z.of_nat (holds + np) + 1) (Z.of_nat np')
        = Some (wrap (pivot_value (local_adj sg) np' (k - holds')
                  (filter (λ n, local_adj sg v n = true
                                ∧ ¬ (n ∈ excl ∧ (n < v)%nat))
                          (active_list_ sg))), sg1)
        ∧ equiv sg (UndoSelfMutate sg1) ∧ inv (UndoSelfMutate sg1)).
    { intros excl holds' np' H1 H2 H3 H4 H5.
      pose proof (induce_smaller sg_i v excl Hinv_i Hg_i Hv) as Hsm.
      destruct (IH (InduceFromSelfMutate sg_i v excl) holds' np')
        as (sg1 & Hrec & Heq1 & Hinv1).
      - by apply inv_induce.
      - eapply graph_ok_perm; [|exact Hg_i].
        intros n. by apply induce_adj_perm.
      - lia.
      - done.
      - done.
      - lia.
      - exists sg1.
        replace (Z.of_nat (holds + np) + 1)
          with (Z.of_nat (holds' + np')) by lia.
        rewrite Hrec. split_and!.
        + f_equal. f_equal. f_equal.
          rewrite (pivot_value_ext _ (local_adj sg)) by apply HE.
          apply pivot_value_perm; [|apply Hcand].
          intros. by apply local_adj_sym.
        + eapply equiv_trans; [exact Heq|].
          by apply (undo_equiv sg_i v excl sg1).
        + by apply (undo_equiv sg_i v excl sg1). }
    unfold child_step at 2. cbn [mbind option_bind].
    destruct (decide (v = p)) as [->|Hvp].
    + rewrite Nat.eqb_refl.
      destruct (Hstep [] holds (S np)) as (sg1 & Hrec & Heq1 & Hinv1);
        [done|lia|lia|lia|lia|].
      replace (Z.of_nat np + 1) with (Z.of_nat (S np)) by lia.
      rewrite Hrec. cbn [mbind option_bind].
      destruct (IHt (wrap (count + wrap (pivot_value (local_adj sg) (S np)
                       (k - holds)
                       (filter (λ n, local_adj sg p n = true
                                     ∧ ¬ (n ∈ [] ∧ (n < p)%nat))
                               (active_list_ sg)))))
                    (UndoSelfMutate sg1))
        as (sg_j & Hfold & Heqj & Hinvj).
      * intros w Hw. apply Htodo. by apply list_elem_of_further.
      * apply wrap_wrap.
      * done.
      * done.
      * exists sg_j. rewrite Hfold. split_and!; [|done|done].
        apply (f_equal (λ x, Some (x, sg_j))).
        rewrite wrap_add3.
        unfold child_value at 2. rewrite decide_True by done.
        rewrite (filter_ext_in
                   (λ n, local_adj sg p n = true ∧ ¬ (n ∈ [] ∧ (n < p)%nat))
                   (λ n, local_adj sg p n = true))
          by (intros n _; rewrite elem_of_nil; tauto).
        done.
    + rewrite (proj2 (Nat.eqb_neq v p) Hvp).
      destruct (Hstep NN (S holds) np) as (sg1 & Hrec & Heq1 & Hinv1);
        [lia|lia|lia|lia|lia|].
      rewrite Hrec. cbn [mbind option_bind].
      destruct (IHt (wrap (count + wrap (pivot_value (local_adj sg) np
                       (k - S holds)
                       (filter (λ n, local_adj sg v n = true
                                     ∧ ¬ (n ∈ NN ∧ (n < v)%nat))
                               (active_list_ sg)))))
                    (UndoSelfMutate sg1))
        as (sg_j & Hfold & Heqj & Hinvj).
      * intros w Hw. apply Htodo. by apply list_elem_of_further.
      * apply wrap_wrap.
      * done.
      * done.
      * exists sg_j. rewrite Hfold. split_and!; [|done|done].
        apply (f_equal (λ x, Some (x, sg_j))).
        rewrite wrap_add3.
        unfold child_value at 2. rewrite decide_False by done.
        replace (k - holds - 1)%nat with (k - S holds)%nat by lia.
        done.
Qed.

(** The recursion returns the value of its candidates. *)
Lemma recurse_correct fuel : PivotSpec.recurse_ok memo k N fuel.
Proof.
  induction fuel as [|fuel IH]; intros sg holds np Hinv Hg Hlt H1 Hk HN;
    [lia|].
  rewrite PivotRecurse_S.
  set (P := active_list_ sg) in *.
  assert (Hnum : NumActive sg = length P) by done.
  destruct (Z.of_nat (NumActive sg) + Z.of_nat (holds + np) <? Z.of_nat k)
    eqn:Hprune.
  { apply Z.ltb_lt in Hprune. exists sg.
    rewrite pivot_value_small by lia.
    split_and!; [done|apply equiv_refl|done]. }
  apply Z.ltb_ge in Hprune. cbv zeta.
  replace (Z.of_nat (holds + np) - Z.of_nat np) with (Z.of_nat holds)
    by lia.
  destruct ((NumActive sg =? 0)%nat || (Z.of_nat holds =? Z.of_nat k))
    eqn:Hbase.
  { exists sg. split_and!; [|apply equiv_refl|done].
    replace (Z.of_nat k - Z.of_nat holds) with (Z.of_nat (k - holds))
      by lia.
    rewrite Hexact by lia. f_equal. f_equal. f_equal.
    apply orb_true_iff in Hbase as [Hb|Hb].
    - apply Nat.eqb_eq in Hb. rewrite Hnum in Hb.
      apply nil_length_inv in Hb. fold P. rewrite Hb.
      symmetry. apply pivot_value_nil.
    - apply Z.eqb_eq in Hb.
      replace (k - holds)%nat with 0%nat by lia.
      by rewrite pivot_value_0, binom_0_r. }
  apply orb_false_iff in Hbase as [Hb1 Hb2].
  apply Nat.eqb_neq in Hb1. apply Z.eqb_neq in Hb2.
  assert (Hne : P ≠ []) by (intros HP; rewrite Hnum, HP in Hb1; done).
  pose proof (find_pivot_in sg Hne) as Hp.
  set (p := FindPivot sg) in *.
  pose proof (unreachable_spec sg p Hinv) as [HNN Hsga]. cbv zeta in *.
  pose proof (inv_unreachable sg p Hinv) as Hinv_a.
  destruct (ActiveUnreachableFromPivot sg p) as [sg_a NN].
  cbn [fst snd] in *.
  assert (Hal_a : active_list_ sg_a = P) by (by rewrite Hsga).
  assert (Hadj_a : adj_list_ sg_a = adj_list_ sg) by (by rewrite Hsga).
  assert (HE_a : ∀ a b, local_adj sg_a a b = local_adj sg a b)
    by (intros; unfold local_adj; by rewrite Hadj_a).
  assert (HNN_in : ∀ v, v ∈ NN → v ∈ active_list_ sg_a).
  { intros v. rewrite HNN, Hal_a, list_elem_of_filter. tauto. }
  destruct (children_fold fuel sg_a p NN holds np IH Hinv_a
              ltac:(by rewrite Hadj_a) HNN_in H1 ltac:(lia)
              ltac:(unfold NumActive; rewrite Hal_a; fold P; lia)
              ltac:(unfold NumActive; rewrite Hal_a; fold P; lia)
              NN 0 sg_a ltac:(done) wrap_0
              (equiv_refl sg_a) Hinv_a)
    as (sg_j & Hfold & Heqj & Hinvj).
  rewrite Hfold. cbn [mbind option_bind].
  exists (PopNonNeighbors sg_j). split_and!.
  - f_equal. f_equal. rewrite Z.add_0_l. f_equal.
    assert (HNN' : NN = filter (λ n, local_adj sg p n ≠ true) P).
    { rewrite HNN. apply filter_ext_in. intros n Hn.
      rewrite (neighs_set sg p n Hinv Hp). fold P. tauto. }
    destruct (k - holds)%nat as [|r] eqn:Hr; [lia|].
    rewrite (pivot_decomp (local_adj sg)
               (λ a b, local_adj_sym sg a b Hg)
               (λ a, local_adj_irrefl sg a Hg) P p).
    + rewrite Hal_a, <- HNN'. apply sumZ_map_ext. intros v _.
      unfold child_value.
      replace (S r - 1)%nat with r by lia.
      rewrite !(pivot_value_ext (local_adj sg_a) (local_adj sg))
        by apply HE_a.
      destruct (decide (v = p)); f_equal; apply filter_ext_in;
        intros x _; by rewrite HE_a.
    + pose proof (inv_nodup sg Hinv) as Hnd.
      by apply NoDup_app in Hnd as [? _].
    + done.
  - destruct Heqj as [Q1 Q2 Q3 Q4 Q5 Q6 Q7].
    rewrite Hsga in Q1, Q2, Q3, Q4, Q5, Q6, Q7.
    cbn [active_ active_list_ adj_list_ active_tails_ dropped_verts_
         pivot_non_neighs_] in *.
    split; unfold PopNonNeighbors;
      cbn [active_ active_list_ adj_list_ active_tails_ dropped_verts_
           pivot_non_neighs_]; try done.
    rewrite Q7. apply frame_pop.
  - by apply inv_pop.
Qed.

End Exact.

End RecurseCorrect.

(** ** Approximate core peeling *)

Module CoreFacts.
Import Ordering CoreInv VecFacts.

Lemma detach_fold still l cd re :
  let r := foldl (detach still) (cd, re) l in
  length r.1 = length cd ∧ ∀ u, r.1 !!! u <= cd !!! u.
Proof.
  revert cd re. induction l as [|v l IH]; intros cd re; cbn [foldl]; cbv zeta.
  - cbn [fst snd]. split; [done|]. intros; lia.
  - assert (Hstep : detach still (cd, re) v
              = if still v then (<[v := cd !!! v - 1]> cd, re + 1)
                else (cd, re)) by done.
    rewrite Hstep. destruct (still v).
    + destruct (IH (<[v := cd !!! v - 1]> cd) (re + 1)) as [I1 I2].
      rewrite length_insert in I1. split; [done|].
      intros u. etrans; [apply I2|].
      destruct (decide (u = v)) as [->|Hne].
      * destruct (decide (v < length cd)%nat).
        -- rewrite list_lookup_total_insert_eq by done. lia.
        -- rewrite list_insert_ge by lia. lia.
      * rewrite list_lookup_total_insert_ne by done. lia.
    + apply IH.
Qed.

Lemma level0_step_eq g T rk cd re rem u :
  level0_step g T (rk, cd, re, rem) u
  = if Z.of_nat (out_degree g u) <=? T then
      let r := foldl (detach (λ v, T <? Z.of_nat (out_degree g v)))
                     (cd, re) (out_neigh g u) in
      (<[u := 0]> rk, r.1, r.2 + r.1 !!! u, rem)
    else (rk, cd, re, rem ++ [u]).
Proof.
  unfold level0_step. destruct (_ <=? T); [|done].
  by destruct (foldl _ _ _).
Qed.

Lemma select_step_eq cd lvl T rk removed next u :
  select_step cd lvl T (rk, removed, next) u
  = if cd !!! u <=? T then (<[u := lvl]> rk, removed ++ [u], next)
    else (rk, removed, next ++ [u]).
Proof. done. Qed.

Lemma remove_step_eq g rk cd re u :
  remove_step g rk (cd, re) u
  = let r := foldl (detach (λ v, rk !!! v =? -1)) (cd, re) (out_neigh g u) in
    (r.1, r.2 + r.1 !!! u).
Proof. unfold remove_step. by destruct (foldl _ _ _). Qed.

Lemma level0_fold g T us rk cd re rem :
  let r := foldl (level0_step g T) (rk, cd, re, rem) us in
  length r.1.1.1 = length rk
  ∧ length r.1.1.2 = length cd
  ∧ (∀ u, r.1.1.2 !!! u <= cd !!! u)
  ∧ (length r.2 ≤ length rem + length us)%nat
  ∧ (∀ u, u ∈ r.2 → u ∈ rem ∨ u ∈ us)
  ∧ (∀ u, u ∈ rem → u ∈ r.2)
  ∧ (∀ u, r.1.1.1 !!! u = -1 → rk !!! u = -1)
  ∧ (∀ u, u ∈ us → (u < length rk)%nat → r.1.1.1 !!! u = -1 → u ∈ r.2).
Proof.
  revert rk cd re rem.
  induction us as [|x us IH]; intros rk cd re rem; cbn [foldl]; cbv zeta.
  - cbn [fst snd length]. split_and!; try done; try (intros; lia).
    + intros u Hu. by left.
    + intros u Hu. by apply not_elem_of_nil in Hu.
  - rewrite level0_step_eq.
    destruct (Z.of_nat (out_degree g x) <=? T) eqn:Hx.
    + pose proof (detach_fold (λ v, T <? Z.of_nat (out_degree g v))
                    (out_neigh g x) cd re) as Hd. cbv zeta in *.
      destruct (foldl (detach _) (cd, re) (out_neigh g x)) as [cd1 re1].
      cbn [fst snd] in *. destruct Hd as [D1 D2].
      destruct (IH (<[x := 0]> rk) cd1 (re1 + cd1 !!! x) rem)
        as (I1 & I2 & I3 & I4 & I5 & I6 & I7 & I8).
      rewrite length_insert in I1, I8.
      split_and!.
      * done.
      * by rewrite I2.
      * intros u. etrans; [apply I3|apply D2].
      * cbn [length]. lia.
      * intros u Hu. destruct (I5 u Hu); [by left|right].
        by apply list_elem_of_further.
      * done.
      * intros u Hu. specialize (I7 u Hu).
        destruct (decide (u = x)) as [->|Hne].
        -- destruct (decide (x < length rk)%nat).
           ++ rewrite list_lookup_total_insert_eq in I7 by done. lia.
           ++ by rewrite list_insert_ge in I7 by lia.
        -- by rewrite list_lookup_total_insert_ne in I7.
      * intros u Hu Hlt Hrk. apply elem_of_cons in Hu as [->|Hu].
        -- specialize (I7 x Hrk).
           rewrite list_lookup_total_insert_eq in I7 by done. lia.
        -- by apply I8.
    + destruct (IH rk cd re (rem ++ [x]))
        as (I1 & I2 & I3 & I4 & I5 & I6 & I7 & I8).
      rewrite length_app in I4. cbn [length] in *.
      split_and!; try done.
      * lia.
      * intros u Hu. destruct (I5 u Hu) as [Hu'|Hu'].
        -- apply elem_of_app in Hu' as [?|Hu']; [by left|right].
           apply list_elem_of_singleton in Hu' as ->. apply list_elem_of_here.
        -- right. by apply list_elem_of_further.
      * intros u Hu. apply I6, elem_of_app. by left.
      * intros u Hu Hlt Hrk. apply elem_of_cons in Hu as [->|Hu].
        -- apply I6, elem_of_app. right. apply list_elem_of_here.
        -- by apply I8.
Qed.

Lemma select_fold cd lvl T l rk removed next :
  lvl ≠ -1 →
  let r := foldl (select_step cd lvl T) (rk, removed, next) l in
  length r.1.1 = length rk
  ∧ r.1.2 = removed ++ filter (λ u, cd !!! u <= T) l
  ∧ r.2 = next ++ filter (λ u, ¬ cd !!! u <= T) l
  ∧ (∀ u, r.1.1 !!! u = -1 → rk !!! u = -1)
  ∧ (∀ u, u ∈ l → (u < length rk)%nat → r.1.1 !!! u = -1 →
          ¬ cd !!! u <= T).
Proof.
  intros Hlvl. revert rk removed next.
  induction l as [|x l IH]; intros rk removed next; cbn [foldl]; cbv zeta.
  - cbn [fst snd]. rewrite !filter_nil, !app_nil_r.
    split_and!; try done. intros u Hu. by apply not_elem_of_nil in Hu.
  - rewrite select_step_eq.
    destruct (cd !!! x <=? T) eqn:Hx.
    + apply Z.leb_le in Hx.
      destruct (IH (<[x := lvl]> rk) (removed ++ [x]) next)
        as (I1 & I2 & I3 & I4 & I5).
      rewrite length_insert in I1, I5.
      assert (Hkeep : ∀ u, (foldl (select_step cd lvl T)
                   (<[x := lvl]> rk, removed ++ [x], next) l).1.1 !!! u = -1 →
                 rk !!! u = -1 ∧ (u = x → ¬ (x < length rk)%nat)).
      { intros u Hu. specialize (I4 u Hu).
        destruct (decide (u = x)) as [->|Hne].
        - destruct (decide (x < length rk)%nat).
          + rewrite list_lookup_total_insert_eq in I4 by done. done.
          + rewrite list_insert_ge in I4 by lia. split; [done|]. done.
        - rewrite list_lookup_total_insert_ne in I4 by done. done. }
      split_and!.
      * done.
      * rewrite I2, filter_cons_True by done. by rewrite <- app_assoc.
      * rewrite I3, filter_cons_False by (intros H; by apply H). done.
      * intros u Hu. by apply Hkeep.
      * intros u Hu Hlt Hrk. apply elem_of_cons in Hu as [->|Hu].
        -- destruct (Hkeep x Hrk) as [_ H]. exfalso. by apply H.
        -- by apply I5.
    + apply Z.leb_gt in Hx.
      destruct (IH rk removed (next ++ [x])) as (I1 & I2 & I3 & I4 & I5).
      split_and!; try done.
      * rewrite I2, filter_cons_False by lia. done.
      * rewrite I3, filter_cons_True by lia. by rewrite <- app_assoc.
      * intros u Hu Hlt Hrk. apply elem_of_cons in Hu as [->|Hu]; [lia|].
        by apply I5.
Qed.

Lemma remove_fold g rk l cd re :
  let r := foldl (remove_step g rk) (cd, re) l in
  length r.1 = length cd ∧ ∀ u, r.1 !!! u <= cd !!! u.
Proof.
  revert cd re. induction l as [|x l IH]; intros cd re; cbn [foldl]; cbv zeta.
  - cbn [fst snd]. split; [done|]. intros; lia.
  - rewrite remove_step_eq.
    pose proof (detach_fold (λ v, rk !!! v =? -1) (out_neigh g x) cd re) as Hd.
    cbv zeta in *.
    destruct (foldl (detach _) (cd, re) (out_neigh g x)) as [cd1 re1].
    cbn [fst snd] in *. destruct Hd as [D1 D2].
    destruct (IH cd1 (re1 + cd1 !!! x)) as [I1 I2].
    split; [by rewrite I1|]. intros u. etrans; [apply I2|apply D2].
Qed.

(** The least current degree among the remaining vertices is found by
    the scan when no degree exceeds the number of vertices. *)
Lemma min_fold (cd : list Z) n l :
  let m := foldl (λ m u, Z.min m (cd !!! u)) n l in
  m <= n ∧ (∀ u, u ∈ l → m <= cd !!! u)
  ∧ (m = n ∨ ∃ u, u ∈ l ∧ cd !!! u = m).
Proof.
  revert n. induction l as [|x l IH]; intros n; cbn [foldl]; cbv zeta.
  - cbn [fst snd]. split_and!; [lia| |by left].
    intros u Hu. by apply not_elem_of_nil in Hu.
  - destruct (IH (Z.min n (cd !!! x))) as (I1 & I2 & I3).
    split_and!.
    + lia.
    + intros u Hu. apply elem_of_cons in Hu as [->|Hu]; [lia|by apply I2].
    + destruct I3 as [I3|(u & Hu & Hcd)].
      * destruct (decide (n <= cd !!! x)); [left; lia|right].
        exists x. split; [apply list_elem_of_here|lia].
      * right. exists u. split; [by apply list_elem_of_further|done].
Qed.

End CoreFacts.

Module CoreTermination.
Import Ordering CoreInv VecFacts CoreFacts.

Section WithGraph.
Variable thresh : Z → nat → Z.
Variable g : Graph.
Hypothesis Hdeg : ∀ u, (u < num_nodes g)%nat →
                       (out_degree g u ≤ num_nodes g)%nat.

Lemma core_init_degree u :
  (u < num_nodes g)%nat →
  curr_degree (core_init g) !!! u = Z.of_nat (out_degree g u).
Proof.
  intros Hu. unfold core_init. cbn [curr_degree].
  apply list_lookup_total_correct.
  rewrite list_lookup_fmap, lookup_seq_lt by done. done.
Qed.

(** The first iteration ranks or lists every vertex. *)
Lemma peel_first : peeling g (peel thresh g (core_init g)).
Proof.
  unfold peel. cbn [level core_init]. cbn [Z.eqb].
  set (T := thresh _ _).
  pose proof (level0_fold g T (seq 0 (num_nodes g))
                (replicate (num_nodes g) (-1))
                (map (λ n, Z.of_nat (out_degree g n)) (seq 0 (num_nodes g)))
                0 []) as H.
  cbv zeta in H. cbn [rankings curr_degree remaining active_degree_total].
  destruct (foldl (level0_step g T) _ _) as [[[rk cd] re] rem].
  cbn [fst snd] in H.
  destruct H as (I1 & I2 & I3 & I4 & I5 & I6 & I7 & I8).
  rewrite length_replicate in I1, I8.
  rewrite length_map, length_seq in I2. rewrite length_seq in I4.
  split; cbn [level num_remaining rankings curr_degree remaining].
  - lia.
  - done.
  - done.
  - done.
  - intros u Hu. destruct (I5 u Hu) as [Hu'|Hu'].
    + by apply not_elem_of_nil in Hu'.
    + apply elem_of_seq in Hu'. lia.
  - intros u Hu Hrk. apply I8; [|done|done]. apply elem_of_seq. lia.
  - intros u Hu. etrans; [apply I3|].
    change (map _ _) with (curr_degree (core_init g)).
    rewrite core_init_degree by done. specialize (Hdeg u Hu). lia.
Qed.

Lemma peel_first_length :
  (length (remaining (peel thresh g (core_init g))) ≤ num_nodes g)%nat.
Proof.
  unfold peel. cbn [level core_init]. cbn [Z.eqb].
  set (T := thresh _ _).
  pose proof (level0_fold g T (seq 0 (num_nodes g))
                (replicate (num_nodes g) (-1))
                (map (λ n, Z.of_nat (out_degree g n)) (seq 0 (num_nodes g)))
                0 []) as H.
  cbv zeta in H. cbn [rankings curr_degree remaining active_degree_total].
  destruct (foldl (level0_step g T) _ _) as [[[rk cd] re] rem].
  cbn [fst snd] in H. destruct H as (_ & _ & _ & I4 & _).
  rewrite length_seq in I4. cbn [remaining length] in *. lia.
Qed.

(** A later iteration keeps the invariant and removes at least one
    vertex: the effective threshold is not below the least current
    degree of the remaining vertices. *)
Lemma peel_later st :
  peeling g st → remaining st ≠ [] →
  peeling g (peel thresh g st)
  ∧ (length (remaining (peel thresh g st)) < length (remaining st))%nat.
Proof.
  intros [P1 P2 P3 P4 P5 P6 P7] Hne. unfold peel.
  rewrite (proj2 (Z.eqb_neq (level st) 0)) by lia.
  set (T0 := thresh _ _).
  destruct (min_fold (curr_degree st) (Z.of_nat (num_nodes g))
              (remaining st)) as (M1 & M2 & M3).
  set (m := foldl _ (Z.of_nat (num_nodes g)) (remaining st)) in *.
  cbv zeta.
  set (T := if T0 <? Z.min (Z.of_nat (num_nodes g)) m
            then Z.min (Z.of_nat (num_nodes g)) m else T0).
  assert (HT : m <= T).
  { unfold T. destruct (T0 <? _) eqn:E; [lia|]. apply Z.ltb_ge in E. lia. }
  assert (Hmin : ∃ u0, u0 ∈ remaining st ∧ curr_degree st !!! u0 <= T).
  { destruct M3 as [M3|(u & Hu & Hcd)].
    - destruct (remaining st) as [|u0 l] eqn:Hrem; [done|].
      exists u0. split; [apply list_elem_of_here|].
      specialize (P7 u0 (P5 u0 (list_elem_of_here _ _))). lia.
    - exists u. split; [done|lia]. }
  pose proof (select_fold (curr_degree st) (level st) T (remaining st)
                (rankings st) [] [] ltac:(lia)) as HS.
  cbv zeta in HS.
  destruct (foldl (select_step _ _ _) _ _) as [[rk removed] next].
  cbn [fst snd] in HS. destruct HS as (S1 & S2 & S3 & S4 & S5).
  cbn [app] in S2, S3.
  pose proof (remove_fold g rk removed (curr_degree st) 0) as HR.
  cbv zeta in HR.
  destruct (foldl (remove_step g rk) _ _) as [cd re].
  cbn [fst snd] in HR. destruct HR as [R1 R2].
  split.
  - split; cbn [level num_remaining rankings curr_degree remaining].
    + lia.
    + done.
    + by rewrite S1.
    + by rewrite R1.
    + intros u Hu. apply P5. rewrite S3 in Hu.
      apply list_elem_of_filter in Hu. tauto.
    + intros u Hu Hrk. specialize (S4 u Hrk).
      pose proof (P6 u Hu S4) as Hrem.
      rewrite S3. apply list_elem_of_filter. split; [|done].
      apply (S5 u Hrem); [by rewrite P3|done].
    + intros u Hu. etrans; [apply R2|]. by apply P7.
  - cbn [remaining]. rewrite S3.
    destruct Hmin as (u0 & Hu0 & Hcd).
    apply (length_filter_lt _ _ u0); [done|]. intros H. by apply H.
Qed.

Lemma peel_loop_later fuel st :
  peeling g st → (length (remaining st) ≤ fuel)%nat →
  ∃ st', peel_loop fuel thresh g st = Some st'
         ∧ peeling g st' ∧ remaining st' = [].
Proof.
  revert st. induction fuel as [|fuel IH]; intros st Hp Hf.
  - exists st. destruct (remaining st) eqn:Hrem; [|simpl in Hf; lia].
    cbn [peel_loop]. rewrite (pl_count g st Hp), Hrem. done.
  - cbn [peel_loop]. rewrite (pl_count g st Hp).
    destruct (remaining st) as [|u l] eqn:Hrem.
    + exists st. done.
    + cbn [length Nat.ltb Nat.leb].
      destruct (peel_later st Hp) as [Hp' Hlt]; [by rewrite Hrem|].
      apply IH; [done|]. rewrite Hrem in Hlt. simpl in Hlt, Hf. lia.
Qed.

(** More fuel does not change what the loop returns. *)
Lemma peel_loop_mono fuel : ∀ fuel' st r,
  (fuel ≤ fuel')%nat →
  peel_loop fuel thresh g st = Some r →
  peel_loop fuel' thresh g st = Some r.
Proof.
  induction fuel as [|fuel IH]; intros fuel' st r Hle H.
  - cbn [peel_loop] in H. destruct (0 <? num_remaining st)%nat eqn:E;
      [done|].
    destruct fuel'; cbn [peel_loop]; by rewrite E.
  - destruct fuel' as [|fuel']; [lia|]. cbn [peel_loop] in H |- *.
    destruct (0 <? num_remaining st)%nat; [|done].
    apply IH; [lia|done].
Qed.

(** The peeling loop returns within [1 + num_nodes] iterations, with
    every vertex ranked. *)
Lemma core_approx_total :
  ∃ rk, CoreApprox (S (num_nodes g)) thresh g = Some rk
        ∧ length rk = num_nodes g
        ∧ ∀ u, (u < num_nodes g)%nat → rk !!! u ≠ -1.
Proof.
  unfold CoreApprox.
  destruct (decide (num_nodes g = 0%nat)) as [Hn|Hn].
  - exists []. split_and!; [|done|intros; lia].
    unfold core_init. rewrite Hn. done.
  - cbn [peel_loop]. unfold core_init at 1. cbn [num_remaining].
    rewrite (proj2 (Nat.ltb_lt 0 (num_nodes g))) by lia.
    destruct (peel_loop_later (num_nodes g) (peel thresh g (core_init g)))
      as (st' & Hloop & Hp & Hrem).
    + apply peel_first.
    + apply peel_first_length.
    + rewrite Hloop. exists (rankings st').
      split_and!; [done|apply (pl_rk_len g st' Hp)|].
      intros u Hu Hrk. pose proof (pl_unranked g st' Hp u Hu Hrk) as Hin.
      rewrite Hrem in Hin. by apply not_elem_of_nil in Hin.
Qed.

End WithGraph.

End CoreTermination.

(** ** Orientation of the graph *)

Module BuilderFacts.
Import Builder Ordering Cliques SubGraphInv FromDAGInv CoreTermination.

Lemma kept_fold (f : nat → bool) l acc :
  foldl (λ row v, if f v then row ++ [v] else row) acc l
  = acc ++ filter (λ v, f v = true) l.
Proof.
  revert acc. induction l as [|x l IH]; intros acc; cbn [foldl].
  - by rewrite filter_nil, app_nil_r.
  - rewrite IH, filter_cons. destruct (f x) eqn:E.
    + rewrite decide_True by done. by rewrite <- app_assoc.
    + rewrite decide_False by congruence. done.
Qed.

(** The second pass keeps the neighbours the order selects, in the
    order of the input list. *)
Lemma kept_filter g f u :
  kept g f u = filter (λ v, f u v = true) (out_neigh g u).
Proof. unfold kept. apply (kept_fold (f u)). Qed.

(** The first pass counts what the second pass keeps. *)
Lemma new_degrees_fold (f : nat → bool) l c :
  foldl (λ c v, if f v then S c else c) c l
  = (c + length (filter (λ v, f v = true) l))%nat.
Proof.
  revert c. induction l as [|x l IH]; intros c; cbn [foldl].
  - rewrite filter_nil. simpl. lia.
  - rewrite IH, filter_cons. destruct (f x) eqn:E.
    + rewrite decide_True by done. simpl. lia.
    + rewrite decide_False by congruence. done.
Qed.

Lemma sort_ids_perm l : sort_ids l ≡ₚ l.
Proof. apply merge_sort_Permutation. Qed.

Lemma sorted_le_lt (l : list nat) :
  StronglySorted Nat.le l → NoDup l → StronglySorted lt l.
Proof.
  induction 1 as [|x l Hs IH Hall]; intros Hnd; [constructor|].
  apply NoDup_cons in Hnd as [Hx Hnd].
  constructor; [by apply IH|].
  rewrite Forall_forall in Hall |- *. intros y Hy.
  specialize (Hall y Hy). assert (x ≠ y) by (intros ->; done).
  unfold Nat.le in Hall. lia.
Qed.

Lemma sort_ids_sorted l : NoDup l → StronglySorted lt (sort_ids l).
Proof.
  intros Hnd. apply sorted_le_lt.
  - apply (StronglySorted_merge_sort Nat.le).
  - unfold sort_ids. by rewrite merge_sort_Permutation.
Qed.

Lemma out_neigh_outside (g : Graph) u :
  (num_nodes g ≤ u)%nat → out_neigh g u = [].
Proof.
  intros Hu. unfold out_neigh, Graph in *. rewrite list_lookup_total_alt.
  by rewrite lookup_ge_None_2.
Qed.

Lemma direct_num_nodes g f : num_nodes (DirectGraphByFunc g f) = num_nodes g.
Proof.
  unfold DirectGraphByFunc, num_nodes. by rewrite length_map, length_seq.
Qed.

Lemma direct_out_neigh g f u :
  (u < num_nodes g)%nat →
  out_neigh (DirectGraphByFunc g f) u
  = sort_ids (filter (λ v, f u v = true) (out_neigh g u)).
Proof.
  intros Hu. unfold DirectGraphByFunc. unfold out_neigh at 1.
  unfold Graph. rewrite list_lookup_total_alt, list_lookup_fmap, lookup_seq_lt by done.
  cbn [fmap option_fmap option_map default Nat.add].
  by rewrite kept_filter.
Qed.

(** The out-degrees computed by the first pass are those of the
    result. *)
Lemma new_degrees_spec g f u :
  (u < num_nodes g)%nat →
  new_degrees g f !!! u = out_degree (DirectGraphByFunc g f) u.
Proof.
  intros Hu. unfold new_degrees, out_degree.
  rewrite direct_out_neigh by done.
  rewrite list_lookup_total_alt, list_lookup_fmap, lookup_seq_lt by done.
  cbn [fmap option_fmap option_map default Nat.add].
  rewrite (new_degrees_fold (f u)).
  unfold sort_ids. by rewrite merge_sort_Permutation.
Qed.

(** Orienting only drops neighbours. *)
Lemma direct_degree_le g f u :
  (out_degree (DirectGraphByFunc g f) u ≤ out_degree g u)%nat.
Proof.
  unfold out_degree.
  destruct (decide (u < num_nodes g)%nat) as [Hu|Hu].
  - rewrite direct_out_neigh by done. unfold sort_ids.
    rewrite merge_sort_Permutation. apply length_filter.
  - rewrite out_neigh_outside by (rewrite direct_num_nodes; lia).
    simpl. lia.
Qed.

Lemma direct_oriented g f : oriented g f (DirectGraphByFunc g f).
Proof.
  split; [apply direct_num_nodes|]. intros u v Hu.
  rewrite direct_out_neigh by done.
  unfold sort_ids. rewrite merge_sort_Permutation, list_elem_of_filter.
  tauto.
Qed.

Lemma GreaterDegreeOrID_iff g u v :
  GreaterDegreeOrID g u v = true
  ↔ (out_degree g u < out_degree g v)%nat
    ∨ (out_degree g v = out_degree g u ∧ (u < v)%nat).
Proof.
  unfold GreaterDegreeOrID.
  by rewrite orb_true_iff, andb_true_iff, !Nat.ltb_lt, Nat.eqb_eq.
Qed.

(** Degree, then id: a strict total order on the vertices. *)
Lemma GreaterDegreeOrID_strict_total g : strict_total (GreaterDegreeOrID g).
Proof.
  split.
  - intros u. apply not_true_is_false. rewrite GreaterDegreeOrID_iff. lia.
  - intros u v w. rewrite !GreaterDegreeOrID_iff. lia.
  - intros u v Hne. rewrite !GreaterDegreeOrID_iff. lia.
Qed.

Lemma compare_rankings_iff g rk u v :
  compare_rankings g rk u v = true
  ↔ rk !!! u < rk !!! v
    ∨ (rk !!! u = rk !!! v ∧ GreaterDegreeOrID g u v = true).
Proof.
  unfold compare_rankings.
  by rewrite orb_true_iff, andb_true_iff, Z.ltb_lt, Z.eqb_eq.
Qed.

(** Rank, then degree, then id: a strict total order whatever the
    ranking. *)
Lemma compare_rankings_strict_total g rk :
  strict_total (compare_rankings g rk).
Proof.
  pose proof (GreaterDegreeOrID_strict_total g) as [Hi Ht Htot].
  split.
  - intros u. apply not_true_is_false. rewrite compare_rankings_iff.
    rewrite Hi. intros [?|[_ ?]]; [lia|done].
  - intros u v w. rewrite !compare_rankings_iff.
    intros [H1|[H1 G1]] [H2|[H2 G2]]; try (left; lia).
    right. split; [lia|]. by apply (Ht u v w).
  - intros u v Hne. rewrite !compare_rankings_iff.
    destruct (Z.lt_trichotomy (rk !!! u) (rk !!! v)) as [H|[H|H]];
      [left; by left| |right; by left].
    destruct (Htot u v Hne); [left|right]; right; split; done.
Qed.

Lemma strict_total_asym before u v :
  strict_total before → before u v = true → before v u = true → False.
Proof.
  intros [Hi Ht _] H1 H2. pose proof (Ht u v u H1 H2) as H.
  by rewrite Hi in H.
Qed.



Lemma simple_row_of g u :
  undirected_simple g → (u < num_nodes g)%nat → simple_row g u.
Proof.
  intros Hg Hu. unfold undirected_simple in Hg.
  rewrite Forall_forall in Hg. apply Hg, elem_of_seq. lia.
Qed.

Lemma simple_degree g u :
  undirected_simple g → (u < num_nodes g)%nat →
  (out_degree g u ≤ num_nodes g)%nat.
Proof.
  intros Hg Hu. destruct (simple_row_of g u Hg Hu) as [Hs Hall].
  unfold out_degree.
  rewrite <- (length_seq (num_nodes g) 0).
  apply submseteq_length, NoDup_submseteq; [by apply sorted_lt_nodup|].
  intros v Hv. rewrite Forall_forall in Hall.
  apply elem_of_seq. specialize (Hall v Hv). lia.
Qed.

Lemma direct_degree_bound g f u :
  undirected_simple g →
  (out_degree (DirectGraphByFunc g f) u ≤ num_nodes g)%nat.
Proof.
  intros Hg. etrans; [apply direct_degree_le|].
  destruct (decide (u < num_nodes g)%nat) as [Hu|Hu].
  - by apply simple_degree.
  - unfold out_degree. rewrite out_neigh_outside by lia. simpl. lia.
Qed.

(** The oriented graph of a simple graph is a well-formed DAG view. *)
Lemma direct_dag_wf g before :
  undirected_simple g → strict_total before →
  dag_wf (DirectGraphByFunc g before).
Proof.
  intros Hg Hst. unfold dag_wf. rewrite direct_num_nodes.
  apply Forall_forall. intros u Hu. apply elem_of_seq in Hu.
  assert (Hu' : (u < num_nodes g)%nat) by lia.
  destruct (simple_row_of g u Hg Hu') as [Hs Hall].
  rewrite Forall_forall in Hall.
  pose proof (direct_oriented g before) as [_ Hor].
  split.
  - rewrite direct_out_neigh by done. apply sort_ids_sorted.
    apply NoDup_filter. by apply sorted_lt_nodup.
  - apply Forall_forall. intros v Hv. apply Hor in Hv as [Hv Hb]; [|done].
    destruct (Hall v Hv) as (Hvn & Hvu & _).
    rewrite direct_num_nodes. split_and!; [done|done|].
    intros Hback. apply Hor in Hback as [_ Hb']; [|done].
    by apply (strict_total_asym before u v).
Qed.

(** Where the heuristic of [Directionalize] is defined, the result is
    the orientation of the graph along a strict total order, on
    either branch. *)
Lemma directionalize_total thresh g adv :
  undirected_simple g → CoreIsAdvantageous g = Some adv →
  ∃ dag before,
    Directionalize thresh g = Some dag
    ∧ strict_total before
    ∧ dag = DirectGraphByFunc g before.
Proof.
  intros Hg Hadv. unfold Directionalize. rewrite Hadv. destruct adv.
  - destruct (core_approx_total thresh g (λ u, simple_degree g u Hg))
      as (rk & Hrk & _).
    rewrite Hrk. cbn [mbind option_bind].
    exists (DirectGraphCore g rk), (compare_rankings g rk).
    split_and!; [done|apply compare_rankings_strict_total|done].
  - exists (DirectGraphDegree g), (GreaterDegreeOrID g).
    split_and!; [done|apply GreaterDegreeOrID_strict_total|done].
Qed.

(** Where the heuristic is undefined, so is [Directionalize]. *)
Lemma directionalize_undefined thresh g :
  CoreIsAdvantageous g = None → Directionalize thresh g = None.
Proof. intros H. unfold Directionalize. by rewrite H. Qed.

End BuilderFacts.

(** ** The counter over the oriented graph *)

Module CountFacts.
Import Builder Cliques SubGraph SubGraphInv VecFacts FromDAGInv.
Import CliqueFacts PivotValue BuilderFacts.

Lemma combs_map (f : nat → nat) k l :
  combs k (map f l) = map (map f) (combs k l).
Proof.
  revert k. induction l as [|x l IH]; intros [|k]; cbn [map combs]; try done.
  rewrite map_app, !IH, !map_map. done.
Qed.

Lemma forallb_map_comp (p : nat → bool) (f : nat → nat) s :
  forallb p (map f s) = forallb (λ x, p (f x)) s.
Proof. induction s as [|x s IH]; [done|]. cbn [map forallb]. by rewrite IH. Qed.

Lemma is_clique_map E (f : nat → nat) s :
  is_clique E (map f s) = is_clique (λ a b, E (f a) (f b)) s.
Proof.
  induction s as [|x s IH]; [done|]. cbn [map is_clique].
  by rewrite IH, forallb_map_comp.
Qed.

Lemma length_filter_map {A B} (f : A → B) (P : B → Prop)
    `{∀ x, Decision (P x)} (l : list A) :
  length (filter P (map f l)) = length (filter (λ x, P (f x)) l).
Proof.
  induction l as [|x l IH]; [done|]. cbn [map]. rewrite !filter_cons.
  destruct (decide (P (f x))); cbn [length]; by rewrite IH.
Qed.

(** Counting after a renaming is counting along the renaming. *)
Lemma count_in_map E (f : nat → nat) k l :
  count_in E k (map f l) = count_in (λ a b, E (f a) (f b)) k l.
Proof.
  unfold count_in. rewrite combs_map, length_filter_map.
  f_equal. apply filter_ext_in. intros s _. by rewrite is_clique_map.
Qed.

Lemma combs_subset {A} k (l s : list A) x :
  s ∈ combs k l → x ∈ s → x ∈ l.
Proof.
  revert k s. induction l as [|y l IH]; intros [|k] s Hs Hx; cbn [combs] in Hs.
  - apply list_elem_of_singleton in Hs. subst. done.
  - by apply not_elem_of_nil in Hs.
  - apply list_elem_of_singleton in Hs. subst. by apply not_elem_of_nil in Hx.
  - apply elem_of_app in Hs as [Hs|Hs].
    + apply list_elem_of_fmap in Hs as (s' & -> & Hs').
      apply elem_of_cons in Hx as [->|Hx]; [apply list_elem_of_here|].
      apply list_elem_of_further. by eapply IH.
    + apply list_elem_of_further. by eapply IH.
Qed.

Lemma forallb_ext_elem (p q : nat → bool) s :
  (∀ y, y ∈ s → p y = q y) → forallb p s = forallb q s.
Proof.
  induction s as [|x s IH]; intros H; [done|]. cbn [forallb].
  rewrite (H x) by apply list_elem_of_here.
  rewrite IH; [done|]. intros y Hy. by apply H, list_elem_of_further.
Qed.

Lemma is_clique_ext_in E E' s :
  (∀ a b, a ∈ s → b ∈ s → E a b = E' a b) →
  is_clique E s = is_clique E' s.
Proof.
  induction s as [|x s IH]; intros H; [done|]. cbn [is_clique].
  rewrite IH.
  - f_equal. apply forallb_ext_elem. intros y Hy.
    apply H; [apply list_elem_of_here|by apply list_elem_of_further].
  - intros a b Ha Hb. apply H; by apply list_elem_of_further.
Qed.

Lemma count_in_ext_in E E' k l :
  (∀ a b, a ∈ l → b ∈ l → E a b = E' a b) →
  count_in E k l = count_in E' k l.
Proof.
  intros H. unfold count_in. f_equal. apply filter_ext_in. intros s Hs.
  rewrite (is_clique_ext_in E E'); [done|].
  intros a b Ha Hb. apply H; by eapply combs_subset.
Qed.

Lemma map_lookup_total_seq {A} `{Inhabited A} (l : list A) :
  map (λ i, l !!! i) (seq 0 (length l)) = l.
Proof.
  apply list_eq. intros i. rewrite list_lookup_fmap.
  destruct (decide (i < length l)%nat) as [Hi|Hi].
  - rewrite lookup_seq_lt by done. cbn.
    symmetry. by apply lookup_total_lookup.
  - rewrite lookup_seq_ge by lia. cbn. symmetry.
    apply lookup_ge_None_2. lia.
Qed.

Lemma adjacent_iff g a b : adjacent g a b = true ↔ b ∈ out_neigh g a.
Proof. unfold adjacent. by rewrite bool_decide_eq_true. Qed.

Lemma simple_in_range g a b :
  undirected_simple g → b ∈ out_neigh g a → (a < num_nodes g)%nat.
Proof.
  intros Hg Hb. destruct (decide (a < num_nodes g)%nat); [done|].
  rewrite out_neigh_outside in Hb by lia. by apply not_elem_of_nil in Hb.
Qed.

Lemma simple_edge g a b :
  undirected_simple g → b ∈ out_neigh g a →
  (a < num_nodes g)%nat ∧ (b < num_nodes g)%nat ∧ b ≠ a
  ∧ a ∈ out_neigh g b.
Proof.
  intros Hg Hb. pose proof (simple_in_range g a b Hg Hb) as Ha.
  destruct (simple_row_of g a Hg Ha) as [_ Hall].
  rewrite Forall_forall in Hall. specialize (Hall b Hb). tauto.
Qed.

Lemma adjacent_sym g a b :
  undirected_simple g → adjacent g a b = adjacent g b a.
Proof.
  intros Hg. apply eq_true_iff_eq. rewrite !adjacent_iff.
  split; intros H; by apply (simple_edge g _ _ Hg) in H as (_ & _ & _ & ?).
Qed.

Section Oriented.
Variable g : Graph.
Variable before : nat → nat → bool.
Hypothesis Hg : undirected_simple g.
Hypothesis Hst : strict_total before.

Let dag : Graph := DirectGraphByFunc g before.

Lemma dag_edge_iff u v :
  v ∈ out_neigh dag u ↔ v ∈ out_neigh g u ∧ before u v = true.
Proof.
  destruct (decide (u < num_nodes g)%nat) as [Hu|Hu].
  - by apply (direct_oriented g before).
  - unfold dag. rewrite !out_neigh_outside
      by (rewrite ?direct_num_nodes; lia).
    rewrite elem_of_nil. tauto.
Qed.

(** The local graph of a root is the graph among the root's
    out-neighbours, renamed by position. *)
Lemma root_local_adj sg0 u x y :
  (u < num_nodes g)%nat →
  (x < out_degree dag u)%nat → (y < out_degree dag u)%nat →
  local_adj (InduceFromDAG sg0 dag u) x y
  = adjacent g (out_neigh dag u !!! x) (out_neigh dag u !!! y).
Proof.
  intros Hu Hx Hy.
  assert (Hwf : dag_wf dag) by (by apply direct_dag_wf).
  assert (Hu' : (u < num_nodes dag)%nat)
    by (unfold dag; by rewrite direct_num_nodes).
  pose proof (from_dag_spec sg0 dag u (dag_wf_nodup dag u Hwf Hu')) as Hs.
  cbv zeta in Hs. destruct Hs as (_ & _ & _ & _ & _ & _ & _ & _ & Hadj).
  apply eq_true_iff_eq. unfold local_adj.
  rewrite bool_decide_eq_true, adjacent_iff, Hadj.
  set (row := out_neigh dag u) in *.
  assert (Hrx : row !! x = Some (row !!! x))
    by (by apply lookup_total_lookup).
  assert (Hry : row !! y = Some (row !!! y))
    by (by apply lookup_total_lookup).
  unfold local_edge. fold row. split.
  - intros [(v & w & Hv & Hw & He)|(v & w & Hv & Hw & He)];
      rewrite ?Hrx, ?Hry in Hv, Hw; simplify_eq;
      apply dag_edge_iff in He as [He _]; [done|].
    by apply (simple_edge g _ _ Hg) in He as (_ & _ & _ & ?).
  - intros He. pose proof (simple_edge g _ _ Hg He) as (_ & _ & Hne & He').
    destruct (st_total _ Hst (row !!! x) (row !!! y)) as [Hb|Hb];
      [done| |].
    + left. exists (row !!! x), (row !!! y). split_and!; [done|done|].
      apply dag_edge_iff. done.
    + right. exists (row !!! y), (row !!! x). split_and!; [done|done|].
      apply dag_edge_iff. done.
Qed.

(** What the recursion below a root is to return: the cliques among
    the root's out-neighbours. *)
Lemma root_value sg0 u j :
  (u < num_nodes g)%nat →
  count_in (local_adj (InduceFromDAG sg0 dag u)) j
           (seq 0 (out_degree dag u))
  = count_in (adjacent g) j (out_neigh dag u).
Proof.
  intros Hu.
  rewrite <- (map_lookup_total_seq (out_neigh dag u)).
  rewrite count_in_map. apply count_in_ext_in.
  intros a b Ha Hb. apply elem_of_seq in Ha, Hb.
  apply root_local_adj; [done|unfold out_degree; lia..].
Qed.

(** The vertices in the order [before]. *)
Let R : nat → nat → Prop := not_after before.

Lemma not_after_total : Total R.
Proof.
  intros u v. unfold R, not_after. destruct (before v u) eqn:E1; [|by left].
  right. destruct (before u v) eqn:E2; [|done].
  exfalso. by apply (strict_total_asym before u v).
Qed.

Lemma not_after_trans : Transitive R.
Proof.
  intros u v w. unfold R, not_after. intros H1 H2.
  destruct (before w u) eqn:E; [|done].
  destruct (decide (u = v)) as [->|Hne]; [congruence|].
  destruct (st_total _ Hst u v Hne) as [Hb|Hb]; [|congruence].
  pose proof (st_trans _ Hst w u v E Hb). congruence.
Qed.

Lemma later_neighbours pre v later :
  merge_sort R (seq 0 (num_nodes g)) = pre ++ v :: later →
  filter (λ y, adjacent g v y = true) later ≡ₚ out_neigh dag v.
Proof.
  intros Hsplit.
  pose proof (@StronglySorted_merge_sort _ R _ not_after_trans
                not_after_total (seq 0 (num_nodes g))) as Hs.
  pose proof (merge_sort_Permutation R (seq 0 (num_nodes g))) as Hp.
  assert (Hnd : NoDup (pre ++ v :: later)).
  { rewrite <- Hsplit, Hp. apply NoDup_seq. }
  rewrite Hsplit in Hs, Hp.
  assert (Hv : (v < num_nodes g)%nat).
  { assert (v ∈ seq 0 (num_nodes g)) as Hin
      by (rewrite <- Hp; set_solver).
    apply elem_of_seq in Hin. lia. }
  apply NoDup_app in Hnd as (Hnd1 & Hdisj & Hnd2).
  apply NoDup_cons in Hnd2 as [Hv_later Hnd2].
  apply StronglySorted_app in Hs as (Hs12 & Hs1 & Hs2).
  apply StronglySorted_inv in Hs2 as [Hs2 Hlater].
  rewrite Forall_forall in Hlater.
  apply NoDup_Permutation.
  - by apply NoDup_filter.
  - apply (dag_wf_nodup dag v); [by apply direct_dag_wf|].
    unfold dag. by rewrite direct_num_nodes.
  - intros y. rewrite list_elem_of_filter, adjacent_iff, dag_edge_iff.
    split.
    + intros [He Hy]. split; [done|].
      specialize (Hlater y Hy). unfold R, not_after in Hlater.
      destruct (st_total _ Hst v y) as [?|?]; [|done|congruence].
      intros ->. done.
    + intros [He Hb]. split; [done|].
      pose proof (simple_edge g _ _ Hg He) as (_ & Hyn & Hne & _).
      assert (y ∈ pre ++ v :: later) as Hin.
      { rewrite Hp. apply elem_of_seq. lia. }
      apply elem_of_app in Hin as [Hin|Hin].
      * specialize (Hs12 y v Hin (list_elem_of_here _ _)).
        unfold R, not_after in Hs12. congruence.
      * apply elem_of_cons in Hin as [->|Hin]; [done|done].
Qed.

(** Every clique is counted once, at its first vertex in the
    order. *)
Lemma root_sum j :
  sumZ (map (λ u, Z.of_nat (count_in (adjacent g) j (out_neigh dag u)))
            (seq 0 (num_nodes g)))
  = Z.of_nat (count_in (adjacent g) (S j) (seq 0 (num_nodes g))).
Proof.
  pose proof (merge_sort_Permutation R (seq 0 (num_nodes g))) as Hp.
  rewrite <- (sumZ_perm _ _ (Permutation_map _ Hp)).
  rewrite <- (count_in_perm _ (λ a b, adjacent_sym g a b Hg) _ _ _ Hp).
  pose proof (count_split (adjacent g)
                (merge_sort R (seq 0 (num_nodes g))) [] j) as Hc.
  rewrite app_nil_r in Hc. rewrite Hc.
  rewrite count_in_nil, Z.add_0_l. symmetry.
  apply split_sum_map. intros pre v later Hsplit.
  rewrite app_nil_r. f_equal.
  apply count_in_perm; [intros; by apply adjacent_sym|].
  by eapply later_neighbours.
Qed.

End Oriented.

End CountFacts.

(** ** The fixed-size counter *)

Module CacheExact.
Import CombCache CombCacheFacts PivotScale RecurseCorrect.

Lemma wrap_small x : 0 <= x < 2 ^ 64 → wrap x = x.
Proof. intros H. unfold wrap, CombCache.wrap. by apply Z.mod_small. Qed.

Lemma cwrap_small x : 0 <= x < 2 ^ 64 → CombCache.wrap 64 x = x.
Proof. intros H. unfold CombCache.wrap. by apply Z.mod_small. Qed.

(** Below the table bound every query is the binomial coefficient
    modulo [2^64]. *)
Lemma exact_small (n r : nat) :
  (n < kNumPrecompute)%nat → Z.of_nat r < 2 ^ 31 →
  n_choose_k n_choose_k_memo (Z.of_nat n) (Z.of_nat r) = wrap (binom n r).
Proof.
  intros Hn Hr. unfold n_choose_k, n_choose_k_memo, count_bits.
  unfold kNumPrecompute in Hn.
  destruct (decide (r ≤ n)%nat) as [Hle|Hgt].
  - apply (call_table 64); [by left|done|done].
  - rewrite binom_gt by lia. rewrite wrap_0.
    destruct (decide (r < kNumPrecompute)%nat) as [Hlt|Hge].
    + apply call_table_gt; [lia|done].
    + unfold kNumPrecompute in Hge. unfold call.
      rewrite (proj2 (Z.ltb_ge (Z.of_nat r) (Z.of_nat kNumPrecompute)))
        by (unfold kNumPrecompute; lia).
      rewrite andb_false_r.
      rewrite !cwrap_small by lia.
      unfold compute. rewrite (proj2 (Z.gtb_gt _ _)) by lia. done.
Qed.

Lemma compute_0 n : 0 <= n → compute 64 n 0 = 1.
Proof.
  intros Hn. unfold compute.
  destruct (0 >? n) eqn:E; [apply Z.gtb_gt in E; lia|]. done.
Qed.

(** Choosing nothing is always one way. *)
Lemma exact_0 (n : nat) :
  n_choose_k n_choose_k_memo (Z.of_nat n) 0 = 1.
Proof.
  destruct (decide (n < kNumPrecompute)%nat) as [Hlt|Hge].
  { change 0 with (Z.of_nat 0) at 1.
    rewrite (exact_small n 0) by (done || lia). by rewrite binom_0_r. }
  unfold kNumPrecompute in Hge.
  unfold n_choose_k, count_bits, call.
  rewrite (proj2 (Z.ltb_ge (Z.of_nat n) (Z.of_nat kNumPrecompute)))
    by (unfold kNumPrecompute; lia).
  cbn [andb]. apply compute_0.
  unfold CombCache.wrap. apply Z.mod_pos_bound. lia.
Qed.

(** The fallback is exact for one vertex to choose ... *)
Lemma compute_1 n : 1 < n < 2 ^ 64 → compute 64 n 1 = n.
Proof.
  intros Hn. unfold compute.
  destruct (1 >? n) eqn:E; [apply Z.gtb_gt in E; lia|].
  rewrite (proj2 (Z.eqb_neq 1 n)) by lia. cbn [Z.eqb orb].
  rewrite (cwrap_small (n - 1)) by lia.
  rewrite Z.min_l by lia.
  change (map Z.of_nat (seq 1 (Z.to_nat 1))) with [1].
  cbn [foldl]. unfold compute_step. change (1 - 1) with 0.
  rewrite (cwrap_small 0) by lia. rewrite Z.sub_0_r, (cwrap_small n) by lia.
  rewrite Z.mul_1_l, (cwrap_small n) by lia. apply Z.div_1_r.
Qed.

(** ... and for two, as long as [n * (n - 1)] fits the counter. *)
Lemma compute_2 n : 3 < n < 2 ^ 32 → 2 * compute 64 n 2 = n * (n - 1).
Proof.
  intros Hn. unfold compute.
  destruct (2 >? n) eqn:E; [apply Z.gtb_gt in E; lia|].
  rewrite (proj2 (Z.eqb_neq 2 n)) by lia. cbn [Z.eqb orb].
  rewrite (cwrap_small (n - 2)) by lia.
  rewrite Z.min_l by lia.
  change (map Z.of_nat (seq 1 (Z.to_nat 2))) with [1; 2].
  cbn [foldl]. unfold compute_step.
  change (2 - 1) with 1. change (2 - 2) with 0.
  rewrite (cwrap_small 0), (cwrap_small 1) by lia.
  rewrite Z.sub_0_r, (cwrap_small n), (cwrap_small (n - 1)) by lia.
  rewrite Z.mul_1_l, (cwrap_small (n - 1)), Z.div_1_r by lia.
  rewrite (cwrap_small ((n - 1) * n)) by nia.
  assert (Hev : ((n - 1) * n) mod 2 = 0).
  { rewrite Z.mul_mod by lia.
    rewrite <- (Z.mod_mod n 2) at 1 by lia.
    replace (n - 1) with (n + (-1)) by lia.
    rewrite Z.add_mod by lia.
    pose proof (Z.mod_pos_bound n 2 ltac:(lia)) as Hb.
    assert (n mod 2 = 0 ∨ n mod 2 = 1) as [->| ->] by lia; done. }
  pose proof (Z.div_mod ((n - 1) * n) 2 ltac:(lia)). lia.
Qed.

(** Up to two vertices to choose, every query is exact for the ids
    of a graph. *)
Lemma exact_upto2 (n r : nat) :
  (r < 3)%nat → Z.of_nat n < 2 ^ 31 →
  n_choose_k n_choose_k_memo (Z.of_nat n) (Z.of_nat r) = wrap (binom n r).
Proof.
  intros Hr Hn.
  destruct (decide (n < kNumPrecompute)%nat) as [Hlt|Hge].
  { apply exact_small; [done|lia]. }
  unfold kNumPrecompute in Hge.
  unfold n_choose_k, count_bits, call.
  rewrite (proj2 (Z.ltb_ge (Z.of_nat n) (Z.of_nat kNumPrecompute)))
    by (unfold kNumPrecompute; lia).
  cbn [andb]. rewrite !cwrap_small by lia.
  destruct r as [|[|[|r]]]; [| | |lia].
  - rewrite compute_0 by lia. by rewrite binom_0_r.
  - change (Z.of_nat 1) with 1. rewrite compute_1 by lia.
    rewrite binom_1_r. symmetry. apply wrap_small. lia.
  - change (Z.of_nat 2) with 2.
    pose proof (compute_2 (Z.of_nat n) ltac:(lia)) as H2.
    pose proof (binom_2_r n) as Hb.
    rewrite wrap_small; [lia|]. nia.
Qed.

End CacheExact.

Module PivotCountCorrect.
Import Builder Cliques SubGraph SubGraphInv VecFacts FromDAGInv.
Import CombCache CombCacheFacts CliqueFacts PivotValue BuilderFacts.
Import CountFacts PivotScale RecurseCorrect.

Section Exact.
Variable memo : memo_t.
Variable k N : nat.
Hypothesis Hexact :
  ∀ n r, (r < k)%nat → (n ≤ N)%nat →
         n_choose_k memo (Z.of_nat n) (Z.of_nat r) = wrap (binom n r).
Hypothesis Hk : (1 ≤ k)%nat.

Variable g : Graph.
Variable before : nat → nat → bool.
Hypothesis Hg : undirected_simple g.
Hypothesis Hst : strict_total before.

Let dag : Graph := DirectGraphByFunc g before.

Hypothesis HN : ∀ u, (out_degree dag u ≤ N)%nat.

(** One root: the recursion returns the number of [(k-1)]-cliques
    among the root's out-neighbours. *)
Lemma root_step_correct c sg u :
  (u < num_nodes g)%nat →
  ∃ sg',
    root_step memo dag (Z.of_nat k) (Some (c, sg)) u
    = Some (wrap (c + Z.of_nat (count_in (adjacent g) (k - 1)
                                         (out_neigh dag u))), sg').
Proof.
  intros Hu. unfold root_step. cbn [mbind option_bind]. cbv zeta.
  assert (Hwf : dag_wf dag) by (by apply direct_dag_wf).
  assert (Hu' : (u < num_nodes dag)%nat)
    by (unfold dag; by rewrite direct_num_nodes).
  pose proof (dag_wf_nodup dag u Hwf Hu') as Hnd.
  pose proof (from_dag_spec sg dag u Hnd) as Hs. cbv zeta in Hs.
  destruct Hs as (_ & _ & Hal & _).
  destruct (recurse_correct memo k N Hexact (S (out_degree dag u))
              (InduceFromDAG sg dag u) 1%nat 0%nat)
    as (sg' & Hrec & _ & _).
  - by apply inv_from_dag.
  - by apply graph_ok_from_dag.
  - unfold NumActive. rewrite Hal, length_seq. lia.
  - done.
  - done.
  - unfold NumActive. rewrite Hal, length_seq. specialize (HN u). lia.
  - change (Z.of_nat (1 + 0)) with 1 in Hrec.
    change (Z.of_nat 0) with 0 in Hrec.
    rewrite Hrec. cbn [mbind option_bind]. exists sg'.
    cbn [pivot_value]. rewrite Hal.
    pose proof (root_value g before Hg Hst sg u (k - 1) Hu) as Hv.
    change (DirectGraphByFunc g before) with dag in Hv.
    by rewrite Hv, wrap_add_r.
Qed.

Lemma root_fold us : ∀ c sg,
  (∀ u, u ∈ us → (u < num_nodes g)%nat) → wrap c = c →
  ∃ sg',
    foldl (root_step memo dag (Z.of_nat k)) (Some (c, sg)) us
    = Some (wrap (c + sumZ (map (λ u, Z.of_nat
                                   (count_in (adjacent g) (k - 1)
                                             (out_neigh dag u))) us)),
            sg').
Proof.
  induction us as [|u us IH]; intros c sg Hus Hc.
  - exists sg. cbn [foldl map sumZ foldr]. by rewrite Z.add_0_r, Hc.
  - cbn [foldl map sumZ foldr].
    destruct (root_step_correct c sg u) as (sg1 & Hstep);
      [apply Hus, list_elem_of_here|].
    rewrite Hstep.
    destruct (IH (wrap (c + Z.of_nat (count_in (adjacent g) (k - 1)
                                        (out_neigh dag u)))) sg1)
      as (sg' & Hfold).
    + intros v Hv. by apply Hus, list_elem_of_further.
    + apply wrap_wrap.
    + exists sg'. rewrite Hfold. f_equal. f_equal.
      rewrite wrap_add_l. f_equal. unfold sumZ. lia.
Qed.

(** The counter returns the number of [k]-cliques of the graph,
    reduced to the counter's type. *)
Lemma pivot_count_correct :
  PivotCount memo dag (Z.of_nat k)
  = Some (wrap (Z.of_nat (count_cliques g k))).
Proof.
  unfold PivotCount.
  destruct (root_fold (seq 0 (num_nodes dag)) 0 SubGraph.init)
    as (sg' & Hfold).
  - intros u Hu. apply elem_of_seq in Hu. unfold dag in Hu.
    rewrite direct_num_nodes in Hu. lia.
  - done.
  - rewrite Hfold. cbn [fmap option_fmap option_map fst].
    f_equal. f_equal. rewrite Z.add_0_l.
    pose proof (root_sum g before Hg Hst (k - 1)) as Hsum.
    change (DirectGraphByFunc g before) with dag in Hsum.
    replace (num_nodes dag) with (num_nodes g)
      by (unfold dag; by rewrite direct_num_nodes).
    rewrite Hsum. unfold count_cliques. by replace (S (k - 1)) with k by lia.
Qed.

End Exact.

End PivotCountCorrect.

(** ** The sweep counter *)

Module SweepFacts.
Import SubGraph SubGraphInv VecFacts InvFacts InduceInv UndoInv RestoreFacts.
Import Cliques CombCache CombCacheFacts CliqueFacts PivotValue PivotDecomp.
Import RecurseFacts PivotScale RecurseCorrect SweepSpec.

Lemma add_at_length counts i x : length (Sweep.add_at counts i x) = length counts.
Proof. unfold Sweep.add_at. apply length_insert. Qed.

Lemma add_at_lookup counts (i j : nat) x :
  (i < length counts)%nat →
  Sweep.add_at counts (Z.of_nat i) x !!! j
  = if decide (i = j) then wrap (counts !!! i + x) else counts !!! j.
Proof.
  intros Hi. unfold Sweep.add_at. rewrite Nat2Z.id.
  rewrite list_lookup_total_insert.
  destruct (decide (i = j)) as [->|Hne].
  - by rewrite decide_True by done.
  - rewrite decide_False by tauto. done.
Qed.

Lemma base_fold memo (holds pivots : nat) m counts :
  (holds + m ≤ length counts)%nat →
  let r := foldl (λ counts p,
                    Sweep.add_at counts (Z.of_nat holds + p)
                                 (n_choose_k memo (Z.of_nat pivots) p))
                 counts (map Z.of_nat (seq 0 m)) in
  length r = length counts
  ∧ ∀ j, r !!! j
         = if decide (holds ≤ j < holds + m)%nat
           then wrap (counts !!! j
                      + n_choose_k memo (Z.of_nat pivots)
                                   (Z.of_nat (j - holds)))
           else counts !!! j.
Proof.
  induction m as [|m IH]; intros Hm; cbv zeta.
  - cbn [seq map foldl]. split; [done|]. intros j.
    by rewrite decide_False by lia.
  - rewrite seq_S, map_app, foldl_app. cbn [map foldl Nat.add].
    destruct (IH ltac:(lia)) as [IH1 IH2]. cbv zeta in IH1, IH2.
    set (r := foldl _ counts (map Z.of_nat (seq 0 m))) in *.
    split; [by rewrite add_at_length|]. intros j.
    replace (Z.of_nat holds + Z.of_nat m) with (Z.of_nat (holds + m))
      by lia.
    rewrite add_at_lookup by lia.
    destruct (decide (holds + m = j)%nat) as [<-|Hne].
    + rewrite decide_True by lia. rewrite IH2.
      rewrite decide_False by lia.
      by replace (holds + m - holds)%nat with m by lia.
    + rewrite IH2.
      destruct (decide (holds ≤ j < holds + m)%nat).
      * by rewrite decide_True by lia.
      * by rewrite decide_False by lia.
Qed.

(** The base case adds [C(pivots, p)] to the slot [holds + p], for
    [p] from 0 to [min pivots (max_k - holds)], and nothing else. *)
Lemma base_case_spec memo (max_k holds pivots : nat) counts :
  (holds ≤ max_k)%nat → length counts = S max_k →
  let r := Sweep.base_case memo (Z.of_nat max_k) (Z.of_nat holds)
                           (Z.of_nat pivots) counts in
  length r = length counts
  ∧ ∀ j, r !!! j
         = if decide (holds ≤ j ≤ holds + Nat.min pivots (max_k - holds))%nat
           then wrap (counts !!! j
                      + n_choose_k memo (Z.of_nat pivots)
                                   (Z.of_nat (j - holds)))
           else counts !!! j.
Proof.
  intros Hh Hlen. cbv zeta. unfold Sweep.base_case.
  replace (Z.to_nat (Z.min (Z.of_nat pivots)
                           (Z.of_nat max_k - Z.of_nat holds) + 1))
    with (S (Nat.min pivots (max_k - holds))) by lia.
  destruct (base_fold memo holds pivots
              (S (Nat.min pivots (max_k - holds))) counts ltac:(lia))
    as [H1 H2].
  cbv zeta in H1, H2. split; [exact H1|]. intros j. rewrite H2.
  destruct (decide (holds ≤ j ≤ holds + Nat.min pivots (max_k - holds))%nat).
  - by rewrite decide_True by lia.
  - by rewrite decide_False by lia.
Qed.

Lemma sumZ_indicator (p : nat) (f : nat → Z) (c : Z) l :
  NoDup l → p ∈ l →
  (∀ v, v ∈ l → v ≠ p → f v = 0) → f p = c →
  sumZ (map f l) = c.
Proof.
  induction l as [|x l IH]; intros Hnd Hp Hz Hc.
  - by apply not_elem_of_nil in Hp.
  - apply NoDup_cons in Hnd as [Hx Hnd]. cbn [map sumZ foldr].
    destruct (decide (x = p)) as [->|Hne].
    + rewrite Hc. fold (sumZ (map f l)).
      rewrite (sumZ_map_ext f (λ _, 0)).
      * rewrite sumZ_map_const. lia.
      * intros v Hv. apply Hz; [by apply list_elem_of_further|].
        intros ->. done.
    + rewrite (Hz x) by (done || apply list_elem_of_here).
      fold (sumZ (map f l)). rewrite IH; [lia|done| |..].
      * apply elem_of_cons in Hp as [->|Hp]; done.
      * intros v Hv. apply Hz. by apply list_elem_of_further.
      * done.
Qed.

Lemma sumZ_zero {A} (f : A → Z) l :
  (∀ v, v ∈ l → f v = 0) → sumZ (map f l) = 0.
Proof.
  intros H. rewrite (sumZ_map_ext f (λ _, 0)) by done.
  rewrite sumZ_map_const. lia.
Qed.

(** The slot of a call is the sum of the slots of its children: the
    pivot's child keeps the held vertices and gains a pivot, any
    other child holds one vertex more. *)
Lemma slot_decomp E P p j holds np :
  (∀ a b, E a b = E b a) → (∀ a, E a a = false) →
  NoDup P → p ∈ P →
  let NN := filter (λ n, E p n ≠ true) P in
  slot_value E j holds np P
  = sumZ (map (λ v,
           if decide (v = p)
           then slot_value E j holds (S np)
                           (filter (λ n, E p n = true) P)
           else slot_value E j (S holds) np
                  (filter (λ n, E v n = true ∧ ¬ (n ∈ NN ∧ (n < v)%nat)) P))
          NN).
Proof.
  intros Hsym Hirr Hnd Hp. cbv zeta. unfold slot_value.
  assert (HpNN : p ∈ filter (λ n, E p n ≠ true) P).
  { apply list_elem_of_filter. split; [|done]. by rewrite Hirr. }
  destruct (decide (holds ≤ j)%nat) as [Hle|Hgt].
  - destruct (decide (holds = j)) as [->|Hne].
    + rewrite Nat.sub_diag, pivot_value_0. symmetry.
      apply (sumZ_indicator p); [by apply NoDup_filter|done| |].
      * intros v _ Hv. rewrite decide_False by done.
        by rewrite decide_False by lia.
      * rewrite decide_True by done. apply pivot_value_0.
    + destruct (j - holds)%nat as [|r] eqn:Hr; [lia|].
      rewrite (pivot_decomp E Hsym Hirr P p Hnd Hp).
      apply sumZ_map_ext. intros v _.
      destruct (decide (v = p)); [done|].
      rewrite decide_True by lia.
      by replace (j - S holds)%nat with r by lia.
  - symmetry. apply sumZ_zero. intros v _.
    destruct (decide (v = p)); [done|]. by rewrite decide_False by lia.
Qed.

Lemma slot_value_ext E E' j holds np l :
  (∀ a b, E a b = E' a b) →
  slot_value E j holds np l = slot_value E' j holds np l.
Proof.
  intros H. unfold slot_value. destruct (decide _); [|done].
  by apply pivot_value_ext.
Qed.

Lemma slot_value_perm E j holds np l l' :
  (∀ a b, E a b = E b a) → l ≡ₚ l' →
  slot_value E j holds np l = slot_value E j holds np l'.
Proof.
  intros Hs Hp. unfold slot_value. destruct (decide _); [|done].
  by apply pivot_value_perm.
Qed.

Lemma sweep_PivotRecurse_S fuel memo max_k sg counts clique_size pivots :
  Sweep.PivotRecurse (S fuel) memo max_k sg counts clique_size pivots
  = let holds := clique_size - pivots in
    if (NumActive sg =? 0)%nat || (holds =? max_k)
    then Some (Sweep.base_case memo max_k holds pivots counts, sg)
    else
      let pivot_id_r := FindPivot sg in
      let '(sg, verts_to_induce) :=
        ActiveUnreachableFromPivot sg pivot_id_r in
      '(counts, sg) ←
        foldl (Sweep.child_step (Sweep.PivotRecurse fuel memo max_k)
                 pivot_id_r verts_to_induce clique_size pivots)
              (Some (counts, sg)) verts_to_induce;
      Some (counts, PopNonNeighbors sg).
Proof. done. Qed.

Section Exact.
Variable memo : memo_t.
Variable max_k j N : nat.
Hypothesis Hexact :
  ∀ n r, (r < j)%nat → (n ≤ N)%nat →
         n_choose_k memo (Z.of_nat n) (Z.of_nat r) = wrap (binom n r).
Hypothesis Hj : (j ≤ max_k)%nat.

(** What the child entered for [v] adds to the slot. *)
Let child_slot (sg : SubGraph.t) (p : nat) (NN : list nat)
    (holds np : nat) (v : nat) : Z :=
  if decide (v = p)
  then slot_value (local_adj sg) j holds (S np)
         (filter (λ n, local_adj sg p n = true) (active_list_ sg))
  else slot_value (local_adj sg) j (S holds) np
         (filter (λ n, local_adj sg v n = true
                       ∧ ¬ (n ∈ NN ∧ (n < v)%nat)) (active_list_ sg)).

Lemma sweep_children_fold fuel sg p NN holds np :
  SweepSpec.recurse_ok memo max_k j N fuel →
  inv sg → graph_ok (adj_list_ sg) →
  (∀ v, v ∈ NN → v ∈ active_list_ sg) →
  (1 ≤ holds)%nat → (holds < max_k)%nat →
  (np + NumActive sg ≤ N)%nat → (NumActive sg ≤ fuel)%nat →
  ∀ todo counts sg_i,
    (∀ v, v ∈ todo → v ∈ NN) → length counts = S max_k →
    equiv sg sg_i → inv sg_i →
    ∃ counts' sg_j,
      foldl (Sweep.child_step
               (Sweep.PivotRecurse fuel memo (Z.of_nat max_k)) p NN
               (Z.of_nat (holds + np)) (Z.of_nat np))
            (Some (counts, sg_i)) todo
      = Some (counts', sg_j)
      ∧ equiv sg sg_j ∧ inv sg_j
      ∧ length counts' = length counts
      ∧ wrap (counts' !!! j)
        = wrap (counts !!! j
                + sumZ (map (child_slot sg p NN holds np) todo)).
Proof.
  intros IH Hinv Hg HNN Hh1 Hhk HN Hfuel.
  induction todo as [|v todo IHt]; intros counts sg_i Htodo Hlen Heq Hinv_i.
  - exists counts, sg_i. cbn [foldl map sumZ foldr].
    by rewrite Z.add_0_r.
  - cbn [foldl map sumZ foldr].
    assert (Hv : v ∈ active_list_ sg_i).
    { rewrite (eq_list _ _ Heq). apply HNN, Htodo, list_elem_of_here. }
    assert (Hg_i : graph_ok (adj_list_ sg_i))
      by (eapply graph_ok_perm; [apply (eq_adj _ _ Heq)|done]).
    assert (Hnum_i : NumActive sg_i = NumActive sg)
      by (unfold NumActive; by rewrite (eq_list _ _ Heq)).
    assert (HE : ∀ excl a b,
      local_adj (InduceFromSelfMutate sg_i v excl) a b = local_adj sg a b).
    { intros excl a b. rewrite local_adj_induce by done.
      by apply local_adj_equiv. }
    assert (Hcand : ∀ excl,
      active_list_ (InduceFromSelfMutate sg_i v excl)
      ≡ₚ filter (λ n, local_adj sg v n = true ∧ ¬ (n ∈ excl ∧ (n < v)%nat))
                (active_list_ sg)).
    { intros excl. rewrite (induce_candidates sg_i v excl Hinv_i Hv).
      rewrite (eq_list _ _ Heq).
      erewrite filter_ext_in; [done|]. intros n _.
      by rewrite (local_adj_equiv sg sg_i). }
    assert (Hstep : ∀ excl holds' np',
      (1 ≤ holds')%nat → (holds' ≤ max_k)%nat →
      (np' + NumActive sg ≤ S N)%nat → (np' ≤ S np)%nat →
      (holds' + np' = S (holds + np))%nat →
      ∃ counts1 sg1,
        Sweep.PivotRecurse fuel memo (Z.of_nat max_k)
          (InduceFromSelfMutate sg_i v excl) counts
          (Z.of_nat (holds + np) + 1) (Z.of_nat np')
        = Some (counts1, sg1)
        ∧ equiv sg (UndoSelfMutate sg1) ∧ inv (UndoSelfMutate sg1)
        ∧ length counts1 = length counts
        ∧ wrap (counts1 !!! j)
          = wrap (counts !!! j
                  + slot_value (local_adj sg) j holds' np'
                      (filter (λ n, local_adj sg v n = true
                                    ∧ ¬ (n ∈ excl ∧ (n < v)%nat))
                              (active_list_ sg)))).
    { intros excl holds' np' H1 H2 H3 H4 H5.
      pose proof (induce_smaller sg_i v excl Hinv_i Hg_i Hv) as Hsm.
      destruct (IH (InduceFromSelfMutate sg_i v excl) counts holds' np')
        as (counts1 & sg1 & Hrec & Heq1 & Hinv1 & Hlen1 & Hval1).
      - by apply inv_induce.
      - eapply graph_ok_perm; [|exact Hg_i].
        intros n. by apply induce_adj_perm.
      - lia.
      - done.
      - done.
      - lia.
      - done.
      - exists counts1, sg1.
        replace (Z.of_nat (holds + np) + 1)
          with (Z.of_nat (holds' + np')) by lia.
        rewrite Hrec. split_and!.
        + done.
        + eapply equiv_trans; [exact Heq|].
          by apply (undo_equiv sg_i v excl sg1).
        + by apply (undo_equiv sg_i v excl sg1).
        + done.
        + rewrite Hval1. f_equal. f_equal.
          rewrite (slot_value_ext _ (local_adj sg)) by apply HE.
          apply slot_value_perm; [|apply Hcand].
          intros. by apply local_adj_sym. }
    unfold Sweep.child_step at 2. cbn [mbind option_bind].
    destruct (decide (v = p)) as [->|Hvp].
    + rewrite Nat.eqb_refl.
      destruct (Hstep [] holds (S np))
        as (counts1 & sg1 & Hrec & Heq1 & Hinv1 & Hlen1 & Hval1);
        [done|lia|lia|lia|lia|].
      replace (Z.of_nat np + 1) with (Z.of_nat (S np)) by lia.
      rewrite Hrec. cbn [mbind option_bind].
      destruct (IHt counts1 (UndoSelfMutate sg1))
        as (counts' & sg_j & Hfold & Heqj & Hinvj & Hlenj & Hvalj).
      * intros w Hw. apply Htodo. by apply list_elem_of_further.
      * lia.
      * done.
      * done.
      * exists counts', sg_j. rewrite Hfold.
        split_and!; [done|done|done|lia|].
        rewrite Hvalj, <- wrap_add_l, Hval1, wrap_add_l.
        f_equal. unfold child_slot at 2. rewrite decide_True by done.
        rewrite (filter_ext_in
                   (λ n, local_adj sg p n = true ∧ ¬ (n ∈ [] ∧ (n < p)%nat))
                   (λ n, local_adj sg p n = true))
          by (intros n _; rewrite elem_of_nil; tauto).
        unfold sumZ. lia.
    + rewrite (proj2 (Nat.eqb_neq v p) Hvp).
      destruct (Hstep NN (S holds) np)
        as (counts1 & sg1 & Hrec & Heq1 & Hinv1 & Hlen1 & Hval1);
        [lia|lia|lia|lia|lia|].
      rewrite Hrec. cbn [mbind option_bind].
      destruct (IHt counts1 (UndoSelfMutate sg1))
        as (counts' & sg_j & Hfold & Heqj & Hinvj & Hlenj & Hvalj).
      * intros w Hw. apply Htodo. by apply list_elem_of_further.
      * lia.
      * done.
      * done.
      * exists counts', sg_j. rewrite Hfold.
        split_and!; [done|done|done|lia|].
        rewrite Hvalj, <- wrap_add_l, Hval1, wrap_add_l.
        f_equal. unfold child_slot at 2. rewrite decide_False by done.
        unfold sumZ. lia.
Qed.

(** The sweep recursion adds to the slot [j] the cliques of size
    [j] its call stands for. *)
Lemma sweep_recurse_correct fuel : SweepSpec.recurse_ok memo max_k j N fuel.
Proof.
  induction fuel as [|fuel IH];
    intros sg counts holds np Hinv Hg Hlt H1 Hk HN Hlen; [lia|].
  rewrite sweep_PivotRecurse_S. cbv zeta.
  set (P := active_list_ sg) in *.
  assert (Hnum : NumActive sg = length P) by done.
  replace (Z.of_nat (holds + np) - Z.of_nat np) with (Z.of_nat holds)
    by lia.
  destruct ((NumActive sg =? 0)%nat || (Z.of_nat holds =? Z.of_nat max_k))
    eqn:Hbase.
  { destruct (base_case_spec memo max_k holds np counts Hk Hlen)
      as [B1 B2]. cbv zeta in B1, B2.
    eexists _, sg. split_and!; [done|apply equiv_refl|done|exact B1|].
    rewrite B2. unfold slot_value.
    destruct (decide (holds ≤ j ≤ holds + Nat.min np (max_k - holds))%nat)
      as [Hin|Hout].
    - rewrite decide_True by lia. rewrite wrap_wrap.
      rewrite Hexact by lia. rewrite wrap_add_r. f_equal. f_equal.
      apply orb_true_iff in Hbase as [Hb|Hb].
      + apply Nat.eqb_eq in Hb. rewrite Hnum in Hb.
        apply nil_length_inv in Hb. rewrite Hb.
        symmetry. apply pivot_value_nil.
      + apply Z.eqb_eq in Hb.
        replace (j - holds)%nat with 0%nat by lia.
        by rewrite pivot_value_0, binom_0_r.
    - destruct (decide (holds ≤ j)%nat) as [Hle|Hgt];
        [|by rewrite Z.add_0_r].
      apply orb_true_iff in Hbase as [Hb|Hb].
      + apply Nat.eqb_eq in Hb. rewrite Hnum in Hb.
        apply nil_length_inv in Hb. rewrite Hb.
        rewrite pivot_value_nil, binom_gt by lia. by rewrite Z.add_0_r.
      + apply Z.eqb_eq in Hb. lia. }
  apply orb_false_iff in Hbase as [Hb1 Hb2].
  apply Nat.eqb_neq in Hb1. apply Z.eqb_neq in Hb2.
  assert (Hne : P ≠ []) by (intros HP; rewrite Hnum, HP in Hb1; done).
  pose proof (find_pivot_in sg Hne) as Hp.
  set (p := FindPivot sg) in *.
  pose proof (unreachable_spec sg p Hinv) as [HNN Hsga]. cbv zeta in *.
  pose proof (inv_unreachable sg p Hinv) as Hinv_a.
  destruct (ActiveUnreachableFromPivot sg p) as [sg_a NN].
  cbn [fst snd] in *.
  assert (Hal_a : active_list_ sg_a = P) by (by rewrite Hsga).
  assert (Hadj_a : adj_list_ sg_a = adj_list_ sg) by (by rewrite Hsga).
  assert (HE_a : ∀ a b, local_adj sg_a a b = local_adj sg a b)
    by (intros; unfold local_adj; by rewrite Hadj_a).
  assert (HNN_in : ∀ v, v ∈ NN → v ∈ active_list_ sg_a).
  { intros v. rewrite HNN, Hal_a, list_elem_of_filter. tauto. }
  destruct (sweep_children_fold fuel sg_a p NN holds np IH Hinv_a
              ltac:(by rewrite Hadj_a) HNN_in H1 ltac:(lia)
              ltac:(unfold NumActive; rewrite Hal_a; fold P; lia)
              ltac:(unfold NumActive; rewrite Hal_a; fold P; lia)
              NN counts sg_a ltac:(done) Hlen
              (equiv_refl sg_a) Hinv_a)
    as (counts' & sg_j & Hfold & Heqj & Hinvj & Hlenj & Hvalj).
  rewrite Hfold. cbn [mbind option_bind].
  exists counts', (PopNonNeighbors sg_j). split_and!.
  - done.
  - destruct Heqj as [Q1 Q2 Q3 Q4 Q5 Q6 Q7].
    rewrite Hsga in Q1, Q2, Q3, Q4, Q5, Q6, Q7.
    cbn [active_ active_list_ adj_list_ active_tails_ dropped_verts_
         pivot_non_neighs_] in *.
    split; unfold PopNonNeighbors;
      cbn [active_ active_list_ adj_list_ active_tails_ dropped_verts_
           pivot_non_neighs_]; try done.
    rewrite Q7. apply frame_pop.
  - by apply inv_pop.
  - done.
  - rewrite Hvalj. f_equal. f_equal.
    assert (HNN' : NN = filter (λ n, local_adj sg p n ≠ true) P).
    { rewrite HNN. apply filter_ext_in. intros n Hn.
      rewrite (neighs_set sg p n Hinv Hp). fold P. tauto. }
    rewrite (slot_decomp (local_adj sg) P p j holds np
               (λ a b, local_adj_sym sg a b Hg)
               (λ a, local_adj_irrefl sg a Hg)).
    + cbv zeta. rewrite <- HNN'. apply sumZ_map_ext. intros v _.
      unfold child_slot. rewrite Hal_a.
      rewrite !(slot_value_ext (local_adj sg_a) (local_adj sg))
        by apply HE_a.
      destruct (decide (v = p)); f_equal; apply filter_ext_in;
        intros x _; by rewrite HE_a.
    + pose proof (inv_nodup sg Hinv) as Hnd.
      by apply NoDup_app in Hnd as [? _].
    + done.
Qed.

End Exact.

End SweepFacts.

Module SweepCountCorrect.
Import Builder Cliques SubGraph SubGraphInv VecFacts FromDAGInv.
Import CombCache CombCacheFacts CliqueFacts PivotValue BuilderFacts.
Import CountFacts PivotScale RecurseCorrect SweepSpec SweepFacts.

Lemma count_in_1 E l : count_in E 1 l = length l.
Proof.
  induction l as [|x l IH]; [done|].
  rewrite count_in_cons, count_in_0, IH. done.
Qed.

Lemma zero_lookup (n j : nat) :
  (j < n)%nat → (replicate n 0 : list Z) !!! j = 0.
Proof.
  intros Hj. by apply list_lookup_total_correct, lookup_replicate_2.
Qed.

Section Exact.
Variable memo : memo_t.
Variable max_k j N : nat.
Hypothesis Hexact :
  ∀ n r, (r < j)%nat → (n ≤ N)%nat →
         n_choose_k memo (Z.of_nat n) (Z.of_nat r) = wrap (binom n r).
Hypothesis Hj : (j ≤ max_k)%nat.

Variable g : Graph.
Variable before : nat → nat → bool.
Hypothesis Hg : undirected_simple g.
Hypothesis Hst : strict_total before.

Let dag : Graph := DirectGraphByFunc g before.

Hypothesis HN : ∀ u, (out_degree dag u ≤ N)%nat.

(** What a root adds to the slot [j]: the cliques of size [j - 1]
    among its out-neighbours. *)
Let root_slot (u : nat) : Z :=
  if decide (1 ≤ j)%nat
  then Z.of_nat (count_in (adjacent g) (j - 1) (out_neigh dag u))
  else 0.

Lemma sweep_root_step counts sg u :
  (u < num_nodes g)%nat → length counts = S max_k → (1 ≤ max_k)%nat →
  ∃ counts' sg',
    Sweep.root_step memo dag (Z.of_nat max_k) (Some (counts, sg)) u
    = Some (counts', sg')
    ∧ length counts' = length counts
    ∧ wrap (counts' !!! j) = wrap (counts !!! j + root_slot u).
Proof.
  intros Hu Hlen Hk. unfold Sweep.root_step. cbn [mbind option_bind].
  cbv zeta.
  assert (Hwf : dag_wf dag) by (by apply direct_dag_wf).
  assert (Hu' : (u < num_nodes dag)%nat)
    by (unfold dag; by rewrite direct_num_nodes).
  pose proof (dag_wf_nodup dag u Hwf Hu') as Hnd.
  pose proof (from_dag_spec sg dag u Hnd) as Hs. cbv zeta in Hs.
  destruct Hs as (_ & _ & Hal & _).
  destruct (sweep_recurse_correct memo max_k j N Hexact Hj
              (S (out_degree dag u))
              (InduceFromDAG sg dag u) counts 1%nat 0%nat)
    as (counts' & sg' & Hrec & _ & _ & Hlen' & Hval).
  - by apply inv_from_dag.
  - by apply graph_ok_from_dag.
  - unfold NumActive. rewrite Hal, length_seq. lia.
  - done.
  - done.
  - unfold NumActive. rewrite Hal, length_seq. specialize (HN u). lia.
  - done.
  - change (Z.of_nat (1 + 0)) with 1 in Hrec.
    change (Z.of_nat 0) with 0 in Hrec.
    exists counts', sg'. split_and!; [done|done|].
    rewrite Hval. f_equal. f_equal.
    unfold slot_value, root_slot. destruct (decide (1 ≤ j)%nat); [|done].
    cbn [pivot_value]. rewrite Hal.
    pose proof (root_value g before Hg Hst sg u (j - 1) Hu) as Hv.
    change (DirectGraphByFunc g before) with dag in Hv.
    by rewrite Hv.
Qed.

Lemma sweep_root_fold us : ∀ counts sg,
  (∀ u, u ∈ us → (u < num_nodes g)%nat) →
  length counts = S max_k → (1 ≤ max_k)%nat →
  ∃ counts' sg',
    foldl (Sweep.root_step memo dag (Z.of_nat max_k))
          (Some (counts, sg)) us
    = Some (counts', sg')
    ∧ length counts' = length counts
    ∧ wrap (counts' !!! j)
      = wrap (counts !!! j + sumZ (map root_slot us)).
Proof.
  induction us as [|u us IH]; intros counts sg Hus Hlen Hk.
  - exists counts, sg. cbn [foldl map sumZ foldr].
    by rewrite Z.add_0_r.
  - cbn [foldl map sumZ foldr].
    destruct (sweep_root_step counts sg u)
      as (counts1 & sg1 & Hstep & Hlen1 & Hval1);
      [apply Hus, list_elem_of_here|done|done|].
    rewrite Hstep.
    destruct (IH counts1 sg1)
      as (counts' & sg' & Hfold & Hlen' & Hval');
      [intros v Hv; by apply Hus, list_elem_of_further|lia|done|].
    exists counts', sg'. rewrite Hfold. split_and!; [done|lia|].
    rewrite Hval', <- wrap_add_l, Hval1, wrap_add_l.
    f_equal. unfold sumZ. lia.
Qed.

(** The slot [j] of the result is the number of cliques of size
    [j] of the graph, reduced to the counter's type; the slot 0 is
    never written. *)
Lemma sweep_count_correct :
  (1 ≤ max_k)%nat →
  ∃ counts,
    Sweep.PivotCount memo dag (Z.of_nat max_k) = Some counts
    ∧ length counts = S max_k
    ∧ counts !!! j
      = if decide (1 ≤ j)%nat
        then wrap (Z.of_nat (count_cliques g j)) else 0.
Proof.
  intros Hk. unfold Sweep.PivotCount. cbv zeta.
  replace (Z.to_nat (Z.of_nat max_k + 1)) with (S max_k) by lia.
  destruct (sweep_root_fold (seq 0 (num_nodes dag))
              (replicate (S max_k) 0) SubGraph.init)
    as (local & sg' & Hfold & Hlen & Hval).
  - intros u Hu. apply elem_of_seq in Hu. unfold dag in Hu.
    rewrite direct_num_nodes in Hu. lia.
  - apply length_replicate.
  - done.
  - rewrite Hfold. cbn [mbind option_bind].
    rewrite length_replicate in Hlen.
    eexists. split_and!; [done| |].
    + rewrite length_zip_with, length_replicate, Hlen. lia.
    + assert (Hz : zip_with (λ c l, wrap (c + l))
                            (replicate (S max_k) 0) local !!! j
                   = wrap (local !!! j)).
      { apply list_lookup_total_correct. rewrite lookup_zip_with.
        rewrite lookup_replicate_2 by lia. cbn [mbind option_bind].
        rewrite (lookup_total_lookup local j) by lia.
        cbn [mbind option_bind]. by rewrite Z.add_0_l. }
      rewrite Hz, Hval, zero_lookup, Z.add_0_l by lia.
      replace (num_nodes dag) with (num_nodes g)
        by (unfold dag; by rewrite direct_num_nodes).
      unfold root_slot. destruct (decide (1 ≤ j)%nat) as [H1|H1].
      * pose proof (root_sum g before Hg Hst (j - 1)) as Hsum.
        change (DirectGraphByFunc g before) with dag in Hsum.
        rewrite Hsum. unfold count_cliques.
        by replace (S (j - 1)) with j by lia.
      * by rewrite sumZ_map_const, Z.mul_0_r.
Qed.

End Exact.

End SweepCountCorrect.

(** ** Reachable states *)

Module Reach.
Import SubGraph SubGraphInv VecFacts InvFacts InduceInv UndoInv RestoreFacts.
Import FromDAGInv RecurseFacts.

(** Every reachable state satisfies the invariant, over a symmetric
    local graph without self-loop. *)
Lemma reachable_inv sg : reachable sg → inv sg ∧ graph_ok (adj_list_ sg).
Proof.
  induction 1 as [sg0 dag u Hwf Hu|sg p _ [IH1 IH2] Hp
                 |sg v excl _ [IH1 IH2] Hv|sg _ [IH1 IH2] Hne
                 |sg _ [IH1 IH2] Hne].
  - split; [apply inv_from_dag; by apply dag_wf_nodup
           |by apply graph_ok_from_dag].
  - split; [by apply inv_unreachable|].
    pose proof (unreachable_spec sg p IH1) as [_ Hsg]. cbv zeta in Hsg.
    by rewrite Hsg.
  - split; [by apply inv_induce|].
    eapply graph_ok_perm; [|exact IH2]. intros n. by apply induce_adj_perm.
  - split; [by apply inv_undo|done].
  - split; [by apply inv_pop|done].
Qed.

(** Under the invariant the neighbour list of a candidate is split
    by its tail into active and inactive entries. *)
Lemma inv_partitioned sg n :
  inv sg → n ∈ active_list_ sg → partitioned sg n.
Proof.
  intros Hinv Hn j m Hjm.
  pose proof (active_in_range sg n Hinv Hn) as Hnr.
  pose proof (inv_rows sg Hinv n Hnr) as Hrow.
  assert (Hl0 : lev sg n = 0%nat) by (by apply lev_0).
  rewrite Hl0 in Hrow.
  pose proof (row_range _ _ _ _ _ Hrow j m Hjm) as Hm.
  rewrite (inv_bitmap sg Hinv m Hm). split; intros Hj.
  - pose proof (row_prefix _ _ _ _ _ Hrow j m Hj Hjm) as Hle.
    apply bool_decide_eq_true. apply lev_0. lia.
  - pose proof (row_suffix _ _ _ _ _ Hrow j m Hj Hjm) as Hlt.
    apply bool_decide_eq_false. intros Hin. apply lev_0 in Hin. lia.
Qed.

End Reach.

(** ** Further facts about the parts of the program *)

Module StackFacts.
Import VecFacts.

(** A frame that is opened and filled is what [last_frame_iter] shows,
    and [pop_frame] gives back the stack as it was. *)
Lemma frame_filled {T} (s : GroupedStack.t T) (l : list T) :
  foldl (λ s x, GroupedStack.push_back x s)
        (GroupedStack.create_new_frame s) l
  = GroupedStack.mk (GroupedStack.elems_ s ++ l)
      (GroupedStack.starts_ s ++ [length (GroupedStack.elems_ s)]).
Proof.
  destruct (push_all_elems (GroupedStack.create_new_frame s) l) as [He Hs].
  destruct (foldl _ _ l) as [e st]. cbn in He, Hs. by subst.
Qed.

End StackFacts.

Module PivotFacts.
Import SubGraph SubGraphInv VecFacts InvFacts InduceInv RecurseFacts.

Lemma find_pivot_fold (t : nat → nat) l x :
  let r := foldl (λ m n, if (t m <? t n)%nat then n else m) x l in
  (t x ≤ t r)%nat ∧ ∀ n, n ∈ l → (t n ≤ t r)%nat.
Proof.
  revert x. induction l as [|y l IH]; intros x; cbv zeta; cbn [foldl].
  - split; [done|]. intros n Hn. by apply not_elem_of_nil in Hn.
  - destruct (IH (if (t x <? t y)%nat then y else x)) as [H1 H2].
    cbv zeta in H1, H2.
    destruct (t x <? t y)%nat eqn:E.
    + apply Nat.ltb_lt in E. split; [lia|].
      intros n Hn. apply elem_of_cons in Hn as [->|Hn]; [done|by apply H2].
    + apply Nat.ltb_ge in E. split; [done|].
      intros n Hn. apply elem_of_cons in Hn as [->|Hn]; [lia|by apply H2].
Qed.

(** The pivot has the greatest tail among the candidates. *)
Lemma find_pivot_max sg n :
  n ∈ active_list_ sg →
  (active_tails_ sg !!! n ≤ active_tails_ sg !!! FindPivot sg)%nat.
Proof.
  intros Hn. unfold FindPivot.
  destruct (find_pivot_fold (λ m, active_tails_ sg !!! m) (active_list_ sg)
              (active_list_ sg !!! 0%nat)) as [_ H].
  by apply H.
Qed.

(** Under the invariant the tail of a candidate is the number of its
    active neighbours. *)
Lemma neighs_length sg n :
  inv sg → n ∈ active_list_ sg →
  length (Neighs sg n) = active_tails_ sg !!! n.
Proof.
  intros Hinv Hn. unfold Neighs. rewrite length_take.
  pose proof (inv_rows sg Hinv n (active_in_range sg n Hinv Hn)) as Hrow.
  pose proof (row_tail _ _ _ _ _ Hrow). lia.
Qed.

End PivotFacts.

Module DegreeFacts.
Import Builder Ordering Cliques BuilderFacts CountFacts.

Lemma find_max_degree_fold g l m :
  let r := foldl (λ max_seen n, Nat.max max_seen (out_degree g n)) m l in
  (m ≤ r)%nat
  ∧ (∀ n, n ∈ l → (out_degree g n ≤ r)%nat)
  ∧ (r = m ∨ ∃ n, n ∈ l ∧ out_degree g n = r).
Proof.
  revert m. induction l as [|x l IH]; intros m; cbv zeta; cbn [foldl].
  - split_and!; [done| |by left]. intros n Hn. by apply not_elem_of_nil in Hn.
  - destruct (IH (Nat.max m (out_degree g x))) as (H1 & H2 & H3).
    cbv zeta in H1, H2, H3. split_and!.
    + lia.
    + intros n Hn. apply elem_of_cons in Hn as [->|Hn]; [lia|by apply H2].
    + destruct H3 as [H3|(n & Hn & H3)].
      * destruct (Nat.max_spec m (out_degree g x)) as [[_ Hm]|[_ Hm]].
        -- right. exists x. split; [apply list_elem_of_here|lia].
        -- left. lia.
      * right. exists n. split; [by apply list_elem_of_further|done].
Qed.

(** [FindMaxDegree] is an upper bound of the out-degrees ... *)
Lemma find_max_degree_ub g u : (out_degree g u ≤ FindMaxDegree g)%nat.
Proof.
  destruct (decide (u < num_nodes g)%nat) as [Hu|Hu].
  - destruct (find_max_degree_fold g (seq 0 (num_nodes g)) 0) as (_ & H & _).
    apply H, elem_of_seq. lia.
  - unfold out_degree. rewrite out_neigh_outside by lia. simpl. lia.
Qed.

(** ... that a vertex attains, in a graph that has one. *)
Lemma find_max_degree_attained g :
  num_nodes g ≠ 0%nat →
  ∃ u, (u < num_nodes g)%nat ∧ out_degree g u = FindMaxDegree g.
Proof.
  intros Hn.
  destruct (find_max_degree_fold g (seq 0 (num_nodes g)) 0) as (_ & H & H3).
  cbv zeta in H, H3. destruct H3 as [H3|(n & Hn' & H3)].
  - exists 0%nat. split; [lia|]. unfold FindMaxDegree. rewrite H3.
    assert (out_degree g 0 ≤ 0)%nat; [|lia].
    rewrite <- H3 at 2. apply H, elem_of_seq. lia.
  - exists n. apply elem_of_seq in Hn'. split; [lia|done].
Qed.

Lemma prefix_sum_fold l : ∀ sums t,
  foldl (λ '(sums, total) d, (sums ++ [total], (total + d)%nat)) (sums, t) l
  = (sums ++ map (λ i, (t + sum_list (take i l))%nat) (seq 0 (length l)),
     (t + sum_list l)%nat).
Proof.
  induction l as [|d l IH]; intros sums t; cbn [foldl].
  - cbn. by rewrite app_nil_r, Nat.add_0_r.
  - rewrite IH. cbn [length seq map take sum_list].
    rewrite <- app_assoc. cbn [app]. rewrite Nat.add_0_r.
    f_equal; [|unfold id; lia]. f_equal. f_equal.
    rewrite <- seq_shift, map_map. apply map_ext. intros i.
    cbn [take sum_list]. unfold id. lia.
Qed.

(** [PrefixSum]: one entry more than degrees, the entry [i] being the
    sum of the first [i] degrees. *)
Lemma prefix_sum_spec degrees :
  length (PrefixSum degrees) = S (length degrees)
  ∧ ∀ i, (i ≤ length degrees)%nat →
         PrefixSum degrees !!! i = sum_list (take i degrees).
Proof.
  unfold PrefixSum. rewrite prefix_sum_fold. cbn [app].
  split.
  - rewrite length_app, length_map, length_seq. simpl. lia.
  - intros i Hi. apply list_lookup_total_correct.
    destruct (decide (i = length degrees)) as [->|Hne].
    + rewrite lookup_app_r by (rewrite length_map, length_seq; lia).
      rewrite length_map, length_seq, Nat.sub_diag. cbn.
      by rewrite firstn_all.
    + rewrite lookup_app_l by (rewrite length_map, length_seq; lia).
      rewrite list_lookup_fmap, lookup_seq_lt by lia. done.
Qed.

Lemma sum_degrees (g : Graph) :
  sum_list (map (out_degree g) (seq 0 (num_nodes g))) = num_edges_directed g.
Proof.
  unfold num_edges_directed, out_degree, out_neigh, num_nodes.
  unfold Graph in *.
  transitivity (sum_list (map length
                  (map (λ u, g !!! u) (seq 0 (length g))))).
  - by rewrite map_map.
  - by rewrite map_lookup_total_seq.
Qed.

Lemma sumZ_of_nat {A} (f : A → nat) l :
  sumZ (map (λ x, Z.of_nat (f x)) l) = Z.of_nat (sum_list (map f l)).
Proof.
  induction l as [|x l IH]; [done|]. cbn [map sumZ foldr sum_list].
  fold (sumZ (map (λ x, Z.of_nat (f x)) l)). rewrite IH. unfold id. lia.
Qed.

Section Oriented.
Variable g : Graph.
Variable before : nat → nat → bool.
Hypothesis Hg : undirected_simple g.
Hypothesis Hst : strict_total before.

(** The edges of the oriented graph are the 2-cliques. *)
Lemma dag_edges :
  num_edges_directed (DirectGraphByFunc g before) = count_cliques g 2.
Proof.
  rewrite <- sum_degrees, direct_num_nodes.
  apply Nat2Z.inj. rewrite <- sumZ_of_nat.
  unfold count_cliques. rewrite <- (root_sum g before Hg Hst 1).
  apply PivotValue.sumZ_map_ext. intros u _.
  by rewrite SweepCountCorrect.count_in_1.
Qed.

(** No clique has more vertices than the greatest out-degree of the
    oriented graph plus one. *)
Lemma clique_size_bound j :
  (FindMaxDegree (DirectGraphByFunc g before) + 1 < j)%nat →
  count_cliques g j = 0%nat.
Proof.
  intros Hj. destruct j as [|j]; [lia|].
  apply Nat2Z.inj. unfold count_cliques.
  rewrite <- (root_sum g before Hg Hst j).
  rewrite (PivotValue.sumZ_map_ext _ (λ _, 0)).
  - rewrite PivotValue.sumZ_map_const. lia.
  - intros u _. rewrite CliqueFacts.count_in_short; [done|].
    pose proof (find_max_degree_ub (DirectGraphByFunc g before) u).
    unfold out_degree in *. lia.
Qed.

End Oriented.

Lemma length_filter_split {A} (P Q : A → Prop)
    `{∀ x, Decision (P x)} `{∀ x, Decision (Q x)} (l : list A) :
  (∀ x, x ∈ l → (Q x ↔ ¬ P x)) →
  (length (filter P l) + length (filter Q l) = length l)%nat.
Proof.
  induction l as [|x l IH]; intros Hl; [done|].
  rewrite !filter_cons.
  specialize (IH (λ y Hy, Hl y (list_elem_of_further _ _ _ Hy))).
  pose proof (Hl x (list_elem_of_here _ _)) as Hx.
  destruct (decide (P x)), (decide (Q x)); cbn [length]; try lia; tauto.
Qed.

Lemma reverse_strict_total before :
  strict_total before → strict_total (λ u v, before v u).
Proof.
  intros [Hi Ht Htot]. split.
  - intros u. apply Hi.
  - intros u v w H1 H2. by apply (Ht w v u).
  - intros u v Hne. destruct (Htot u v Hne); [by right|by left].
Qed.

(** Every undirected edge is stored twice in the graph and once in the
    oriented graph. *)
Lemma edges_halved g before :
  undirected_simple g → strict_total before →
  (2 * num_edges_directed (DirectGraphByFunc g before))%nat
  = num_edges_directed g.
Proof.
  intros Hg Hst.
  pose proof (dag_edges g before Hg Hst) as H1.
  pose proof (dag_edges g (λ u v, before v u) Hg
                (reverse_strict_total before Hst)) as H2.
  replace (2 * num_edges_directed (DirectGraphByFunc g before))%nat
    with (num_edges_directed (DirectGraphByFunc g before)
          + num_edges_directed (DirectGraphByFunc g (λ u v, before v u)))%nat
    by lia.
  rewrite <- !sum_degrees, !direct_num_nodes.
  clear H1 H2.
  assert (Hrow : ∀ u, (u < num_nodes g)%nat →
    (out_degree (DirectGraphByFunc g before) u
     + out_degree (DirectGraphByFunc g (λ u v, before v u)) u
     = out_degree g u)%nat).
  { intros u Hu. unfold out_degree. rewrite !direct_out_neigh by done.
    unfold sort_ids. rewrite !merge_sort_Permutation.
    apply length_filter_split. intros v Hv.
    pose proof (simple_edge g u v Hg Hv) as (_ & _ & Hne & _).
    destruct (st_total _ Hst u v ltac:(done)) as [Hb|Hb].
    + rewrite Hb. split; [|intros H; by destruct H]. intros Hb'.
      exfalso. by apply (strict_total_asym before u v).
    + rewrite Hb. split; [|done]. intros _ Hb'.
      by apply (strict_total_asym before u v). }
  assert (Hin : ∀ l, (∀ u, u ∈ l → (u < num_nodes g)%nat) →
    (sum_list (map (out_degree (DirectGraphByFunc g before)) l)
     + sum_list (map (out_degree (DirectGraphByFunc g (λ u v, before v u))) l)
     = sum_list (map (out_degree g) l))%nat).
  { induction l as [|u l IH]; intros Hl; [done|]. cbn [map sum_list].
    specialize (Hrow u (Hl u (list_elem_of_here _ _))).
    specialize (IH (λ v Hv, Hl v (list_elem_of_further _ _ _ Hv))).
    unfold id in *. lia. }
  apply Hin. intros u Hu. apply elem_of_seq in Hu. lia.
Qed.

End DegreeFacts.

(** ** The recursion on candidate sets of a known shape *)

Module CacheRange.
Import CombCache CombCacheFacts CacheExact PivotScale RecurseCorrect.

Lemma compute_fold_range n k l acc :
  Forall (λ i, 1 <= i) l → 0 <= acc < 2 ^ 64 →
  0 <= foldl (compute_step 64 n k) acc l < 2 ^ 64.
Proof.
  revert acc. induction l as [|i l IH]; intros acc Hl Hacc; [done|].
  apply Forall_cons in Hl as [Hi Hl]. cbn [foldl]. apply IH; [done|].
  unfold compute_step, CombCache.wrap.
  pose proof (Z.mod_pos_bound (acc * ((n - (k - i) mod 2 ^ 64) mod 2 ^ 64))
                (2 ^ 64) ltac:(lia)) as Hm.
  split.
  - apply Z.div_pos; lia.
  - apply Z.div_lt_upper_bound; [lia|]. nia.
Qed.

Lemma compute_range n k : 0 <= compute 64 n k < 2 ^ 64.
Proof.
  unfold compute. destruct (k >? n); [lia|].
  destruct ((k =? 0) || (k =? n)); [lia|]. cbv zeta.
  apply compute_fold_range; [|lia].
  apply Forall_forall. intros i Hi. apply list_elem_of_fmap in Hi as (j & -> & Hj).
  apply elem_of_seq in Hj. lia.
Qed.

(** What the cache returns is a value of the counter's type. *)
Lemma choose_wrapped (n r : nat) :
  wrap (n_choose_k n_choose_k_memo (Z.of_nat n) (Z.of_nat r))
  = n_choose_k n_choose_k_memo (Z.of_nat n) (Z.of_nat r).
Proof.
  unfold n_choose_k, n_choose_k_memo, count_bits.
  destruct (decide (n < kNumPrecompute ∧ r < kNumPrecompute)%nat) as [[Hn Hr]|Hge].
  - destruct (decide (r ≤ n)%nat).
    + rewrite (call_table 64) by (done || by left). apply wrap_wrap.
    + rewrite call_table_gt by lia. done.
  - unfold call.
    assert ((Z.of_nat n <? Z.of_nat kNumPrecompute)
            && (Z.of_nat r <? Z.of_nat kNumPrecompute) = false) as ->.
    { apply andb_false_iff. rewrite !Z.ltb_ge. lia. }
    apply wrap_small, compute_range.
Qed.

(** More to choose than there is: none. *)
Lemma choose_gt (n r : nat) :
  (n < r)%nat → Z.of_nat r < 2 ^ 31 →
  n_choose_k n_choose_k_memo (Z.of_nat n) (Z.of_nat r) = 0.
Proof.
  intros Hlt Hr.
  destruct (decide (n < kNumPrecompute)%nat) as [Hn|Hn].
  - rewrite exact_small by done. rewrite binom_gt by done. done.
  - unfold kNumPrecompute in Hn.
    unfold n_choose_k, count_bits, call.
    rewrite (proj2 (Z.ltb_ge (Z.of_nat n) (Z.of_nat kNumPrecompute)))
      by (unfold kNumPrecompute; lia).
    cbn [andb]. rewrite !cwrap_small by lia.
    unfold compute. by rewrite (proj2 (Z.gtb_gt _ _)) by lia.
Qed.

End CacheRange.

Module LevelFacts.
Import SubGraph SubGraphInv VecFacts InvFacts InduceInv UndoInv RestoreFacts.
Import Cliques CombCache PivotValue RecurseFacts PivotScale RecurseCorrect.
Import LevelSpec.

Section Level.
Variable memo : memo_t.
Variable k : nat.

Lemma level_fold fuel sg p NN holds np f :
  inv sg → graph_ok (adj_list_ sg) →
  (∀ v, v ∈ NN → v ∈ active_list_ sg) →
  children_return memo k fuel sg p NN holds np f →
  ∀ todo count sg_i,
    (∀ v, v ∈ todo → v ∈ NN) → wrap count = count →
    equiv sg sg_i → inv sg_i →
    ∃ sg_j,
      foldl (child_step (PivotRecurse fuel memo (Z.of_nat k)) p NN
                        (Z.of_nat (holds + np)) (Z.of_nat np))
            (Some (count, sg_i)) todo
      = Some (wrap (count + sumZ (map f todo)), sg_j)
      ∧ equiv sg sg_j ∧ inv sg_j.
Proof.
  intros Hinv Hg HNN Hch.
  induction todo as [|v todo IHt]; intros count sg_i Htodo Hc Heq Hinv_i.
  - exists sg_i. cbn [foldl map sumZ foldr]. rewrite Z.add_0_r, Hc. done.
  - cbn [foldl map sumZ foldr].
    assert (HvNN : v ∈ NN) by apply Htodo, list_elem_of_here.
    assert (Hv : v ∈ active_list_ sg_i).
    { rewrite (eq_list _ _ Heq). by apply HNN. }
    assert (Hg_i : graph_ok (adj_list_ sg_i))
      by (eapply graph_ok_perm; [apply (eq_adj _ _ Heq)|done]).
    destruct (Hch sg_i v Hinv_i Hg_i (eq_list _ _ Heq)
                (λ a b, local_adj_equiv sg sg_i a b Heq) HvNN)
      as (sg1 & Hrec & Heq1 & Hinv1).
    destruct (undo_equiv sg_i v (excl_of p NN v) sg1 Hinv_i Hv Heq1 Hinv1)
      as [Hequ Hinvu].
    assert (Hstep :
      child_step (PivotRecurse fuel memo (Z.of_nat k)) p NN
        (Z.of_nat (holds + np)) (Z.of_nat np) (Some (count, sg_i)) v
      = Some (wrap (count + f v), UndoSelfMutate sg1)).
    { unfold child_step. cbn [mbind option_bind].
      unfold excl_of in Hrec.
      destruct (decide (v = p)) as [->|Hvp].
      - rewrite Nat.eqb_refl, Hrec. done.
      - rewrite (proj2 (Nat.eqb_neq v p) Hvp), Hrec. done. }
    rewrite Hstep.
    destruct (IHt (wrap (count + f v)) (UndoSelfMutate sg1))
      as (sg_j & Hfold & Heqj & Hinvj).
    + intros w Hw. by apply Htodo, list_elem_of_further.
    + apply wrap_wrap.
    + by eapply equiv_trans.
    + done.
    + exists sg_j. rewrite Hfold. split_and!; [|done|done].
      f_equal. f_equal. rewrite wrap_add_l. f_equal. unfold sumZ. lia.
Qed.

(** One level: a call that neither returns early nor is a base case
    returns the sum of what its children return, and leaves a state
    that differs only by the order inside its lists. *)
Lemma recurse_level fuel sg holds np f :
  inv sg → graph_ok (adj_list_ sg) →
  (k ≤ NumActive sg + (holds + np))%nat →
  NumActive sg ≠ 0%nat → holds ≠ k →
  children_return memo k fuel sg (FindPivot sg)
    (filter (λ n, local_adj sg (FindPivot sg) n ≠ true) (active_list_ sg))
    holds np f →
  ∃ sg',
    PivotRecurse (S fuel) memo (Z.of_nat k) sg
                 (Z.of_nat (holds + np)) (Z.of_nat np)
    = Some (wrap (sumZ (map f
              (filter (λ n, local_adj sg (FindPivot sg) n ≠ true)
                      (active_list_ sg)))), sg')
    ∧ equiv sg sg' ∧ inv sg'.
Proof.
  intros Hinv Hg Hlate Hne0 Hhk Hch.
  rewrite PivotRecurse_S.
  rewrite (proj2 (Z.ltb_ge _ _)) by lia. cbv zeta.
  replace (Z.of_nat (holds + np) - Z.of_nat np) with (Z.of_nat holds) by lia.
  rewrite (proj2 (Nat.eqb_neq _ _) Hne0).
  rewrite (proj2 (Z.eqb_neq (Z.of_nat holds) (Z.of_nat k))) by lia.
  cbn [orb].
  set (P := active_list_ sg) in *.
  assert (HneP : P ≠ []).
  { intros HP. apply Hne0. unfold NumActive. fold P. by rewrite HP. }
  pose proof (find_pivot_in sg HneP) as Hp.
  set (p := FindPivot sg) in *.
  pose proof (unreachable_spec sg p Hinv) as [HNN Hsga]. cbv zeta in *.
  pose proof (inv_unreachable sg p Hinv) as Hinv_a.
  destruct (ActiveUnreachableFromPivot sg p) as [sg_a NN].
  cbn [fst snd] in *.
  assert (Hal_a : active_list_ sg_a = P) by (by rewrite Hsga).
  assert (Hadj_a : adj_list_ sg_a = adj_list_ sg) by (by rewrite Hsga).
  assert (HE_a : ∀ a b, local_adj sg_a a b = local_adj sg a b)
    by (intros; unfold local_adj; by rewrite Hadj_a).
  assert (HNN' : NN = filter (λ n, local_adj sg p n ≠ true) P).
  { rewrite HNN. apply filter_ext_in. intros n Hn.
    rewrite (neighs_set sg p n Hinv Hp). fold P. tauto. }
  rewrite <- HNN' in *.
  assert (HNN_in : ∀ v, v ∈ NN → v ∈ active_list_ sg_a).
  { intros v. rewrite HNN, Hal_a, list_elem_of_filter. tauto. }
  destruct (level_fold fuel sg_a p NN holds np f Hinv_a
              ltac:(by rewrite Hadj_a) HNN_in) with
    (todo := NN) (count := 0) (sg_i := sg_a)
    as (sg_j & Hfold & Heqj & Hinvj).
  - intros sg_i v Hi Hgi Hli HEi Hv.
    apply Hch; [done|done|by rewrite Hli, Hal_a| |done].
    intros a b. by rewrite HEi, HE_a.
  - done.
  - apply wrap_0.
  - apply equiv_refl.
  - done.
  - rewrite Hfold. cbn [mbind option_bind]. rewrite Z.add_0_l.
    exists (PopNonNeighbors sg_j). split_and!.
    + done.
    + destruct Heqj as [Q1 Q2 Q3 Q4 Q5 Q6 Q7].
      rewrite Hsga in Q1, Q2, Q3, Q4, Q5, Q6, Q7.
      cbn [active_ active_list_ adj_list_ active_tails_ dropped_verts_
           pivot_non_neighs_] in *.
      split; unfold PopNonNeighbors;
        cbn [active_ active_list_ adj_list_ active_tails_ dropped_verts_
             pivot_non_neighs_]; try done.
      rewrite Q7. apply frame_pop.
    + by apply inv_pop.
Qed.

End Level.

End LevelFacts.

Module ShapeFacts.
Import SubGraph SubGraphInv VecFacts InvFacts InduceInv UndoInv RestoreFacts.
Import Cliques CombCache CombCacheFacts CacheExact CacheRange.
Import PivotValue RecurseFacts PivotScale RecurseCorrect.
Import LevelSpec LevelFacts.

Lemma length_filter_except (Q : nat → Prop) `{∀ n, Decision (Q n)}
    (l D : list nat) :
  NoDup l → NoDup D → (∀ d, d ∈ D → d ∈ l) →
  (∀ n, n ∈ l → (Q n ↔ n ∉ D)) →
  (length (filter Q l) + length D = length l)%nat.
Proof.
  intros Hl HD Hin HQ. rewrite <- length_app. apply Permutation_length.
  apply NoDup_Permutation; [|done|].
  - apply NoDup_app. split_and!; [by apply NoDup_filter| |done].
    intros n Hn Hd. apply list_elem_of_filter in Hn as [Hq Hn].
    by apply (HQ n Hn) in Hq.
  - intros n. rewrite elem_of_app, list_elem_of_filter. split.
    + intros [[_ ?]|?]; [done|by apply Hin].
    + intros Hn. destruct (decide (n ∈ D)); [by right|left].
      split; [by apply HQ|done].
Qed.

Lemma filter_only (Q : nat → Prop) `{∀ n, Decision (Q n)} (l : list nat) p :
  NoDup l → p ∈ l → (∀ n, n ∈ l → (Q n ↔ n = p)) → filter Q l = [p].
Proof.
  induction l as [|x l IH]; intros Hnd Hp HQ.
  - by apply not_elem_of_nil in Hp.
  - apply NoDup_cons in Hnd as [Hx Hnd]. rewrite filter_cons.
    destruct (decide (x = p)) as [->|Hne].
    + rewrite decide_True by (apply HQ; [apply list_elem_of_here|done]).
      f_equal. apply filter_none, Forall_forall. intros n Hn Hq.
      apply HQ in Hq; [|by apply list_elem_of_further]. by subst.
    + rewrite decide_False.
      * apply IH; [done| |].
        -- apply elem_of_cons in Hp as [->|Hp]; done.
        -- intros n Hn. apply HQ. by apply list_elem_of_further.
      * intros Hq. apply HQ in Hq; [done|apply list_elem_of_here].
Qed.

(** The state a child is entered with. *)
Lemma induce_child sg sg_i v excl :
  inv sg_i → graph_ok (adj_list_ sg_i) →
  active_list_ sg_i ≡ₚ active_list_ sg →
  (∀ a b, local_adj sg_i a b = local_adj sg a b) →
  v ∈ active_list_ sg →
  let sg2 := InduceFromSelfMutate sg_i v excl in
  inv sg2 ∧ graph_ok (adj_list_ sg2)
  ∧ active_list_ sg2
    ≡ₚ filter (λ n, local_adj sg v n = true ∧ ¬ (n ∈ excl ∧ (n < v)%nat))
              (active_list_ sg)
  ∧ (∀ a b, local_adj sg2 a b = local_adj sg a b)
  ∧ (NumActive sg2 < NumActive sg)%nat.
Proof.
  intros Hinv Hg Hl HE Hv. cbv zeta.
  assert (Hv' : v ∈ active_list_ sg_i) by (by rewrite Hl).
  split_and!.
  - by apply inv_induce.
  - eapply graph_ok_perm; [|exact Hg]. intros n. by apply induce_adj_perm.
  - rewrite (induce_candidates sg_i v excl Hinv Hv'), Hl.
    erewrite filter_ext_in; [done|]. intros n _. by rewrite HE.
  - intros a b. rewrite local_adj_induce by done. apply HE.
  - pose proof (induce_smaller sg_i v excl Hinv Hg Hv') as Hs.
    unfold NumActive in *. by rewrite <- Hl.
Qed.

Lemma active_nodup sg : inv sg → NoDup (active_list_ sg).
Proof. intros Hinv. pose proof (inv_nodup sg Hinv) as H. by apply NoDup_app in H as [? _]. Qed.

Section Shapes.
Variable k : nat.
Hypothesis Hk : Z.of_nat k < 2 ^ 31.

(** Candidates that form a clique: the call returns what the cache
    gives for the pivots and the candidates together. *)
Lemma recurse_clique fuel : ∀ sg holds np,
  inv sg → graph_ok (adj_list_ sg) → (NumActive sg < fuel)%nat →
  (1 ≤ holds)%nat → (holds ≤ k)%nat → all_adjacent sg →
  ∃ sg',
    PivotRecurse fuel n_choose_k_memo (Z.of_nat k) sg
                 (Z.of_nat (holds + np)) (Z.of_nat np)
    = Some (n_choose_k n_choose_k_memo (Z.of_nat (np + NumActive sg))
                       (Z.of_nat (k - holds)), sg')
    ∧ equiv sg sg' ∧ inv sg'.
Proof.
  induction fuel as [|fuel IH]; intros sg holds np Hinv Hg Hfuel H1 Hhk Hall;
    [lia|].
  destruct (decide (NumActive sg + (holds + np) < k)%nat) as [Hearly|Hlate].
  { rewrite PivotRecurse_S. rewrite (proj2 (Z.ltb_lt _ _)) by lia.
    exists sg. rewrite choose_gt by lia.
    split_and!; [done|apply equiv_refl|done]. }
  destruct (decide (NumActive sg = 0%nat ∨ holds = k)) as [Hbase|Hrec].
  { rewrite PivotRecurse_S. rewrite (proj2 (Z.ltb_ge _ _)) by lia. cbv zeta.
    replace (Z.of_nat (holds + np) - Z.of_nat np) with (Z.of_nat holds)
      by lia.
    assert ((NumActive sg =? 0)%nat || (Z.of_nat holds =? Z.of_nat k) = true)
      as ->.
    { apply orb_true_iff. destruct Hbase as [Hb|Hb];
        [left; by apply Nat.eqb_eq|right; apply Z.eqb_eq; lia]. }
    exists sg. split_and!; [|apply equiv_refl|done]. f_equal. f_equal.
    replace (Z.of_nat k - Z.of_nat holds) with (Z.of_nat (k - holds)) by lia.
    destruct Hbase as [Hb|Hb].
    - by rewrite Hb, Nat.add_0_r.
    - replace (k - holds)%nat with 0%nat by lia.
      change (Z.of_nat 0) with 0. by rewrite !exact_0. }
  set (P := active_list_ sg) in *.
  assert (HneP : P ≠ []).
  { intros HP. apply Hrec. left. unfold NumActive. fold P. by rewrite HP. }
  pose proof (find_pivot_in sg HneP) as Hp. fold P in Hp.
  pose proof (active_nodup sg Hinv) as Hnd. fold P in Hnd.
  assert (HNN : filter (λ n, local_adj sg (FindPivot sg) n ≠ true) P
                = [FindPivot sg]).
  { apply filter_only; [done|done|]. intros n Hn. split.
    - intros Hna. destruct (decide (n = FindPivot sg)) as [|Hne]; [done|].
      exfalso. apply Hna. apply Hall; [done|done|congruence].
    - intros ->. by rewrite (local_adj_irrefl sg _ Hg). }
  destruct (recurse_level n_choose_k_memo k fuel sg holds np
              (λ _, n_choose_k n_choose_k_memo
                      (Z.of_nat (np + NumActive sg)) (Z.of_nat (k - holds))))
    as (sg' & Hres & Heq & Hinv'); [done|done|lia|tauto|tauto| |].
  - fold P. rewrite HNN. intros sg_i v Hi Hgi Hli HEi Hv.
    apply list_elem_of_singleton in Hv. subst v.
    unfold excl_of. rewrite !decide_True by done.
    destruct (induce_child sg sg_i (FindPivot sg) [] Hi Hgi Hli HEi Hp)
      as (Hinv2 & Hg2 & Hl2 & HE2 & Hsm).
    set (sg2 := InduceFromSelfMutate sg_i (FindPivot sg) []) in *.
    assert (Hnum2 : (NumActive sg2 + 1 = NumActive sg)%nat).
    { unfold NumActive. rewrite Hl2. fold P.
      change 1%nat with (length [FindPivot sg]).
      apply length_filter_except; [done|apply NoDup_singleton| |].
      - intros d Hd. apply list_elem_of_singleton in Hd. by subst.
      - intros n Hn. rewrite list_elem_of_singleton. split.
        + intros [Ha _] ->. by rewrite (local_adj_irrefl sg _ Hg) in Ha.
        + intros Hne. split; [apply Hall; [done|done|congruence]|].
          rewrite elem_of_nil. tauto. }
    destruct (IH sg2 holds (S np)) as (sg1 & Hrec1 & Heq1 & Hinv1);
      [done|done|lia|done|done| |].
    + intros a b Ha Hb Hab. rewrite HE2. rewrite Hl2 in Ha, Hb.
      apply list_elem_of_filter in Ha as [_ Ha], Hb as [_ Hb].
      by apply Hall.
    + exists sg1. split_and!; [|done|done].
      replace (Z.of_nat (holds + np) + 1) with (Z.of_nat (holds + S np))
        by lia.
      replace (Z.of_nat np + 1) with (Z.of_nat (S np)) by lia.
      rewrite Hrec1. f_equal. f_equal. f_equal. lia.
  - exists sg'. split_and!; [|done|done].
    rewrite Hres. fold P. rewrite HNN. cbn [map sumZ foldr].
    by rewrite Z.add_0_r, choose_wrapped.
Qed.

(** Candidates that form a clique but for two of them, which are not
    adjacent: the call returns what the cache gives for the cliques
    with the one and without the other. *)
Lemma recurse_two_hubs fuel : ∀ sg holds np c h1 h2,
  inv sg → graph_ok (adj_list_ sg) → (NumActive sg < fuel)%nat →
  NumActive sg = S (S c) →
  (1 ≤ holds)%nat → (holds < k)%nat → all_adjacent_but sg h1 h2 →
  ∃ sg',
    PivotRecurse fuel n_choose_k_memo (Z.of_nat k) sg
                 (Z.of_nat (holds + np)) (Z.of_nat np)
    = Some (wrap (n_choose_k n_choose_k_memo (Z.of_nat (np + S c))
                             (Z.of_nat (k - holds))
                  + n_choose_k n_choose_k_memo (Z.of_nat (np + c))
                               (Z.of_nat (k - S holds))), sg')
    ∧ equiv sg sg' ∧ inv sg'.
Proof.
  induction fuel as [|fuel IH];
    intros sg holds np c h1 h2 Hinv Hg Hfuel Hnum H1 Hhk Hshape; [lia|].
  destruct Hshape as (Hh1 & Hh2 & Hh12 & Hnon & Hall).
  destruct (decide (NumActive sg + (holds + np) < k)%nat) as [Hearly|Hlate].
  { rewrite PivotRecurse_S. rewrite (proj2 (Z.ltb_lt _ _)) by lia.
    exists sg. rewrite !choose_gt by lia.
    split_and!; [done|apply equiv_refl|done]. }
  set (P := active_list_ sg) in *.
  assert (HneP : P ≠ []).
  { intros HP. unfold NumActive in Hnum. fold P in Hnum. by rewrite HP in Hnum. }
  pose proof (find_pivot_in sg HneP) as Hp. fold P in Hp.
  pose proof (active_nodup sg Hinv) as Hnd. fold P in Hnd.
  assert (Hnon' : local_adj sg h2 h1 = false)
    by (by rewrite (local_adj_sym sg h2 h1 Hg)).
  assert (Hne0 : NumActive sg ≠ 0%nat) by lia.
  pose proof (λ f, recurse_level n_choose_k_memo k fuel sg holds np f
                     Hinv Hg ltac:(lia) Hne0 ltac:(lia)) as HL.
  fold P in HL.
  set (p := FindPivot sg) in *. clearbody p.
  destruct (decide (p = h1 ∨ p = h2)) as [Hhub|Hmid].
  - (* the pivot is one of the two *)
    set (q := if decide (p = h1) then h2 else h1).
    assert (Hq : q ∈ P) by (unfold q; by destruct (decide (p = h1))).
    assert (Hpq : p ≠ q).
    { unfold q. destruct (decide (p = h1)); [congruence|].
      destruct Hhub; congruence. }
    assert (Hpq_non : local_adj sg p q = false).
    { unfold q. destruct (decide (p = h1)) as [E|E]; [by rewrite E|].
      destruct Hhub as [E'|E']; [done|by rewrite E']. }
    assert (Hhubs : ∀ n, n = h1 ∨ n = h2 ↔ n = p ∨ n = q).
    { intros n. unfold q. destruct (decide (p = h1)) as [E|E];
        [by rewrite E|].
      destruct Hhub as [E'|E']; [done|]. rewrite E'. tauto. }
    assert (Hadj : ∀ a b, a ∈ P → b ∈ P → a ≠ b →
               ¬ ((a = p ∨ a = q) ∧ (b = p ∨ b = q)) →
               local_adj sg a b = true).
    { intros a b Ha Hb Hab Hn. apply Hall; [done|done|done| |];
        intros [-> ->]; apply Hn; rewrite <- !Hhubs; tauto. }
    set (NN := filter (λ n, local_adj sg p n ≠ true) P).
    assert (HNN_el : ∀ n, n ∈ NN ↔ n = p ∨ n = q).
    { intros n. unfold NN. rewrite list_elem_of_filter. split.
      - intros [Hna Hn]. destruct (decide (n = p)); [by left|].
        destruct (decide (n = q)); [by right|]. exfalso. apply Hna.
        apply Hadj; [done|done|congruence|]. intros [_ [?|?]]; done.
      - intros [->| ->]; (split; [|done]).
        + by rewrite (local_adj_irrefl sg _ Hg).
        + by rewrite Hpq_non. }
    assert (Hnd2 : NoDup [p; q]).
    { apply NoDup_cons_2; [by rewrite list_elem_of_singleton|].
      apply NoDup_singleton. }
    assert (Hin2 : ∀ d, d ∈ [p; q] → d ∈ P).
    { intros d. rewrite elem_of_cons, list_elem_of_singleton.
      intros [E|E]; by rewrite E. }
    assert (HNN_perm : NN ≡ₚ [p; q]).
    { apply NoDup_Permutation; [by apply NoDup_filter|done|].
      intros n. rewrite HNN_el, elem_of_cons, list_elem_of_singleton. done. }
    set (f := λ v : nat,
      if decide (v = p)
      then n_choose_k n_choose_k_memo (Z.of_nat (np + S c))
                      (Z.of_nat (k - holds))
      else n_choose_k n_choose_k_memo (Z.of_nat (np + c))
                      (Z.of_nat (k - S holds))).
    assert (Hrest : ∀ excl : list nat,
      (∀ n, n ∈ excl → n = p ∨ n = q) →
      ∀ v, v = p ∨ v = q →
      ∀ l : list nat, l ≡ₚ filter (λ n, local_adj sg v n = true
                            ∧ ¬ (n ∈ excl ∧ (n < v)%nat)) P →
      length l = c
      ∧ ∀ a b, a ∈ l → b ∈ l → a ≠ b → local_adj sg a b = true).
    { intros excl Hexcl v Hv l Hl.
      assert (Hkeep : ∀ n, n ∈ P →
        (local_adj sg v n = true ∧ ¬ (n ∈ excl ∧ (n < v)%nat))
        ↔ n ∉ [p; q]).
      { intros n Hn. rewrite elem_of_cons, list_elem_of_singleton. split.
        - intros [Ha _] [->| ->]; destruct Hv as [->| ->];
            rewrite ?(local_adj_irrefl sg _ Hg), ?Hpq_non in Ha; try done.
          rewrite (local_adj_sym sg q p Hg), Hpq_non in Ha. done.
        - intros Hn'. split.
          + apply Hadj; [by destruct Hv as [->| ->]|done| |].
            * intros ->. tauto.
            * intros [_ ?]. tauto.
          + intros [He _]. apply Hexcl in He. tauto. }
      split.
      - rewrite Hl.
        pose proof (length_filter_except _ P [p; q] Hnd Hnd2 Hin2 Hkeep)
          as Hlen.
        unfold NumActive in Hnum. fold P in Hnum. cbn [length] in Hlen. lia.
      - intros a b Ha Hb Hab. rewrite Hl in Ha, Hb.
        apply list_elem_of_filter in Ha as [Hka Ha], Hb as [Hkb Hb].
        apply Hkeep in Hka; [|done]. apply Hkeep in Hkb; [|done].
        rewrite elem_of_cons, list_elem_of_singleton in Hka, Hkb.
        apply Hadj; [done|done|done|]. tauto. }
    destruct (HL f) as (sg' & Hres & Heq & Hinv').
    + fold NN. intros sg_i v Hi Hgi Hli HEi Hv.
      pose proof (proj1 (HNN_el v) Hv) as Hvpq.
      assert (Hv_in : v ∈ active_list_ sg) by (by destruct Hvpq as [->| ->]).
      destruct (induce_child sg sg_i v (excl_of p NN v) Hi Hgi Hli HEi Hv_in)
        as (Hinv2 & Hg2 & Hl2 & HE2 & Hsm).
      set (sg2 := InduceFromSelfMutate sg_i v (excl_of p NN v)) in *.
      destruct (Hrest (excl_of p NN v)
                  ltac:(intros n Hn; unfold excl_of in Hn;
                        destruct (decide (v = p));
                        [by apply not_elem_of_nil in Hn|by apply HNN_el])
                  v Hvpq (active_list_ sg2) Hl2) as [Hlen2 Hall2].
      assert (Hshape2 : all_adjacent sg2).
      { intros a b Ha Hb Hab. rewrite HE2. by apply Hall2. }
      unfold f. destruct (decide (v = p)) as [->|Hvp].
      * destruct (recurse_clique fuel sg2 holds (S np))
          as (sg1 & Hrec1 & Heq1 & Hinv1); [done|done|lia|done|lia|done|].
        exists sg1. split_and!; [|done|done].
        replace (Z.of_nat (holds + np) + 1) with (Z.of_nat (holds + S np))
          by lia.
        replace (Z.of_nat np + 1) with (Z.of_nat (S np)) by lia.
        rewrite Hrec1. unfold NumActive. rewrite Hlen2.
        f_equal. f_equal. f_equal. lia.
      * destruct (recurse_clique fuel sg2 (S holds) np)
          as (sg1 & Hrec1 & Heq1 & Hinv1); [done|done|lia|lia|lia|done|].
        exists sg1. split_and!; [|done|done].
        replace (Z.of_nat (holds + np) + 1) with (Z.of_nat (S holds + np))
          by lia.
        rewrite Hrec1. unfold NumActive. by rewrite Hlen2.
    + exists sg'. split_and!; [|done|done].
      rewrite Hres. fold NN. f_equal. f_equal. f_equal.
      rewrite (sumZ_perm _ _ (Permutation_map f HNN_perm)).
      cbn [map sumZ foldr]. unfold f. rewrite decide_True by done.
      rewrite decide_False by congruence. lia.
  - (* the pivot is adjacent to every other candidate *)
    assert (Hp1 : p ≠ h1) by tauto. assert (Hp2 : p ≠ h2) by tauto.
    assert (Hp_adj : ∀ n, n ∈ P → n ≠ p → local_adj sg p n = true).
    { intros n Hn Hne. apply Hall; [done|done|congruence| |]; tauto. }
    assert (HNN : filter (λ n, local_adj sg p n ≠ true) P = [p]).
    { apply filter_only; [done|done|]. intros n Hn. split.
      - intros Hna. destruct (decide (n = p)) as [|Hne]; [done|].
        exfalso. by apply Hna, Hp_adj.
      - intros ->. by rewrite (local_adj_irrefl sg _ Hg). }
    assert (Hlen3 : (3 ≤ length P)%nat).
    { assert ([p; h1; h2] ⊆+ P) as Hsub.
      { apply NoDup_submseteq.
        - repeat (apply NoDup_cons; split);
            rewrite ?elem_of_cons, ?list_elem_of_singleton, ?elem_of_nil;
            try tauto. apply NoDup_nil_2.
        - intros n. rewrite !elem_of_cons, elem_of_nil.
          intros [->|[->|[->|[]]]]; done. }
      apply submseteq_length in Hsub. simpl in Hsub. lia. }
    destruct c as [|c'];
      [unfold NumActive in Hnum; fold P in Hnum; lia|].
    set (X := wrap (n_choose_k n_choose_k_memo (Z.of_nat (np + S (S c')))
                               (Z.of_nat (k - holds))
                    + n_choose_k n_choose_k_memo (Z.of_nat (np + S c'))
                                 (Z.of_nat (k - S holds)))).
    destruct (HL (λ _, X)) as (sg' & Hres & Heq & Hinv').
    + rewrite HNN. intros sg_i v Hi Hgi Hli HEi Hv.
      apply list_elem_of_singleton in Hv. subst v.
      unfold excl_of. rewrite !decide_True by done.
      destruct (induce_child sg sg_i p [] Hi Hgi Hli HEi Hp)
        as (Hinv2 & Hg2 & Hl2 & HE2 & Hsm).
      set (sg2 := InduceFromSelfMutate sg_i p []) in *.
      assert (Hkeep : ∀ n, n ∈ P →
        (local_adj sg p n = true ∧ ¬ (n ∈ [] ∧ (n < p)%nat)) ↔ n ∉ [p]).
      { intros n Hn. rewrite list_elem_of_singleton. split.
        - intros [Ha _] ->. by rewrite (local_adj_irrefl sg _ Hg) in Ha.
        - intros Hne. split; [by apply Hp_adj|]. rewrite elem_of_nil. tauto. }
      assert (Hmem2 : ∀ n, n ∈ active_list_ sg2 ↔ n ∈ P ∧ n ≠ p).
      { intros n. rewrite Hl2. fold P. rewrite list_elem_of_filter. split.
        - intros [Hk' Hn]. apply Hkeep in Hk'; [|done].
          rewrite list_elem_of_singleton in Hk'. done.
        - intros [Hn Hne]. split; [|done]. apply Hkeep; [done|].
          by rewrite list_elem_of_singleton. }
      assert (Hnum2 : NumActive sg2 = S (S c')).
      { unfold NumActive. rewrite Hl2. fold P.
        assert (Hin1 : ∀ d, d ∈ [p] → d ∈ P).
        { intros d Hd. apply list_elem_of_singleton in Hd. by rewrite Hd. }
        pose proof (length_filter_except _ P [p] Hnd (NoDup_singleton p)
                      Hin1 Hkeep) as Hlen.
        unfold NumActive in Hnum. fold P in Hnum. cbn [length] in Hlen. lia. }
      destruct (IH sg2 holds (S np) c' h1 h2)
        as (sg1 & Hrec1 & Heq1 & Hinv1); [done|done|lia|done|done|done| |].
      * split_and!.
        -- apply Hmem2. split; [done|congruence].
        -- apply Hmem2. split; [done|congruence].
        -- done.
        -- by rewrite HE2.
        -- intros a b Ha Hb Hab Hn1 Hn2. rewrite HE2.
           apply Hmem2 in Ha as [Ha _], Hb as [Hb _]. by apply Hall.
      * exists sg1. split_and!; [|done|done].
        replace (Z.of_nat (holds + np) + 1) with (Z.of_nat (holds + S np))
          by lia.
        replace (Z.of_nat np + 1) with (Z.of_nat (S np)) by lia.
        rewrite Hrec1. unfold X. f_equal. f_equal. f_equal.
        f_equal; f_equal; f_equal; lia.
    + exists sg'. split_and!; [|done|done].
      rewrite Hres, HNN. cbn [map sumZ foldr].
      rewrite Z.add_0_r. unfold X. by rewrite wrap_wrap.
Qed.

End Shapes.

End ShapeFacts.

(** ** Roots whose out-neighbours have a known shape *)

Module RootShapes.
Import Builder Cliques SubGraph SubGraphInv VecFacts FromDAGInv.
Import CombCache CombCacheFacts PivotValue BuilderFacts CountFacts.
Import PivotScale RecurseCorrect LevelSpec ShapeFacts.

Lemma root_fold_values memo dag k (val : nat → Z) us :
  (∀ u, u ∈ us → ∀ c sg, ∃ sg',
     root_step memo dag k (Some (c, sg)) u = Some (wrap (c + val u), sg')) →
  ∀ c sg, wrap c = c →
  ∃ sg', foldl (root_step memo dag k) (Some (c, sg)) us
         = Some (wrap (c + sumZ (map val us)), sg').
Proof.
  induction us as [|u us IH]; intros Hus c sg Hc.
  - exists sg. cbn [foldl map sumZ foldr]. by rewrite Z.add_0_r, Hc.
  - cbn [foldl map sumZ foldr].
    destruct (Hus u (list_elem_of_here _ _) c sg) as (sg1 & Hstep).
    rewrite Hstep.
    destruct (IH (λ v Hv, Hus v (list_elem_of_further _ _ _ Hv))
                (wrap (c + val u)) sg1 (wrap_wrap _)) as (sg' & Hfold).
    exists sg'. rewrite Hfold. f_equal. f_equal.
    rewrite wrap_add_l. f_equal. unfold sumZ. lia.
Qed.

(** The counter is the sum of what the roots return. *)
Lemma pivot_count_values memo dag k (val : nat → Z) :
  (∀ u, (u < num_nodes dag)%nat → ∀ c sg, ∃ sg',
     root_step memo dag k (Some (c, sg)) u = Some (wrap (c + val u), sg')) →
  PivotCount memo dag k
  = Some (wrap (sumZ (map val (seq 0 (num_nodes dag))))).
Proof.
  intros Hval. unfold PivotCount.
  destruct (root_fold_values memo dag k val (seq 0 (num_nodes dag)))
    with (c := 0) (sg := SubGraph.init) as (sg' & Hfold).
  - intros u Hu. apply Hval. apply elem_of_seq in Hu. lia.
  - done.
  - rewrite Hfold. cbn [fmap option_fmap option_map fst].
    by rewrite Z.add_0_l.
Qed.

Section Oriented.
Variable g : Graph.
Variable before : nat → nat → bool.
Hypothesis Hg : undirected_simple g.
Hypothesis Hst : strict_total before.
Variable k : nat.
Hypothesis Hk : Z.of_nat k < 2 ^ 31.

Let dag : Graph := DirectGraphByFunc g before.

Lemma root_state sg u :
  (u < num_nodes g)%nat →
  let sg_u := InduceFromDAG sg dag u in
  inv sg_u ∧ graph_ok (adj_list_ sg_u)
  ∧ active_list_ sg_u = seq 0 (out_degree dag u)
  ∧ NumActive sg_u = out_degree dag u.
Proof.
  intros Hu. cbv zeta.
  assert (Hwf : dag_wf dag) by (by apply direct_dag_wf).
  assert (Hu' : (u < num_nodes dag)%nat)
    by (unfold dag; by rewrite direct_num_nodes).
  pose proof (dag_wf_nodup dag u Hwf Hu') as Hnd.
  pose proof (from_dag_spec sg dag u Hnd) as Hs. cbv zeta in Hs.
  destruct Hs as (_ & _ & Hal & _).
  split_and!; [by apply inv_from_dag|by apply graph_ok_from_dag|done|].
  unfold NumActive. by rewrite Hal, length_seq.
Qed.

(** A root whose out-neighbours are pairwise adjacent. *)
Lemma root_clique_value u c sg :
  (u < num_nodes g)%nat → (1 ≤ k)%nat →
  (∀ x y, (x < out_degree dag u)%nat → (y < out_degree dag u)%nat → x ≠ y →
          adjacent g (out_neigh dag u !!! x) (out_neigh dag u !!! y) = true) →
  ∃ sg',
    root_step n_choose_k_memo dag (Z.of_nat k) (Some (c, sg)) u
    = Some (wrap (c + n_choose_k n_choose_k_memo
                        (Z.of_nat (out_degree dag u)) (Z.of_nat (k - 1))),
            sg').
Proof.
  intros Hu H1 Hadj. unfold root_step. cbn [mbind option_bind]. cbv zeta.
  destruct (root_state sg u Hu) as (Hinv & Hgr & Hal & Hnum).
  destruct (recurse_clique k Hk (S (out_degree dag u))
              (InduceFromDAG sg dag u) 1 0)
    as (sg' & Hrec & _ & _); [done|done|lia|done|done| |].
  - intros a b Ha Hb Hab. rewrite Hal in Ha, Hb.
    apply elem_of_seq in Ha, Hb.
    pose proof (root_local_adj g before Hg Hst sg u a b Hu
                  ltac:(unfold dag in *; lia) ltac:(unfold dag in *; lia))
      as HE.
    change (DirectGraphByFunc g before) with dag in HE. rewrite HE.
    apply Hadj; lia.
  - change (Z.of_nat (1 + 0)) with 1 in Hrec.
    change (Z.of_nat 0) with 0 in Hrec.
    rewrite Hrec. cbn [mbind option_bind]. exists sg'.
    by rewrite Hnum, Nat.add_0_l.
Qed.

(** A root whose out-neighbours are pairwise adjacent but for the two
    at the positions [h1] and [h2]. *)
Lemma root_two_hubs_value u c sg n h1 h2 :
  (u < num_nodes g)%nat → (1 < k)%nat →
  out_degree dag u = S (S n) →
  (h1 < S (S n))%nat → (h2 < S (S n))%nat → h1 ≠ h2 →
  adjacent g (out_neigh dag u !!! h1) (out_neigh dag u !!! h2) = false →
  (∀ x y, (x < S (S n))%nat → (y < S (S n))%nat → x ≠ y →
          ¬ (x = h1 ∧ y = h2) → ¬ (x = h2 ∧ y = h1) →
          adjacent g (out_neigh dag u !!! x) (out_neigh dag u !!! y) = true) →
  ∃ sg',
    root_step n_choose_k_memo dag (Z.of_nat k) (Some (c, sg)) u
    = Some (wrap (c + wrap (n_choose_k n_choose_k_memo (Z.of_nat (S n))
                                       (Z.of_nat (k - 1))
                            + n_choose_k n_choose_k_memo (Z.of_nat n)
                                         (Z.of_nat (k - 2)))),
            sg').
Proof.
  intros Hu H1 Hd Hh1 Hh2 Hh12 Hnon Hadj.
  unfold root_step. cbn [mbind option_bind]. cbv zeta.
  destruct (root_state sg u Hu) as (Hinv & Hgr & Hal & Hnum).
  assert (HE : ∀ a b, (a < S (S n))%nat → (b < S (S n))%nat →
    local_adj (InduceFromDAG sg dag u) a b
    = adjacent g (out_neigh dag u !!! a) (out_neigh dag u !!! b)).
  { intros a b Ha Hb.
    pose proof (root_local_adj g before Hg Hst sg u a b Hu) as HE.
    change (DirectGraphByFunc g before) with dag in HE.
    apply HE; lia. }
  destruct (recurse_two_hubs k Hk (S (out_degree dag u))
              (InduceFromDAG sg dag u) 1 0 n h1 h2)
    as (sg' & Hrec & _ & _); [done|done|lia|lia|done|done| |].
  - rewrite Hd in Hal. split_and!.
    + rewrite Hal. apply elem_of_seq. lia.
    + rewrite Hal. apply elem_of_seq. lia.
    + done.
    + by rewrite HE.
    + intros a b Ha Hb Hab Hn1 Hn2. rewrite Hal in Ha, Hb.
      apply elem_of_seq in Ha, Hb. rewrite HE by lia. apply Hadj; lia.
  - change (Z.of_nat (1 + 0)) with 1 in Hrec.
    change (Z.of_nat 0) with 0 in Hrec.
    rewrite Hrec. cbn [mbind option_bind]. exists sg'.
    rewrite !Nat.add_0_l. done.
Qed.

End Oriented.

End RootShapes.

(** ** The two orderings on a clique with two hubs *)

Module TwoHubs.
Import Builder Ordering Cliques SubGraph SubGraphInv VecFacts FromDAGInv.
Import CombCache CombCacheFacts CacheExact CacheRange PivotValue.
Import SimpleGraph BuilderFacts CountFacts PivotScale RecurseCorrect.
Import RootShapes Examples TwoHubsValues.

Lemma two_hubs_simple : undirected_simple two_hubs.
Proof. apply undirected_simple_b_spec. vm_compute. reflexivity. Qed.

Lemma two_hubs_nodes : num_nodes two_hubs = 104%nat.
Proof. vm_compute. reflexivity. Qed.

Lemma lookup_total_map_seq {A} `{Inhabited A} (f : nat → A) n (tl : list A) i :
  (i < n)%nat → (map f (seq 0 n) ++ tl) !!! i = f i.
Proof.
  intros Hi. apply list_lookup_total_correct.
  rewrite lookup_app_l by (rewrite length_map, length_seq; lia).
  rewrite list_lookup_fmap, lookup_seq_lt by done. done.
Qed.

Lemma two_hubs_low a :
  (a < 100)%nat →
  out_neigh two_hubs a
  = (filter (λ v, v ≠ a) (seq 0 100) ++ [100; 101])%nat.
Proof.
  intros Ha. unfold out_neigh, two_hubs, Graph.
  by rewrite (lookup_total_map_seq _ 100) by done.
Qed.

Lemma two_hubs_100 : out_neigh two_hubs 100 = (seq 0 100 ++ [102])%nat.
Proof. vm_compute. reflexivity. Qed.

Lemma two_hubs_101 : out_neigh two_hubs 101 = (seq 0 100 ++ [103])%nat.
Proof. vm_compute. reflexivity. Qed.

Lemma adjacent_low a b :
  (a < 100)%nat → (b < 102)%nat → a ≠ b → adjacent two_hubs a b = true.
Proof.
  intros Ha Hb Hab. apply adjacent_iff. rewrite two_hubs_low by done.
  apply elem_of_app. destruct (decide (b < 100)%nat).
  - left. apply list_elem_of_filter. split; [congruence|].
    apply elem_of_seq. lia.
  - right. rewrite elem_of_cons, list_elem_of_singleton. lia.
Qed.

Lemma adjacent_hub h b :
  h = 100%nat ∨ h = 101%nat → (b < 100)%nat → adjacent two_hubs h b = true.
Proof.
  intros [-> | ->] Hb; apply adjacent_iff;
    rewrite ?two_hubs_100, ?two_hubs_101;
    apply elem_of_app; left; apply elem_of_seq; lia.
Qed.

Lemma adjacent_hubs :
  adjacent two_hubs 100 101 = false ∧ adjacent two_hubs 101 100 = false.
Proof. split; vm_compute; reflexivity. Qed.

(** Out-neighbours below 100 are pairwise adjacent. *)
Lemma low_row_shape (low : list nat) x y :
  Forall (λ v, v < 100)%nat low → NoDup low →
  (x < length low)%nat → (y < length low)%nat → x ≠ y →
  adjacent two_hubs (low !!! x) (low !!! y) = true.
Proof.
  intros Hlow Hnd Hx Hy Hxy. rewrite Forall_forall in Hlow.
  pose proof (Hlow _ (lookup_total_elem_of low x Hx)) as Hx'.
  pose proof (Hlow _ (lookup_total_elem_of low y Hy)) as Hy'.
  apply adjacent_low; [done|lia|].
  intros Heq. apply Hxy.
  eapply (NoDup_lookup low x y); [done| |];
    [by apply lookup_total_lookup|].
  rewrite Heq. by apply lookup_total_lookup.
Qed.

(** Out-neighbours below 100 followed by the two hubs: pairwise
    adjacent but for the hubs. *)
Lemma hub_row_shape (low : list nat) :
  Forall (λ v, v < 100)%nat low → NoDup low →
  let row := (low ++ [100; 101])%nat in
  let n := length low in
  adjacent two_hubs (row !!! n) (row !!! S n) = false
  ∧ ∀ x y, (x < S (S n))%nat → (y < S (S n))%nat → x ≠ y →
           ¬ (x = n ∧ y = S n) → ¬ (x = S n ∧ y = n) →
           adjacent two_hubs (row !!! x) (row !!! y) = true.
Proof.
  intros Hlow Hnd. cbv zeta.
  assert (Hl : ∀ x, (x < length low)%nat →
            (low ++ [100; 101])%nat !!! x = low !!! x)
    by (intros x Hx; by apply lookup_total_app_l).
  assert (H100 : (low ++ [100; 101])%nat !!! length low = 100%nat).
  { rewrite lookup_total_app_r by lia. by rewrite Nat.sub_diag. }
  assert (H101 : (low ++ [100; 101])%nat !!! S (length low) = 101%nat).
  { rewrite lookup_total_app_r by lia.
    by replace (S (length low) - length low)%nat with 1%nat by lia. }
  assert (Hlt : ∀ x, (x < length low)%nat → (low !!! x < 100)%nat).
  { intros x Hx. rewrite Forall_forall in Hlow.
    apply Hlow. by apply lookup_total_elem_of. }
  split.
  - rewrite H100, H101. apply adjacent_hubs.
  - intros x y Hx Hy Hxy Hn1 Hn2.
    destruct (decide (x < length low)%nat) as [Hxl|Hxl].
    + rewrite (Hl x Hxl).
      destruct (decide (y < length low)%nat) as [Hyl|Hyl].
      * rewrite (Hl y Hyl). by apply low_row_shape.
      * pose proof (Hlt x Hxl).
        assert (y = length low ∨ y = S (length low)) as [-> | ->] by lia;
          rewrite ?H100, ?H101; apply adjacent_low; lia.
    + destruct (decide (y < length low)%nat) as [Hyl|Hyl].
      * rewrite (Hl y Hyl). pose proof (Hlt y Hyl).
        assert (x = length low ∨ x = S (length low)) as [-> | ->] by lia;
          rewrite ?H100, ?H101; apply adjacent_hub; (lia || tauto).
      * lia.
Qed.

Lemma seq_low i n : (i + n ≤ 100)%nat → Forall (λ v, v < 100)%nat (seq i n).
Proof. intros H. apply Forall_forall. intros v Hv. apply elem_of_seq in Hv. lia. Qed.

(** *** The degree ordering *)

Lemma degree_dag :
  DirectGraphDegree two_hubs
  = (map (λ i, seq (S i) (99 - i) ++ [100; 101]) (seq 0 100)
     ++ [[]; []; [100]; [101]])%nat.
Proof. vm_compute. reflexivity. Qed.

Lemma degree_row i :
  (i < 100)%nat →
  out_neigh (DirectGraphDegree two_hubs) i
  = (seq (S i) (99 - i) ++ [100; 101])%nat.
Proof.
  intros Hi. rewrite degree_dag. unfold out_neigh, Graph.
  by rewrite (lookup_total_map_seq _ 100) by done.
Qed.

Lemma degree_row_high i :
  (100 ≤ i)%nat → (i < 104)%nat →
  (out_degree (DirectGraphDegree two_hubs) i ≤ 1)%nat.
Proof.
  intros H1 H2. rewrite degree_dag.
  assert (i = 100 ∨ i = 101 ∨ i = 102 ∨ i = 103)%nat
    as [->|[->|[->| ->]]] by lia; vm_compute; lia.
Qed.

Lemma degree_root u c sg :
  (u < 104)%nat →
  ∃ sg',
    root_step n_choose_k_memo (DirectGraphDegree two_hubs) 17
              (Some (c, sg)) u
    = Some (wrap (c + degree_value u), sg').
Proof.
  intros Hu. unfold degree_value.
  pose proof two_hubs_simple as Hg.
  pose proof (GreaterDegreeOrID_strict_total two_hubs) as Hst.
  destruct (u <? 100)%nat eqn:E.
  - apply Nat.ltb_lt in E.
    assert (Hlow : Forall (λ v, v < 100)%nat (seq (S u) (99 - u)))
      by (apply seq_low; lia).
    destruct (hub_row_shape (seq (S u) (99 - u)) Hlow (NoDup_seq _ _))
      as [Hnon Hadj].
    cbv zeta in Hnon, Hadj. rewrite length_seq in Hnon, Hadj.
    destruct (root_two_hubs_value two_hubs (GreaterDegreeOrID two_hubs)
                Hg Hst 17 ltac:(done) u c sg (99 - u) (99 - u) (S (99 - u)))
      as (sg' & Hstep).
    + rewrite two_hubs_nodes. lia.
    + lia.
    + unfold out_degree. fold (DirectGraphDegree two_hubs).
      rewrite degree_row by done. rewrite length_app, length_seq. simpl. lia.
    + lia.
    + lia.
    + lia.
    + fold (DirectGraphDegree two_hubs). by rewrite degree_row.
    + fold (DirectGraphDegree two_hubs). rewrite degree_row by done.
      exact Hadj.
    + exists sg'. fold (DirectGraphDegree two_hubs) in Hstep.
      change (Z.of_nat 17) with 17 in Hstep. rewrite Hstep.
      replace (S (99 - u)) with (100 - u)%nat by lia. done.
  - apply Nat.ltb_ge in E.
    pose proof (degree_row_high u E Hu) as Hd.
    destruct (root_clique_value two_hubs (GreaterDegreeOrID two_hubs)
                Hg Hst 17 ltac:(done) u c sg) as (sg' & Hstep).
    + rewrite two_hubs_nodes. lia.
    + lia.
    + fold (DirectGraphDegree two_hubs). intros x y Hx Hy Hxy. lia.
    + exists sg'. fold (DirectGraphDegree two_hubs) in Hstep.
      change (Z.of_nat 17) with 17 in Hstep. rewrite Hstep.
      rewrite choose_gt; [done|lia|done].
Qed.

Lemma degree_count :
  PivotCount n_choose_k_memo (DirectGraphDegree two_hubs) 17
  = Some 8188934626423984124.
Proof.
  rewrite (pivot_count_values _ _ _ degree_value).
  - unfold DirectGraphDegree. rewrite direct_num_nodes, two_hubs_nodes.
    vm_compute. reflexivity.
  - intros u Hu c sg. apply degree_root.
    unfold DirectGraphDegree in Hu.
    by rewrite direct_num_nodes, two_hubs_nodes in Hu.
Qed.

(** *** The approximate-coreness ordering *)

Lemma core_ranking :
  CoreApprox (S (num_nodes two_hubs)) half_avg two_hubs
  = Some (replicate 100 2 ++ [1; 1; 0; 0]).
Proof. vm_compute. reflexivity. Qed.

Lemma core_dag :
  DirectGraphCore two_hubs (replicate 100 2 ++ [1; 1; 0; 0])
  = (map (λ i, seq (S i) (99 - i)) (seq 0 100)
     ++ [seq 0 100; seq 0 100; [100]; [101]])%nat.
Proof. vm_compute. reflexivity. Qed.

Lemma core_row u :
  (u < 104)%nat →
  ∃ low,
    out_neigh (DirectGraphCore two_hubs (replicate 100 2 ++ [1; 1; 0; 0])) u
    = low
    ∧ length low = (if (u <? 100) then 99 - u
                    else if (u <? 102) then 100 else 1)%nat
    ∧ (Forall (λ v, v < 100)%nat low ∨ length low = 1%nat)
    ∧ NoDup low.
Proof.
  intros Hu. rewrite core_dag. eexists. split; [done|].
  destruct (u <? 100)%nat eqn:E.
  - apply Nat.ltb_lt in E. unfold out_neigh, Graph.
    rewrite (lookup_total_map_seq _ 100) by done.
    split_and!; [apply length_seq|left; apply seq_low; lia|apply NoDup_seq].
  - apply Nat.ltb_ge in E.
    assert (u = 100 ∨ u = 101 ∨ u = 102 ∨ u = 103)%nat
      as [->|[->|[->| ->]]] by lia.
    + split_and!; [done|left; apply (seq_low 0 100); lia|apply (NoDup_seq 0 100)].
    + split_and!; [done|left; apply (seq_low 0 100); lia|apply (NoDup_seq 0 100)].
    + split_and!; [done|by right|apply NoDup_singleton].
    + split_and!; [done|by right|apply NoDup_singleton].
Qed.

Lemma core_root u c sg :
  (u < 104)%nat →
  ∃ sg',
    root_step n_choose_k_memo
      (DirectGraphCore two_hubs (replicate 100 2 ++ [1; 1; 0; 0])) 17
      (Some (c, sg)) u
    = Some (wrap (c + core_value u), sg').
Proof.
  intros Hu. unfold core_value.
  pose proof two_hubs_simple as Hg.
  pose proof (compare_rankings_strict_total two_hubs
                (replicate 100 2 ++ [1; 1; 0; 0])) as Hst.
  destruct (core_row u Hu) as (low & Hrow & Hlen & Hshape & Hnd).
  destruct (root_clique_value two_hubs
              (compare_rankings two_hubs (replicate 100 2 ++ [1; 1; 0; 0]))
              Hg Hst 17 ltac:(done) u c sg) as (sg' & Hstep).
  - rewrite two_hubs_nodes. lia.
  - lia.
  - fold (DirectGraphCore two_hubs (replicate 100 2 ++ [1; 1; 0; 0])).
    unfold out_degree. rewrite Hrow. intros x y Hx Hy Hxy.
    destruct Hshape as [Hlow|H1]; [by apply low_row_shape|lia].
  - exists sg'.
    fold (DirectGraphCore two_hubs (replicate 100 2 ++ [1; 1; 0; 0]))
      in Hstep.
    change (Z.of_nat 17) with 17 in Hstep. rewrite Hstep.
    unfold out_degree. by rewrite Hrow, Hlen.
Qed.

Lemma core_count :
  PivotCount n_choose_k_memo
    (DirectGraphCore two_hubs (replicate 100 2 ++ [1; 1; 0; 0])) 17
  = Some 7036013121817137148.
Proof.
  rewrite (pivot_count_values _ _ _ core_value).
  - unfold DirectGraphCore. rewrite direct_num_nodes, two_hubs_nodes.
    vm_compute. reflexivity.
  - intros u Hu c sg. apply core_root.
    unfold DirectGraphCore in Hu.
    by rewrite direct_num_nodes, two_hubs_nodes in Hu.
Qed.

End TwoHubs.

(** ** Printing a 128-bit count *)

Module PrintFacts.
Import Printing.

Lemma decimal_snoc s c : decimal (s ++ [c]) = 10 * decimal s + (c - 48).
Proof. unfold decimal. by rewrite foldl_app. Qed.

Lemma drop_insert_here {A} (l : list A) i x :
  (i < length l)%nat → drop i (<[i := x]> l) = x :: drop (S i) l.
Proof.
  intros Hi. rewrite insert_take_drop by done.
  rewrite drop_app_length'; [done|]. rewrite length_take. lia.
Qed.

Lemma write_digits_S i buffer x :
  write_digits (S i) buffer x
  = if 0 <? x / 10
    then write_digits i (<[i := 48 + x mod 10]> buffer) (x / 10)
    else Some (<[i := 48 + x mod 10]> buffer, i).
Proof. done. Qed.

Lemma write_digits_spec i : ∀ buffer x,
  0 ≤ x < 10 ^ Z.of_nat (S i) → (i < length buffer)%nat →
  ∃ j digits,
    write_digits (S i) buffer x
    = Some (take j buffer ++ digits ++ drop (S i) buffer, j)
    ∧ (j ≤ i)%nat ∧ length digits = (S i - j)%nat
    ∧ Forall digit digits ∧ decimal digits = x
    ∧ (x ≠ 0 → head digits ≠ Some 48).
Proof.
  induction i as [|i IH]; intros buffer x Hx Hlen.
  - exists 0%nat, [48 + x]. change (10 ^ Z.of_nat 1) with 10 in Hx.
    rewrite write_digits_S.
    rewrite Z.div_small, Z.mod_small by lia. cbn [Z.ltb Z.compare].
    split_and!; [|lia|done| |unfold decimal; cbn; lia|cbn; intros ? [=]; lia].
    + rewrite insert_take_drop by done. done.
    + repeat constructor; lia.
  - rewrite write_digits_S.
    pose proof (Z.div_mod x 10 ltac:(lia)) as Hdm.
    pose proof (Z.mod_pos_bound x 10 ltac:(lia)) as Hr.
    destruct (0 <? x / 10) eqn:E.
    + apply Z.ltb_lt in E.
      destruct (IH (<[S i := 48 + x mod 10]> buffer) (x / 10))
        as (j & digits & Hw & Hj & Hd & Hall & Hval & Hhd).
      * split; [lia|]. apply Z.div_lt_upper_bound; [lia|].
        rewrite <- Z.pow_succ_r by lia.
        replace (Z.succ (Z.of_nat (S i))) with (Z.of_nat (S (S i))) by lia.
        lia.
      * rewrite length_insert. lia.
      * exists j, (digits ++ [48 + x mod 10]). rewrite Hw.
        rewrite take_insert, decide_False by lia.
        rewrite drop_insert_here by lia.
        split_and!.
        -- by rewrite <- !app_assoc.
        -- lia.
        -- rewrite length_app, Hd. simpl. lia.
        -- apply Forall_app. split; [done|].
           repeat constructor; lia.
        -- rewrite decimal_snoc, Hval. lia.
        -- intros _. destruct digits as [|d digits]; [simpl in Hd; lia|].
           apply Hhd. lia.
    + apply Z.ltb_ge in E.
      assert (x / 10 = 0) as Hq.
      { pose proof (Z.div_pos x 10 ltac:(lia) ltac:(lia)). lia. }
      exists (S i), [48 + x mod 10].
      split_and!; [|lia|simpl; lia| |unfold decimal; cbn; lia
                   |cbn; intros ? [=]; lia].
      * rewrite insert_take_drop by done. done.
      * repeat constructor; lia.
Qed.

Lemma c_string_digits digits rest :
  Forall digit digits → c_string (digits ++ 0 :: rest) = digits.
Proof.
  induction 1 as [|d digits Hd _ IH]; [done|].
  cbn. destruct (d =? 0) eqn:E.
  - apply Z.eqb_eq in E. unfold digit in Hd. lia.
  - by rewrite IH.
Qed.

Lemma print_uint128_spec buffer x :
  length buffer = 40%nat → 0 ≤ x < 2 ^ 128 →
  ∃ digits,
    Print_uint128 buffer x
    = Some (replicate (39 - length digits) 32 ++ digits)
    ∧ (1 ≤ length digits ≤ 39)%nat
    ∧ Forall digit digits ∧ decimal digits = x
    ∧ (x ≠ 0 → head digits ≠ Some 48).
Proof.
  intros Hlen Hx. unfold Print_uint128. cbv zeta.
  assert (2 ^ 128 < 10 ^ Z.of_nat 39) as Hb by reflexivity.
  destruct (write_digits_spec 38 (<[39%nat := 0]> buffer) x)
    as (j & digits & Hw & Hj & Hd & Hall & Hval & Hhd).
  { lia. }
  { rewrite length_insert. lia. }
  exists digits. rewrite Hw. cbn [mbind option_bind].
  rewrite drop_app_length' by (rewrite length_take, length_insert; lia).
  rewrite drop_insert_here by lia.
  rewrite c_string_digits by done.
  unfold printf_39s. split_and!; [done|lia|lia|done|done|done].
Qed.

End PrintFacts.

(** ** The sweep counter on candidates that form a clique *)

Module SweepShapes.
Import SubGraph SubGraphInv VecFacts InvFacts InduceInv UndoInv RestoreFacts.
Import Builder Cliques CombCache CombCacheFacts PivotValue RecurseFacts.
Import FromDAGInv BuilderFacts CountFacts.
Import PivotScale RecurseCorrect LevelSpec LevelFacts ShapeFacts SweepFacts.
Import RootShapes.

(** Candidates that form a clique: every one of them becomes a pivot
    in turn, and the only base case reached has the pivots and the
    candidates together as its pivots. *)
Lemma sweep_recurse_clique memo (max_k : nat) fuel : ∀ sg counts holds np,
  inv sg → graph_ok (adj_list_ sg) → (NumActive sg < fuel)%nat →
  (holds < max_k)%nat → all_adjacent sg →
  ∃ sg',
    Sweep.PivotRecurse fuel memo (Z.of_nat max_k) sg counts
                       (Z.of_nat (holds + np)) (Z.of_nat np)
    = Some (Sweep.base_case memo (Z.of_nat max_k) (Z.of_nat holds)
                            (Z.of_nat (np + NumActive sg)) counts, sg')
    ∧ equiv sg sg' ∧ inv sg'.
Proof.
  induction fuel as [|fuel IH]; intros sg counts holds np Hinv Hg Hfuel Hhk Hall;
    [lia|].
  rewrite sweep_PivotRecurse_S. cbv zeta.
  replace (Z.of_nat (holds + np) - Z.of_nat np) with (Z.of_nat holds) by lia.
  rewrite (proj2 (Z.eqb_neq (Z.of_nat holds) (Z.of_nat max_k))) by lia.
  rewrite orb_false_r.
  destruct (NumActive sg =? 0)%nat eqn:E0.
  { apply Nat.eqb_eq in E0. exists sg. rewrite E0, Nat.add_0_r.
    split_and!; [done|apply equiv_refl|done]. }
  apply Nat.eqb_neq in E0.
  set (P := active_list_ sg) in *.
  assert (HneP : P ≠ []).
  { intros HP. apply E0. unfold NumActive. fold P. by rewrite HP. }
  pose proof (find_pivot_in sg HneP) as Hp. fold P in Hp.
  pose proof (active_nodup sg Hinv) as Hnd. fold P in Hnd.
  set (p := FindPivot sg) in *. clearbody p.
  pose proof (unreachable_spec sg p Hinv) as [HNN Hsga]. cbv zeta in *.
  pose proof (inv_unreachable sg p Hinv) as Hinv_a.
  destruct (ActiveUnreachableFromPivot sg p) as [sg_a NN].
  cbn [fst snd] in *.
  assert (Hal_a : active_list_ sg_a = P) by (by rewrite Hsga).
  assert (Hadj_a : adj_list_ sg_a = adj_list_ sg) by (by rewrite Hsga).
  assert (HE_a : ∀ a b, local_adj sg_a a b = local_adj sg a b)
    by (intros; unfold local_adj; by rewrite Hadj_a).
  assert (HNN' : NN = [p]).
  { rewrite HNN. fold P. apply filter_only; [done|done|].
    intros n Hn. rewrite (neighs_set sg p n Hinv Hp). fold P. split.
    - intros Hna. destruct (decide (n = p)) as [|Hne]; [done|].
      exfalso. apply Hna. split; [done|]. apply Hall; [done|done|congruence].
    - intros -> [_ Ha]. by rewrite (local_adj_irrefl sg _ Hg) in Ha. }
  rewrite HNN'. cbn [foldl]. unfold Sweep.child_step at 1.
  cbn [mbind option_bind]. rewrite Nat.eqb_refl.
  destruct (induce_child sg sg_a p [] Hinv_a ltac:(by rewrite Hadj_a)
              ltac:(by rewrite Hal_a) HE_a Hp)
    as (Hinv2 & Hg2 & Hl2 & HE2 & Hsm).
  set (sg2 := InduceFromSelfMutate sg_a p []) in *.
  assert (Hnum2 : (NumActive sg2 + 1 = NumActive sg)%nat).
  { unfold NumActive. rewrite Hl2. fold P.
    change 1%nat with (length [p]).
    apply length_filter_except; [done|apply NoDup_singleton| |].
    - intros d Hd. apply list_elem_of_singleton in Hd. by subst.
    - intros n Hn. rewrite list_elem_of_singleton. split.
      + intros [Ha _] ->. by rewrite (local_adj_irrefl sg _ Hg) in Ha.
      + intros Hne. split; [apply Hall; [done|done|congruence]|].
        rewrite elem_of_nil. tauto. }
  destruct (IH sg2 counts holds (S np)) as (sg1 & Hrec1 & Heq1 & Hinv1);
    [done|done|lia|done| |].
  { intros a b Ha Hb Hab. rewrite HE2. rewrite Hl2 in Ha, Hb.
    apply list_elem_of_filter in Ha as [_ Ha], Hb as [_ Hb].
    by apply Hall. }
  replace (Z.of_nat (holds + np) + 1) with (Z.of_nat (holds + S np)) by lia.
  replace (Z.of_nat np + 1) with (Z.of_nat (S np)) by lia.
  rewrite Hrec1. cbn [mbind option_bind].
  destruct (undo_equiv sg_a p [] sg1 Hinv_a ltac:(by rewrite Hal_a)
              Heq1 Hinv1) as [Hequ Hinvu].
  exists (PopNonNeighbors (UndoSelfMutate sg1)). split_and!.
  - f_equal. f_equal. f_equal. lia.
  - destruct Hequ as [Q1 Q2 Q3 Q4 Q5 Q6 Q7].
    rewrite Hsga in Q1, Q2, Q3, Q4, Q5, Q6, Q7.
    cbn [active_ active_list_ adj_list_ active_tails_ dropped_verts_
         pivot_non_neighs_] in *.
    split; unfold PopNonNeighbors;
      cbn [active_ active_list_ adj_list_ active_tails_ dropped_verts_
           pivot_non_neighs_]; try done.
    rewrite Q7, HNN'. apply frame_pop.
  - by apply inv_pop.
Qed.

Lemma sweep_fold_values memo dag max_k (F : nat → list Z → list Z) us :
  (∀ u, u ∈ us → ∀ counts sg, ∃ sg',
     Sweep.root_step memo dag max_k (Some (counts, sg)) u
     = Some (F u counts, sg')) →
  ∀ counts sg,
  ∃ sg', foldl (Sweep.root_step memo dag max_k) (Some (counts, sg)) us
         = Some (foldl (λ counts u, F u counts) counts us, sg').
Proof.
  induction us as [|u us IH]; intros Hus counts sg.
  - by exists sg.
  - cbn [foldl].
    destruct (Hus u (list_elem_of_here _ _) counts sg) as (sg1 & Hstep).
    rewrite Hstep.
    apply (IH (λ v Hv, Hus v (list_elem_of_further _ _ _ Hv))).
Qed.

Section Oriented.
Variable g : Graph.
Variable before : nat → nat → bool.
Hypothesis Hg : undirected_simple g.
Hypothesis Hst : strict_total before.
Variable memo : memo_t.
Variable max_k : nat.
Hypothesis Hk : (1 < max_k)%nat.

Let dag : Graph := DirectGraphByFunc g before.

(** A root whose out-neighbours are pairwise adjacent: its call is
    one base case, with the out-neighbours as the pivots. *)
Lemma sweep_root_clique u counts sg :
  (u < num_nodes g)%nat →
  (∀ x y, (x < out_degree dag u)%nat → (y < out_degree dag u)%nat → x ≠ y →
          adjacent g (out_neigh dag u !!! x) (out_neigh dag u !!! y) = true) →
  ∃ sg',
    Sweep.root_step memo dag (Z.of_nat max_k) (Some (counts, sg)) u
    = Some (Sweep.base_case memo (Z.of_nat max_k) 1
                            (Z.of_nat (out_degree dag u)) counts, sg').
Proof.
  intros Hu Hadj. unfold Sweep.root_step. cbn [mbind option_bind]. cbv zeta.
  destruct (root_state g before Hg Hst sg u Hu) as (Hinv & Hgr & Hal & Hnum).
  change (DirectGraphByFunc g before) with dag in Hinv, Hgr, Hal, Hnum.
  destruct (sweep_recurse_clique memo max_k (S (out_degree dag u))
              (InduceFromDAG sg dag u) counts 1 0)
    as (sg' & Hrec & _ & _); [done|done|lia|done| |].
  - intros a b Ha Hb Hab. rewrite Hal in Ha, Hb.
    apply elem_of_seq in Ha, Hb.
    pose proof (root_local_adj g before Hg Hst sg u a b Hu
                  ltac:(unfold dag in *; lia) ltac:(unfold dag in *; lia))
      as HE.
    change (DirectGraphByFunc g before) with dag in HE. rewrite HE.
    apply Hadj; lia.
  - change (Z.of_nat (1 + 0)) with 1 in Hrec.
    change (Z.of_nat 0) with 0 in Hrec. change (Z.of_nat 1) with 1 in Hrec.
    rewrite Hrec. exists sg'. by rewrite Hnum, Nat.add_0_l.
Qed.

(** Every root of that kind: the sweep is the base cases of the
    roots, one after the other. *)
Lemma sweep_count_cliques :
  (∀ u x y, (u < num_nodes g)%nat →
            (x < out_degree dag u)%nat → (y < out_degree dag u)%nat → x ≠ y →
            adjacent g (out_neigh dag u !!! x) (out_neigh dag u !!! y)
            = true) →
  let zero := replicate (S max_k) 0 in
  Sweep.PivotCount memo dag (Z.of_nat max_k)
  = Some (zip_with (λ c l, wrap (c + l)) zero
            (foldl (λ counts u,
                      Sweep.base_case memo (Z.of_nat max_k) 1
                        (Z.of_nat (out_degree dag u)) counts)
                   zero (seq 0 (num_nodes g)))).
Proof.
  intros Hadj. cbv zeta. unfold Sweep.PivotCount.
  replace (Z.to_nat (Z.of_nat max_k + 1)) with (S max_k) by lia.
  replace (num_nodes dag) with (num_nodes g)
    by (unfold dag; by rewrite direct_num_nodes).
  destruct (sweep_fold_values memo dag (Z.of_nat max_k)
              (λ u counts, Sweep.base_case memo (Z.of_nat max_k) 1
                             (Z.of_nat (out_degree dag u)) counts)
              (seq 0 (num_nodes g)))
    with (counts := replicate (S max_k) 0) (sg := SubGraph.init)
    as (sg' & Hfold).
  - intros u Hu counts sg. apply elem_of_seq in Hu.
    apply sweep_root_clique; [lia|]. intros x y. apply Hadj. lia.
  - rewrite Hfold. done.
Qed.

End Oriented.

End SweepShapes.

(** ** The sweep counter on the complete graph on 101 vertices *)

Module K101.
Import Builder Ordering Cliques SubGraph SubGraphInv VecFacts FromDAGInv.
Import CombCache CombCacheFacts CliqueFacts PivotValue.
Import SimpleGraph BuilderFacts CountFacts PivotScale RecurseCorrect.
Import SweepShapes Examples.

Lemma foldl_ext_elem {A B} (f f' : A → B → A) (l : list B) :
  (∀ a b, b ∈ l → f a b = f' a b) → ∀ a, foldl f a l = foldl f' a l.
Proof.
  induction l as [|b l IH]; intros Hf a; [done|]. cbn [foldl].
  rewrite (Hf a b (list_elem_of_here _ _)).
  apply IH. intros a' b' Hb'. by apply Hf, list_elem_of_further.
Qed.

(** Among pairwise adjacent vertices every choice is a clique. *)
Lemma count_in_complete E (l : list nat) :
  NoDup l → (∀ a b, a ∈ l → b ∈ l → a ≠ b → E a b = true) →
  ∀ k, Z.of_nat (count_in E k l) = binom (length l) k.
Proof.
  induction l as [|x l IH]; intros Hnd Hadj k.
  - destruct k; done.
  - apply NoDup_cons in Hnd as [Hx Hnd].
    assert (IH' : ∀ k, Z.of_nat (count_in E k l) = binom (length l) k).
    { apply IH; [done|]. intros a b Ha Hb.
      apply Hadj; by apply list_elem_of_further. }
    destruct k as [|k]; [by rewrite count_in_0|].
    rewrite count_in_cons.
    assert (filter (λ y, E x y = true) l = l) as ->.
    { apply filter_all, Forall_forall. intros y Hy.
      apply Hadj; [apply list_elem_of_here|by apply list_elem_of_further|].
      intros ->. done. }
    rewrite Nat2Z.inj_add, !IH'. done.
Qed.

Lemma k101_simple : undirected_simple k101.
Proof. apply undirected_simple_b_spec. vm_compute. reflexivity. Qed.

Lemma k101_nodes : num_nodes k101 = 101%nat.
Proof. vm_compute. reflexivity. Qed.

Lemma k101_heuristic : CoreIsAdvantageous k101 = Some false.
Proof. vm_compute. reflexivity. Qed.

Lemma k101_adjacent a b :
  (a < 101)%nat → (b < 101)%nat → a ≠ b → adjacent k101 a b = true.
Proof.
  intros Ha Hb Hab. apply adjacent_iff. unfold out_neigh, k101, Graph.
  rewrite <- (app_nil_r (map _ _)).
  rewrite (TwoHubs.lookup_total_map_seq _ 101) by done.
  apply list_elem_of_filter. split; [congruence|]. apply elem_of_seq. lia.
Qed.

Lemma k101_cliques k :
  Z.of_nat (count_cliques k101 k) = binom 101 k.
Proof.
  unfold count_cliques. rewrite k101_nodes.
  rewrite (count_in_complete (adjacent k101) (seq 0 101) (NoDup_seq _ _)).
  - by rewrite length_seq.
  - intros a b Ha Hb. apply elem_of_seq in Ha, Hb.
    apply k101_adjacent; lia.
Qed.

Lemma k101_dag :
  DirectGraphDegree k101 = map (λ i, seq (S i) (100 - i)) (seq 0 101)%nat.
Proof. vm_compute. reflexivity. Qed.

Lemma k101_row u :
  (u < 101)%nat → out_neigh (DirectGraphDegree k101) u = seq (S u) (100 - u).
Proof.
  intros Hu. rewrite k101_dag. unfold out_neigh, Graph.
  rewrite <- (app_nil_r (map _ _)).
  by rewrite (TwoHubs.lookup_total_map_seq _ 101) by done.
Qed.

Lemma k101_row_clique u x y :
  (u < 101)%nat →
  (x < out_degree (DirectGraphDegree k101) u)%nat →
  (y < out_degree (DirectGraphDegree k101) u)%nat → x ≠ y →
  adjacent k101 (out_neigh (DirectGraphDegree k101) u !!! x)
                (out_neigh (DirectGraphDegree k101) u !!! y) = true.
Proof.
  unfold out_degree. intros Hu. rewrite k101_row by done.
  rewrite length_seq. intros Hx Hy Hxy.
  rewrite !lookup_total_seq_lt by done.
  apply k101_adjacent; lia.
Qed.

(** The call of the first root is one base case with 100 pivots. *)
Lemma k101_root counts sg :
  ∃ sg',
    Sweep.root_step n_choose_k_memo (DirectGraphDegree k101) 17
                    (Some (counts, sg)) 0
    = Some (Sweep.base_case n_choose_k_memo 17 1 100 counts, sg').
Proof.
  destruct (sweep_root_clique k101 (GreaterDegreeOrID k101) k101_simple
              (GreaterDegreeOrID_strict_total k101) n_choose_k_memo 17
              ltac:(lia) 0 counts sg) as (sg' & Hstep).
  - rewrite k101_nodes. lia.
  - intros x y. apply k101_row_clique. lia.
  - exists sg'. fold (DirectGraphDegree k101) in Hstep.
    change (Z.of_nat 17) with 17 in Hstep. rewrite Hstep.
    unfold out_degree. rewrite k101_row by lia. by rewrite length_seq.
Qed.

Lemma k101_sweep :
  Sweep.PivotCount n_choose_k_memo (DirectGraphDegree k101) 17
  = Some [0; 101; 5050; 166650; 4082925; 79208745; 1267339920;
          17199613200; 202095455100; 2088319702700; 19212541264840;
          158940114100040; 1192050855750300; 8160963550905900;
          51297485177122800; 297525414027312240; 1599199100396803290;
          6843073997377169474].
Proof.
  pose proof (sweep_count_cliques k101 (GreaterDegreeOrID k101) k101_simple
                (GreaterDegreeOrID_strict_total k101) n_choose_k_memo 17
                ltac:(lia)) as H.
  fold (DirectGraphDegree k101) in H. cbv zeta in H.
  change (Z.of_nat 17) with 17 in H. rewrite H.
  - rewrite k101_nodes.
    rewrite (foldl_ext_elem _
               (λ counts u, Sweep.base_case n_choose_k_memo 17 1
                              (Z.of_nat (100 - u)) counts)).
    + vm_compute. reflexivity.
    + intros counts u Hu. apply elem_of_seq in Hu.
      unfold out_degree. rewrite k101_row by lia. by rewrite length_seq.
  - intros u x y Hu. rewrite k101_nodes in Hu. by apply k101_row_clique.
Qed.

End K101.

(** ** The blocked prefix sum *)

Module PrefixFacts.
Import Builder BuilderCSR DegreeFacts.

Lemma sum_take_S (l : list nat) i :
  (i < length l)%nat →
  sum_list (take (S i) l) = (sum_list (take i l) + l !!! i)%nat.
Proof.
  intros Hi.
  rewrite (take_S_r l i (l !!! i)) by (by apply list_lookup_lookup_total_lt).
  rewrite sum_list_with_app. simpl. unfold id. lia.
Qed.

Lemma eq_by_lookup_total (l1 l2 : list nat) :
  length l1 = length l2 →
  (∀ i, (i < length l1)%nat → l1 !!! i = l2 !!! i) → l1 = l2.
Proof.
  intros Hlen Hall. apply list_eq. intros i.
  destruct (decide (i < length l1)%nat) as [Hi|Hi].
  - rewrite !list_lookup_lookup_total_lt by lia. f_equal. by apply Hall.
  - rewrite !lookup_ge_None_2 by lia. done.
Qed.

Section Blocks.
Variable block_size : nat.
Hypothesis Hbs : (0 < block_size)%nat.
Variable degrees : list nat.

Let n : nat := length degrees.
Let num_blocks : nat := ((n + block_size - 1) / block_size)%nat.
Let upto (i : nat) : nat := sum_list (take i degrees).

(** The sum of one range of entries. *)
Lemma range_sum len : ∀ a c,
  (a + len ≤ n)%nat →
  (foldl (λ lsum i, (lsum + degrees !!! i)%nat) c (seq a len) + upto a
   = c + upto (a + len))%nat.
Proof.
  induction len as [|len IH]; intros a c Hlen; cbn [seq foldl].
  - rewrite Nat.add_0_r. lia.
  - pose proof (IH (S a) (c + degrees !!! a)%nat ltac:(lia)) as H.
    unfold upto in *. rewrite sum_take_S in H by (unfold n in *; lia).
    replace (a + S len)%nat with (S a + len)%nat by lia. lia.
Qed.

(** The entries one block writes. *)
Lemma block_fill len : ∀ a prefix,
  (a + len ≤ n)%nat → length prefix = S n →
  let r := foldl (λ '(prefix, local_total) i,
                    (<[i := local_total]> prefix,
                     (local_total + degrees !!! i)%nat))
                 (prefix, upto a) (seq a len) in
  length r.1 = S n
  ∧ ∀ i, r.1 !!! i
         = if decide (a ≤ i < a + len)%nat then upto i else prefix !!! i.
Proof.
  induction len as [|len IH]; intros a prefix Hlen Hp; cbv zeta;
    cbn [seq foldl].
  - split; [done|]. intros i. by rewrite decide_False by lia.
  - assert (upto a + degrees !!! a = upto (S a))%nat as ->.
    { unfold upto. rewrite sum_take_S by (unfold n in *; lia). done. }
    destruct (IH (S a) (<[a := upto a]> prefix) ltac:(lia)
                ltac:(by rewrite length_insert)) as [H1 H2].
    cbv zeta in H1, H2. split; [exact H1|]. intros i. rewrite H2.
    destruct (decide (S a ≤ i < S a + len)%nat).
    + by rewrite decide_True by lia.
    + destruct (decide (i = a)) as [->|Hne].
      * rewrite decide_True by lia.
        by rewrite list_lookup_total_insert_eq by lia.
      * rewrite decide_False by lia.
        by rewrite list_lookup_total_insert_ne by done.
Qed.

Lemma blocks_cover : (n ≤ num_blocks * block_size)%nat.
Proof.
  unfold num_blocks.
  pose proof (Nat.div_mod_eq (n + block_size - 1) block_size) as H.
  pose proof (Nat.mod_upper_bound (n + block_size - 1) block_size
                ltac:(lia)) as H'.
  nia.
Qed.

Lemma block_starts block :
  (block < num_blocks)%nat → (block * block_size < n)%nat.
Proof.
  unfold num_blocks. intros Hb.
  pose proof (Nat.div_mod_eq (n + block_size - 1) block_size) as H.
  pose proof (Nat.mod_upper_bound (n + block_size - 1) block_size
                ltac:(lia)) as H'.
  nia.
Qed.

Let lo (block : nat) : nat := Nat.min (block * block_size) n.

Lemma block_range_lo block :
  (block < num_blocks)%nat →
  block_range block_size n block = seq (lo block) (lo (S block) - lo block).
Proof.
  intros Hb. pose proof (block_starts block Hb) as Hs.
  unfold block_range, lo. cbv zeta.
  replace ((block + 1) * block_size)%nat with (S block * block_size)%nat
    by lia.
  by rewrite (Nat.min_l (block * block_size) n) by lia.
Qed.

Lemma lo_mono block : (lo block ≤ lo (S block))%nat.
Proof. unfold lo. nia. Qed.

Lemma lo_last : lo num_blocks = n.
Proof. unfold lo. pose proof blocks_cover. lia. Qed.

Let local_sums : list nat :=
  map (λ block,
         foldl (λ lsum i, (lsum + degrees !!! i)%nat) 0%nat
               (block_range block_size n block))
      (seq 0 num_blocks).

Lemma local_sums_spec block :
  (block < num_blocks)%nat →
  (local_sums !!! block + upto (lo block) = upto (lo (S block)))%nat.
Proof.
  intros Hb. unfold local_sums.
  rewrite <- (app_nil_r (map _ _)).
  rewrite (TwoHubs.lookup_total_map_seq _ num_blocks) by done.
  rewrite block_range_lo by done.
  pose proof (lo_mono block) as Hm.
  rewrite range_sum by (unfold lo in *; lia).
  replace (lo block + (lo (S block) - lo block))%nat with (lo (S block))
    by lia.
  done.
Qed.

(** The sums before the blocks. *)
Lemma bulk_fill k :
  (k ≤ num_blocks)%nat →
  let r := foldl (λ '(bulk_prefix, total) block,
                    (<[block := total]> bulk_prefix,
                     (total + local_sums !!! block)%nat))
                 (replicate (S num_blocks) 0%nat, 0%nat) (seq 0 k) in
  length r.1 = S num_blocks ∧ r.2 = upto (lo k)
  ∧ ∀ block, (block < k)%nat → r.1 !!! block = upto (lo block).
Proof.
  induction k as [|k IH]; intros Hk; cbv zeta.
  - cbn [seq foldl fst snd]. split_and!.
    + by rewrite length_replicate.
    + unfold upto, lo. by rewrite Nat.mul_0_l, Nat.min_0_l.
    + intros block Hb. lia.
  - rewrite seq_S, foldl_app. cbn [foldl Nat.add].
    destruct (IH ltac:(lia)) as (H1 & H2 & H3). cbv zeta in H1, H2, H3.
    destruct (foldl _ _ (seq 0 k)) as [bulk total].
    cbn [fst snd] in *. split_and!.
    + by rewrite length_insert.
    + rewrite H2. pose proof (local_sums_spec k ltac:(lia)). lia.
    + intros block Hb. destruct (decide (block = k)) as [->|Hne].
      * by rewrite list_lookup_total_insert_eq, H2 by lia.
      * rewrite list_lookup_total_insert_ne by done. apply H3. lia.
Qed.

(** The entries the first [k] blocks write. *)
Lemma prefix_fill (bulk_prefix : list nat) k :
  (∀ block, (block < num_blocks)%nat →
            bulk_prefix !!! block = upto (lo block)) →
  (k ≤ num_blocks)%nat →
  let r := foldl (λ prefix block,
                    (foldl (λ '(prefix, local_total) i,
                              (<[i := local_total]> prefix,
                               (local_total + degrees !!! i)%nat))
                           (prefix, bulk_prefix !!! block)
                           (block_range block_size n block)).1)
                 (replicate (S n) 0%nat) (seq 0 k) in
  length r = S n
  ∧ ∀ i, (i < lo k)%nat → r !!! i = upto i.
Proof.
  intros Hbulk. induction k as [|k IH]; intros Hk; cbv zeta.
  - cbn [seq foldl]. split; [by rewrite length_replicate|].
    unfold lo. intros i Hi. lia.
  - rewrite seq_S, foldl_app. cbn [foldl Nat.add].
    destruct (IH ltac:(lia)) as (H1 & H2). cbv zeta in H1, H2.
    set (prefix := foldl _ _ (seq 0 k)) in *.
    rewrite Hbulk, block_range_lo by lia.
    pose proof (lo_mono k) as Hm.
    destruct (block_fill (lo (S k) - lo k) (lo k) prefix
                ltac:(unfold lo in *; lia) H1) as [F1 F2].
    cbv zeta in F1, F2. split; [exact F1|]. intros i Hi. rewrite F2.
    destruct (decide (lo k ≤ i < lo k + (lo (S k) - lo k))%nat); [done|].
    apply H2. lia.
Qed.

(** The blocked prefix sum is the prefix sum. *)
Lemma parallel_prefix_sum :
  ParallelPrefixSum block_size degrees = PrefixSum degrees.
Proof.
  unfold ParallelPrefixSum. cbv zeta.
  fold n. fold num_blocks. fold local_sums.
  destruct (bulk_fill num_blocks (le_n _)) as (B1 & B2 & B3).
  cbv zeta in B1, B2, B3.
  destruct (foldl _ (replicate (S num_blocks) 0%nat, 0%nat)
                  (seq 0 num_blocks)) as [bulk total].
  cbn [fst snd] in *.
  assert (Hbulk : ∀ block, (block < num_blocks)%nat →
            <[num_blocks := total]> bulk !!! block = upto (lo block)).
  { intros block Hb. rewrite list_lookup_total_insert_ne by lia.
    by apply B3. }
  destruct (prefix_fill (<[num_blocks := total]> bulk) num_blocks Hbulk
              (le_n _)) as [P1 P2].
  cbv zeta in P1, P2. set (prefix := foldl _ (replicate (S n) 0%nat) _) in *.
  rewrite list_lookup_total_insert_eq by lia.
  rewrite B2, lo_last in *.
  destruct (prefix_sum_spec degrees) as [S1 S2]. fold n in S1, S2.
  apply eq_by_lookup_total.
  - by rewrite length_insert, P1, S1.
  - rewrite length_insert, P1. intros i Hi. rewrite S2 by lia.
    destruct (decide (i = n)) as [->|Hne].
    + by rewrite list_lookup_total_insert_eq by lia.
    + rewrite list_lookup_total_insert_ne by done. apply P2. lia.
Qed.

End Blocks.

End PrefixFacts.

(** ** Squishing a graph *)

Module SquishFacts.
Import Builder BuilderCSR BuildSpec Cliques VecFacts BuilderFacts CountFacts.

Lemma unique_from_spec l : ∀ prev,
  Forall (λ y, prev ≤ y)%nat l → StronglySorted Nat.le l →
  StronglySorted lt (unique_from prev l)
  ∧ Forall (λ y, prev < y)%nat (unique_from prev l)
  ∧ ∀ x, x ∈ unique_from prev l ↔ x ∈ l ∧ x ≠ prev.
Proof.
  induction l as [|y l IH]; intros prev Hall Hs; cbn [unique_from].
  - split_and!; [constructor|constructor|].
    intros x. rewrite elem_of_nil. tauto.
  - apply Forall_cons in Hall as [Hy Hall].
    apply StronglySorted_inv in Hs as [Hs Hyl].
    destruct (prev =? y)%nat eqn:E.
    + apply Nat.eqb_eq in E. subst y.
      destruct (IH prev Hall Hs) as (I1 & I2 & I3).
      split_and!; [done|done|]. intros x. rewrite I3, elem_of_cons. split.
      * intros [? ?]. tauto.
      * intros [[->|?] ?]; [done|tauto].
    + apply Nat.eqb_neq in E.
      destruct (IH y Hyl Hs) as (I1 & I2 & I3).
      split_and!.
      * by constructor.
      * constructor; [lia|].
        eapply Forall_impl; [exact I2|]. intros z Hz. simpl in Hz. lia.
      * intros x. rewrite !elem_of_cons, I3. split.
        -- intros [->|[Hx Hne]]; [split; [by left|lia]|].
           rewrite Forall_forall in Hyl. pose proof (Hyl x Hx).
           split; [by right|lia].
        -- intros [[->|Hx] Hne]; [by left|].
           destruct (decide (x = y)); [by left|by right].
Qed.

(** [std::unique] on a sorted list: strictly ascending, with the
    same entries. *)
Lemma unique_spec l :
  StronglySorted Nat.le l →
  StronglySorted lt (unique l) ∧ ∀ x, x ∈ unique l ↔ x ∈ l.
Proof.
  intros Hs. destruct l as [|y l]; cbn [unique].
  - split; [constructor|done].
  - apply StronglySorted_inv in Hs as [Hs Hyl].
    destruct (unique_from_spec l y Hyl Hs) as (I1 & I2 & I3).
    split; [by constructor|]. intros x. rewrite !elem_of_cons, I3.
    split; [tauto|].
    intros [->|Hx]; [by left|].
    destruct (decide (x = y)); [by left|by right].
Qed.

Lemma unique_from_id l : ∀ prev,
  Forall (λ y, prev < y)%nat l → StronglySorted lt l →
  unique_from prev l = l.
Proof.
  induction l as [|y l IH]; intros prev Hall Hs; cbn [unique_from]; [done|].
  apply Forall_cons in Hall as [Hy Hall].
  apply StronglySorted_inv in Hs as [Hs Hyl].
  rewrite (proj2 (Nat.eqb_neq prev y)) by lia.
  by rewrite IH.
Qed.

Lemma unique_id l : StronglySorted lt l → unique l = l.
Proof.
  intros Hs. destruct l as [|y l]; [done|]. cbn [unique].
  apply StronglySorted_inv in Hs as [Hs Hyl].
  by rewrite unique_from_id.
Qed.

Lemma sorted_lt_le (l : list nat) :
  StronglySorted lt l → StronglySorted Nat.le l.
Proof.
  induction 1 as [|x l Hs IH Hall]; constructor; [done|].
  eapply Forall_impl; [exact Hall|]. intros y Hy. simpl in Hy. lia.
Qed.

Lemma sort_ids_id l : StronglySorted lt l → sort_ids l = l.
Proof.
  intros Hs. apply (StronglySorted_unique Nat.le).
  - apply (StronglySorted_merge_sort Nat.le).
  - by apply sorted_lt_le.
  - apply sort_ids_perm.
Qed.

Lemma remove_value_sorted n l :
  StronglySorted lt l → StronglySorted lt (remove_value n l).
Proof.
  unfold remove_value. induction 1 as [|x l Hs IH Hall]; [constructor|].
  rewrite filter_cons. destruct (decide (x ≠ n)); [|done].
  constructor; [done|]. apply Forall_forall. intros y Hy.
  apply list_elem_of_filter in Hy as [_ Hy].
  rewrite Forall_forall in Hall. by apply Hall.
Qed.

Lemma remove_value_id n l : n ∉ l → remove_value n l = l.
Proof.
  intros Hn. unfold remove_value. apply filter_all, Forall_forall.
  intros x Hx ->. done.
Qed.

(** One row: strictly ascending, and the entries of the row but the
    vertex itself. *)
Lemma squish_row g u :
  (u < num_nodes g)%nat →
  out_neigh (SquishCSR g) u
  = remove_value u (unique (sort_ids (out_neigh g u)))
  ∧ StronglySorted lt (out_neigh (SquishCSR g) u)
  ∧ ∀ v, v ∈ out_neigh (SquishCSR g) u ↔ v ∈ out_neigh g u ∧ v ≠ u.
Proof.
  intros Hu.
  assert (Hrow : out_neigh (SquishCSR g) u
                 = remove_value u (unique (sort_ids (out_neigh g u)))).
  { unfold out_neigh at 1, SquishCSR, Graph.
    rewrite <- (app_nil_r (map _ _)).
    by rewrite (TwoHubs.lookup_total_map_seq _ (num_nodes g)) by done. }
  destruct (unique_spec (sort_ids (out_neigh g u))
              (StronglySorted_merge_sort Nat.le _)) as [U1 U2].
  split_and!; [done| |].
  - rewrite Hrow. by apply remove_value_sorted.
  - intros v. rewrite Hrow. unfold remove_value.
    rewrite list_elem_of_filter, U2, sort_ids_perm. tauto.
Qed.

Lemma squish_num_nodes g : num_nodes (SquishCSR g) = num_nodes g.
Proof. unfold SquishCSR, num_nodes. by rewrite length_map, length_seq. Qed.

(** Squishing a graph that stores every edge at both ends gives an
    undirected simple graph. *)
Lemma squish_simple g : symmetric g → undirected_simple (SquishCSR g).
Proof.
  intros Hsym. unfold undirected_simple. rewrite squish_num_nodes.
  apply Forall_forall. intros u Hu. apply elem_of_seq in Hu.
  destruct (squish_row g u ltac:(lia)) as (_ & Hs & Hel).
  split; [done|]. apply Forall_forall. intros v Hv.
  apply Hel in Hv as [Hv Hne].
  destruct (Hsym u v ltac:(lia) Hv) as [Hvn Hback].
  rewrite squish_num_nodes. split_and!; [done|done|].
  destruct (squish_row g v Hvn) as (_ & _ & Hel').
  apply Hel'. split; [done|congruence].
Qed.

(** Squishing an undirected simple graph changes nothing. *)
Lemma squish_id g : undirected_simple g → SquishCSR g = g.
Proof.
  intros Hg. unfold SquishCSR.
  rewrite <- (map_lookup_total_seq g) at 2. unfold num_nodes.
  apply list_fmap_ext. intros i u Hu. apply lookup_seq in Hu as [-> Hu].
  destruct (simple_row_of g i Hg ltac:(unfold num_nodes; lia)) as [Hs Hall].
  unfold out_neigh in *.
  rewrite sort_ids_id, unique_id by done.
  apply remove_value_id. intros Hin.
  rewrite Forall_forall in Hall. by destruct (Hall i Hin) as (_ & ? & _).
Qed.

End SquishFacts.

(** ** The merging scan of the heuristic *)

Module ScanFacts.
Import Ordering.

Lemma advance_none rest : ∀ it w,
  advance rest it w = None ↔ Forall (λ x, x < w)%nat rest.
Proof.
  induction rest as [|x rest IH]; intros it w; cbn [advance].
  - split; [constructor|done].
  - destruct (x <? w)%nat eqn:E.
    + apply Nat.ltb_lt in E. rewrite IH. split.
      * intros H. by constructor.
      * intros H. by apply Forall_cons in H as [_ H].
    + apply Nat.ltb_ge in E. split; [done|].
      intros H. apply Forall_cons in H as [H _]. lia.
Qed.

Lemma advance_some rest : ∀ it w it',
  advance rest it w = Some it' →
  (it ≤ it')%nat
  ∧ (∃ x, rest !! (it' - it)%nat = Some x ∧ (w ≤ x)%nat)
  ∧ ∀ j x, (j < it' - it)%nat → rest !! j = Some x → (x < w)%nat.
Proof.
  induction rest as [|x rest IH]; intros it w it'; cbn [advance]; [done|].
  destruct (x <? w)%nat eqn:E.
  - apply Nat.ltb_lt in E. intros H.
    destruct (IH (S it) w it' H) as (H1 & (y & H2 & H3) & H4).
    split_and!; [lia| |].
    + exists y. replace (it' - it)%nat with (S (it' - S it)) by lia.
      done.
    + intros [|j] z Hj Hz; cbn in Hz; [congruence|].
      apply (H4 j z); [lia|done].
  - apply Nat.ltb_ge in E. intros [= <-]. split_and!; [lia| |].
    + exists x. rewrite Nat.sub_diag. done.
    + intros j z Hj. lia.
Qed.

Lemma scan_none row ws : foldl (scan_step row) None ws = None.
Proof. induction ws as [|w ws IH]; [done|]. cbn [foldl]. exact IH. Qed.

Section Sorted.
Variable row : list nat.
Hypothesis Hrow : StronglySorted lt row.

Lemma row_ascending i j x y :
  row !! i = Some x → row !! j = Some y → (i < j)%nat → (x < y)%nat.
Proof.
  intros Hi Hj Hij.
  assert (Hsplit : row = take j row ++ drop j row)
    by (by rewrite take_drop).
  rewrite Hsplit in Hrow.
  apply (StronglySorted_app_1_elem_of lt _ _ x y) in Hrow; [done| |].
  - apply list_elem_of_lookup. exists i.
    by rewrite lookup_take_lt by done.
  - apply list_elem_of_lookup. exists 0%nat.
    by rewrite lookup_drop, Nat.add_0_r.
Qed.

(** The scan from the position [it], all entries before it being
    below the candidates still to come. *)
Lemma scan_from ws : ∀ it c,
  StronglySorted lt ws →
  (∀ j x w, (j < it)%nat → row !! j = Some x → w ∈ ws → (x < w)%nat) →
  snd <$> foldl (scan_step row) (Some (it, c)) ws
  = if decide (Forall (λ w, Exists (λ x, w ≤ x)%nat row) ws)
    then Some (c + length (filter (λ w, w ∈ row) ws))%nat
    else None.
Proof.
  induction ws as [|w ws IH]; intros it c Hws Hbefore.
  - cbn [foldl]. rewrite decide_True by constructor.
    cbn. by rewrite Nat.add_0_r.
  - apply StronglySorted_inv in Hws as [Hws Hw].
    cbn [foldl]. unfold scan_step at 2. cbn [mbind option_bind].
    destruct (advance (drop it row) it w) as [it'|] eqn:E.
    + destruct (advance_some _ _ _ _ E) as (Hle & (x & Hx & Hwx) & Hlow).
      rewrite lookup_drop in Hx.
      replace (it + (it' - it))%nat with it' in Hx by lia.
      cbn [mbind option_bind]. rewrite Hx. cbn [mbind option_bind].
      assert (Hbelow : ∀ j y, (j < it')%nat → row !! j = Some y →
                              (y < w)%nat).
      { intros j y Hj Hy. destruct (decide (j < it)%nat).
        - apply (Hbefore j y w); [done|done|apply list_elem_of_here].
        - apply (Hlow (j - it)%nat y); [lia|].
          rewrite lookup_drop. by replace (it + (j - it))%nat with j by lia. }
      assert (Hin : w ∈ row ↔ w = x).
      { split.
        - intros Hin. apply list_elem_of_lookup in Hin as [j Hj].
          destruct (decide (j < it')%nat) as [Hlt|Hge].
          + pose proof (Hbelow j w Hlt Hj). lia.
          + destruct (decide (j = it')) as [->|Hne]; [congruence|].
            pose proof (row_ascending it' j x w Hx Hj ltac:(lia)). lia.
        - intros ->. by eapply list_elem_of_lookup_2. }
      rewrite IH; [|done|].
      * assert (Hex : Exists (λ x0, w ≤ x0)%nat row).
        { apply Exists_exists. exists x. split; [|done].
          by eapply list_elem_of_lookup_2. }
        destruct (decide (Forall (λ w0, Exists (λ x0, w0 ≤ x0)%nat row) ws))
          as [Hall|Hall].
        -- rewrite decide_True by (by constructor).
           rewrite filter_cons. f_equal.
           destruct (w =? x)%nat eqn:Ew.
           ++ apply Nat.eqb_eq in Ew.
              rewrite decide_True by (by apply Hin). simpl. lia.
           ++ apply Nat.eqb_neq in Ew.
              rewrite decide_False by (by rewrite Hin). lia.
        -- rewrite decide_False; [done|].
           intros H. by apply Forall_cons in H as [_ H].
      * intros j y w' Hj Hy Hw'.
        rewrite Forall_forall in Hw. pose proof (Hw w' Hw').
        destruct (decide (j < it')%nat) as [Hlt|Hge].
        -- pose proof (Hbelow j y Hlt Hy). lia.
        -- assert (j = it') as -> by lia.
           assert (y = x) as -> by congruence. lia.
    + cbn [mbind option_bind]. rewrite scan_none.
      rewrite decide_False; [done|].
      intros H. apply Forall_cons in H as [H _].
      apply Exists_exists in H as (x & Hx & Hwx).
      apply advance_none in E. rewrite Forall_forall in E.
      apply list_elem_of_lookup in Hx as [j Hj].
      destruct (decide (j < it)%nat) as [Hlt|Hge].
      * pose proof (Hbefore j x w Hlt Hj (list_elem_of_here _ _)). lia.
      * assert (x < w)%nat; [|lia]. apply E.
        apply list_elem_of_lookup. exists (j - it)%nat.
        rewrite lookup_drop. by replace (it + (j - it))%nat with j by lia.
Qed.

End Sorted.

(** On ascending lists the scan stays inside the list of
    [biggest_id] exactly when no neighbour of [biggest_neigh] is above
    all of its entries, and it then returns the number of common
    neighbours. *)
Lemma intersection_scan_spec g biggest_id biggest_neigh :
  StronglySorted lt (out_neigh g biggest_id) →
  StronglySorted lt (out_neigh g biggest_neigh) →
  intersection_scan g biggest_id biggest_neigh
  = if decide (Forall (λ w, Exists (λ x, w ≤ x)%nat
                                   (out_neigh g biggest_id))
                      (out_neigh g biggest_neigh))
    then Some (length (filter (λ w, w ∈ out_neigh g biggest_id)
                              (out_neigh g biggest_neigh)))
    else None.
Proof.
  intros Ha Hb. unfold intersection_scan.
  rewrite (scan_from _ Ha _ 0%nat 0%nat Hb); [done|].
  intros j x w Hj. lia.
Qed.

(** The heuristic selects the degree ordering for every graph of at
    most a million vertices. *)
Lemma heuristic_small g adv :
  CoreIsAdvantageous g = Some adv → Z.of_nat (num_nodes g) ≤ 1000000 →
  adv = false.
Proof.
  unfold CoreIsAdvantageous. intros H Hn.
  destruct (max_by_degree g (seq 0 (num_nodes g))) as [a|]; [|done].
  cbn [mbind option_bind] in H.
  destruct (max_by_degree g (out_neigh g a)) as [b|]; [|done].
  cbn [mbind option_bind] in H.
  destruct (intersection_scan g a b) as [c|]; [|done].
  cbn [mbind option_bind] in H. cbv zeta in H.
  rewrite (proj2 (Z.ltb_ge _ _)) in H by lia.
  cbn [andb] in H. congruence.
Qed.

End ScanFacts.

(** ** Building the CSR graph from an edge list *)

Module CSRFacts.
Import Builder BuilderCSR BuildSpec Cliques VecFacts BuilderFacts.
Import DegreeFacts PrefixFacts SquishFacts.

Lemma written_nil a : written a [] = [].
Proof. done. Qed.

Lemma written_app a ws1 ws2 :
  written a (ws1 ++ ws2) = written a ws1 ++ written a ws2.
Proof. unfold written. by rewrite filter_app, map_app. Qed.

Lemma written_cons a w ws :
  written a (w :: ws)
  = (if decide (w.1 = a) then [w.2] else []) ++ written a ws.
Proof.
  unfold written. rewrite filter_cons.
  by destruct (decide (w.1 = a)).
Qed.

Section Flags.
Variable symmetrize_ transpose : bool.

Lemma writes_cons u v el :
  writes symmetrize_ transpose ((u, v) :: el)
  = (if symmetrize_ || (negb symmetrize_ && negb transpose)
     then [(u, v)] else [])
    ++ (if symmetrize_ || (negb symmetrize_ && transpose)
        then [(v, u)] else [])
    ++ writes symmetrize_ transpose el.
Proof. unfold writes. cbn [map concat]. by rewrite <- app_assoc. Qed.

Lemma row_of_written a el :
  row_of symmetrize_ transpose a el
  = written a (writes symmetrize_ transpose el).
Proof.
  induction el as [|[u v] el IH]; [done|].
  rewrite writes_cons, !written_app, <- IH.
  unfold row_of. cbn [map concat]. rewrite <- app_assoc.
  f_equal; [|f_equal].
  - destruct (symmetrize_ || negb symmetrize_ && negb transpose);
      cbn [andb]; [|done].
    rewrite written_cons, written_nil, app_nil_r. cbn [fst snd].
    destruct (decide (u = a)) as [->|Hne].
    + by rewrite Nat.eqb_refl.
    + by rewrite (proj2 (Nat.eqb_neq u a)) by done.
  - destruct (symmetrize_ || negb symmetrize_ && transpose);
      cbn [andb]; [|done].
    rewrite written_cons, written_nil, app_nil_r. cbn [fst snd].
    destruct (decide (v = a)) as [->|Hne].
    + by rewrite Nat.eqb_refl.
    + by rewrite (proj2 (Nat.eqb_neq v a)) by done.
Qed.

Lemma count_fold el : ∀ degrees,
  foldl (λ degrees '(u, v),
           let degrees :=
             if symmetrize_ || (negb symmetrize_ && negb transpose)
             then (fetch_and_add degrees u).2 else degrees in
           if symmetrize_ || (negb symmetrize_ && transpose)
           then (fetch_and_add degrees v).2 else degrees)
        degrees el
  = foldl (λ degrees w, <[w.1 := S (degrees !!! w.1)]> degrees)
          degrees (writes symmetrize_ transpose el).
Proof.
  induction el as [|[u v] el IH]; intros degrees; [done|].
  cbn [foldl]. rewrite IH, writes_cons, !foldl_app. cbv zeta.
  unfold fetch_and_add.
  by destruct (symmetrize_ || negb symmetrize_ && negb transpose),
              (symmetrize_ || negb symmetrize_ && transpose).
Qed.

Lemma make_fold el : ∀ st,
  foldl (λ '(offsets, neighs) '(u, v),
           let '(offsets, neighs) :=
             if symmetrize_ || (negb symmetrize_ && negb transpose)
             then let '(at_u, offsets) := fetch_and_add offsets u in
                  (offsets, <[at_u := v]> neighs)
             else (offsets, neighs) in
           if symmetrize_ || (negb symmetrize_ && transpose)
           then let '(at_v, offsets) := fetch_and_add offsets v in
                (offsets, <[at_v := u]> neighs)
           else (offsets, neighs))
        st el
  = foldl write_step st (writes symmetrize_ transpose el).
Proof.
  induction el as [|[u v] el IH]; intros [offsets neighs]; [done|].
  cbn [foldl]. rewrite writes_cons, !foldl_app, <- IH.
  unfold fetch_and_add, write_step.
  by destruct (symmetrize_ || negb symmetrize_ && negb transpose),
              (symmetrize_ || negb symmetrize_ && transpose).
Qed.

End Flags.

(** The counting loop. *)
Lemma incr_fold ws : ∀ degrees,
  let r := foldl (λ degrees (w : nat * nat),
                    <[w.1 := S (degrees !!! w.1)]> degrees) degrees ws in
  length r = length degrees
  ∧ ∀ a, (a < length degrees)%nat →
         r !!! a = (degrees !!! a + length (written a ws))%nat.
Proof.
  induction ws as [|w ws IH]; intros degrees; cbv zeta.
  - cbn [foldl]. split; [done|]. intros a Ha.
    rewrite written_nil. simpl. lia.
  - cbn [foldl].
    destruct (IH (<[w.1 := S (degrees !!! w.1)]> degrees)) as [H1 H2].
    cbv zeta in H1, H2. rewrite length_insert in H1, H2.
    split; [done|]. intros a Ha. rewrite (H2 a Ha).
    rewrite written_cons, length_app.
    destruct (decide (w.1 = a)) as [->|Hne].
    + rewrite list_lookup_total_insert_eq by done. simpl. lia.
    + rewrite list_lookup_total_insert_ne by done. simpl. lia.
Qed.

Lemma count_degrees_spec n symmetrize_ transpose el :
  length (CountDegrees n symmetrize_ transpose el) = n
  ∧ ∀ a, (a < n)%nat →
         CountDegrees n symmetrize_ transpose el !!! a
         = length (row_of symmetrize_ transpose a el).
Proof.
  unfold CountDegrees. rewrite count_fold.
  destruct (incr_fold (writes symmetrize_ transpose el) (replicate n 0%nat))
    as [H1 H2].
  cbv zeta in H1, H2. rewrite length_replicate in H1, H2.
  split; [done|]. intros a Ha. rewrite (H2 a Ha), row_of_written.
  rewrite (list_lookup_total_correct _ _ 0%nat); [done|].
  by apply lookup_replicate_2.
Qed.

Lemma sum_take_mono (l : list nat) : ∀ i j,
  (i ≤ j)%nat → (sum_list (take i l) ≤ sum_list (take j l))%nat.
Proof.
  induction l as [|x l IH]; intros [|i] [|j] Hij; simpl; try lia.
  apply Nat.add_le_mono_l, IH. lia.
Qed.

(** The filling loop: every write lands in the part of the array
    that belongs to its row, behind the earlier entries of the row. *)
Section Fill.
Variable n total : nat.
Variable start deg : nat → nat.
Hypothesis Hdisjoint :
  ∀ a b, (a < b)%nat → (b < n)%nat → (start a + deg a ≤ start b)%nat.
Hypothesis Hinside : ∀ a, (a < n)%nat → (start a + deg a ≤ total)%nat.

Lemma write_fold ws : ∀ before offsets neighs,
  Forall (λ w : nat * nat, w.1 < n)%nat ws →
  (∀ a, (a < n)%nat → (length (written a (before ++ ws)) ≤ deg a)%nat) →
  (n ≤ length offsets)%nat → length neighs = total →
  (∀ a, (a < n)%nat →
        offsets !!! a = (start a + length (written a before))%nat) →
  (∀ a j, (a < n)%nat → (j < length (written a before))%nat →
          neighs !!! (start a + j)%nat = written a before !!! j) →
  let r := foldl write_step (offsets, neighs) ws in
  length r.2 = total
  ∧ (∀ a, (a < n)%nat →
          r.1 !!! a = (start a + length (written a (before ++ ws)))%nat)
  ∧ ∀ a j, (a < n)%nat → (j < length (written a (before ++ ws)))%nat →
           r.2 !!! (start a + j)%nat = written a (before ++ ws) !!! j.
Proof.
  induction ws as [|[a0 x] ws IH];
    intros before offsets neighs Hws Hcnt Hoffs Hlen Hat Hrows; cbv zeta.
  - cbn [foldl fst snd]. rewrite app_nil_r. done.
  - apply Forall_cons in Hws as [Ha0 Hws]. cbn [fst] in Ha0.
    cbn [foldl]. unfold write_step at 2. cbn [fst snd].
    replace (before ++ (a0, x) :: ws) with ((before ++ [(a0, x)]) ++ ws)
      in * by (by rewrite <- app_assoc).
    assert (Hw1 : ∀ a, written a (before ++ [(a0, x)])
              = written a before ++ if decide (a0 = a) then [x] else []).
    { intros a. rewrite written_app, written_cons, written_nil, app_nil_r.
      done. }
    assert (Hroom : (length (written a0 before) < deg a0)%nat).
    { pose proof (Hcnt a0 Ha0) as H. rewrite written_app, Hw1 in H.
      rewrite decide_True in H by done.
      rewrite !length_app in H. simpl in H. lia. }
    apply IH.
    + done.
    + done.
    + by rewrite length_insert.
    + by rewrite length_insert.
    + intros a Ha. rewrite Hw1, length_app.
      destruct (decide (a0 = a)) as [->|Hne].
      * rewrite list_lookup_total_insert_eq by lia.
        rewrite Hat by done. simpl. lia.
      * rewrite list_lookup_total_insert_ne by done.
        rewrite Hat by done. simpl. lia.
    + intros a j Ha Hj. rewrite Hw1 in Hj |- *.
      rewrite length_app in Hj. rewrite (Hat a0 Ha0).
      destruct (decide (a0 = a)) as [->|Hne].
      * simpl in Hj.
        destruct (decide (j = length (written a before))) as [->|Hj'].
        -- rewrite list_lookup_total_insert_eq
             by (pose proof (Hinside a Ha); lia).
           rewrite lookup_total_app_r by lia.
           by rewrite Nat.sub_diag.
        -- rewrite list_lookup_total_insert_ne by lia.
           rewrite lookup_total_app_l by lia. apply Hrows; [done|lia].
      * simpl in Hj. rewrite Nat.add_0_r in Hj. rewrite app_nil_r.
        assert (Hja : (j < deg a)%nat).
        { pose proof (Hcnt a Ha) as H. rewrite written_app, Hw1 in H.
          rewrite decide_False in H by done.
          rewrite !length_app in H. simpl in H. lia. }
        rewrite list_lookup_total_insert_ne.
        -- by apply Hrows.
        -- destruct (decide (a < a0)%nat).
           ++ pose proof (Hdisjoint a a0 ltac:(lia) Ha0). lia.
           ++ pose proof (Hdisjoint a0 a ltac:(lia) Ha). lia.
Qed.

End Fill.

Lemma block_size_pos : (0 < block_size)%nat.
Proof.
  unfold block_size. apply Nat.neq_0_lt_0, Nat.pow_nonzero. lia.
Qed.

(** [MakeCSR]: the part of the array between the offsets of a vertex
    holds the entries of its row in the order of the edges, and the
    loop leaves every offset at the start of the next row. *)
Lemma make_csr_rows n symmetrize_ transpose el :
  Forall (λ e : Edge, e.1 < n ∧ e.2 < n)%nat el →
  let offsets := PrefixSum (CountDegrees n symmetrize_ transpose el) in
  let r := MakeCSR n symmetrize_ transpose el in
  length r.2 = offsets !!! n
  ∧ ∀ a, (a < n)%nat →
         r.1 !!! a = offsets !!! S a
         ∧ take (offsets !!! S a - offsets !!! a) (drop (offsets !!! a) r.2)
           = row_of symmetrize_ transpose a el.
Proof.
  intros Hel. cbv zeta. unfold MakeCSR. cbv zeta.
  rewrite (parallel_prefix_sum block_size block_size_pos).
  rewrite make_fold.
  destruct (count_degrees_spec n symmetrize_ transpose el) as [Dlen Ddeg].
  set (degrees := CountDegrees n symmetrize_ transpose el) in *.
  destruct (prefix_sum_spec degrees) as [Plen Pat]. rewrite Dlen in Plen, Pat.
  set (offsets := PrefixSum degrees) in *.
  assert (Hnext : ∀ a, (a < n)%nat →
            offsets !!! S a
            = (offsets !!! a
               + length (row_of symmetrize_ transpose a el))%nat).
  { intros a Ha. rewrite !Pat by lia.
    rewrite sum_take_S by lia. by rewrite Ddeg. }
  assert (Hmono : ∀ a b, (a ≤ b)%nat → (b ≤ n)%nat →
            (offsets !!! a ≤ offsets !!! b)%nat).
  { intros a b Hab Hb. rewrite !Pat by lia. by apply sum_take_mono. }
  destruct (write_fold n (offsets !!! n) (λ a, offsets !!! a)
              (λ a, length (row_of symmetrize_ transpose a el)))
    with (ws := writes symmetrize_ transpose el) (before := @nil (nat * nat))
         (offsets := offsets) (neighs := replicate (offsets !!! n) 0%nat)
    as (R1 & R2 & R3).
  - intros a b Hab Hb. rewrite <- Hnext by lia. apply Hmono; lia.
  - intros a Ha. rewrite <- Hnext by lia. apply Hmono; lia.
  - clear -Hel. induction el as [|[u v] el IH]; [constructor|].
    apply Forall_cons in Hel as [[Hu Hv] Hel]. cbn [fst snd] in *.
    rewrite writes_cons. rewrite !Forall_app. split_and!.
    + destruct (_ || _); repeat constructor; done.
    + destruct (_ || _); repeat constructor; done.
    + by apply IH.
  - intros a Ha. by rewrite app_nil_l, row_of_written.
  - lia.
  - by rewrite length_replicate.
  - intros a Ha. rewrite written_nil. simpl. lia.
  - intros a j Ha Hj. rewrite written_nil in Hj. simpl in Hj. lia.
  - cbv zeta in R1, R2, R3. rewrite app_nil_l in R2, R3.
    set (r := foldl write_step _ _) in *.
    split; [done|]. intros a Ha.
    specialize (R2 a Ha). pose proof (λ j, R3 a j Ha) as R3'.
    rewrite <- row_of_written in R2, R3'.
    split; [by rewrite R2, Hnext|].
    rewrite Hnext by done.
    replace (offsets !!! a + length (row_of symmetrize_ transpose a el)
             - offsets !!! a)%nat
      with (length (row_of symmetrize_ transpose a el)) by lia.
    assert (Hin : (offsets !!! a
                   + length (row_of symmetrize_ transpose a el)
                   ≤ length r.2)%nat).
    { rewrite R1, <- Hnext by done. apply Hmono; lia. }
    apply list_eq. intros j.
    destruct (decide (j < length (row_of symmetrize_ transpose a el))%nat)
      as [Hj|Hj].
    + rewrite lookup_take_lt, lookup_drop by done.
      rewrite !list_lookup_lookup_total_lt by lia.
      f_equal. by apply R3'.
    + rewrite lookup_take_ge by lia.
      by rewrite lookup_ge_None_2 by lia.
Qed.

Lemma find_max_fold el : ∀ m,
  (m ≤ foldl (λ max_seen '(u, v), Nat.max (Nat.max max_seen u) v) m el)%nat
  ∧ Forall (λ e : Edge,
              (e.1 ≤ foldl (λ max_seen '(u, v),
                              Nat.max (Nat.max max_seen u) v) m el)%nat
              ∧ (e.2 ≤ foldl (λ max_seen '(u, v),
                                Nat.max (Nat.max max_seen u) v) m el)%nat)
           el.
Proof.
  induction el as [|[u v] el IH]; intros m; cbn [foldl].
  - split; [done|constructor].
  - destruct (IH (Nat.max (Nat.max m u) v)) as [H1 H2].
    split; [lia|]. constructor; [cbn [fst snd]; lia|done].
Qed.

(** [FindMaxNodeID] bounds every id of the list. *)
Lemma find_max_node_id el :
  Forall (λ e : Edge, e.1 ≤ FindMaxNodeID el ∧ e.2 ≤ FindMaxNodeID el)%nat
         el.
Proof. apply (find_max_fold el 0%nat). Qed.

Lemma written_elem a v ws : v ∈ written a ws ↔ (a, v) ∈ ws.
Proof.
  induction ws as [|[b x] ws IH].
  - rewrite written_nil, !elem_of_nil. tauto.
  - rewrite written_cons, elem_of_app, IH, elem_of_cons. cbn [fst snd].
    destruct (decide (b = a)) as [->|Hne].
    + rewrite list_elem_of_singleton. split.
      * intros [->|?]; [by left|by right].
      * intros [[= ->]|?]; [by left|by right].
    + rewrite elem_of_nil. split.
      * intros [[]|?]. by right.
      * intros [[= ? ?]|?]; [congruence|by right].
Qed.

Lemma writes_elem a v el :
  (a, v) ∈ writes true false el ↔ (a, v) ∈ el ∨ (v, a) ∈ el.
Proof.
  induction el as [|[x y] el IH].
  - unfold writes. cbn. rewrite !elem_of_nil. tauto.
  - rewrite writes_cons. cbn [orb negb andb].
    rewrite !elem_of_app, IH, !elem_of_cons, !elem_of_nil.
    naive_solver.
Qed.

Lemma row_of_elem a v el :
  v ∈ row_of true false a el ↔ (a, v) ∈ el ∨ (v, a) ∈ el.
Proof. by rewrite row_of_written, written_elem, writes_elem. Qed.

(** The rows of the graph built from an edge list. *)
Lemma make_graph_from_el_rows el :
  num_nodes (MakeGraphFromEL el) = (FindMaxNodeID el + 1)%nat
  ∧ ∀ a, (a < FindMaxNodeID el + 1)%nat →
         out_neigh (MakeGraphFromEL el) a = row_of true false a el.
Proof.
  unfold MakeGraphFromEL. cbv zeta.
  set (n := (FindMaxNodeID el + 1)%nat).
  rewrite (parallel_prefix_sum block_size block_size_pos).
  destruct (make_csr_rows n true false el) as [_ Hrows].
  { eapply Forall_impl; [apply find_max_node_id|].
    intros [u v]. cbn [fst snd]. unfold n. lia. }
  cbv zeta in Hrows.
  destruct (count_degrees_spec n true false el) as [Dlen _].
  destruct (prefix_sum_spec (CountDegrees n true false el)) as [Plen _].
  rewrite Dlen in Plen.
  unfold GenIndex. rewrite Plen.
  replace (S n - 1)%nat with n by lia.
  split.
  - unfold num_nodes. by rewrite length_map, length_seq.
  - intros a Ha. unfold out_neigh, Graph.
    rewrite <- (app_nil_r (map _ _)).
    rewrite (TwoHubs.lookup_total_map_seq _ n) by done.
    by apply Hrows.
Qed.

Lemma make_graph_from_el_symmetric el : symmetric (MakeGraphFromEL el).
Proof.
  destruct (make_graph_from_el_rows el) as [Hn Hrows].
  intros u v Hu Hv. rewrite Hn in *.
  rewrite Hrows in Hv by done. apply row_of_elem in Hv.
  pose proof (find_max_node_id el) as Hmax. rewrite Forall_forall in Hmax.
  assert (Hvn : (v < FindMaxNodeID el + 1)%nat).
  { destruct Hv as [Hv|Hv]; apply Hmax in Hv; cbn [fst snd] in Hv; lia. }
  split; [done|]. rewrite Hrows by done. apply row_of_elem. tauto.
Qed.


End CSRFacts.

(** ** The driver of the sweep *)

Module DriverFacts.
Import Builder Ordering Cliques CombCache CombCacheFacts CacheExact.
Import BuilderFacts DegreeFacts PivotScale SweepCountCorrect SweepMain.

Lemma print_fold (counts : list Z) l : ∀ rows,
  foldl (λ rows k,
           if negb (counts !!! k =? 0) then rows ++ [(k, counts !!! k)]
           else rows) rows l
  = rows ++ map (λ k, (k, counts !!! k))
                (filter (λ k, counts !!! k ≠ 0) l).
Proof.
  induction l as [|k l IH]; intros rows; cbn [foldl].
  - by rewrite app_nil_r.
  - rewrite IH, filter_cons. destruct (counts !!! k =? 0) eqn:E.
    + apply Z.eqb_eq in E. by rewrite decide_False by (by intros ?).
    + apply Z.eqb_neq in E. rewrite decide_True by done.
      cbn [negb map]. by rewrite <- app_assoc.
Qed.

(** The rows printed are the slots that are not zero, in ascending
    order. *)
Lemma print_clique_counts counts :
  PrintCliqueCounts counts
  = map (λ k, (k, counts !!! k))
        (filter (λ k, counts !!! k ≠ 0) (seq 0 (length counts))).
Proof. unfold PrintCliqueCounts. by rewrite print_fold. Qed.

Lemma rows_ext (f f' : nat → Z) l :
  (∀ k, k ∈ l → f k = f' k) →
  map (λ k, (k, f k)) (filter (λ k, f k ≠ 0) l)
  = map (λ k, (k, f' k)) (filter (λ k, f' k ≠ 0) l).
Proof.
  induction l as [|k l IH]; intros Hf; [done|].
  rewrite !filter_cons.
  pose proof (Hf k (list_elem_of_here _ _)) as Hk.
  specialize (IH (λ j Hj, Hf j (list_elem_of_further _ _ _ Hj))).
  rewrite <- Hk. destruct (decide (f k ≠ 0)); cbn [map];
    rewrite IH; [by rewrite Hk|done].
Qed.

Section Oriented.
Variable g : Graph.
Variable before : nat → nat → bool.
Hypothesis Hg : undirected_simple g.
Hypothesis Hst : strict_total before.

Let dag : Graph := DirectGraphByFunc g before.

(** With all sizes asked for and every out-degree inside the table
    of the cache, the driver prints the number of cliques of every
    size that has some, in the counter's type. *)
Lemma count_all_rows clique_size :
  (FindMaxDegree dag < kNumPrecompute)%nat →
  count_all n_choose_k_memo true clique_size dag
  = Some (map (λ k, (k, wrap (Z.of_nat (count_cliques g k))))
              (filter (λ k, wrap (Z.of_nat (count_cliques g k)) ≠ 0)
                      (seq 1 (FindMaxDegree dag + 1)))).
Proof.
  intros Hmax. unfold count_all. cbv zeta.
  set (max_k := (FindMaxDegree dag + 1)%nat).
  assert (Hslot : ∀ j, (j ≤ max_k)%nat →
    ∃ counts,
      Sweep.PivotCount n_choose_k_memo dag (Z.of_nat max_k) = Some counts
      ∧ length counts = S max_k
      ∧ counts !!! j
        = if decide (1 ≤ j)%nat
          then wrap (Z.of_nat (count_cliques g j)) else 0).
  { intros j Hj.
    apply (sweep_count_correct n_choose_k_memo max_k j (FindMaxDegree dag));
      [|done|done|done| |unfold max_k; lia].
    - intros n r Hr Hn. apply exact_small; [lia|].
      unfold kNumPrecompute in Hmax. lia.
    - intros u. apply find_max_degree_ub. }
  destruct (Hslot 0%nat ltac:(lia)) as (counts & Hc & Hlen & H0).
  rewrite Hc. cbn [mbind option_bind]. f_equal.
  rewrite print_clique_counts, Hlen.
  change (seq 0 (S max_k)) with (0%nat :: seq 1 max_k).
  rewrite filter_cons, decide_False by (rewrite H0; by intros ?).
  apply rows_ext. intros k Hk. apply elem_of_seq in Hk.
  destruct (Hslot k ltac:(lia)) as (counts' & Hc' & _ & Hk').
  rewrite Hc in Hc'. injection Hc' as <-.
  by rewrite Hk', decide_True by lia.
Qed.

End Oriented.

End DriverFacts.

(** * The stated properties *)

Module Claims.
Import SubGraph SubGraphInv VecFacts InvFacts InduceInv UndoInv RestoreFacts.
Import FromDAGInv RecurseFacts Reach.
Import Builder Ordering Cliques CoreInv CoreTermination BuilderFacts.
Import CombCache CombCacheFacts CacheExact.
Import PivotScale PivotCountCorrect SweepFacts SweepCountCorrect.
Import SimpleGraph Examples.



(** C2, as amended.  In a reachable state, an induction on a
    candidate followed by the undo restores the active bitmap and
    every tail exactly, and the two stacks; the candidate list and
    the neighbour lists come back up to the order of their entries. *)
Theorem undo_restores sg v excl :
  reachable sg → v ∈ active_list_ sg →
  let sg' := UndoSelfMutate (InduceFromSelfMutate sg v excl) in
  active_ sg' = active_ sg
  ∧ active_tails_ sg' = active_tails_ sg
  ∧ active_list_ sg' ≡ₚ active_list_ sg
  ∧ dropped_verts_ sg' = dropped_verts_ sg
  ∧ pivot_non_neighs_ sg' = pivot_non_neighs_ sg
  ∧ ∀ n, adj_list_ sg' !!! n ≡ₚ adj_list_ sg !!! n.
Proof.
  intros Hr Hv. destruct (reachable_inv sg Hr) as [Hinv _].
  destruct (undo_induce sg v excl Hinv Hv) as [[E1 E2 E3 E4 E5 E6 E7] _].
  cbv zeta. split_and!; done.
Qed.

Lemma undo_restores_witness :
  let sg := InduceFromDAG init diamond_dag 0 in
  let sg' := UndoSelfMutate (InduceFromSelfMutate sg 0 []) in
  active_ sg' = active_ sg
  ∧ active_tails_ sg' = active_tails_ sg
  ∧ active_list_ sg' ≡ₚ active_list_ sg
  ∧ dropped_verts_ sg' = dropped_verts_ sg
  ∧ pivot_non_neighs_ sg' = pivot_non_neighs_ sg
  ∧ ∀ n, adj_list_ sg' !!! n ≡ₚ adj_list_ sg !!! n.
Proof.
  apply (undo_restores (InduceFromDAG init diamond_dag 0) 0 []).
  - apply reach_root.
    + apply (bool_decide_unpack _). vm_compute. exact I.
    + vm_compute. lia.
  - apply (bool_decide_unpack _). vm_compute. exact I.
Defined.

(** C2, as stated, fails: below the root 0 of a DAG on a triangle,
    the candidate list [0; 1; 2] comes back as [2; 1; 0] from an
    induction on the candidate 0 and its undo. *)
Theorem undo_reorders :
  let sg := InduceFromDAG init diamond_dag 0 in
  reachable sg ∧ 0%nat ∈ active_list_ sg
  ∧ active_list_ sg = [0; 1; 2]%nat
  ∧ active_list_ (UndoSelfMutate (InduceFromSelfMutate sg 0 []))
    = [2; 1; 0]%nat.
Proof.
  cbv zeta. split_and!.
  - apply reach_root.
    + apply (bool_decide_unpack _). vm_compute. exact I.
    + vm_compute. lia.
  - apply (bool_decide_unpack _). vm_compute. exact I.
  - vm_compute. reflexivity.
  - vm_compute. reflexivity.
Qed.

(** C3.  In a reachable state and for a candidate [p],
    [ActiveUnreachableFromPivot] returns the candidates that do not
    occur in [adj[p][0..tail[p])], in the order of the candidate
    list, [p] among them; it pushes them as the top frame of the
    pivot stack, and leaves the bitmap equal to the membership in
    the unchanged candidate list. *)
Theorem unreachable_from_pivot sg p :
  reachable sg → p ∈ active_list_ sg →
  let r := ActiveUnreachableFromPivot sg p in
  r.2 = filter (λ n, n ∉ take (active_tails_ sg !!! p) (adj_list_ sg !!! p))
               (active_list_ sg)
  ∧ p ∈ r.2
  ∧ GroupedStack.last_frame_iter (pivot_non_neighs_ r.1) = r.2
  ∧ active_list_ r.1 = active_list_ sg
  ∧ active_ r.1 = active_ sg
  ∧ ∀ n, (n < length (active_ r.1))%nat →
         active_ r.1 !!! n = bool_decide (n ∈ active_list_ r.1).
Proof.
  intros Hr Hp. destruct (reachable_inv sg Hr) as [Hinv Hg].
  pose proof (unreachable_spec sg p Hinv) as [H2 H1].
  pose proof (inv_unreachable sg p Hinv) as Hinv'.
  cbv zeta in *.
  destruct (ActiveUnreachableFromPivot sg p) as [sg' NN].
  cbn [fst snd] in *. split_and!.
  - exact H2.
  - rewrite H2. apply list_elem_of_filter. split; [|done].
    rewrite (neighs_set sg p p Hinv Hp).
    rewrite (local_adj_irrefl sg p Hg). intros [_ ?]. done.
  - rewrite H1. cbn [pivot_non_neighs_]. apply frame_last.
  - by rewrite H1.
  - by rewrite H1.
  - apply (inv_bitmap sg' Hinv').
Qed.

Lemma unreachable_from_pivot_witness :
  let sg := InduceFromDAG init diamond_dag 0 in
  let r := ActiveUnreachableFromPivot sg 0 in
  r.2 = filter (λ n, n ∉ take (active_tails_ sg !!! 0%nat)
                              (adj_list_ sg !!! 0%nat))
               (active_list_ sg)
  ∧ 0%nat ∈ r.2
  ∧ GroupedStack.last_frame_iter (pivot_non_neighs_ r.1) = r.2
  ∧ active_list_ r.1 = active_list_ sg
  ∧ active_ r.1 = active_ sg
  ∧ ∀ n, (n < length (active_ r.1))%nat →
         active_ r.1 !!! n = bool_decide (n ∈ active_list_ r.1).
Proof.
  apply (unreachable_from_pivot (InduceFromDAG init diamond_dag 0) 0).
  - apply reach_root.
    + apply (bool_decide_unpack _). vm_compute. exact I.
    + vm_compute. lia.
  - apply (bool_decide_unpack _). vm_compute. exact I.
Defined.

(** C4, as amended.  In a reachable state (so after [InduceFromDAG]
    and after every [InduceFromSelfMutate]) the tail of every
    candidate [n] splits [adj[n]]: the entries before the tail are
    active, the entries from the tail on are inactive. *)
Theorem tail_partitions sg n :
  reachable sg → n ∈ active_list_ sg → partitioned sg n.
Proof.
  intros Hr Hn. destruct (reachable_inv sg Hr) as [Hinv _].
  by apply inv_partitioned.
Qed.

Lemma tail_partitions_witness :
  let sg := InduceFromSelfMutate (InduceFromDAG init fan_dag 0) 0 [] in
  active_list_ sg = [1%nat] ∧ partitioned sg 1.
Proof.
  cbv zeta. split; [vm_compute; reflexivity|].
  apply (tail_partitions
           (InduceFromSelfMutate (InduceFromDAG init fan_dag 0) 0 []) 1).
  - apply reach_induce.
    + apply reach_root.
      * apply (bool_decide_unpack _). vm_compute. exact I.
      * vm_compute. lia.
    + apply (bool_decide_unpack _). vm_compute. exact I.
  - apply (bool_decide_unpack _). vm_compute. exact I.
Defined.

(** C4, as stated for every local vertex, fails: below the root 0
    of a DAG with the edges 1-2 and 3-4 among its out-neighbours, an
    induction on the candidate 0 leaves the vertex 2, which is not a
    candidate any more, with the inactive vertex 3 before its tail. *)
Theorem tail_of_dropped_vertex :
  let sg0 := InduceFromDAG init fan_dag 0 in
  let sg := InduceFromSelfMutate sg0 0 [] in
  reachable sg0 ∧ 0%nat ∈ active_list_ sg0
  ∧ (2 < length (active_ sg))%nat
  ∧ adj_list_ sg !!! 2%nat = [3%nat]
  ∧ active_tails_ sg !!! 2%nat = 1%nat
  ∧ active_ sg !!! 3%nat = false
  ∧ ¬ partitioned sg 2.
Proof.
  cbv zeta. split_and!.
  - apply reach_root.
    + apply (bool_decide_unpack _). vm_compute. exact I.
    + vm_compute. lia.
  - apply (bool_decide_unpack _). vm_compute. exact I.
  - vm_compute. lia.
  - vm_compute. reflexivity.
  - vm_compute. reflexivity.
  - vm_compute. reflexivity.
  - intros H. destruct (H 0%nat 3%nat) as [H1 _].
    + vm_compute. reflexivity.
    + assert (active_ (InduceFromSelfMutate (InduceFromDAG init fan_dag 0)
                         0 []) !!! 3%nat = true) as Hact.
      { apply H1. vm_compute. lia. }
      vm_compute in Hact. discriminate.
Qed.

(** C5.  On the complete graph on 101 vertices, for which the
    heuristic selects the degree ordering, the sweep counter run with
    [max_k = 17] enters for the first root one base case with
    [holds = 1] and 100 pivots.  To the slot 17 this base case adds
    192939124439967674, and [C(100, 16)] is 1345860629046814650; the
    vector returned has 101, the number of vertices, in its slot 1
    and 6843073997377169474 in its slot 17, and the graph has
    7995995501984016450 cliques of 17 vertices. *)
Theorem sweep_base_case_inexact :
  undirected_simple k101
  ∧ Directionalize half_avg k101 = Some (DirectGraphDegree k101)
  ∧ (∀ counts sg, ∃ sg',
       Sweep.root_step n_choose_k_memo (DirectGraphDegree k101) 17
                       (Some (counts, sg)) 0
       = Some (Sweep.base_case n_choose_k_memo 17 1 100 counts, sg'))
  ∧ Sweep.base_case n_choose_k_memo 17 1 100 (replicate 18 0) !!! 17%nat
    = 192939124439967674
  ∧ binom 100 16 = 1345860629046814650
  ∧ Sweep.PivotCount n_choose_k_memo (DirectGraphDegree k101) 17
    = Some [0; 101; 5050; 166650; 4082925; 79208745; 1267339920;
            17199613200; 202095455100; 2088319702700; 19212541264840;
            158940114100040; 1192050855750300; 8160963550905900;
            51297485177122800; 297525414027312240; 1599199100396803290;
            6843073997377169474]
  ∧ Z.of_nat (count_cliques k101 17) = 7995995501984016450.
Proof.
  split_and!.
  - exact K101.k101_simple.
  - unfold Directionalize. by rewrite K101.k101_heuristic.
  - exact K101.k101_root.
  - vm_compute. reflexivity.
  - assert (pascal_row 100 !! 16%nat = Some 1345860629046814650) as H
      by (vm_compute; reflexivity).
    rewrite pascal_row_lookup in H by lia. congruence.
  - exact K101.k101_sweep.
  - rewrite K101.k101_cliques.
    assert (pascal_row 101 !! 17%nat = Some 7995995501984016450) as H
      by (vm_compute; reflexivity).
    rewrite pascal_row_lookup in H by lia. congruence.
Qed.



(** C7.  On the graph of 104 vertices made of a clique on 100
    vertices joined to two hubs, each hub with one leaf, and for
    [k = 17], the counter returns 8188934626423984124 over the graph
    of the degree ordering, which is the one [Directionalize]
    returns, and 7036013121817137148 over the graph of the
    approximate-coreness ordering (threshold for [epsilon = -0.5]):
    the two orderings do not give the same count. *)
Theorem orderings_disagree :
  undirected_simple two_hubs
  ∧ PivotCount n_choose_k_memo (DirectGraphDegree two_hubs) 17
    = Some 8188934626423984124
  ∧ (ranking ← CoreApprox (S (num_nodes two_hubs)) half_avg two_hubs;
     PivotCount n_choose_k_memo (DirectGraphCore two_hubs ranking) 17)
    = Some 7036013121817137148
  ∧ Directionalize half_avg two_hubs = Some (DirectGraphDegree two_hubs).
Proof.
  split_and!.
  - exact TwoHubs.two_hubs_simple.
  - exact TwoHubs.degree_count.
  - rewrite TwoHubs.core_ranking.
    cbn [mbind option_bind]. exact TwoHubs.core_count.
  - unfold Directionalize.
    assert (CoreIsAdvantageous two_hubs = Some false) as ->
      by (vm_compute; reflexivity).
    done.
Qed.

(** C8.  The query [n_choose_k(100, 16)] takes the multiplicative
    fallback, whose intermediate product leaves the 64-bit type: it
    returns 192939124439967674, while [C(100, 16)] is
    1345860629046814650, which fits the type. *)
Theorem fallback_inexact :
  call 64 (construct 64) 100 16 = 192939124439967674
  ∧ binom 100 16 = 1345860629046814650
  ∧ call 64 (construct 64) 100 16 ≠ CombCache.wrap 64 (binom 100 16).
Proof.
  assert (H1 : call 64 (construct 64) 100 16 = 192939124439967674)
    by (vm_compute; reflexivity).
  assert (H2 : binom 100 16 = 1345860629046814650).
  { assert (pascal_row 100 !! 16%nat = Some 1345860629046814650) as H
      by (vm_compute; reflexivity).
    rewrite pascal_row_lookup in H by lia. congruence. }
  split_and!; [exact H1|exact H2|].
  rewrite H1, H2. vm_compute. discriminate.
Qed.

(** C9.  For an undirected simple graph and any threshold, every
    iteration of the peeling loop after the first one removes at
    least one remaining vertex, and the loop run with at least
    [1 + num_nodes] iterations of fuel returns a ranking that has
    an entry for every vertex, none of them -1. *)
Theorem core_approx_terminates thresh g :
  undirected_simple g →
  (∀ st, peeling g st → (0 < num_remaining st)%nat →
         (num_remaining (peel thresh g st) < num_remaining st)%nat)
  ∧ ∃ rk, (∀ fuel, (S (num_nodes g) ≤ fuel)%nat →
                   CoreApprox fuel thresh g = Some rk)
          ∧ length rk = num_nodes g
          ∧ ∀ u, (u < num_nodes g)%nat → rk !!! u ≠ -1.
Proof.
  intros Hg.
  assert (Hdeg : ∀ u, (u < num_nodes g)%nat →
                      (out_degree g u ≤ num_nodes g)%nat)
    by (intros u Hu; by apply simple_degree).
  split.
  - intros st Hp Hpos.
    assert (Hne : remaining st ≠ []).
    { intros E. rewrite (pl_count g st Hp), E in Hpos. simpl in Hpos. lia. }
    destruct (peel_later thresh g st Hp Hne) as [Hp' Hlt].
    by rewrite (pl_count g _ Hp'), (pl_count g st Hp).
  - destruct (core_approx_total thresh g Hdeg) as (rk & Hrk & Hlen & Hall).
    exists rk. split_and!; [|done|done].
    intros fuel Hfuel. unfold CoreApprox in *.
    destruct (peel_loop (S (num_nodes g)) thresh g (core_init g))
      as [st|] eqn:E; [|done].
    by rewrite (peel_loop_mono thresh g _ fuel _ st Hfuel E).
Qed.

Lemma core_approx_terminates_witness :
  (∀ st, peeling path4 st → (0 < num_remaining st)%nat →
         (num_remaining (peel half_avg path4 st) < num_remaining st)%nat)
  ∧ ∃ rk, (∀ fuel, (S (num_nodes path4) ≤ fuel)%nat →
                   CoreApprox fuel half_avg path4 = Some rk)
          ∧ length rk = num_nodes path4
          ∧ ∀ u, (u < num_nodes path4)%nat → rk !!! u ≠ -1.
Proof.
  apply (core_approx_terminates half_avg path4).
  apply undirected_simple_b_spec. vm_compute. reflexivity.
Defined.

(** C10.  On the path 0 - 1 - 2 - 3 the merging scan of
    [CoreIsAdvantageous] leaves the list: the vertex of greatest
    degree is 1, its neighbour of greatest degree is 2, and for the
    neighbour 3 of 2 the iterator over [out_neigh 1 = [0; 2]] steps
    past the last entry and is dereferenced there. *)
Theorem scan_leaves_list :
  undirected_simple path4
  ∧ max_by_degree path4 (seq 0 (num_nodes path4)) = Some 1%nat
  ∧ max_by_degree path4 (out_neigh path4 1) = Some 2%nat
  ∧ intersection_scan path4 1 2 = None
  ∧ CoreIsAdvantageous path4 = None.
Proof.
  split_and!.
  - apply undirected_simple_b_spec. vm_compute. reflexivity.
  - vm_compute. reflexivity.
  - vm_compute. reflexivity.
  - vm_compute. reflexivity.
  - vm_compute. reflexivity.
Qed.

End Claims.

(** * Further properties of the code *)

Module Extras.
Import SubGraph SubGraphInv VecFacts InvFacts InduceInv UndoInv RestoreFacts.
Import FromDAGInv RecurseFacts Reach StackFacts PivotFacts DegreeFacts.
Import Builder Ordering Cliques CoreInv CoreTermination BuilderFacts.
Import CombCache CombCacheFacts CacheExact CountFacts.
Import PivotScale RecurseCorrect PivotCountCorrect.
Import SweepFacts SweepCountCorrect SimpleGraph Examples.
Import BuilderCSR BuildSpec Printing SweepMain BuildExamples.

(** X1.  Inside the table, for the 64-bit and the 128-bit type, a
    query returns the binomial coefficient reduced into the type. *)
Theorem cache_table_exact (w : Z) (n k : nat) :
  w = 64 ∨ w = 128 → (n < kNumPrecompute)%nat → (k ≤ n)%nat →
  call w (construct w) (Z.of_nat n) (Z.of_nat k)
  = CombCache.wrap w (binom n k).
Proof. apply call_table. Qed.

Lemma cache_table_exact_witness :
  call 128 (construct 128) (Z.of_nat 99) (Z.of_nat 49)
  = CombCache.wrap 128 (binom 99 49).
Proof.
  apply (cache_table_exact 128 99 49).
  - by right.
  - unfold kNumPrecompute. lia.
  - lia.
Defined.

(** X2.  Outside the table the multiplicative loop is still exact
    for [k <= 2], whatever [n] of the [int] range. *)
Theorem cache_fallback_small_k (n r : nat) :
  (r < 3)%nat → Z.of_nat n < 2 ^ 31 →
  n_choose_k n_choose_k_memo (Z.of_nat n) (Z.of_nat r) = wrap (binom n r).
Proof. apply exact_upto2. Qed.

Lemma cache_fallback_small_k_witness :
  n_choose_k n_choose_k_memo (Z.of_nat 1000) (Z.of_nat 2)
  = wrap (binom 1000 2).
Proof. apply (cache_fallback_small_k 1000 2); [lia|]. vm_compute. reflexivity. Defined.

(** X3.  Where every degree of the graph is inside the table of the
    cache, the fixed-size counter run on the graph that
    [Directionalize] returns gives the number of cliques of [k]
    vertices, in the counter's type, for every [k >= 1]. *)
Theorem count_exact_in_table thresh g adv (k : nat) :
  undirected_simple g → CoreIsAdvantageous g = Some adv →
  (1 ≤ k)%nat → Z.of_nat k < 2 ^ 31 →
  (FindMaxDegree g < kNumPrecompute)%nat →
  ∃ dag,
    Directionalize thresh g = Some dag
    ∧ PivotCount n_choose_k_memo dag (Z.of_nat k)
      = Some (wrap (Z.of_nat (count_cliques g k))).
Proof.
  intros Hg Hadv Hk1 Hk Hmax.
  destruct (directionalize_total thresh g adv Hg Hadv)
    as (dag & before & Hd & Hst & ->).
  eexists. split; [exact Hd|].
  apply (pivot_count_correct n_choose_k_memo k (kNumPrecompute - 1)).
  - intros n r Hr Hn. apply exact_small; [unfold kNumPrecompute in *|]; lia.
  - done.
  - done.
  - done.
  - intros u. pose proof (direct_degree_le g before u).
    pose proof (find_max_degree_ub g u). lia.
Qed.

Lemma count_exact_in_table_witness :
  ∃ dag,
    Directionalize half_avg k4 = Some dag
    ∧ PivotCount n_choose_k_memo dag (Z.of_nat 4)
      = Some (wrap (Z.of_nat (count_cliques k4 4))).
Proof.
  apply (count_exact_in_table half_avg k4 false 4).
  - apply undirected_simple_b_spec. vm_compute. reflexivity.
  - vm_compute. reflexivity.
  - lia.
  - vm_compute. reflexivity.
  - vm_compute. lia.
Defined.



(** X5.  For an undirected simple graph on which the heuristic is
    defined and every [max_k >= 1], the slot 1 of the vector of the
    sweep counter is the number of vertices. *)
Theorem sweep_slot_one thresh g adv (max_k : nat) :
  undirected_simple g → CoreIsAdvantageous g = Some adv →
  (1 ≤ max_k)%nat → Z.of_nat (num_nodes g) < 2 ^ 64 →
  ∃ dag counts,
    Directionalize thresh g = Some dag
    ∧ Sweep.PivotCount n_choose_k_memo dag (Z.of_nat max_k) = Some counts
    ∧ length counts = S max_k
    ∧ counts !!! 1%nat = Z.of_nat (num_nodes g).
Proof.
  intros Hg Hadv Hk Hn.
  destruct (directionalize_total thresh g adv Hg Hadv)
    as (dag & before & Hd & Hst & ->).
  destruct (sweep_count_correct n_choose_k_memo max_k 1 (num_nodes g))
    with (g := g) (before := before) as (counts & Hc & Hlen & Hv).
  - intros n r Hr _. replace r with 0%nat by lia.
    rewrite binom_0_r. apply exact_0.
  - done.
  - done.
  - done.
  - intros u. by apply direct_degree_bound.
  - done.
  - exists (DirectGraphByFunc g before), counts.
    split_and!; [done|done|done|].
    rewrite Hv. rewrite decide_True by lia.
    unfold count_cliques. rewrite count_in_1, length_seq.
    apply wrap_small. lia.
Qed.

Lemma sweep_slot_one_witness :
  ∃ dag counts,
    Directionalize half_avg k4 = Some dag
    ∧ Sweep.PivotCount n_choose_k_memo dag (Z.of_nat 1) = Some counts
    ∧ length counts = 2%nat
    ∧ counts !!! 1%nat = Z.of_nat (num_nodes k4).
Proof.
  apply (sweep_slot_one half_avg k4 false 1).
  - apply undirected_simple_b_spec. vm_compute. reflexivity.
  - vm_compute. reflexivity.
  - lia.
  - vm_compute. reflexivity.
Defined.





(** X8.  With all sizes asked for, [max_k] is one more than the
    greatest out-degree of the directed graph: no clique is larger,
    and where the out-degrees are inside the table of the cache the
    driver prints the number of cliques of every size that has some,
    in ascending order of the sizes. *)
Theorem driver_prints_all_sizes g before clique_size :
  undirected_simple g → strict_total before →
  (FindMaxDegree (DirectGraphByFunc g before) < kNumPrecompute)%nat →
  let dag := DirectGraphByFunc g before in
  count_all n_choose_k_memo true clique_size dag
  = Some (map (λ k, (k, wrap (Z.of_nat (count_cliques g k))))
              (filter (λ k, wrap (Z.of_nat (count_cliques g k)) ≠ 0)
                      (seq 1 (FindMaxDegree dag + 1))))
  ∧ ∀ j, (FindMaxDegree dag + 1 < j)%nat → count_cliques g j = 0%nat.
Proof.
  intros Hg Hst Hmax. cbv zeta. split.
  - by apply DriverFacts.count_all_rows.
  - intros j. by apply clique_size_bound.
Qed.

Lemma driver_prints_all_sizes_witness :
  let dag := DirectGraphByFunc k4 (GreaterDegreeOrID k4) in
  count_all n_choose_k_memo true 3 dag
  = Some (map (λ k, (k, wrap (Z.of_nat (count_cliques k4 k))))
              (filter (λ k, wrap (Z.of_nat (count_cliques k4 k)) ≠ 0)
                      (seq 1 (FindMaxDegree dag + 1))))
  ∧ ∀ j, (FindMaxDegree dag + 1 < j)%nat → count_cliques k4 j = 0%nat.
Proof.
  apply (driver_prints_all_sizes k4 (GreaterDegreeOrID k4) 3).
  - apply undirected_simple_b_spec. vm_compute. reflexivity.
  - apply GreaterDegreeOrID_strict_total.
  - vm_compute. lia.
Defined.

(** X9.  The directed graph keeps every edge once: it has half the
    stored neighbours of the undirected graph, and its number of
    edges is the number of cliques of two vertices. *)
Theorem orientation_halves_edges g before :
  undirected_simple g → strict_total before →
  (2 * num_edges_directed (DirectGraphByFunc g before))%nat
  = num_edges_directed g
  ∧ num_edges_directed (DirectGraphByFunc g before) = count_cliques g 2.
Proof.
  intros Hg Hst. split; [by apply edges_halved|by apply dag_edges].
Qed.

Lemma orientation_halves_edges_witness :
  (2 * num_edges_directed (DirectGraphByFunc path4 (GreaterDegreeOrID path4)))%nat
  = num_edges_directed path4
  ∧ num_edges_directed (DirectGraphByFunc path4 (GreaterDegreeOrID path4))
    = count_cliques path4 2.
Proof.
  apply (orientation_halves_edges path4 (GreaterDegreeOrID path4)).
  - apply undirected_simple_b_spec. vm_compute. reflexivity.
  - apply GreaterDegreeOrID_strict_total.
Defined.

(** X10.  A frame of the grouped stack: after [create_new_frame] and
    the pushes, [last_frame_iter] is what was pushed, and
    [pop_frame] gives back the stack as it was. *)
Theorem stack_frame_round_trip {T} (s : GroupedStack.t T) (l : list T) :
  let s' := foldl (λ s x, GroupedStack.push_back x s)
                  (GroupedStack.create_new_frame s) l in
  GroupedStack.last_frame_iter s' = l ∧ GroupedStack.pop_frame s' = s.
Proof.
  cbv zeta. rewrite frame_filled. split; [apply frame_last|apply frame_pop].
Qed.

(** X11.  In a reachable state, [PopNonNeighbors] after
    [ActiveUnreachableFromPivot] gives back the state as it was,
    whatever the vertex. *)
Theorem pop_restores_state sg p :
  reachable sg →
  PopNonNeighbors (ActiveUnreachableFromPivot sg p).1 = sg.
Proof. intros Hr. apply pop_unreachable. by apply reachable_inv. Qed.

Lemma pop_restores_state_witness :
  PopNonNeighbors
    (ActiveUnreachableFromPivot (InduceFromDAG init diamond_dag 0) 1).1
  = InduceFromDAG init diamond_dag 0.
Proof.
  apply (pop_restores_state (InduceFromDAG init diamond_dag 0) 1).
  apply reach_root.
  - apply (bool_decide_unpack _). vm_compute. exact I.
  - vm_compute. lia.
Defined.

(** X12.  In a reachable state with a candidate, [FindPivot] returns
    a candidate, and no candidate has more active neighbours. *)
Theorem pivot_has_most_neighbours sg :
  reachable sg → active_list_ sg ≠ [] →
  FindPivot sg ∈ active_list_ sg
  ∧ ∀ n, n ∈ active_list_ sg →
         (length (Neighs sg n) ≤ length (Neighs sg (FindPivot sg)))%nat.
Proof.
  intros Hr Hne. destruct (reachable_inv sg Hr) as [Hinv _].
  pose proof (find_pivot_in sg Hne) as Hp. split; [done|].
  intros n Hn. rewrite !neighs_length by done. by apply find_pivot_max.
Qed.

Lemma pivot_has_most_neighbours_witness :
  FindPivot (InduceFromDAG init fan_dag 0)
  ∈ active_list_ (InduceFromDAG init fan_dag 0)
  ∧ ∀ n, n ∈ active_list_ (InduceFromDAG init fan_dag 0) →
         (length (Neighs (InduceFromDAG init fan_dag 0) n)
          ≤ length (Neighs (InduceFromDAG init fan_dag 0)
                           (FindPivot (InduceFromDAG init fan_dag 0))))%nat.
Proof.
  apply (pivot_has_most_neighbours (InduceFromDAG init fan_dag 0)).
  - apply reach_root.
    + apply (bool_decide_unpack _). vm_compute. exact I.
    + vm_compute. lia.
  - vm_compute. discriminate.
Defined.

(** X13.  [InduceFromDAG] on a vertex of a well-formed directed
    graph: the out-neighbours are renamed to their positions, all of
    them are candidates, both stacks are empty, every tail is the
    length of its list, and two of them are neighbours exactly when
    the graph has an edge between them, in either direction. *)
Theorem root_state_from_dag sg0 dag u :
  dag_wf dag → (u < num_nodes dag)%nat →
  let sg := InduceFromDAG sg0 dag u in
  let d := out_degree dag u in
  active_list_ sg = seq 0 d
  ∧ (∀ n, (n < d)%nat → active_ sg !!! n = true)
  ∧ (∀ n, (n < d)%nat → active_tails_ sg !!! n = length (adj_list_ sg !!! n))
  ∧ dropped_verts_ sg = GroupedStack.mk [] []
  ∧ pivot_non_neighs_ sg = GroupedStack.mk [] []
  ∧ (∀ a b, b ∈ adj_list_ sg !!! a ↔
            local_edge dag u a b ∨ local_edge dag u b a).
Proof.
  intros Hwf Hu. cbv zeta.
  destruct (from_dag_spec sg0 dag u (dag_wf_nodup dag u Hwf Hu))
    as (_ & H2 & H3 & _ & _ & H6 & H7 & H8 & H9).
  split_and!; done.
Qed.

Lemma root_state_from_dag_witness :
  let sg := InduceFromDAG init diamond_dag 0 in
  let d := out_degree diamond_dag 0 in
  active_list_ sg = seq 0 d
  ∧ (∀ n, (n < d)%nat → active_ sg !!! n = true)
  ∧ (∀ n, (n < d)%nat → active_tails_ sg !!! n = length (adj_list_ sg !!! n))
  ∧ dropped_verts_ sg = GroupedStack.mk [] []
  ∧ pivot_non_neighs_ sg = GroupedStack.mk [] []
  ∧ (∀ a b, b ∈ adj_list_ sg !!! a ↔
            local_edge diamond_dag 0 a b ∨ local_edge diamond_dag 0 b a).
Proof.
  apply (root_state_from_dag init diamond_dag 0).
  - apply (bool_decide_unpack _). vm_compute. exact I.
  - vm_compute. lia.
Defined.

(** X14.  In a reachable state, [InduceFromSelfMutate] on a
    candidate [v] keeps as candidates the neighbours of [v] that are
    not smaller entries of the exclusion list, and they are fewer
    than before. *)
Theorem induce_keeps_neighbours sg v excl :
  reachable sg → v ∈ active_list_ sg →
  active_list_ (InduceFromSelfMutate sg v excl)
  ≡ₚ filter (λ n, local_adj sg v n = true ∧ ¬ (n ∈ excl ∧ (n < v)%nat))
            (active_list_ sg)
  ∧ (NumActive (InduceFromSelfMutate sg v excl) < NumActive sg)%nat.
Proof.
  intros Hr Hv. destruct (reachable_inv sg Hr) as [Hinv Hg].
  split; [by apply induce_candidates|by apply induce_smaller].
Qed.

Lemma induce_keeps_neighbours_witness :
  active_list_ (InduceFromSelfMutate (InduceFromDAG init fan_dag 0) 2 [0; 2]%nat)
  ≡ₚ filter (λ n, local_adj (InduceFromDAG init fan_dag 0) 2 n = true
                  ∧ ¬ (n ∈ [0; 2]%nat ∧ (n < 2)%nat))
            (active_list_ (InduceFromDAG init fan_dag 0))
  ∧ (NumActive (InduceFromSelfMutate (InduceFromDAG init fan_dag 0) 2
                                     [0; 2]%nat)
     < NumActive (InduceFromDAG init fan_dag 0))%nat.
Proof.
  apply (induce_keeps_neighbours (InduceFromDAG init fan_dag 0) 2 [0; 2]%nat).
  - apply reach_root.
    + apply (bool_decide_unpack _). vm_compute. exact I.
    + vm_compute. lia.
  - apply (bool_decide_unpack _). vm_compute. exact I.
Defined.

(** X15.  In a reachable state whose pivots and candidates together
    are inside the table of the cache, a call of the recursion with
    as much fuel as candidates, and one more, returns the value of
    its candidates and leaves the state as it was, up to the order
    inside the lists. *)
Theorem recursion_restores_state sg (k holds np : nat) :
  reachable sg → (1 ≤ holds)%nat → (holds ≤ k)%nat →
  Z.of_nat k < 2 ^ 31 → (np + NumActive sg < kNumPrecompute)%nat →
  ∃ sg',
    PivotRecurse (S (NumActive sg)) n_choose_k_memo (Z.of_nat k) sg
                 (Z.of_nat (holds + np)) (Z.of_nat np)
    = Some (wrap (pivot_value (local_adj sg) np (k - holds)
                              (active_list_ sg)), sg')
    ∧ equiv sg sg'.
Proof.
  intros Hr H1 Hk Hk31 Hn. destruct (reachable_inv sg Hr) as [Hinv Hg].
  destruct (recurse_correct n_choose_k_memo k (kNumPrecompute - 1))
    with (fuel := S (NumActive sg)) (sg := sg) (holds := holds) (np := np)
    as (sg' & Hrec & Heq & _); [|done|done|lia|done|done|lia|].
  - intros n r Hr' Hn'. apply exact_small; [unfold kNumPrecompute in *|]; lia.
  - by exists sg'.
Qed.

Lemma recursion_restores_state_witness :
  ∃ sg',
    PivotRecurse (S (NumActive (InduceFromDAG init diamond_dag 0)))
                 n_choose_k_memo (Z.of_nat 4)
                 (InduceFromDAG init diamond_dag 0)
                 (Z.of_nat (1 + 0)) (Z.of_nat 0)
    = Some (wrap (pivot_value (local_adj (InduceFromDAG init diamond_dag 0))
                              0 (4 - 1)
                              (active_list_ (InduceFromDAG init diamond_dag 0))),
            sg')
    ∧ equiv (InduceFromDAG init diamond_dag 0) sg'.
Proof.
  apply (recursion_restores_state (InduceFromDAG init diamond_dag 0) 4 1 0).
  - apply reach_root.
    + apply (bool_decide_unpack _). vm_compute. exact I.
    + vm_compute. lia.
  - lia.
  - lia.
  - vm_compute. reflexivity.
  - vm_compute. lia.
Defined.

(** X16.  [DirectGraphByFunc] keeps the vertices, and of the
    neighbours of a vertex those that the filter accepts; its first
    pass counts what the second one stores. *)
Theorem orientation_keeps_accepted g f :
  oriented g f (DirectGraphByFunc g f)
  ∧ ∀ u, (u < num_nodes g)%nat →
         new_degrees g f !!! u = out_degree (DirectGraphByFunc g f) u.
Proof. split; [apply direct_oriented|apply new_degrees_spec]. Qed.

(** X17.  The two comparisons that direct a graph are strict total
    orders of the vertices, whatever the ranking. *)
Theorem comparisons_strict_total g ranking :
  strict_total (GreaterDegreeOrID g)
  ∧ strict_total (compare_rankings g ranking).
Proof.
  split; [apply GreaterDegreeOrID_strict_total
         |apply compare_rankings_strict_total].
Qed.

(** X18.  [PrefixSum]: one entry more than degrees, the entry [i]
    being the sum of the first [i] degrees. *)
Theorem prefix_sum_entries degrees :
  length (PrefixSum degrees) = S (length degrees)
  ∧ ∀ i, (i ≤ length degrees)%nat →
         PrefixSum degrees !!! i = sum_list (take i degrees).
Proof. apply prefix_sum_spec. Qed.

(** X19.  [ParallelPrefixSum] returns what [PrefixSum] returns,
    whatever the size of its blocks, so for the [1 << 20] of the
    source. *)
Theorem blocked_prefix_sum (block_size : nat) degrees :
  (0 < block_size)%nat →
  ParallelPrefixSum block_size degrees = PrefixSum degrees.
Proof. intros H. by apply PrefixFacts.parallel_prefix_sum. Qed.

Lemma blocked_prefix_sum_witness :
  ParallelPrefixSum 2 [3; 1; 4; 1; 5]%nat = PrefixSum [3; 1; 4; 1; 5]%nat.
Proof. apply (blocked_prefix_sum 2 [3; 1; 4; 1; 5]%nat). lia. Defined.

(** X20.  [Print_uint128] on a 128-bit value: the array of 40
    characters is never left, whatever it held, and 39 characters
    are printed, blanks and then the decimal digits of the value
    without a leading zero. *)
Theorem print_uint128_decimal buffer x :
  length buffer = 40%nat → 0 ≤ x < 2 ^ 128 →
  ∃ digits,
    Print_uint128 buffer x
    = Some (replicate (39 - length digits) 32 ++ digits)
    ∧ (1 ≤ length digits ≤ 39)%nat
    ∧ Forall digit digits ∧ decimal digits = x
    ∧ (x ≠ 0 → head digits ≠ Some 48).
Proof. apply PrintFacts.print_uint128_spec. Qed.

Lemma print_uint128_decimal_witness :
  ∃ digits,
    Print_uint128 (replicate 40 97) (2 ^ 128 - 1)
    = Some (replicate (39 - length digits) 32 ++ digits)
    ∧ (1 ≤ length digits ≤ 39)%nat
    ∧ Forall digit digits ∧ decimal digits = 2 ^ 128 - 1
    ∧ (2 ^ 128 - 1 ≠ 0 → head digits ≠ Some 48).
Proof.
  apply (print_uint128_decimal (replicate 40 97) (2 ^ 128 - 1)).
  - vm_compute. reflexivity.
  - vm_compute. split; [discriminate|reflexivity].
Defined.

(** X21.  [SquishCSR] on a graph that stores every edge at both
    ends returns an undirected simple graph on the same vertices,
    whose neighbours of a vertex are those it had but itself. *)
Theorem squish_gives_simple g :
  symmetric g →
  undirected_simple (SquishCSR g)
  ∧ num_nodes (SquishCSR g) = num_nodes g
  ∧ ∀ u v, (u < num_nodes g)%nat →
           (v ∈ out_neigh (SquishCSR g) u ↔ v ∈ out_neigh g u ∧ v ≠ u).
Proof.
  intros Hsym. split_and!.
  - by apply SquishFacts.squish_simple.
  - apply SquishFacts.squish_num_nodes.
  - intros u v Hu. by apply SquishFacts.squish_row.
Qed.

Lemma squish_gives_simple_witness :
  undirected_simple (SquishCSR (MakeGraphFromEL paw_edges))
  ∧ num_nodes (SquishCSR (MakeGraphFromEL paw_edges))
    = num_nodes (MakeGraphFromEL paw_edges)
  ∧ ∀ u v, (u < num_nodes (MakeGraphFromEL paw_edges))%nat →
           (v ∈ out_neigh (SquishCSR (MakeGraphFromEL paw_edges)) u
            ↔ v ∈ out_neigh (MakeGraphFromEL paw_edges) u ∧ v ≠ u).
Proof.
  apply (squish_gives_simple (MakeGraphFromEL paw_edges)).
  apply CSRFacts.make_graph_from_el_symmetric.
Defined.

(** X22.  [SquishCSR] changes nothing in an undirected simple
    graph. *)
Theorem squish_fixes_simple g : undirected_simple g → SquishCSR g = g.
Proof. apply SquishFacts.squish_id. Qed.

Lemma squish_fixes_simple_witness : SquishCSR k4 = k4.
Proof.
  apply (squish_fixes_simple k4).
  apply undirected_simple_b_spec. vm_compute. reflexivity.
Defined.

(** X23.  [MakeCSR] on edges whose ids are vertices: the array of
    neighbours has the length that the prefix sums of the counted
    degrees give, the part between the offsets of a vertex holds the
    entries of its row in the order of the edges, and the loop leaves
    every offset at the start of the next row. *)
Theorem make_csr_segments n symmetrize_ transpose el :
  Forall (λ e : Edge, e.1 < n ∧ e.2 < n)%nat el →
  let offsets := PrefixSum (CountDegrees n symmetrize_ transpose el) in
  let r := MakeCSR n symmetrize_ transpose el in
  length r.2 = offsets !!! n
  ∧ ∀ a, (a < n)%nat →
         r.1 !!! a = offsets !!! S a
         ∧ take (offsets !!! S a - offsets !!! a) (drop (offsets !!! a) r.2)
           = row_of symmetrize_ transpose a el.
Proof. apply CSRFacts.make_csr_rows. Qed.

Lemma make_csr_segments_witness :
  let offsets := PrefixSum (CountDegrees 4 true false paw_edges) in
  let r := MakeCSR 4 true false paw_edges in
  length r.2 = offsets !!! 4%nat
  ∧ ∀ a, (a < 4)%nat →
         r.1 !!! a = offsets !!! S a
         ∧ take (offsets !!! S a - offsets !!! a) (drop (offsets !!! a) r.2)
           = row_of true false a paw_edges.
Proof.
  apply (make_csr_segments 4 true false paw_edges).
  unfold paw_edges. repeat constructor; cbn; lia.
Defined.


(** X25.  On ascending neighbour lists the merging scan of the
    heuristic stays inside the list of [biggest_id] exactly when no
    neighbour of [biggest_neigh] is above all of its entries, and it
    then returns the number of common neighbours. *)
Theorem scan_in_bounds g biggest_id biggest_neigh :
  StronglySorted lt (out_neigh g biggest_id) →
  StronglySorted lt (out_neigh g biggest_neigh) →
  intersection_scan g biggest_id biggest_neigh
  = if decide (Forall (λ w, Exists (λ x, w ≤ x)%nat
                                   (out_neigh g biggest_id))
                      (out_neigh g biggest_neigh))
    then Some (length (filter (λ w, w ∈ out_neigh g biggest_id)
                              (out_neigh g biggest_neigh)))
    else None.
Proof. apply ScanFacts.intersection_scan_spec. Qed.

Lemma scan_in_bounds_witness :
  intersection_scan k4 0 1
  = if decide (Forall (λ w, Exists (λ x, w ≤ x)%nat (out_neigh k4 0))
                      (out_neigh k4 1))
    then Some (length (filter (λ w, w ∈ out_neigh k4 0) (out_neigh k4 1)))
    else None.
Proof.
  apply (scan_in_bounds k4 0 1).
  - apply (bool_decide_unpack _). vm_compute. exact I.
  - apply (bool_decide_unpack _). vm_compute. exact I.
Defined.

(** X26.  Where the heuristic is defined on a graph of at most a
    million vertices it returns false, and [Directionalize] returns
    the graph of the degree ordering. *)
Theorem small_graphs_take_degree_order thresh g adv :
  CoreIsAdvantageous g = Some adv → Z.of_nat (num_nodes g) ≤ 1000000 →
  adv = false ∧ Directionalize thresh g = Some (DirectGraphDegree g).
Proof.
  intros Hadv Hn.
  pose proof (ScanFacts.heuristic_small g adv Hadv Hn) as ->.
  split; [done|]. unfold Directionalize. by rewrite Hadv.
Qed.

Lemma small_graphs_take_degree_order_witness :
  false = false ∧ Directionalize half_avg k4 = Some (DirectGraphDegree k4).
Proof.
  apply (small_graphs_take_degree_order half_avg k4 false).
  - vm_compute. reflexivity.
  - vm_compute. discriminate.
Defined.

(** X27.  The call of the fixed-size counter for a root whose
    out-neighbours are pairwise adjacent returns what the cache gives
    for the choice of [k - 1] among them, whatever their number. *)
Theorem clique_root_value g before (k : nat) u c sg :
  undirected_simple g → strict_total before → Z.of_nat k < 2 ^ 31 →
  (u < num_nodes g)%nat → (1 ≤ k)%nat →
  (∀ x y, (x < out_degree (DirectGraphByFunc g before) u)%nat →
          (y < out_degree (DirectGraphByFunc g before) u)%nat → x ≠ y →
          adjacent g (out_neigh (DirectGraphByFunc g before) u !!! x)
                     (out_neigh (DirectGraphByFunc g before) u !!! y)
          = true) →
  ∃ sg',
    PivotScale.root_step n_choose_k_memo (DirectGraphByFunc g before)
                         (Z.of_nat k) (Some (c, sg)) u
    = Some (wrap (c + n_choose_k n_choose_k_memo
                        (Z.of_nat (out_degree (DirectGraphByFunc g before) u))
                        (Z.of_nat (k - 1))),
            sg').
Proof.
  intros Hg Hst Hk Hu H1 Hadj.
  by apply (RootShapes.root_clique_value g before Hg Hst k Hk).
Qed.

Lemma clique_root_value_witness :
  ∃ sg',
    PivotScale.root_step n_choose_k_memo
      (DirectGraphByFunc k4 (GreaterDegreeOrID k4)) (Z.of_nat 3)
      (Some (0, init)) 0
    = Some (wrap (0 + n_choose_k n_choose_k_memo
                        (Z.of_nat (out_degree
                           (DirectGraphByFunc k4 (GreaterDegreeOrID k4)) 0))
                        (Z.of_nat (3 - 1))),
            sg').
Proof.
  apply (clique_root_value k4 (GreaterDegreeOrID k4) 3 0 0 init).
  - apply undirected_simple_b_spec. vm_compute. reflexivity.
  - apply GreaterDegreeOrID_strict_total.
  - vm_compute. reflexivity.
  - vm_compute. lia.
  - lia.
  - assert (out_degree (DirectGraphByFunc k4 (GreaterDegreeOrID k4)) 0
            = 3%nat) as -> by (vm_compute; reflexivity).
    intros [|[|[|x]]] [|[|[|y]]] Hx Hy Hxy; try lia;
      vm_compute; reflexivity.
Defined.

(** X28.  The call of the sweep counter for a root whose
    out-neighbours are pairwise adjacent is one base case with the
    out-neighbours as its pivots, whatever their number. *)
Theorem sweep_clique_root g before memo (max_k : nat) u counts sg :
  undirected_simple g → strict_total before → (1 < max_k)%nat →
  (u < num_nodes g)%nat →
  (∀ x y, (x < out_degree (DirectGraphByFunc g before) u)%nat →
          (y < out_degree (DirectGraphByFunc g before) u)%nat → x ≠ y →
          adjacent g (out_neigh (DirectGraphByFunc g before) u !!! x)
                     (out_neigh (DirectGraphByFunc g before) u !!! y)
          = true) →
  ∃ sg',
    Sweep.root_step memo (DirectGraphByFunc g before) (Z.of_nat max_k)
                    (Some (counts, sg)) u
    = Some (Sweep.base_case memo (Z.of_nat max_k) 1
              (Z.of_nat (out_degree (DirectGraphByFunc g before) u)) counts,
            sg').
Proof.
  intros Hg Hst Hk Hu Hadj.
  by apply (SweepShapes.sweep_root_clique g before Hg Hst memo max_k Hk).
Qed.

Lemma sweep_clique_root_witness :
  ∃ sg',
    Sweep.root_step n_choose_k_memo
      (DirectGraphByFunc k4 (GreaterDegreeOrID k4)) (Z.of_nat 4)
      (Some (replicate 5 0, init)) 0
    = Some (Sweep.base_case n_choose_k_memo (Z.of_nat 4) 1
              (Z.of_nat (out_degree
                 (DirectGraphByFunc k4 (GreaterDegreeOrID k4)) 0))
              (replicate 5 0),
            sg').
Proof.
  apply (sweep_clique_root k4 (GreaterDegreeOrID k4) n_choose_k_memo 4 0
           (replicate 5 0) init).
  - apply undirected_simple_b_spec. vm_compute. reflexivity.
  - apply GreaterDegreeOrID_strict_total.
  - lia.
  - vm_compute. lia.
  - assert (out_degree (DirectGraphByFunc k4 (GreaterDegreeOrID k4)) 0
            = 3%nat) as -> by (vm_compute; reflexivity).
    intros [|[|[|x]]] [|[|[|y]]] Hx Hy Hxy; try lia;
      vm_compute; reflexivity.
Defined.

(** X29.  [FindMaxDegree] bounds every out-degree, and on a graph
    with a vertex it is the out-degree of one. *)
Theorem max_degree_is_max g :
  (∀ u, (out_degree g u ≤ FindMaxDegree g)%nat)
  ∧ (num_nodes g ≠ 0%nat →
     ∃ u, (u < num_nodes g)%nat ∧ out_degree g u = FindMaxDegree g).
Proof.
  split; [apply find_max_degree_ub|apply find_max_degree_attained].
Qed.

End Extras.
